(* ===== verification/_CoqProject ===== *)
-Q . S2P
Prelude.v
RustStd.v
StdNet.v
Hickory.v
RecordKey.v
Cache.v
CacheSpec.v
Timing.v
Os.v
Effects.v
Iface.v
Config.v
Services.v
State.v
Repeater.v
Responder.v
Browser.v
Engine.v
System.v
Tasks.v
Relay.v
Main.v
UnitTests.v
