(* ===== verification/Prelude.v ===== *)
(** * nmdns: a verification library

    nmdns ([src/src/*.rs]) is a multicast DNS daemon for routers: it answers
    queries for its own host and services, caches the records it hears, answers
    from that cache for hosts on other interfaces, and repeats datagrams between
    interfaces.  This library models the daemon from the configuration file to
    the bytes it hands to the sockets, and proves that it does what RFC 6762 and
    its own documentation ask of it.

    ** The program and its model

    One process; a receive loop that spawns a handler task per datagram (at most
    256), a sweep of the caches, a browser that sends queries, a signal watcher;
    all share the configuration, the interfaces, the record cache, the multicast
    rate limiter and a shutdown token.

    - [Prelude]: this file.  [Result], iterator adaptors, machine integers, the
      boolean-to-proposition tactics, the hint database [nmdns].
    - [RustStd]: [Duration] and [Instant] as nanoseconds in [Z], [HashMap] as an
      association list up to key equivalence whose iteration order is any
      permutation (class [HashIter]).
    - [StdNet]: [std::net] addresses as integers with their parsers, and a printer
      for the round trips.
    - [Hickory]: the interface of the [hickory-proto] crate, which is not part of
      the repository: types and functions are the classes [HickoryTypes] and
      [Hickory] with the documented behaviour as laws; [Sample] is an instance on
      which witnesses compute.
    - [RecordKey] ([record_key.rs]), [Cache] ([cache.rs]), [Timing] ([timing.rs]):
      the state behind each mutex is a record or map; every method is a function
      of that state and of the clock readings it takes.
    - [Os]: the system calls as a class; a socket is the list of calls that
      configured it.
    - [Effects]: the [async] functions are finite trees of actions (clock, random
      numbers, sleep, send, one critical section of the cache or the rate
      limiter).  [traces] gives all behaviours under arbitrary answers of the
      environment, so what is proved of traces holds whatever other tasks do in
      between; [run] executes a program alone and computes.
    - [Iface] ([iface.rs]), [Config] ([config.rs]), [Services] ([services.rs]),
      [State] ([state.rs]), [Repeater] ([repeater.rs]), [Responder]
      ([responder.rs]), [Browser] ([browser.rs]), [Engine] ([engine.rs],
      [exit_code.rs]), [Main] ([main.rs]): the components, definition by
      definition; a definition has the name of the function it models, and the
      loops and closures of a function are definitions of their own next to it.
    - [CacheSpec]: the abstract cache (a partial map from keys to entries) and the
      simulation that [Cache] implements it.
    - [System] ([engine.rs], [run], [signal_watcher], [cache_evictor] and
      [main_loop]): all tasks together as a step relation with an arbitrary
      scheduler, from the startup sequence to the drain at exit.  A task carries
      the events it has performed, the shared state the history of the rate limiter
      and the datagrams that were given to a handler.
    - [Tasks]: the tasks of [System] related back to their programs; what the
      handlers send, how much, where it comes from, and how long they take.
    - [Relay]: the cross-interface service end to end.
    - [UnitTests]: the [#[test]] functions of the sources as boolean definitions on
      the instance [Sample].

    ** What the theorems show

    - Whole daemon ([System]): under every scheduling and every sequence of
      datagrams the cache invariant holds, at most 256 handlers are in flight and
      none panics ([system_invariant]); successive grants of the rate limiter are
      apart by their interval, up to the time a task spends between its reading of
      the clock and the lock ([system_rate_limit]); the daemon exits only after
      cancellation, with its goodbyes sent and its tasks drained, and can always be
      shut down if its signal handlers could be registered ([system_can_exit]).
    - Handlers in the whole daemon ([Tasks]): a datagram a handler sends is its own
      datagram repeated or a response all of whose records the shared rate limiter
      granted ([handler_sends_backed]); each of these records is ours or was received
      on another interface ([response_records_learned]); at most one datagram goes
      out on each interface for one that came in ([handler_amplification]); handlers
      pause at most 500 ms and can finish within that time ([handlers_terminate]).
    - Datagrams ([Engine]): which datagrams have effects ([handle_datagram_gate])
      and which effects ([handle_datagram_effects]); exit codes of the startup
      phases ([startup_spec]); what [--check] guarantees
      ([Main.check_guarantees]).
    - Queries ([Responder]): content, destination and rate limiting of a response
      ([handle_query_response], [handle_query_grants_sent]), its delay
      ([handle_query_delay]), candidate answers and additionals
      ([candidate_answers_spec], [cached_additionals_spec]), known-answer
      suppression ([apply_known_answers_spec]); probes, announcements and goodbyes
      ([probe_all_spec], [announce_all_spec], [announce_goodbye_spec]); a record
      learned on one link answers later queries on another
      ([Relay.learn_then_answer]).
    - Cache: reachable states are consistent ([cache_reachable_inv]); every run of
      inserts, sweeps and lookups is a run of the abstract cache
      ([CacheSpec.cache_refines_spec]); further theorems on each branch.
    - Rate limiter ([Timing]): one decision ([check_and_mark_spec]), equivalence of
      the swept tracker with one that is never swept for checks that do not use a
      reading older than a sweep ([sweep_unobservable]), the ranges of the random
      delays; two lemmas of [TimingSample] show what an old reading can do.
    - Configuration, services, interfaces, repeater, browser: functional
      specifications, subnet arithmetic at its bit width, round trips of the
      subnet syntax, the query schedule without overflow.
    - As a check of the model itself, it passes the unit tests of the repository
      ([UnitTests.unit_tests_hold]).

    Each file ends with its properties (marked C<n>) and a module [...Sample] that
    evaluates them on a concrete input.

    ** Bounds and fuel

    Integers are in [Z] with the width of the source written out where it matters
    ([as_u32], saturating operations, the shift amount of [ipv6_net] taken modulo
    128 as in a release build).  All handlers are finite trees, so they terminate
    without fuel.  The browser loops forever; [run_browser n] is its first [n]
    rounds, the theorems hold for every [n], and [System] runs the rounds as a
    looping task without bound.  The pauses of a task last at least as long as
    asked; when a tick of the sweep's timer comes is up to the environment
    ([Effects.ATick]), so nothing that is proved depends on its schedule.

    ** Not modelled

    The log lines other than those of [log_query] and [log_response] (what they
    index is); the schedule of the interval timer, which is code of [tokio]; the texts
    printed by the command line; the parsing of TOML text, of the command line and
    of DNS messages (parameters with laws where needed); the delivery of signals (a
    signal is a step of [System]); poisoned mutexes (no critical section panics);
    platforms other than Linux; the one ignored unit test and the integration tests.

    ** Next

    The integration tests; encoding limits of [Message]; how old the reading of a
    check can be under a fair scheduler. *)

From stdpp Require Export prelude list.
From Stdlib Require Export ZArith Lia.
From Stdlib Require Import Permutation.

#[global] Open Scope Z_scope.

(** ** Notation

    [rust_scope] holds the spelling of Rust's [==] on types whose [PartialEq]
    may be coarser than structural equality (a DNS name compares without
    regard to case): the relation is stdpp's [≡] and the test is its decision. *)

Declare Scope rust_scope.
Delimit Scope rust_scope with rust.
Notation "a == b" := (bool_decide (a ≡ b)) (at level 70, no associativity) : rust_scope.
Notation "a ==? b" := (bool_decide (a = b)) (at level 70, no associativity) : rust_scope.
#[global] Open Scope rust_scope.

(** ** [Result] *)

Inductive result (E A : Type) : Type :=
| Ok (a : A)
| Err (e : E).
Arguments Ok {E A} a.
Arguments Err {E A} e.

#[export] Instance result_bind {E} : MBind (result E) := λ A B f r,
  match r with Ok a => f a | Err e => Err e end.
#[export] Instance result_ret {E} : MRet (result E) := λ A, Ok.
#[export] Instance result_fmap {E} : FMap (result E) := λ A B f r,
  match r with Ok a => Ok (f a) | Err e => Err e end.

Definition map_err {E F A} (f : E → F) (r : result E A) : result F A :=
  match r with Ok a => Ok a | Err e => Err (f e) end.

Definition ok {E A} (r : result E A) : option A :=
  match r with Ok a => Some a | Err _ => None end.

Definition is_ok {E A} (r : result E A) : bool :=
  match r with Ok _ => true | Err _ => false end.

Definition ok_or {E A} (o : option A) (e : E) : result E A :=
  match o with Some a => Ok a | None => Err e end.

(** [iter().map(f).collect::<Result<Vec<_>, _>>()]: stops at the first error. *)
Fixpoint collect_result {E A B} (f : A → result E B) (l : list A) : result E (list B) :=
  match l with
  | [] => Ok []
  | x :: l => match f x with
              | Err e => Err e
              | Ok y => match collect_result f l with
                        | Err e => Err e
                        | Ok ys => Ok (y :: ys)
                        end
              end
  end.

Lemma collect_result_ok {E A B} (f : A → result E B) l ys :
  collect_result f l = Ok ys ↔ Forall2 (λ x y, f x = Ok y) l ys.
Proof.
  revert ys; induction l as [|x l IH]; intros ys; simpl.
  - split; [intros [= <-]; constructor | by inversion 1].
  - split.
    + destruct (f x) eqn:Hx; [|done].
      destruct (collect_result f l) eqn:Hl; [|done].
      intros [= <-]. constructor; [done|]. by apply IH.
    + inversion 1 as [|? y ? ys' Hy Hys]; subst.
      rewrite Hy. by rewrite (proj2 (IH ys') Hys).
Qed.

Lemma collect_result_err {E A B} (f : A → result E B) l e :
  collect_result f l = Err e ↔
  ∃ l1 x l2, l = l1 ++ x :: l2 ∧ f x = Err e ∧ Forall (λ y, is_ok (f y) = true) l1.
Proof.
  induction l as [|x l IH]; simpl.
  - split; [done|]. intros (l1 & x & l2 & H & _). by destruct l1.
  - destruct (f x) as [y|e'] eqn:Hx.
    + split.
      * destruct (collect_result f l) as [ys|e''] eqn:Hl; [done|]. intros [= ->].
        destruct (proj1 IH eq_refl) as (l1 & z & l2 & -> & Hz & Hl1).
        exists (x :: l1), z, l2. repeat split; [done|].
        constructor; [by rewrite Hx | done].
      * intros ([|x' l1] & z & l2 & Heq & Hz & Hl1); simplify_eq/=; [congruence|].
        inversion Hl1; subst.
        assert (Hl : collect_result f (l1 ++ z :: l2) = Err e) by (apply IH; eauto 10).
        by rewrite Hl.
    + split.
      * intros [= ->]. exists [], x, l. by repeat split.
      * intros ([|x' l1] & z & l2 & Heq & Hz & Hl1); simplify_eq/=; [congruence|].
        inversion Hl1 as [|? ? Hc]; subst. by rewrite Hx in Hc.
Qed.

(** ** Iterator adaptors on [Vec] *)

(** [iter().position(p)]. *)
Fixpoint position {A} (p : A → bool) (l : list A) : option nat :=
  match l with
  | [] => None
  | x :: l => if p x then Some 0%nat else S <$> position p l
  end.

Lemma position_Some {A} (p : A → bool) l i :
  position p l = Some i ↔
  (∃ x, l !! i = Some x ∧ p x = true) ∧
  (∀ j y, (j < i)%nat → l !! j = Some y → p y = false).
Proof.
  revert i; induction l as [|x l IH]; intros i; simpl.
  - split; [done|]. by intros [(? & ? & _) _].
  - destruct (p x) eqn:Hp.
    + split.
      * intros [= <-]. split; [by exists x|]. intros; lia.
      * intros [(y & Hy & Hpy) Hmin]. destruct i as [|i]; [done|].
        specialize (Hmin 0%nat x ltac:(lia) eq_refl). congruence.
    + split.
      * destruct (position p l) as [k|] eqn:Hk; [|done]. intros [= <-].
        destruct (proj1 (IH k) eq_refl) as [Hex Hmin]. split; [done|].
        intros [|j] y Hj Hy; simplify_eq/=; [done|]. apply (Hmin j y); [lia|done].
      * intros [(y & Hy & Hpy) Hmin]. destruct i as [|i]; simplify_eq/=; [congruence|].
        rewrite (proj2 (IH i)); [done|]. split; [by exists y|].
        intros j z Hj Hz. apply (Hmin (S j) z); [lia|done].
Qed.

Lemma position_None {A} (p : A → bool) l :
  position p l = None ↔ ∀ x, In x l → p x = false.
Proof.
  induction l as [|x l IH]; simpl; [naive_solver|].
  destruct (p x) eqn:Hp; simpl.
  - split; [done|]. intros H. specialize (H x (or_introl eq_refl)). congruence.
  - rewrite fmap_None, IH. naive_solver.
Qed.

Lemma position_lt {A} (p : A → bool) l i : position p l = Some i → (i < length l)%nat.
Proof.
  intros [(x & Hx & _) _]%position_Some. by eapply lookup_lt_Some.
Qed.

(** [iter().filter_map(f)]. *)
Fixpoint iter_filter_map {A B} (f : A → option B) (l : list A) : list B :=
  match l with
  | [] => []
  | x :: l => match f x with Some y => y :: iter_filter_map f l | None => iter_filter_map f l end
  end.

Lemma in_iter_filter_map {A B} (f : A → option B) l y :
  In y (iter_filter_map f l) ↔ ∃ x, In x l ∧ f x = Some y.
Proof.
  induction l as [|x l IH]; simpl; [naive_solver|].
  destruct (f x) eqn:Hx; simpl; rewrite IH; naive_solver.
Qed.

Lemma iter_filter_map_perm {A B} (f : A → option B) l l' :
  l ≡ₚ l' → iter_filter_map f l ≡ₚ iter_filter_map f l'.
Proof.
  induction 1 as [|x l l' _ IH|x y l|l1 l2 l3 _ IH1 _ IH2]; simpl; [done|..].
  - destruct (f x); [by constructor|done].
  - destruct (f x), (f y); try done; constructor.
  - by etrans.
Qed.

Lemma bfilter_perm {A} (p : A → bool) l l' :
  l ≡ₚ l' → List.filter p l ≡ₚ List.filter p l'.
Proof.
  induction 1 as [|x l l' _ IH|x y l|l1 l2 l3 _ IH1 _ IH2]; simpl; [done|..].
  - destruct (p x); [by constructor|done].
  - destruct (p x), (p y); try done; constructor.
  - by etrans.
Qed.

#[export] Instance iter_filter_map_Proper {A B} (f : A → option B) :
  Proper ((≡ₚ) ==> (≡ₚ)) (iter_filter_map f).
Proof. intros l l'. apply iter_filter_map_perm. Qed.

#[export] Instance bfilter_Proper {A} (p : A → bool) :
  Proper ((≡ₚ) ==> (≡ₚ)) (List.filter p).
Proof. intros l l'. apply bfilter_perm. Qed.

#[export] Instance map_Proper_perm {A B} (f : A → B) : Proper ((≡ₚ) ==> (≡ₚ)) (map f).
Proof. intros l l'. apply Permutation_map. Qed.

(** [iter().min_by_key(f)]: the first element whose key is minimal. *)
Fixpoint min_by_key {A} (f : A → Z) (l : list A) : option A :=
  match l with
  | [] => None
  | x :: l => match min_by_key f l with
              | Some y => if Z.leb (f x) (f y) then Some x else Some y
              | None => Some x
              end
  end.

Lemma min_by_key_None {A} (f : A → Z) l : min_by_key f l = None ↔ l = [].
Proof. destruct l; simpl; [done|]. repeat case_match; naive_solver. Qed.

Lemma min_by_key_Some {A} (f : A → Z) l x :
  min_by_key f l = Some x → In x l ∧ ∀ y, In y l → f x ≤ f y.
Proof.
  revert x; induction l as [|a l IH]; intros x; simpl; [done|].
  destruct (min_by_key f l) as [b|] eqn:Hb.
  - destruct (IH b eq_refl) as [Hin Hmin]. destruct (Z.leb_spec (f a) (f b)).
    + intros [= <-]. split; [by left|]. intros y [->|Hy]; [lia|].
      specialize (Hmin y Hy). lia.
    + intros [= <-]. split; [by right|]. intros y [->|Hy]; [lia|auto].
  - apply min_by_key_None in Hb as ->. intros [= <-]. split; [by left|].
    intros y [->|[]]. lia.
Qed.

(** ** Machine integers *)

Definition u8_MAX : Z := 255.
Definition u16_MAX : Z := 65535.
Definition u32_MAX : Z := 4294967295.
Definition u64_MAX : Z := 18446744073709551615.
Definition u128_MAX : Z := 340282366920938463463374607431768211455.

Definition u32_saturating_mul (a b : Z) : Z := Z.min (a * b) u32_MAX.
Definition u64_saturating_add (a b : Z) : Z := Z.min (a + b) u64_MAX.

(** [v as u32], [v as u8]: truncation to the low bits. *)
Definition as_u32 (v : Z) : Z := v mod 2 ^ 32.
Definition as_u8 (v : Z) : Z := v mod 2 ^ 8.

Lemma as_u32_small v : 0 ≤ v ≤ u32_MAX → as_u32 v = v.
Proof. intros H. unfold as_u32, u32_MAX in *. apply Z.mod_small. lia. Qed.

Lemma as_u8_small v : 0 ≤ v ≤ u8_MAX → as_u8 v = v.
Proof. intros H. unfold as_u8, u8_MAX in *. apply Z.mod_small. lia. Qed.

(** ** Automation

    [nmdns] collects the lemmas that close the routine side conditions of the
    components; [bool_to_prop] turns boolean tests of the code into the
    propositions they decide. *)

Create HintDb nmdns.

Ltac bool_to_prop :=
  repeat match goal with
  | H : _ && _ = true |- _ => apply andb_true_iff in H as [? ?]
  | H : _ || _ = false |- _ => apply orb_false_iff in H as [? ?]
  | H : negb _ = true |- _ => apply negb_true_iff in H
  | H : negb _ = false |- _ => apply negb_false_iff in H
  | H : bool_decide _ = true |- _ => apply bool_decide_eq_true in H
  | H : bool_decide _ = false |- _ => apply bool_decide_eq_false in H
  | H : Z.eqb _ _ = true |- _ => apply Z.eqb_eq in H
  | H : Z.eqb _ _ = false |- _ => apply Z.eqb_neq in H
  | H : Z.ltb _ _ = true |- _ => apply Z.ltb_lt in H
  | H : Z.ltb _ _ = false |- _ => apply Z.ltb_ge in H
  | H : Z.leb _ _ = true |- _ => apply Z.leb_le in H
  | H : Z.leb _ _ = false |- _ => apply Z.leb_gt in H
  end.

(** Case analysis on the tests of the code, discarding the impossible ones. *)
Ltac cases :=
  repeat (case_match; simplify_eq/=; try done).

Lemma in_if {A} (b : bool) (l : list A) x : In x (if b then l else []) ↔ b = true ∧ In x l.
Proof. destruct b; simpl; naive_solver. Qed.

Lemma in_if1 {A} (b : bool) (y x : A) : In x (if b then [y] else []) ↔ b = true ∧ x = y.
Proof. destruct b; simpl; naive_solver. Qed.

Lemma existsb_false {A} (p : A → bool) l :
  existsb p l = false ↔ ∀ x, In x l → p x = false.
Proof.
  rewrite <- not_true_iff_false, existsb_exists. split.
  - intros H x Hx. apply not_true_iff_false. eauto.
  - intros H (x & Hx & Hp). rewrite (H x Hx) in Hp. done.
Qed.

Lemma bool_decide_iff (P Q : Prop) `{Decision P, Decision Q} :
  (P ↔ Q) → bool_decide P = bool_decide Q.
Proof. intros H1. by apply bool_decide_ext. Qed.
