(* ===== verification/RustStd.v ===== *)
(** * RustStd: the parts of Rust's standard library the sources use

    - [Duration] and [Instant] ([std::time]) as nanosecond counts, with the
      saturating and checked operations the code calls.
    - [HashMap] ([std::collections]) as an association list whose keys are
      compared with the key type's [Eq] (stdpp's [≡], which may be coarser
      than [=]); the visiting order of an iteration is not specified, so it
      is a parameter ([HashIter]). *)

From S2P Require Import Prelude.
From Stdlib Require Import Permutation.

(** ** [std::time::Duration] and [std::time::Instant]

    A [Duration] is its number of nanoseconds, between 0 and [Duration_MAX]
    ([u64::MAX] seconds and 999_999_999 nanoseconds).  An [Instant] is the
    reading of the monotonic clock in nanoseconds since an arbitrary origin. *)

Definition Duration : Type := Z.
Definition Instant : Type := Z.

Definition NANOS_PER_SEC : Z := 1000000000.
Definition NANOS_PER_MILLI : Z := 1000000.
Definition Duration_MAX : Z := u64_MAX * NANOS_PER_SEC + 999999999.

Module Duration.
Definition from_secs (s : Z) : Z := s * NANOS_PER_SEC.
Definition from_millis (ms : Z) : Z := ms * NANOS_PER_MILLI.
Definition as_secs (d : Z) : Z := d / NANOS_PER_SEC.
Definition as_millis (d : Z) : Z := d / NANOS_PER_MILLI.
Definition subsec_nanos (d : Z) : Z := d mod NANOS_PER_SEC.
Definition is_zero (d : Z) : bool := d =? 0.
Definition saturating_mul (d n : Z) : Z := Z.min (d * n) Duration_MAX.
End Duration.

Module Instant.
Definition add (t d : Z) : Z := t + d.
(** [checked_duration_since]: [None] when [earlier] is later than [t]. *)
Definition checked_duration_since (t earlier : Z) : option Z :=
  if earlier <=? t then Some (t - earlier) else None.
(** [duration_since] saturates to zero when [earlier] is later than [t]. *)
Definition duration_since (t earlier : Z) : Z := Z.max 0 (t - earlier).
End Instant.

(** ** [std::collections::HashMap] *)

(** A visiting order for hash-table iteration: any permutation. *)
Class HashIter := {
  hash_iter : ∀ {A : Type}, list A → list A;
  hash_iter_perm : ∀ {A : Type} (l : list A), hash_iter l ≡ₚ l;
}.

#[export] Instance HashIter_id : HashIter | 100 :=
  {| hash_iter := λ _ l, l; hash_iter_perm := λ _ l, reflexivity l |}.

Definition HashMap (K V : Type) : Type := list (K * V).

Module HashMap.
Section ops.
Context {K V : Type} `{Equiv K, !Equivalence (≡@{K}), !RelDecision (≡@{K})}.
Implicit Types (k : K) (v : V) (m : HashMap K V).

Definition empty : HashMap K V := [].
Definition len m : nat := length m.

(** The stored pair whose key equals [k] ([get_key_value]). *)
Fixpoint find k m : option (K * V) :=
  match m with
  | [] => None
  | (k', v) :: m => if decide (k ≡ k') then Some (k', v) else find k m
  end.

Definition get k m : option V := snd <$> find k m.

(** [retain(f)] keeps the pairs [f] accepts. *)
Definition retain (f : K → V → bool) m : HashMap K V :=
  List.filter (λ p, f p.1 p.2) m.

Definition remove k m : HashMap K V :=
  List.filter (λ p, negb (k == p.1)) m.

(** [insert]: an existing key is kept and its value replaced. *)
Fixpoint insert k v m : HashMap K V :=
  match m with
  | [] => [(k, v)]
  | (k', v') :: m => if decide (k ≡ k') then (k', v) :: m
                     else (k', v') :: insert k v m
  end.

(** No two stored keys are equal. *)
Fixpoint wf m : Prop :=
  match m with
  | [] => True
  | (k, _) :: m => find k m = None ∧ wf m
  end.

#[export] Instance find_proper : Proper ((≡) ==> (=) ==> (=)) find.
Proof.
  intros k1 k2 Hk m ? <-. induction m as [|[k' v] m IH]; simpl; [done|].
  destruct (decide (k1 ≡ k')) as [H1|H1], (decide (k2 ≡ k')) as [H2|H2]; try done.
  - destruct H2. by rewrite <- Hk.
  - destruct H1. by rewrite Hk.
Qed.

Lemma get_proper k1 k2 m : k1 ≡ k2 → get k1 m = get k2 m.
Proof. intros Hk. unfold get. by rewrite (find_proper k1 k2 Hk m m eq_refl). Qed.

Lemma find_Some k m p : find k m = Some p → In p m ∧ k ≡ p.1.
Proof.
  induction m as [|[k' v] m IH]; simpl; [done|]. case_decide.
  - intros [= <-]. auto.
  - intros Hp. destruct (IH Hp). auto.
Qed.

Lemma find_None k m : find k m = None ↔ ∀ p, In p m → ¬ k ≡ p.1.
Proof.
  induction m as [|[k' v] m IH]; simpl; [naive_solver|]. case_decide.
  - split; [done|]. intros Hn. destruct (Hn (k', v)); auto.
  - rewrite IH. naive_solver.
Qed.

Lemma find_is_Some k m : (∃ p, In p m ∧ k ≡ p.1) → is_Some (find k m).
Proof.
  intros (p & Hin & Hk). destruct (find k m) eqn:Hf; [eauto|].
  by destruct (proj1 (find_None k m) Hf p Hin).
Qed.

Lemma find_in_wf k m p : wf m → In p m → k ≡ p.1 → find k m = Some p.
Proof.
  induction m as [|[k' v] m IH]; simpl; [done|]. intros [Hn Hwf] [<-|Hin] Hk.
  - by rewrite decide_True.
  - rewrite decide_False; [by apply IH|]. intros Hk'.
    apply (proj1 (find_None k' m) Hn p Hin). by rewrite <- Hk'.
Qed.

Lemma get_in k m v : get k m = Some v → ∃ k', In (k', v) m ∧ k ≡ k'.
Proof.
  unfold get. destruct (find k m) as [[k' v']|] eqn:Hf; [|done].
  intros [= <-]. apply find_Some in Hf as [? ?]. eauto.
Qed.

Lemma get_in_wf k k' v m : wf m → In (k', v) m → k ≡ k' → get k m = Some v.
Proof. intros Hwf Hin Hk. unfold get. by rewrite (find_in_wf k m (k', v)). Qed.

Lemma find_filter_None k m (f : K * V → bool) :
  find k m = None → find k (List.filter f m) = None.
Proof. rewrite !find_None. intros Hn p [Hp _]%filter_In. eauto. Qed.

Lemma find_filter k m (f : K * V → bool) :
  wf m →
  find k (List.filter f m) =
    match find k m with Some p => if f p then Some p else None | None => None end.
Proof.
  induction m as [|[k' v] m IH]; [done|]. intros [Hn Hwf].
  simpl. destruct (f (k', v)) eqn:Hf; simpl; case_decide as Hk.
  - by rewrite Hf.
  - by apply IH.
  - rewrite Hf. apply find_filter_None.
    by rewrite (find_proper k k' Hk m m eq_refl).
  - by apply IH.
Qed.

Lemma wf_filter m (f : K * V → bool) : wf m → wf (List.filter f m).
Proof.
  induction m as [|[k v] m IH]; [done|]. intros [Hn Hwf]. simpl.
  destruct (f (k, v)); simpl; auto using find_filter_None.
Qed.

Lemma wf_retain f m : wf m → wf (retain f m).
Proof. apply wf_filter. Qed.

Lemma wf_remove k m : wf m → wf (remove k m).
Proof. apply wf_filter. Qed.

Lemma get_retain k m f :
  wf m →
  find k (retain f m) =
    match find k m with
    | Some p => if f p.1 p.2 then Some p else None
    | None => None
    end.
Proof. apply (find_filter k m (λ p, f p.1 p.2)). Qed.

Lemma find_remove_eq k k' m : k ≡ k' → find k (remove k' m) = None.
Proof.
  intros Hk. apply find_None. intros p [_ Hp]%filter_In Hkp.
  apply negb_true_iff, bool_decide_eq_false in Hp. apply Hp. by rewrite <- Hk.
Qed.

Lemma find_remove_ne k k' m : ¬ k ≡ k' → find k (remove k' m) = find k m.
Proof.
  intros Hk. induction m as [|[k1 v1] m IH]; [done|]. simpl.
  destruct (decide (k' ≡ k1)) as [H1|H1].
  - rewrite bool_decide_eq_true_2 by done. simpl. rewrite IH.
    rewrite decide_False; [done|]. intros H2. apply Hk. by rewrite H2.
  - rewrite bool_decide_eq_false_2 by done. simpl. by rewrite IH.
Qed.

Lemma find_insert_eq k k' v m : k ≡ k' → snd <$> find k (insert k' v m) = Some v.
Proof.
  intros Hk. induction m as [|[k1 v1] m IH]; simpl.
  - by rewrite decide_True.
  - destruct (decide (k' ≡ k1)) as [H1|H1]; simpl.
    + rewrite decide_True; [done|]. by rewrite Hk.
    + rewrite decide_False; [done|]. intros H2. apply H1. by rewrite <- Hk.
Qed.

Lemma find_insert_ne k k' v m : ¬ k ≡ k' → find k (insert k' v m) = find k m.
Proof.
  intros Hk. induction m as [|[k1 v1] m IH]; simpl.
  - by rewrite decide_False.
  - destruct (decide (k' ≡ k1)) as [H1|H1]; simpl; [|by rewrite IH].
    rewrite !decide_False; [done|..]; intros H2; apply Hk; by rewrite H2.
Qed.

Lemma get_insert k k' v m :
  get k (insert k' v m) = if decide (k ≡ k') then Some v else get k m.
Proof.
  unfold get. case_decide; [by apply find_insert_eq | by rewrite find_insert_ne].
Qed.

Lemma get_remove k k' m :
  get k (remove k' m) = if decide (k ≡ k') then None else get k m.
Proof.
  unfold get. case_decide; [by rewrite find_remove_eq | by rewrite find_remove_ne].
Qed.

Lemma wf_insert k v m : wf m → wf (insert k v m).
Proof.
  induction m as [|[k1 v1] m IH]; simpl; [done|]. intros [Hn Hwf].
  case_decide as Hk; simpl; [done|]. split; [|by apply IH].
  rewrite find_insert_ne; [done|]. intros ?. by apply Hk.
Qed.

Lemma in_insert p k v m :
  In p (insert k v m) → (p.2 = v ∧ p.1 ≡ k) ∨ In p m.
Proof.
  induction m as [|[k1 v1] m IH]; simpl.
  - intros [<-|[]]. by left.
  - case_decide; simpl; intros [<-|Hin]; auto.
    destruct (IH Hin); auto.
Qed.

Lemma in_remove p k m : In p (remove k m) ↔ In p m ∧ ¬ k ≡ p.1.
Proof.
  unfold remove. rewrite filter_In, negb_true_iff, bool_decide_eq_false. done.
Qed.

Lemma in_retain p f m : In p (retain f m) ↔ In p m ∧ f p.1 p.2 = true.
Proof. unfold retain. by rewrite filter_In. Qed.

Lemma len_insert k v m :
  len (insert k v m) = if decide (is_Some (find k m)) then len m else S (len m).
Proof.
  unfold len. induction m as [|[k1 v1] m IH]; simpl; [done|].
  - destruct (decide (k ≡ k1)); simpl; [done|].
    rewrite IH. by repeat case_decide.
Qed.

Lemma len_retain_le f m : (len (retain f m) ≤ len m)%nat.
Proof. apply filter_length_le. Qed.

Lemma remove_fresh k m : find k m = None → remove k m = m.
Proof.
  rewrite find_None. intros Hn. induction m as [|p m IH]; simpl; [done|].
  rewrite bool_decide_eq_false_2 by (apply Hn; by left). simpl.
  rewrite IH; [done|]. intros q Hq. apply Hn. by right.
Qed.

Lemma len_remove k m :
  wf m → len m = ((if decide (is_Some (find k m)) then 1 else 0) + len (remove k m))%nat.
Proof.
  unfold len. induction m as [|[k1 v1] m IH]; simpl; [done|].
  - intros [Hn Hwf]. destruct (decide (k ≡ k1)) as [Hk|Hk].
    + rewrite bool_decide_eq_true_2 by done. simpl.
      fold (remove k m). rewrite remove_fresh; [done|].
      by rewrite (find_proper k k1 Hk m m eq_refl).
    + rewrite bool_decide_eq_false_2 by done. simpl.
      specialize (IH Hwf). fold (remove k m) in *. repeat case_decide; lia.
Qed.
End ops.
End HashMap.

#[export] Hint Resolve HashMap.wf_insert HashMap.wf_remove HashMap.wf_retain : nmdns.
