(* ===== verification/StdNet.v ===== *)
(** * StdNet: [std::net] addresses and the standard text parsers

    - [Ipv4Addr] and [Ipv6Addr] as the unsigned integers that [u32::from] and
      [u128::from] give, [IpAddr] and [SocketAddr] as the standard enums.
    - [u32::from_str], [Ipv4Addr::from_str], [Ipv6Addr::from_str] and
      [str::split_once] on byte strings, as the standard library specifies
      them (decimal octets without leading zeros, at most four hexadecimal
      digits per group, one [::], an IPv4 tail).
    - A printer for dotted quads and decimal numbers with its round trips. *)

From S2P Require Import Prelude RustStd.
From Stdlib Require Import Ascii String.
From stdpp Require Import strings.
Open Scope Z_scope.
Open Scope list_scope.

(** ** Addresses *)

Definition Ipv4Addr : Type := Z.
Definition Ipv6Addr : Type := Z.

Inductive IpAddr :=
| IpV4 (ip : Ipv4Addr)
| IpV6 (ip : Ipv6Addr).

Inductive SocketAddr :=
| SockV4 (ip : Ipv4Addr) (port : Z)
| SockV6 (ip : Ipv6Addr) (port flowinfo scope_id : Z).

#[export] Instance IpAddr_eq_dec : EqDecision IpAddr.
Proof. solve_decision. Defined.

#[export] Instance SocketAddr_eq_dec : EqDecision SocketAddr.
Proof. solve_decision. Defined.

Module SocketAddr.
Definition ip (a : SocketAddr) : IpAddr :=
  match a with SockV4 i _ => IpV4 i | SockV6 i _ _ _ => IpV6 i end.
Definition port (a : SocketAddr) : Z :=
  match a with SockV4 _ p => p | SockV6 _ p _ _ => p end.
End SocketAddr.

(** [Ipv4Addr::new(a, b, c, d)]. *)
Definition Ipv4Addr_new (a b c d : Z) : Ipv4Addr :=
  a * 2 ^ 24 + b * 2 ^ 16 + c * 2 ^ 8 + d.

(** [Ipv6Addr::from([u16; 8])], most significant group first. *)
Definition Ipv6Addr_of_groups (gs : list Z) : Ipv6Addr :=
  fold_left (λ acc g, acc * 2 ^ 16 + g) gs 0.

(** [addr.segments()[0]] and [addr.octets()[i]]. *)
Definition Ipv6Addr_segment0 (a : Ipv6Addr) : Z := Z.shiftr a 112.
Definition Ipv6Addr_octets (a : Ipv6Addr) : list Z :=
  map (λ i, Z.land (Z.shiftr a (120 - 8 * Z.of_nat i)) 255) (seq 0 16).

(** [Ipv6Addr::is_unicast_link_local]: [fe80::/10]. *)
Definition Ipv6Addr_is_unicast_link_local (a : Ipv6Addr) : bool :=
  Z.land (Ipv6Addr_segment0 a) 0xffc0 =? 0xfe80.

(** ** Characters *)

Abbreviation chars := (list ascii).

Definition chars_of (s : string) : chars := list_ascii_of_string s.

(** [char::to_digit(radix)]. *)
Definition to_digit (radix : Z) (c : ascii) : option Z :=
  let n := Z.of_nat (nat_of_ascii c) in
  let d := if (48 <=? n) && (n <=? 57) then Some (n - 48)
           else if (97 <=? n) && (n <=? 122) then Some (n - 87)
           else if (65 <=? n) && (n <=? 90) then Some (n - 55)
           else None in
  match d with Some v => if v <? radix then Some v else None | None => None end.

(** [str::split_once(c)]: the parts before and after the first [c]. *)
Fixpoint split_once (c : ascii) (s : chars) : option (chars * chars) :=
  match s with
  | [] => None
  | x :: s => if bool_decide (x = c) then Some ([], s)
              else match split_once c s with
                   | Some (a, b) => Some (x :: a, b)
                   | None => None
                   end
  end.

(** [str::contains(c)]. *)
Definition contains (c : ascii) (s : chars) : bool := existsb (λ x, bool_decide (x = c)) s.

(** ** [u32::from_str] *)

Fixpoint digits_value (radix : Z) (acc : Z) (s : chars) : option Z :=
  match s with
  | [] => Some acc
  | c :: s => match to_digit radix c with
              | Some d => digits_value radix (acc * radix + d) s
              | None => None
              end
  end.

Definition parse_u32 (s : chars) : option Z :=
  let body := match s with
              | c :: rest => if bool_decide (c = "+"%char) then rest else s
              | [] => s
              end in
  match body with
  | [] => None
  | _ => match digits_value 10 0 body with
         | Some v => if v <=? u32_MAX then Some v else None
         | None => None
         end
  end.

(** ** [Ipv4Addr::from_str] and [Ipv6Addr::from_str]

    The parser functions return the value and the remaining input, [None]
    leaving the input where it was. *)

(** The longest run of digits at the front, and the rest. *)
Fixpoint read_digits (radix : Z) (s : chars) : list Z * chars :=
  match s with
  | [] => ([], [])
  | c :: s' => match to_digit radix c with
               | Some d => let '(ds, r) := read_digits radix s' in (d :: ds, r)
               | None => ([], s)
               end
  end.

Definition read_number (radix : Z) (max_digits : nat) (allow_zero_prefix : bool)
    (max_value : Z) (s : chars) : option (Z * chars) :=
  let '(ds, r) := read_digits radix s in
  let leading_zero := match ds with 0 :: _ => true | _ => false end in
  let v := fold_left (λ acc d, acc * radix + d) ds 0 in
  if (max_digits <? List.length ds)%nat then None
  else if (List.length ds =? 0)%nat then None
  else if negb allow_zero_prefix && leading_zero && (1 <? List.length ds)%nat then None
  else if v <=? max_value then Some (v, r) else None.

Definition read_given_char (c : ascii) (s : chars) : option chars :=
  match s with x :: r => if bool_decide (x = c) then Some r else None | [] => None end.

Definition read_separator {A} (sep : ascii) (index : nat)
    (inner : chars → option (A * chars)) (s : chars) : option (A * chars) :=
  match index with
  | O => inner s
  | S _ => match read_given_char sep s with Some r => inner r | None => None end
  end.

Definition read_octet (i : nat) (s : chars) : option (Z * chars) :=
  read_separator "."%char i (read_number 10 3 false u8_MAX) s.

Definition read_ipv4_addr (s : chars) : option (Ipv4Addr * chars) :=
  match read_octet 0 s with
  | None => None
  | Some (a, s1) =>
  match read_octet 1 s1 with
  | None => None
  | Some (b, s2) =>
  match read_octet 2 s2 with
  | None => None
  | Some (c, s3) =>
  match read_octet 3 s3 with
  | None => None
  | Some (d, s4) => Some (Ipv4Addr_new a b c d, s4)
  end end end end.

Definition parse_ipv4 (s : chars) : option Ipv4Addr :=
  if (15 <? List.length s)%nat then None
  else match read_ipv4_addr s with Some (a, []) => Some a | _ => None end.

(** [n] groups may still be read and [i] have been; the flag says that the
    last two groups came from an embedded IPv4 address. *)
Fixpoint read_groups (n i : nat) (s : chars) : list Z * bool * chars :=
  match n with
  | O => ([], false, s)
  | S n' =>
      match (if (0 <? n')%nat then read_separator ":"%char i read_ipv4_addr s else None) with
      | Some (v4, r) => ([Z.shiftr v4 16; Z.land v4 0xffff], true, r)
      | None =>
          match read_separator ":"%char i (read_number 16 4 true u16_MAX) s with
          | Some (g, r) => let '(gs, v4, r') := read_groups n' (S i) r in (g :: gs, v4, r')
          | None => ([], false, s)
          end
      end
  end.

Definition read_ipv6_addr (s : chars) : option (Ipv6Addr * chars) :=
  let '(head, head_ipv4, r) := read_groups 8 0 s in
  if (List.length head =? 8)%nat then Some (Ipv6Addr_of_groups head, r)
  else if head_ipv4 then None
  else match read_given_char ":"%char r with
       | None => None
       | Some r =>
         match read_given_char ":"%char r with
         | None => None
         | Some r =>
           let limit := (8 - (List.length head + 1))%nat in
           let '(tail, _, r) := read_groups limit 0 r in
           let zeros := (8 - List.length head - List.length tail)%nat in
           Some (Ipv6Addr_of_groups (head ++ replicate zeros 0 ++ tail), r)
         end
       end.

Definition parse_ipv6 (s : chars) : option Ipv6Addr :=
  match read_ipv6_addr s with Some (a, []) => Some a | _ => None end.

Example parse_ipv4_ex : parse_ipv4 (chars_of "192.168.1.42") = Some (Ipv4Addr_new 192 168 1 42).
Proof. reflexivity. Qed.
Example parse_ipv4_bad : parse_ipv4 (chars_of "999.0.0.0") = None.
Proof. reflexivity. Qed.
Example parse_ipv6_ex : parse_ipv6 (chars_of "fe80::1:2") = Some (0xfe80 * 2 ^ 112 + 2 ^ 16 + 2).
Proof. reflexivity. Qed.
Example parse_ipv6_v4 : parse_ipv6 (chars_of "::ffff:1.2.3.4") = Some 0xffff01020304.
Proof. reflexivity. Qed.

(** ** Printing decimal numbers *)

Definition digit_char (d : Z) : ascii := ascii_of_nat (Z.to_nat (48 + d)).

(** Decimal digits of a number below 1000, without leading zeros. *)
Definition print_dec3 (n : Z) : chars :=
  if n <? 10 then [digit_char n]
  else if n <? 100 then [digit_char (n / 10); digit_char (n mod 10)]
  else [digit_char (n / 100); digit_char (n / 10 mod 10); digit_char (n mod 10)].

Definition print_ipv4 (a b c d : Z) : chars :=
  print_dec3 a ++ "."%char :: print_dec3 b ++ "."%char :: print_dec3 c ++
  "."%char :: print_dec3 d.

Lemma read_digits_app radix ds r :
  Forall (λ c, is_Some (to_digit radix c)) ds →
  match r with [] => True | c :: _ => to_digit radix c = None end →
  read_digits radix (ds ++ r) =
    (iter_filter_map (to_digit radix) ds, r).
Proof.
  intros Hds Hr. induction Hds as [|c ds [d Hd] _ IH]; simpl.
  - destruct r as [|c r]; simpl; [done|]. by rewrite Hr.
  - by rewrite Hd, IH.
Qed.

(** Every octet is printed by at most three digits that read back. *)
Lemma print_dec3_check :
  forallb (λ n : nat,
    let ds := print_dec3 (Z.of_nat n) in
    let vs := iter_filter_map (to_digit 10) ds in
    forallb (λ c, match to_digit 10 c with Some _ => true | None => false end) ds
    && (List.length vs =? List.length ds)%nat
    && (1 <=? List.length vs)%nat && (List.length vs <=? 3)%nat
    && negb (match vs with 0 :: _ => true | _ => false end && (1 <? List.length vs)%nat)
    && (fold_left (λ acc d, acc * 10 + d) vs 0 =? Z.of_nat n)
    && bool_decide (digits_value 10 0 ds = Some (Z.of_nat n))
    && forallb (λ c, negb (bool_decide (c = "/"%char)) && negb (bool_decide (c = ":"%char))
                     && negb (bool_decide (c = "+"%char))) ds)
    (seq 0 256) = true.
Proof. vm_compute. reflexivity. Qed.

Record dec3_ok (n : Z) (ds : chars) : Prop := {
  dec3_digits : Forall (λ c, is_Some (to_digit 10 c)) ds;
  dec3_min : (1 ≤ List.length ds)%nat;
  dec3_max : (List.length ds ≤ 3)%nat;
  dec3_len : List.length (iter_filter_map (to_digit 10) ds) = List.length ds;
  dec3_zero : (match iter_filter_map (to_digit 10) ds with 0 :: _ => true | _ => false end
               && (1 <? List.length (iter_filter_map (to_digit 10) ds))%nat) = false;
  dec3_value : fold_left (λ acc d, acc * 10 + d) (iter_filter_map (to_digit 10) ds) 0 = n;
  dec3_parse : digits_value 10 0 ds = Some n;
  dec3_plain : Forall (λ c, c ≠ "/"%char ∧ c ≠ ":"%char ∧ c ≠ "+"%char) ds;
}.

Lemma print_dec3_ok n : 0 ≤ n ≤ u8_MAX → dec3_ok n (print_dec3 n).
Proof.
  unfold u8_MAX. intros Hn. pose proof print_dec3_check as H.
  rewrite forallb_forall in H. specialize (H (Z.to_nat n)).
  rewrite Z2Nat.id in H by lia. cbv zeta in H.
  rewrite in_seq in H. specialize (H ltac:(lia)).
  repeat (apply andb_true_iff in H as [H ?]). bool_to_prop.
  repeat match goal with
  | E : Nat.eqb _ _ = true |- _ => apply Nat.eqb_eq in E
  | E : Nat.leb _ _ = true |- _ => apply Nat.leb_le in E
  end.
  rewrite forallb_forall in *.
  split; try done; try lia.
  - apply Forall_forall. intros c Hc. specialize (H c (proj1 (list_elem_of_In _ _) Hc)).
    destruct (to_digit 10 c); [eauto|done].
  - apply Forall_forall. intros c Hc.
    match goal with E : ∀ x, In x _ → _ && _ = true |- _ =>
      specialize (E c (proj1 (list_elem_of_In _ _) Hc)) end.
    bool_to_prop. done.
Qed.

Lemma read_number_print n r :
  0 ≤ n ≤ u8_MAX →
  match r with [] => True | c :: _ => to_digit 10 c = None end →
  read_number 10 3 false u8_MAX (print_dec3 n ++ r) = Some (n, r).
Proof.
  intros Hn Hr. destruct (print_dec3_ok n Hn).
  unfold read_number. rewrite read_digits_app by done.
  rewrite dec3_value0, dec3_len0.
  rewrite (proj2 (Nat.ltb_ge _ _)) by lia.
  rewrite (proj2 (Nat.eqb_neq _ _)) by lia. simpl.
  rewrite dec3_len0 in dec3_zero0. rewrite dec3_zero0.
  by rewrite (proj2 (Z.leb_le _ _)) by lia.
Qed.

Lemma read_octet_print0 n r :
  0 ≤ n ≤ u8_MAX →
  match r with [] => True | c :: _ => to_digit 10 c = None end →
  read_octet 0 (print_dec3 n ++ r) = Some (n, r).
Proof. apply read_number_print. Qed.

Lemma read_octet_printS (i : nat) n r :
  0 ≤ n ≤ u8_MAX →
  match r with [] => True | c :: _ => to_digit 10 c = None end →
  read_octet (S i) ("."%char :: print_dec3 n ++ r) = Some (n, r).
Proof. apply read_number_print. Qed.

Lemma read_ipv4_addr_print a b c d r :
  0 ≤ a ≤ u8_MAX → 0 ≤ b ≤ u8_MAX → 0 ≤ c ≤ u8_MAX → 0 ≤ d ≤ u8_MAX →
  match r with [] => True | ch :: _ => to_digit 10 ch = None end →
  read_ipv4_addr (print_ipv4 a b c d ++ r) = Some (Ipv4Addr_new a b c d, r).
Proof.
  intros Ha Hb Hc Hd Hr. unfold read_ipv4_addr, print_ipv4.
  repeat (rewrite <- app_assoc, <- app_comm_cons).
  rewrite (read_octet_print0 a) by done.
  rewrite (read_octet_printS 0 b) by done.
  rewrite (read_octet_printS 1 c) by done.
  by rewrite (read_octet_printS 2 d) by done.
Qed.

Lemma print_ipv4_length a b c d :
  0 ≤ a ≤ u8_MAX → 0 ≤ b ≤ u8_MAX → 0 ≤ c ≤ u8_MAX → 0 ≤ d ≤ u8_MAX →
  (List.length (print_ipv4 a b c d) ≤ 15)%nat.
Proof.
  intros Ha Hb Hc Hd. unfold print_ipv4. repeat (rewrite length_app; simpl).
  pose proof (dec3_max _ _ (print_dec3_ok a Ha)). pose proof (dec3_max _ _ (print_dec3_ok b Hb)).
  pose proof (dec3_max _ _ (print_dec3_ok c Hc)). pose proof (dec3_max _ _ (print_dec3_ok d Hd)).
  lia.
Qed.

Lemma parse_ipv4_print a b c d :
  0 ≤ a ≤ u8_MAX → 0 ≤ b ≤ u8_MAX → 0 ≤ c ≤ u8_MAX → 0 ≤ d ≤ u8_MAX →
  parse_ipv4 (print_ipv4 a b c d) = Some (Ipv4Addr_new a b c d).
Proof.
  intros Ha Hb Hc Hd. unfold parse_ipv4.
  rewrite (proj2 (Nat.ltb_ge _ _)) by (by apply print_ipv4_length).
  rewrite <- (app_nil_r (print_ipv4 a b c d)). by rewrite read_ipv4_addr_print.
Qed.

Lemma print_ipv4_plain a b c d :
  0 ≤ a ≤ u8_MAX → 0 ≤ b ≤ u8_MAX → 0 ≤ c ≤ u8_MAX → 0 ≤ d ≤ u8_MAX →
  Forall (λ ch, ch ≠ "/"%char ∧ ch ≠ ":"%char) (print_ipv4 a b c d).
Proof.
  intros Ha Hb Hc Hd.
  assert (Hp : ∀ n, 0 ≤ n ≤ u8_MAX →
    Forall (λ ch, ch ≠ "/"%char ∧ ch ≠ ":"%char) (print_dec3 n)).
  { intros n Hn. eapply Forall_impl; [apply (dec3_plain _ _ (print_dec3_ok n Hn))|]. naive_solver. }
  unfold print_ipv4.
  repeat (apply Forall_app; split; [by apply Hp|]; apply Forall_cons; split; [done|]).
  by apply Hp.
Qed.

Lemma parse_u32_print n : 0 ≤ n ≤ u8_MAX → parse_u32 (print_dec3 n) = Some n.
Proof.
  intros Hn. destruct (print_dec3_ok n Hn). unfold parse_u32.
  destruct (print_dec3 n) as [|ch s] eqn:E; [simpl in *; lia|].
  inversion dec3_plain0 as [|? ? (_ & _ & Hne) _]; subst.
  rewrite bool_decide_eq_false_2 by done. rewrite dec3_parse0.
  rewrite (proj2 (Z.leb_le _ _)); [done|]. unfold u8_MAX, u32_MAX in *. lia.
Qed.

Lemma split_once_print (c : ascii) s1 s2 :
  Forall (λ x, x ≠ c) s1 → split_once c (s1 ++ c :: s2) = Some (s1, s2).
Proof.
  induction 1 as [|x s1 Hx _ IH]; simpl.
  - by rewrite bool_decide_eq_true_2.
  - by rewrite bool_decide_eq_false_2, IH.
Qed.

Lemma contains_false (c : ascii) s : Forall (λ x, x ≠ c) s → contains c s = false.
Proof.
  intros H. apply existsb_false. intros x Hx. apply bool_decide_eq_false.
  rewrite Forall_forall in H. apply H. by apply list_elem_of_In.
Qed.
