(* ===== verification/Hickory.v ===== *)
(** * Hickory: the interface of the [hickory-proto] crate

    [hickory-proto] is not part of the repository.  What the sources use of it
    is stated here: the data they read and write as records and enums, and the
    algorithms (name parsing, record equality, wire encoding) as fields of a
    class, with the documented behaviour the sources rely on as its laws.

    [HickoryTypes] gives the carrier types and their [Eq]; [Hickory] the
    functions.  [Sample] is a concrete instance, used where a statement is
    evaluated on an input. *)

From S2P Require Import Prelude RustStd StdNet.
From Stdlib Require Import Ascii String.
From stdpp Require Import strings.
Open Scope Z_scope.
Open Scope list_scope.

(** ** Carrier types *)

Class HickoryTypes := {
  (** A DNS name; [==] ignores the case of ASCII letters. *)
  Name : Type;
  Name_equiv :: Equiv Name;
  Name_equivalence :: Equivalence (≡@{Name});
  Name_dec :: RelDecision (≡@{Name});
  (** The record types the sources do not name. *)
  OtherType : Type;
  OtherType_eq_dec :: EqDecision OtherType;
  (** The record data variants the sources do not name. *)
  OtherData : Type;
  OtherData_equiv :: Equiv OtherData;
  OtherData_equivalence :: Equivalence (≡@{OtherData});
  OtherData_dec :: RelDecision (≡@{OtherData});
  (** The DNS classes, [DNSClass::IN] among them. *)
  DNSClass : Type;
  DNSClass_eq_dec :: EqDecision DNSClass;
  DNSClass_IN : DNSClass;
  (** The error of the crate's fallible functions. *)
  ProtoError : Type;
}.

Section types.
Context {HT : HickoryTypes}.

(** ** [RecordType], [RData], [Record] *)

Inductive RecordType :=
| RT_A | RT_AAAA | RT_PTR | RT_SRV | RT_TXT | RT_ANY
| RT_Other (t : OtherType).

#[export] Instance RecordType_eq_dec : EqDecision RecordType.
Proof. solve_decision. Defined.

Record SRV := mkSRV {
  srv_priority : Z;
  srv_weight : Z;
  srv_port : Z;
  srv_target : Name;
}.

Inductive RData :=
| RD_A (a : Ipv4Addr)
| RD_AAAA (a : Ipv6Addr)
| RD_PTR (n : Name)
| RD_SRV (s : SRV)
| RD_TXT (t : list string)
| RD_Other (o : OtherData).

Record DnsRecord := mkRecord {
  rec_name : Name;
  rec_class : DNSClass;
  rec_ttl : Z;
  rec_data : RData;
  rec_cache_flush : bool;
}.

(** Field assignments [r.ttl = t] and [r.mdns_cache_flush = b]. *)
Definition set_ttl (t : Z) (r : DnsRecord) : DnsRecord :=
  mkRecord (rec_name r) (rec_class r) t (rec_data r) (rec_cache_flush r).
Definition set_cache_flush (b : bool) (r : DnsRecord) : DnsRecord :=
  mkRecord (rec_name r) (rec_class r) (rec_ttl r) (rec_data r) b.

(** The derived [PartialEq] of [SRV] and [RData]. *)
#[export] Instance SRV_equiv : Equiv SRV := λ a b,
  srv_priority a = srv_priority b ∧ srv_weight a = srv_weight b ∧
  srv_port a = srv_port b ∧ srv_target a ≡ srv_target b.

#[export] Instance SRV_dec : RelDecision (≡@{SRV}).
Proof. intros a b. unfold equiv, SRV_equiv. apply _. Defined.

#[export] Instance SRV_equivalence : Equivalence (≡@{SRV}).
Proof.
  split; unfold equiv, SRV_equiv.
  - by intros a.
  - intros a b (?&?&?&?). by repeat split.
  - intros a b c (?&?&?&?) (?&?&?&?). repeat split; try congruence. by etrans.
Qed.

#[export] Instance RData_equiv : Equiv RData := λ a b,
  match a, b with
  | RD_A x, RD_A y => x = y
  | RD_AAAA x, RD_AAAA y => x = y
  | RD_PTR x, RD_PTR y => x ≡ y
  | RD_SRV x, RD_SRV y => x ≡ y
  | RD_TXT x, RD_TXT y => x = y
  | RD_Other x, RD_Other y => x ≡ y
  | _, _ => False
  end.

#[export] Instance RData_dec : RelDecision (≡@{RData}).
Proof. intros [] []; unfold equiv, RData_equiv; apply _. Defined.

#[export] Instance RData_equivalence : Equivalence (≡@{RData}).
Proof.
  split; unfold equiv, RData_equiv.
  - by intros [].
  - intros [] []; try done; by intros ->.
  - intros [] [] []; try done; try congruence; intros H1 H2; by etrans.
Qed.

(** ** [Message] *)

Inductive MessageType := MT_Query | MT_Response.
Inductive OpCode := Op_Query | Op_Other (code : Z).

#[export] Instance MessageType_eq_dec : EqDecision MessageType.
Proof. solve_decision. Defined.

Record Query := mkQuery {
  q_name : Name;
  q_type : RecordType;
  q_class : DNSClass;
  q_unicast_response : bool;
}.

Record Metadata := mkMetadata {
  md_id : Z;
  md_message_type : MessageType;
  md_op_code : OpCode;
  md_authoritative : bool;
  md_truncation : bool;
}.

Record Message := mkMessage {
  metadata : Metadata;
  queries : list Query;
  answers : list DnsRecord;
  authorities : list DnsRecord;
  additionals : list DnsRecord;
}.

Definition set_authoritative (b : bool) (m : Message) : Message :=
  let d := metadata m in
  mkMessage (mkMetadata (md_id d) (md_message_type d) (md_op_code d) b (md_truncation d))
    (queries m) (answers m) (authorities m) (additionals m).
Definition add_query (q : Query) (m : Message) : Message :=
  mkMessage (metadata m) (queries m ++ [q]) (answers m) (authorities m) (additionals m).
Definition add_answer (r : DnsRecord) (m : Message) : Message :=
  mkMessage (metadata m) (queries m) (answers m ++ [r]) (authorities m) (additionals m).
Definition add_authority (r : DnsRecord) (m : Message) : Message :=
  mkMessage (metadata m) (queries m) (answers m) (authorities m ++ [r]) (additionals m).
Definition add_additional (r : DnsRecord) (m : Message) : Message :=
  mkMessage (metadata m) (queries m) (answers m) (authorities m) (additionals m ++ [r]).
End types.

Abbreviation bytes := (list Byte.byte).

(** The TTL of a record is a [u32]. *)
Definition record_ok `{HickoryTypes} (r : DnsRecord) : Prop := 0 ≤ rec_ttl r ≤ u32_MAX.

(** The records of the three record sections. *)
Definition all_sections `{HickoryTypes} (m : Message) : list DnsRecord :=
  answers m ++ authorities m ++ additionals m.

(** ** Functions *)

Class Hickory {HT : HickoryTypes} := {
  (** [RData::record_type] on the variants the sources do not name (a dynamic
      update prerequisite carries any type as data). *)
  OtherData_type : OtherData → RecordType;

  (** [Record]'s [==] on two records: it holds of equal records and only of
      records with equal name and data. *)
  record_eqb : DnsRecord → DnsRecord → bool;
  record_eqb_refl : ∀ r, record_eqb r r = true;
  record_eqb_sound : ∀ a b, record_eqb a b = true →
    rec_name a ≡ rec_name b ∧ rec_data a ≡ rec_data b;

  (** [Record::from_rdata]: a class-IN record without the cache-flush bit. *)
  Record_from_rdata : Name → Z → RData → DnsRecord;
  Record_from_rdata_spec : ∀ n t d,
    Record_from_rdata n t d = mkRecord n DNSClass_IN t d false;

  (** [Message::new] and [Message::response]: no flags, empty sections. *)
  Message_new : Z → MessageType → OpCode → Message;
  Message_new_spec : ∀ i t o,
    Message_new i t o = mkMessage (mkMetadata i t o false false) [] [] [] [];
  Message_response : Z → OpCode → Message;
  Message_response_spec : ∀ i o,
    Message_response i o = mkMessage (mkMetadata i MT_Response o false false) [] [] [] [];

  (** Wire format. *)
  to_vec : Message → result ProtoError bytes;
  from_vec : bytes → result ProtoError Message;
  (** Decoded TTLs are 32-bit numbers. *)
  from_vec_ok : ∀ b m, from_vec b = Ok m → Forall record_ok (all_sections m);

  (** Name construction. *)
  Name_from_str : string → result ProtoError Name;
  Name_from_labels : list string → result ProtoError Name;
  Name_append_name : Name → Name → result ProtoError Name;
  (** The fallback host name is a well-formed name. *)
  router_local : Name;
  router_local_parses : Name_from_str "router.local."%string = Ok router_local;
}.

(** [Record::record_type], [RData::record_type]. *)
Definition record_type `{Hickory} (r : DnsRecord) : RecordType :=
  match rec_data r with
  | RD_A _ => RT_A
  | RD_AAAA _ => RT_AAAA
  | RD_PTR _ => RT_PTR
  | RD_SRV _ => RT_SRV
  | RD_TXT _ => RT_TXT
  | RD_Other o => OtherData_type o
  end.

Lemma record_type_set_ttl `{Hickory} t r : record_type (set_ttl t r) = record_type r.
Proof. done. Qed.

Lemma record_type_set_flush `{Hickory} b r : record_type (set_cache_flush b r) = record_type r.
Proof. done. Qed.

(** ** A concrete instance

    Names are lists of labels compared without regard to ASCII case, the
    remaining record data is a type number with opaque bytes, and a message is
    encoded as the number of records in its sections. *)

Module Sample.
Definition lower_char (c : ascii) : ascii :=
  let n := nat_of_ascii c in
  if ((65 <=? n) && (n <=? 90))%nat then ascii_of_nat (n + 32) else c.
Fixpoint lower (s : string) : string :=
  match s with
  | EmptyString => EmptyString
  | String c s => String (lower_char c) (lower s)
  end.

Definition sname : Type := list string.
#[export] Instance sname_equiv : Equiv sname := λ a b, map lower a = map lower b.

Lemma sname_equivalence : Equivalence (≡@{sname}).
Proof.
  split; unfold equiv, sname_equiv; [by intros ?|by intros ? ?|].
  intros ? ? ?. by intros -> ->.
Qed.

#[export] Instance sname_dec : RelDecision (≡@{sname}) := λ a b,
  decide_rel (=) (map lower a) (map lower b).

#[export] Instance types : HickoryTypes := {|
  Name := sname;
  Name_equiv := sname_equiv;
  Name_equivalence := sname_equivalence;
  Name_dec := sname_dec;
  OtherType := Z;
  OtherType_eq_dec := _;
  OtherData := Z * list Z;
  OtherData_equiv := (=);
  OtherData_equivalence := eq_equivalence;
  OtherData_dec := decide_rel (=);
  DNSClass := Z;
  DNSClass_eq_dec := _;
  DNSClass_IN := 1;
  ProtoError := string;
|}.

Fixpoint labels_of (s : string) (cur : string) : list string :=
  match s with
  | EmptyString => match cur with EmptyString => [] | _ => [cur] end
  | String c s => if bool_decide (c = "."%char) then cur :: labels_of s EmptyString
                  else labels_of s (cur ++ String c EmptyString)
  end.

Definition from_str (s : string) : result string sname :=
  let ls := labels_of s EmptyString in
  if existsb (λ l, bool_decide (l = EmptyString)) ls then Err "empty label"%string
  else if existsb (λ l, (63 <? String.length l)%nat) ls then Err "label too long"%string
  else Ok ls.

Definition from_labels (ls : list string) : result string sname :=
  if existsb (λ l, bool_decide (l = EmptyString) || (63 <? String.length l)%nat) ls
  then Err "bad label"%string else Ok ls.

Definition req (a b : @DnsRecord types) : bool :=
  bool_decide (rec_name a ≡ rec_name b) && bool_decide (rec_class a = rec_class b)
  && bool_decide (rec_data a ≡ rec_data b).

Lemma req_refl a : req a a = true.
Proof. unfold req. by rewrite !bool_decide_eq_true_2. Qed.

Lemma req_sound a b :
  req a b = true → rec_name a ≡ rec_name b ∧ rec_data a ≡ rec_data b.
Proof. unfold req. intros H. by bool_to_prop. Qed.

Definition section_byte {A} (l : list A) : Byte.byte :=
  match Byte.of_nat (List.length l) with Some b => b | None => Byte.xff end.

(** Three datagrams: a query, a response with one address record, a goodbye
    for it. *)
Definition sample_record (ttl : Z) : @DnsRecord types :=
  mkRecord ["printer"; "local"]%string 1 ttl (RD_A 7) false.
Definition other_record : @DnsRecord types :=
  mkRecord ["scanner"; "local"]%string DNSClass_IN 60 (RD_A 8) true.
Definition decode (b : bytes) : result string (@Message types) :=
  match b with
  | [Byte.x00] =>
      Ok (mkMessage (mkMetadata 5 MT_Query Op_Query false false)
            [mkQuery ["_http"; "_tcp"; "local"]%string RT_PTR 1 false] [] [] [])
  | [Byte.x01] =>
      Ok (mkMessage (mkMetadata 0 MT_Response Op_Query true false) []
            [sample_record 120] [] [])
  | [Byte.x02] =>
      Ok (mkMessage (mkMetadata 0 MT_Response Op_Query true false) []
            [sample_record 0] [] [])
  | [Byte.x03] =>
      Ok (mkMessage (mkMetadata 0 MT_Response Op_Query true false) []
            [other_record; sample_record 120] [] [])
  | _ => Err "not a message"%string
  end.

Lemma decode_ok b m : decode b = Ok m → Forall record_ok (all_sections m).
Proof.
  unfold decode. intros Hd.
  destruct b as [|[] [|]]; try done; injection Hd as <-; repeat constructor; done.
Qed.

#[export] Instance hickory : Hickory := {|
  OtherData_type := λ o : OtherData, RT_Other o.1;
  record_eqb := req;
  record_eqb_refl := req_refl;
  record_eqb_sound := req_sound;
  Record_from_rdata := λ n t d, mkRecord n DNSClass_IN t d false;
  Record_from_rdata_spec := λ n t d, eq_refl;
  Message_new := λ i t o, mkMessage (mkMetadata i t o false false) [] [] [] [];
  Message_new_spec := λ i t o, eq_refl;
  Message_response := λ i o, mkMessage (mkMetadata i MT_Response o false false) [] [] [] [];
  Message_response_spec := λ i o, eq_refl;
  to_vec := λ m, Ok [section_byte (queries m); section_byte (answers m);
                     section_byte (authorities m); section_byte (additionals m)];
  from_vec := decode;
  from_vec_ok := decode_ok;
  Name_from_str := from_str;
  Name_from_labels := from_labels;
  Name_append_name := λ a b, Ok (a ++ b);
  router_local := ["router"%string; "local"%string];
  router_local_parses := eq_refl;
|}.

Definition name (s : string) : sname :=
  match from_str s with Ok n => n | Err _ => [] end.
Definition A_record (n : string) (ttl ip : Z) : @DnsRecord types :=
  Record_from_rdata (name n) ttl (RD_A ip).

Example name_case : bool_decide (name "Foo.Local." ≡ name "foo.local.") = true.
Proof. reflexivity. Qed.
End Sample.
