(* ===== verification/RecordKey.v ===== *)
(** * RecordKey: the identity of a resource record ([src/record_key.rs])

    The key of the cache and of the rate limiter: name, type, class and data,
    compared with the [Eq] of each part (so names ignore case). *)

From S2P Require Import Prelude RustStd StdNet Hickory.

Section key.
Context `{Hickory}.

Record RecordKey := mkKey {
  key_name : Name;
  key_rtype : RecordType;
  key_class : DNSClass;
  key_rdata : RData;
}.

(** [#[derive(Eq, PartialEq, Hash)]]. *)
#[export] Instance RecordKey_equiv : Equiv RecordKey := λ a b,
  key_name a ≡ key_name b ∧ key_rtype a = key_rtype b ∧
  key_class a = key_class b ∧ key_rdata a ≡ key_rdata b.

#[export] Instance RecordKey_dec : RelDecision (≡@{RecordKey}).
Proof. intros a b. unfold equiv, RecordKey_equiv. apply _. Defined.

#[export] Instance RecordKey_equivalence : Equivalence (≡@{RecordKey}).
Proof.
  split; unfold equiv, RecordKey_equiv.
  - by intros a.
  - intros a b (?&?&?&?). by repeat split.
  - intros a b c (?&?&?&?) (?&?&?&?). repeat split; try congruence; by etrans.
Qed.

Definition key_of (r : DnsRecord) : RecordKey :=
  mkKey (rec_name r) (record_type r) (rec_class r) (rec_data r).

(** Neither the TTL nor the cache-flush bit is part of the identity. *)
Lemma key_of_set_ttl t r : key_of (set_ttl t r) = key_of r.
Proof. done. Qed.

Lemma key_of_set_flush b r : key_of (set_cache_flush b r) = key_of r.
Proof. done. Qed.

Lemma key_equiv_name a b : a ≡ b → key_name a ≡ key_name b.
Proof. by intros (?&_). Qed.
Lemma key_equiv_rtype a b : a ≡ b → key_rtype a = key_rtype b.
Proof. by intros (_&?&_). Qed.
Lemma key_equiv_class a b : a ≡ b → key_class a = key_class b.
Proof. by intros (_&_&?&_). Qed.
Lemma key_equiv_rdata a b : a ≡ b → key_rdata a ≡ key_rdata b.
Proof. by intros (_&_&_&?). Qed.
End key.

#[export] Hint Resolve key_equiv_name key_equiv_rtype key_equiv_class key_equiv_rdata : nmdns.
