(* ===== verification/Cache.v ===== *)
(** * Cache: the record cache ([src/cache.rs])

    The state behind the mutex is the record [Inner]; each method is one
    critical section and is modelled as a function of the state.  A reading of
    [Instant::now()] is the argument [now].  The order in which a hash table
    is visited is the parameter [HashIter]. *)

From S2P Require Import Prelude RustStd StdNet Hickory RecordKey.
From Stdlib Require Import Permutation.
From stdpp Require Import strings.
Open Scope Z_scope.

Definition DEFAULT_MAX_ENTRIES : Z := 4096.

Inductive InsertOutcome := Inserted | Refreshed | GoodbyeRemoved | GoodbyeNoOp | Rejected.

#[export] Instance InsertOutcome_eq_dec : EqDecision InsertOutcome.
Proof. solve_decision. Defined.

Module Cache.
Section cache.
Context `{Hickory} {HI : HashIter}.

Record Entry := mkEntry {
  record : DnsRecord;
  deadline : Instant;
  source_ifindex : option Z;
}.

Record Inner := mkInner {
  by_key : HashMap RecordKey Entry;
  max_entries : Z;
  max_ttl : option Z;
}.

Definition set_map (m : HashMap RecordKey Entry) (g : Inner) : Inner :=
  mkInner m (max_entries g) (max_ttl g).

Definition with_capacity_and_max_ttl (max_entries : Z) (max_ttl : option Z) : Inner :=
  mkInner HashMap.empty (Z.max max_entries 1) max_ttl.

Definition with_capacity (max_entries : Z) : Inner :=
  with_capacity_and_max_ttl max_entries None.

Definition new : Inner := with_capacity DEFAULT_MAX_ENTRIES.

(** The TTL cap; a goodbye (TTL 0) is left alone. *)
Definition cap_record (max_ttl : option Z) (r : DnsRecord) : DnsRecord :=
  if 0 <? rec_ttl r then
    match max_ttl with
    | Some cap => set_ttl (Z.min (rec_ttl r) (as_u32 cap)) r
    | None => r
    end
  else r.

(** The closure of the cache-flush [retain]. *)
Definition survives_flush (r : DnsRecord) (k : RecordKey) : bool :=
  negb ((key_name k == rec_name r) && (key_rtype k ==? record_type r)
        && (key_class k ==? rec_class r) && negb (key_rdata k == rec_data r)).

Definition flush (r : DnsRecord) (m : HashMap RecordKey Entry) : HashMap RecordKey Entry :=
  if rec_cache_flush r then HashMap.retain (λ k _, survives_flush r k) m else m.

(** The soonest-to-expire entry. *)
Definition victim (m : HashMap RecordKey Entry) : option RecordKey :=
  fst <$> min_by_key (λ p : RecordKey * Entry, deadline p.2) (hash_iter m).

Definition make_room (max_entries : Z) (m : HashMap RecordKey Entry)
    : HashMap RecordKey Entry :=
  if max_entries <=? Z.of_nat (HashMap.len m) then
    match victim m with Some k => HashMap.remove k m | None => m end
  else m.

Definition insert_from (now : Instant) (r : DnsRecord) (source : option Z) (g : Inner)
    : InsertOutcome * Inner :=
  let key := key_of r in
  let r := cap_record (max_ttl g) r in
  if rec_ttl r =? 0 then
    (match HashMap.get key (by_key g) with
     | Some _ => GoodbyeRemoved
     | None => GoodbyeNoOp
     end,
     set_map (HashMap.remove key (by_key g)) g)
  else
    let m := flush r (by_key g) in
    let dl := Instant.add now (Duration.from_secs (rec_ttl r)) in
    match HashMap.get key m with
    | Some e =>
        let source := match source with Some i => Some i | None => source_ifindex e end in
        (Refreshed, set_map (HashMap.insert key (mkEntry r dl source) m) g)
    | None =>
        let m := make_room (max_entries g) m in
        (Inserted, set_map (HashMap.insert key (mkEntry r dl source) m) g)
    end.

Definition insert (now : Instant) (r : DnsRecord) (g : Inner) : InsertOutcome * Inner :=
  insert_from now r None g.

Definition len (g : Inner) : nat := HashMap.len (by_key g).
Definition is_empty (g : Inner) : bool := (len g =? 0)%nat.

Definition evict_expired (now : Instant) (g : Inner) : nat * Inner :=
  let before := HashMap.len (by_key g) in
  let m := HashMap.retain (λ _ e, now <? deadline e) (by_key g) in
  ((before - HashMap.len m)%nat, set_map m g).

Definition record_matches (r : DnsRecord) (name : Name) (rtype : RecordType) : bool :=
  (rec_name r == name) && ((rtype ==? RT_ANY) || (record_type r ==? rtype)).

Definition record_with_remaining_ttl (e : Entry) (now : Instant) : option DnsRecord :=
  match Instant.checked_duration_since (deadline e) now with
  | None => None
  | Some remaining =>
      let ttl := Duration.as_secs remaining in
      let ttl := if 0 <? Duration.subsec_nanos remaining
                 then u64_saturating_add ttl 1 else ttl in
      if ttl =? 0 then None
      else Some (set_ttl (as_u32 (Z.min ttl u32_MAX)) (record e))
  end.

Definition lookup_inner (now : Instant) (name : Name) (rtype : RecordType)
    (source_filter : Entry → bool) (g : Inner) : list DnsRecord :=
  iter_filter_map (λ e, record_with_remaining_ttl e now)
    (List.filter (λ e, record_matches (record e) name rtype && source_filter e)
       (map snd (hash_iter (by_key g)))).

Definition lookup (now : Instant) (name : Name) (rtype : RecordType) (g : Inner)
    : list DnsRecord :=
  lookup_inner now name rtype (λ _, true) g.

Definition from_other_iface (arrival_ifindex : Z) (e : Entry) : bool :=
  match source_ifindex e with
  | Some i => negb (i =? arrival_ifindex)
  | None => false
  end.

Definition lookup_from_other_ifaces (now : Instant) (name : Name) (rtype : RecordType)
    (arrival_ifindex : Z) (g : Inner) : list DnsRecord :=
  map (set_cache_flush false)
    (lookup_inner now name rtype (from_other_iface arrival_ifindex) g).

Definition snapshot (now : Instant) (g : Inner) : list DnsRecord :=
  iter_filter_map (λ e, record_with_remaining_ttl e now) (map snd (hash_iter (by_key g))).

(** ** Invariant

    [cap_ok] is what configuration validation guarantees of [max_ttl]. *)

Definition cap_ok (max_ttl : option Z) : Prop :=
  match max_ttl with Some cap => 1 ≤ cap ≤ u32_MAX | None => True end.

Record entry_ok (now : Instant) (cap : option Z) (k : RecordKey) (e : Entry) : Prop := {
  entry_key : k ≡ key_of (record e);
  entry_ttl : 1 ≤ rec_ttl (record e) ≤ u32_MAX;
  entry_cap : match cap with Some c => rec_ttl (record e) ≤ c | None => True end;
  entry_deadline : deadline e ≤ now + Duration.from_secs (rec_ttl (record e));
}.

Record inv (now : Instant) (g : Inner) : Prop := {
  inv_wf : HashMap.wf (by_key g);
  inv_capacity : Z.of_nat (HashMap.len (by_key g)) ≤ max_entries g;
  inv_max : 1 ≤ max_entries g;
  inv_cap : cap_ok (max_ttl g);
  inv_entries : ∀ k e, In (k, e) (by_key g) → entry_ok now (max_ttl g) k e;
}.

(** States of a cache that starts empty, receives records with 32-bit TTLs
    and is swept, under a clock that does not go back.  A sweep may use a
    clock reading taken before it obtained the lock. *)
Inductive reachable : Instant → Inner → Prop :=
| reach_new now n cap :
    cap_ok cap → reachable now (with_capacity_and_max_ttl n cap)
| reach_wait now now' g :
    now ≤ now' → reachable now g → reachable now' g
| reach_insert now r source g :
    record_ok r → reachable now g → reachable now (insert_from now r source g).2
| reach_evict now t g :
    t ≤ now → reachable now g → reachable now (evict_expired t g).2.

(** ** The TTL cap *)

Lemma key_of_cap cap r : key_of (cap_record cap r) = key_of r.
Proof. unfold cap_record. by repeat case_match. Qed.

Lemma cap_record_live cap r :
  record_ok r → cap_ok cap → rec_ttl r ≠ 0 →
  1 ≤ rec_ttl (cap_record cap r) ≤ u32_MAX ∧
  rec_ttl (cap_record cap r) ≤ rec_ttl r ∧
  match cap with Some c => rec_ttl (cap_record cap r) ≤ c | None => True end.
Proof.
  unfold record_ok, cap_record. intros Hr Hc Hne.
  rewrite (proj2 (Z.ltb_lt _ _)) by lia.
  destruct cap as [c|]; simpl in *; [|lia]. rewrite as_u32_small by lia. lia.
Qed.

Lemma cap_record_goodbye cap r : rec_ttl r = 0 → cap_record cap r = r.
Proof. unfold cap_record. by intros ->. Qed.

(** ** Flushing and making room *)

Lemma in_flush r m p : In p (flush r m) → In p m.
Proof. unfold flush. case_match; [|done]. by intros [? _]%HashMap.in_retain. Qed.

Lemma wf_flush r m : HashMap.wf m → HashMap.wf (flush r m).
Proof. unfold flush. case_match; eauto with nmdns. Qed.

Lemma len_flush r m : (HashMap.len (flush r m) ≤ HashMap.len m)%nat.
Proof. unfold flush. case_match; [apply HashMap.len_retain_le|done]. Qed.

(** A record never flushes its own key. *)
Lemma survives_flush_self r k : k ≡ key_of r → survives_flush r k = true.
Proof.
  intros (_&_&_&Hd). unfold survives_flush.
  rewrite (bool_decide_eq_true_2 (key_rdata k ≡ rec_data r)) by exact Hd.
  by rewrite andb_false_r.
Qed.

Lemma find_flush r m k :
  HashMap.wf m →
  HashMap.find k (flush r m) =
    match HashMap.find k m with
    | Some p => if rec_cache_flush r && negb (survives_flush r p.1) then None else Some p
    | None => None
    end.
Proof.
  intros Hwf. unfold flush. destruct (rec_cache_flush r); simpl.
  - rewrite HashMap.get_retain by done. repeat case_match; simplify_eq; by bool_to_prop.
  - by case_match.
Qed.

Lemma find_flush_self r m k :
  HashMap.wf m → k ≡ key_of r → HashMap.find k (flush r m) = HashMap.find k m.
Proof.
  intros Hwf Hk. rewrite find_flush by done.
  destruct (HashMap.find k m) as [p|] eqn:Hp; [|done].
  apply HashMap.find_Some in Hp as [_ Hp].
  rewrite survives_flush_self; [by rewrite andb_false_r|]. by rewrite <- Hp.
Qed.

Lemma victim_None m : victim m = None ↔ m = [].
Proof.
  unfold victim. rewrite fmap_None, min_by_key_None. split.
  - intros Hi. apply Permutation_nil. rewrite <- Hi. apply hash_iter_perm.
  - intros ->. apply Permutation_nil. symmetry. apply hash_iter_perm.
Qed.

Lemma victim_Some m k :
  victim m = Some k →
  ∃ e, In (k, e) m ∧ ∀ k' e', In (k', e') m → deadline e ≤ deadline e'.
Proof.
  unfold victim. intros ([k' e] & [Hin Hmin]%min_by_key_Some & ->)%fmap_Some.
  exists e. split.
  - eapply Permutation_in; [apply hash_iter_perm|done].
  - intros k2 e2 H2. apply (Hmin (k2, e2)).
    eapply Permutation_in; [symmetry; apply hash_iter_perm|done].
Qed.

Lemma in_make_room n m p : In p (make_room n m) → In p m.
Proof.
  unfold make_room. repeat case_match; try done. by intros [? _]%HashMap.in_remove.
Qed.

Lemma wf_make_room n m : HashMap.wf m → HashMap.wf (make_room n m).
Proof. unfold make_room. repeat case_match; eauto with nmdns. Qed.

Lemma len_make_room n m :
  HashMap.wf m → 1 ≤ n → Z.of_nat (HashMap.len m) ≤ n →
  Z.of_nat (HashMap.len (make_room n m)) < n.
Proof.
  intros Hwf Hn Hlen. unfold make_room.
  destruct (Z.leb_spec n (Z.of_nat (HashMap.len m))) as [Hfull|]; [|lia].
  destruct (victim m) as [k|] eqn:Hv.
  - destruct (victim_Some m k Hv) as (e & Hin & _).
    pose proof (HashMap.len_remove k m Hwf) as Hl.
    rewrite decide_True in Hl by (apply HashMap.find_is_Some; exists (k, e); done). lia.
  - apply victim_None in Hv as ->. unfold HashMap.len in *. simpl in *. lia.
Qed.

(** ** Preservation of the invariant *)

Lemma entry_ok_mono now now' cap k e :
  now ≤ now' → entry_ok now cap k e → entry_ok now' cap k e.
Proof. intros Hle []. split; try done. lia. Qed.

Lemma inv_mono now now' g : now ≤ now' → inv now g → inv now' g.
Proof. intros Hle []. split; try done. eauto using entry_ok_mono. Qed.

Lemma inv_new now n cap : cap_ok cap → inv now (with_capacity_and_max_ttl n cap).
Proof.
  intros Hc. split; simpl; try done; unfold HashMap.len; simpl; try lia.
Qed.

Lemma inv_sub now g m :
  inv now g → HashMap.wf m → (∀ p, In p m → In p (by_key g)) →
  (HashMap.len m ≤ HashMap.len (by_key g))%nat → inv now (set_map m g).
Proof. intros [] Hwf Hsub Hlen. split; simpl; try done; [lia|auto]. Qed.

Lemma inv_insert now g m r source :
  inv now g → HashMap.wf m → (∀ p, In p m → In p (by_key g)) →
  record_ok r → rec_ttl r ≠ 0 →
  Z.of_nat (HashMap.len (HashMap.insert (key_of r) (mkEntry (cap_record (max_ttl g) r)
    (Instant.add now (Duration.from_secs (rec_ttl (cap_record (max_ttl g) r)))) source) m))
    ≤ max_entries g →
  inv now (set_map (HashMap.insert (key_of r) (mkEntry (cap_record (max_ttl g) r)
    (Instant.add now (Duration.from_secs (rec_ttl (cap_record (max_ttl g) r)))) source) m) g).
Proof.
  intros [] Hwf Hsub Hr Hne Hlen. split; simpl; try done; [by apply HashMap.wf_insert|].
  intros k e Hin. apply HashMap.in_insert in Hin as [[He Hk]|Hin]; [|by apply inv_entries0, Hsub].
  simpl in He, Hk. subst e. destruct (cap_record_live (max_ttl g) r Hr inv_cap0 Hne) as (?&?&?).
  split; simpl; try done. by rewrite key_of_cap.
Qed.

Lemma inv_insert_from now r source g :
  record_ok r → inv now g → inv now (insert_from now r source g).2.
Proof.
  intros Hr Hinv. pose proof Hinv as []. unfold insert_from.
  destruct (Z.eqb_spec (rec_ttl (cap_record (max_ttl g) r)) 0) as [H0|H0]; simpl.
  { apply inv_sub; eauto with nmdns.
    - by intros p [? _]%HashMap.in_remove.
    - apply filter_length_le. }
  assert (Hne : rec_ttl r ≠ 0) by (intros Hz; by rewrite cap_record_goodbye in H0).
  pose proof (wf_flush (cap_record (max_ttl g) r) (by_key g) inv_wf0) as Hwf.
  pose proof (len_flush (cap_record (max_ttl g) r) (by_key g)) as Hlf.
  destruct (HashMap.get _ (flush _ _)) as [e|] eqn:Hget; simpl; apply inv_insert; try done.
  - eauto using in_flush.
  - rewrite HashMap.len_insert, decide_True; [lia|].
    unfold HashMap.get in Hget. destruct (HashMap.find _ _); [eauto|done].
  - eauto using wf_make_room.
  - eauto using in_flush, in_make_room.
  - rewrite HashMap.len_insert.
    pose proof (len_make_room (max_entries g) _ Hwf inv_max0 ltac:(lia)).
    case_decide; lia.
Qed.

Lemma inv_evict now t g : inv now g → inv now (evict_expired t g).2.
Proof.
  intros Hinv. pose proof Hinv as []. apply inv_sub; eauto with nmdns.
  - by intros p [? _]%HashMap.in_retain.
  - apply HashMap.len_retain_le.
Qed.

Lemma inv_reachable now g : reachable now g → inv now g.
Proof.
  induction 1; eauto using inv_new, inv_mono, inv_insert_from, inv_evict.
Qed.
(** ** Lookups *)

(** Seconds left, rounded up: what a lookup reports as the TTL. *)
Definition remaining_secs (e : Entry) (now : Instant) : Z :=
  (deadline e - now + (NANOS_PER_SEC - 1)) / NANOS_PER_SEC.

Lemma remaining_secs_pos e now : now < deadline e → 1 ≤ remaining_secs e now.
Proof.
  unfold remaining_secs, NANOS_PER_SEC. intros Hlt.
  apply Z.div_le_lower_bound; lia.
Qed.

Lemma remaining_secs_le e now n :
  deadline e ≤ now + Duration.from_secs n → remaining_secs e now ≤ n.
Proof.
  unfold remaining_secs, Duration.from_secs, NANOS_PER_SEC. intros Hle.
  apply Z.lt_succ_r, Z.div_lt_upper_bound; lia.
Qed.

Lemma ceil_secs d :
  0 ≤ d →
  (if 0 <? Duration.subsec_nanos d then Duration.as_secs d + 1 else Duration.as_secs d)
  = (d + (NANOS_PER_SEC - 1)) / NANOS_PER_SEC.
Proof.
  unfold Duration.subsec_nanos, Duration.as_secs, NANOS_PER_SEC. intros Hd.
  destruct (Z.ltb_spec 0 (d mod 1000000000));
    Z.div_mod_to_equations; lia.
Qed.

Lemma record_with_remaining_ttl_spec e now :
  record_with_remaining_ttl e now =
    if now <? deadline e
    then Some (set_ttl (Z.min (remaining_secs e now) u32_MAX) (record e))
    else None.
Proof.
  unfold record_with_remaining_ttl, Instant.checked_duration_since.
  destruct (Z.leb_spec now (deadline e)) as [Hle|Hgt];
    [|by rewrite (proj2 (Z.ltb_ge _ _)) by lia].
  pose proof (ceil_secs (deadline e - now) ltac:(lia)) as Hc.
  fold (remaining_secs e now) in Hc.
  destruct (Z.ltb_spec now (deadline e)) as [Hlt|Hge].
  - pose proof (remaining_secs_pos e now Hlt) as Hp. unfold u64_saturating_add.
    destruct (0 <? Duration.subsec_nanos (deadline e - now)).
    + rewrite Hc. rewrite (proj2 (Z.eqb_neq _ _)) by (unfold u64_MAX; lia).
      rewrite as_u32_small by (unfold u64_MAX, u32_MAX; lia).
      do 2 f_equal. unfold u64_MAX, u32_MAX. lia.
    + rewrite Hc. rewrite (proj2 (Z.eqb_neq _ _)) by lia.
      by rewrite as_u32_small by (unfold u32_MAX; lia).
  - by replace (deadline e - now) with 0 by lia.
Qed.

Lemma in_lookup_inner now name rtype f g r :
  In r (lookup_inner now name rtype f g) ↔
  ∃ k e, In (k, e) (by_key g) ∧ record_matches (record e) name rtype = true ∧
         f e = true ∧ now < deadline e ∧
         r = set_ttl (Z.min (remaining_secs e now) u32_MAX) (record e).
Proof.
  unfold lookup_inner. rewrite in_iter_filter_map. setoid_rewrite filter_In.
  setoid_rewrite in_map_iff. setoid_rewrite record_with_remaining_ttl_spec. split.
  - intros (e & [([k e'] & <- & Hin) [Hm Hf]%andb_true_iff] & Hr). simpl in *.
    destruct (Z.ltb_spec now (deadline e')); simplify_eq.
    exists k, e'. repeat split; try done.
    eapply Permutation_in; [apply hash_iter_perm|done].
  - intros (k & e & Hin & Hm & Hf & Hlt & ->). exists e. split.
    + split; [|by rewrite Hm, Hf]. exists (k, e). split; [done|].
      eapply Permutation_in; [symmetry; apply hash_iter_perm|done].
    + by rewrite (proj2 (Z.ltb_lt _ _)).
Qed.

(** Dropping entries that have expired does not change what a lookup sees. *)
Lemma lookup_values_retain now now' p (m : HashMap RecordKey Entry) :
  now ≤ now' →
  iter_filter_map (λ e, record_with_remaining_ttl e now')
    (List.filter p (map snd (HashMap.retain (λ _ e, now <? deadline e) m))) =
  iter_filter_map (λ e, record_with_remaining_ttl e now') (List.filter p (map snd m)).
Proof.
  intros Hle. induction m as [|[k e] m IH]; simpl; [done|].
  destruct (Z.ltb_spec now (deadline e)); simpl.
  - destruct (p e); simpl; by rewrite IH.
  - rewrite IH. destruct (p e); simpl; [|done].
    by rewrite record_with_remaining_ttl_spec, (proj2 (Z.ltb_ge _ _)) by lia.
Qed.

Lemma record_matches_name r name rtype :
  record_matches r name rtype = true →
  rec_name r ≡ name ∧ (rtype = RT_ANY ∨ record_type r = rtype).
Proof.
  unfold record_matches. intros [Hn Ht]%andb_true_iff.
  apply orb_true_iff in Ht. rewrite !bool_decide_eq_true in *. done.
Qed.

(** A relayed record answers the question it was looked up for, is alive and
    has lost its cache-flush bit. *)
Lemma in_lookup_from_other_ifaces now name rtype arrival g r :
  In r (lookup_from_other_ifaces now name rtype arrival g) →
  rec_cache_flush r = false ∧ rec_name r ≡ name ∧
  (rtype = RT_ANY ∨ record_type r = rtype) ∧ 1 ≤ rec_ttl r ≤ u32_MAX.
Proof.
  intros (r0 & <- & Hr)%in_map_iff. split; [done|].
  apply in_lookup_inner in Hr as (k & e & _ & Hm & _ & Hlt & ->).
  apply record_matches_name in Hm as [Hn Ht]. split; [done|]. split; [done|]. simpl.
  pose proof (remaining_secs_pos e now Hlt). unfold u32_MAX. lia.
Qed.

(** The bounds every looked-up record satisfies in a consistent cache. *)
Lemma lookup_inner_bounds now now' name rtype f g r :
  inv now g → now ≤ now' → In r (lookup_inner now' name rtype f g) →
  1 ≤ rec_ttl r ≤ u32_MAX ∧
  match max_ttl g with Some c => rec_ttl r ≤ c | None => True end.
Proof.
  intros Hinv Hle (k & e & Hin & _ & _ & Hlt & ->)%in_lookup_inner. simpl.
  destruct (inv_entries _ _ Hinv k e Hin).
  pose proof (remaining_secs_pos e now' Hlt).
  pose proof (remaining_secs_le e now' (rec_ttl (record e)) ltac:(lia)).
  split; [unfold u32_MAX; lia|]. destruct (max_ttl g); [lia|done].
Qed.

(** ** The outcome of [insert_from], branch by branch *)

Lemma insert_from_goodbye now r source g :
  rec_ttl r = 0 →
  insert_from now r source g =
    (match HashMap.get (key_of r) (by_key g) with
     | Some _ => GoodbyeRemoved | None => GoodbyeNoOp end,
     set_map (HashMap.remove (key_of r) (by_key g)) g).
Proof. intros H0. unfold insert_from. rewrite cap_record_goodbye by done. by rewrite H0. Qed.

(** The entry a live record is stored as. *)
Definition stored (now : Instant) (r : DnsRecord) (source : option Z) (g : Inner) : Entry :=
  let r' := cap_record (max_ttl g) r in
  mkEntry r' (now + Duration.from_secs (rec_ttl r'))
    (match source with
     | Some i => Some i
     | None => match HashMap.get (key_of r) (by_key g) with
               | Some e => source_ifindex e
               | None => None
               end
     end).

Lemma insert_from_live now r source g :
  HashMap.wf (by_key g) → record_ok r → cap_ok (max_ttl g) → rec_ttl r ≠ 0 →
  insert_from now r source g =
    let m := flush r (by_key g) in
    match HashMap.get (key_of r) (by_key g) with
    | Some _ => (Refreshed, set_map (HashMap.insert (key_of r) (stored now r source g) m) g)
    | None => (Inserted, set_map (HashMap.insert (key_of r) (stored now r source g)
                           (make_room (max_entries g) m)) g)
    end.
Proof.
  intros Hwf Hr Hc Hne. destruct (cap_record_live (max_ttl g) r Hr Hc Hne) as (Hp & _ & _).
  unfold insert_from, stored. rewrite (proj2 (Z.eqb_neq _ _)) by lia.
  assert (Hfl : ∀ m, flush (cap_record (max_ttl g) r) m = flush r m).
  { intros m. unfold cap_record. by repeat case_match. }
  rewrite Hfl. unfold HashMap.get. rewrite find_flush_self by done.
  destruct (HashMap.find (key_of r) (by_key g)) as [[k e]|]; simpl; [done|].
  by destruct source.
Qed.

Lemma get_insert_from_self now r source g :
  HashMap.wf (by_key g) → record_ok r → cap_ok (max_ttl g) → rec_ttl r ≠ 0 →
  HashMap.get (key_of r) (by_key (insert_from now r source g).2) = Some (stored now r source g).
Proof.
  intros Hwf Hr Hc Hne. rewrite insert_from_live by done. cbv zeta.
  case_match; simpl; rewrite HashMap.get_insert, decide_True; done.
Qed.

(** An entry that a flush removes is a sibling with other data. *)
Lemma flushed_cases r m k k' e :
  HashMap.wf m → HashMap.find k m = Some (k', e) →
  snd <$> HashMap.find k (flush r m) = Some e ∨
  (rec_cache_flush r = true ∧ key_name k ≡ rec_name r ∧ key_rtype k = record_type r ∧
   key_class k = rec_class r ∧ ¬ key_rdata k ≡ rec_data r).
Proof.
  intros Hwf Hf. rewrite find_flush, Hf by done. simpl.
  destruct (rec_cache_flush r); simpl; [|by left].
  destruct (survives_flush r k') eqn:Hs; simpl; [by left|]. right.
  apply HashMap.find_Some in Hf as [_ (Hn & Ht & Hcl & Hd)]. simpl in *.
  unfold survives_flush in Hs. bool_to_prop.
  split_and!; try congruence; [by rewrite Hn|by rewrite Hd].
Qed.

Lemma find_make_room n m k p :
  HashMap.wf m → HashMap.find k m = Some p →
  HashMap.find k (make_room n m) = Some p ∨
  (HashMap.find k (make_room n m) = None ∧ n ≤ Z.of_nat (HashMap.len m) ∧
   ∀ k' e', In (k', e') m → deadline p.2 ≤ deadline e').
Proof.
  intros Hwf Hf. unfold make_room. destruct (Z.leb_spec n (Z.of_nat (HashMap.len m))); [|by left].
  destruct (victim m) as [kv|] eqn:Hv; [|by left].
  destruct (decide (k ≡ kv)) as [Hk|Hk]; [|left; by rewrite HashMap.find_remove_ne].
  right. split; [by apply HashMap.find_remove_eq|]. split; [done|].
  destruct (victim_Some m kv Hv) as (e & Hin & Hmin).
  rewrite (HashMap.find_in_wf k m (kv, e) Hwf Hin Hk) in Hf. by simplify_eq.
Qed.

(** ** Provenance

    [learned r src] holds of the records that were inserted with the source
    [src].  An entry [stems] from them: its content is that of such a record, and
    a source interface is one on which a record with its key was learned. *)

Definition stems (learned : DnsRecord → option Z → Prop) (cap : option Z) (k : RecordKey)
    (e : Entry) : Prop :=
  (∃ r0 src, learned r0 src ∧ record e = cap_record cap r0) ∧
  ∀ i, source_ifindex e = Some i → ∃ r1, learned r1 (Some i) ∧ key_of r1 ≡ k.

Definition all_stem (learned : DnsRecord → option Z → Prop) (g : Inner) : Prop :=
  ∀ k e, In (k, e) (by_key g) → stems learned (max_ttl g) k e.

Lemma all_stem_mono (P Q : DnsRecord → option Z → Prop) g :
  (∀ r src, P r src → Q r src) → all_stem P g → all_stem Q g.
Proof.
  intros HPQ Hg k e Hin. destruct (Hg k e Hin) as [(r0 & src & ? & ?) Hs]. split; [eauto|].
  intros i (r1 & ? & ?)%Hs. eauto.
Qed.

Lemma all_stem_evict learned now g : all_stem learned g → all_stem learned (evict_expired now g).2.
Proof. intros Hg k e [Hin _]%HashMap.in_retain. by apply Hg. Qed.

Lemma all_stem_insert (learned : DnsRecord → option Z → Prop) now r source g :
  learned r source → all_stem learned g → all_stem learned (insert_from now r source g).2.
Proof.
  intros Hr Hg k e. unfold insert_from. destruct (rec_ttl _ =? 0); simpl.
  { intros [Hin _]%HashMap.in_remove. by apply Hg. }
  destruct (HashMap.get (key_of r) (flush _ (by_key g))) as [e0|] eqn:Hget; simpl;
    (intros [[He Hk]|Hin]%HashMap.in_insert;
      [|by eapply Hg, in_flush; eauto using in_make_room]); simpl in He, Hk; subst e;
    (split; [by exists r, source|]); simpl; intros i.
  - destruct source as [i'|]; [intros [= ->]; exists r; by rewrite Hk|].
    apply HashMap.get_in in Hget as (k0 & Hin%in_flush & Hk0). intros Hi.
    destruct (proj2 (Hg k0 e0 Hin) i Hi) as (r1 & Hr1 & Hk1). exists r1.
    by rewrite Hk1, Hk, Hk0.
  - intros ->. exists r. by rewrite Hk.
Qed.

(** What is relayed was learned, with its content, and on another interface. *)
Lemma stems_lookup learned now0 now name rtype arrival g r :
  inv now0 g → all_stem learned g →
  In r (lookup_from_other_ifaces now name rtype arrival g) →
  (∃ r0 src, learned r0 src ∧ rec_name r = rec_name r0 ∧ rec_class r = rec_class r0 ∧
             rec_data r = rec_data r0) ∧
  ∃ i r1, i ≠ arrival ∧ learned r1 (Some i) ∧ key_of r1 ≡ key_of r.
Proof.
  intros Hinv Hg (r0 & <- & Hr)%in_map_iff.
  apply in_lookup_inner in Hr as (k & e & Hin & _ & Hf & _ & ->).
  destruct (Hg k e Hin) as [(r0 & src & Hl & Hrec) Hs]. split.
  - exists r0, src. simpl. rewrite Hrec. unfold cap_record. by repeat case_match.
  - unfold from_other_iface in Hf. destruct (source_ifindex e) as [i|]; [|done].
    destruct (Hs i eq_refl) as (r1 & Hr1 & Hk). exists i, r1.
    apply negb_true_iff, Z.eqb_neq in Hf. split_and!; try done.
    rewrite key_of_set_flush, key_of_set_ttl, Hk. by apply (inv_entries _ _ Hinv).
Qed.
End cache.
End Cache.

(** ** Properties *)

Section properties.
Context `{Hickory} {HI : HashIter}.
Import Cache.

(** C6. In every state a cache can reach, the keys are distinct, the number
    of entries is within the configured capacity, each entry is filed under
    the key of its own record, its TTL is at least one second and within
    the configured cap, and its deadline is at most that TTL away. *)
Theorem cache_reachable_inv now g : Cache.reachable now g → Cache.inv now g.
Proof. apply inv_reachable. Qed.

(** A record with a non-zero TTL is always stored: the outcome tells
    whether its key was present, the stored entry carries the capped TTL and
    deadline and keeps a known source interface, nothing else is added, and
    an entry disappears only because the cache-flush bit replaced it or
    because it had the earliest deadline in a full cache. *)
Theorem insert_from_live_spec now r source g :
  Cache.inv now g → record_ok r → rec_ttl r ≠ 0 →
  let '(o, g') := Cache.insert_from now r source g in
  o = match HashMap.get (key_of r) (Cache.by_key g) with
      | Some _ => Refreshed | None => Inserted end ∧
  HashMap.get (key_of r) (Cache.by_key g') = Some (Cache.stored now r source g) ∧
  (∀ k e, ¬ k ≡ key_of r →
     HashMap.get k (Cache.by_key g') = Some e → HashMap.get k (Cache.by_key g) = Some e) ∧
  (∀ k e, ¬ k ≡ key_of r →
     HashMap.get k (Cache.by_key g) = Some e →
     HashMap.get k (Cache.by_key g') = Some e ∨
     (rec_cache_flush r = true ∧ key_name k ≡ rec_name r ∧ key_rtype k = record_type r ∧
      key_class k = rec_class r ∧ ¬ key_rdata k ≡ rec_data r) ∨
     (o = Inserted ∧
      Cache.max_entries g ≤ Z.of_nat (HashMap.len (Cache.flush r (Cache.by_key g))) ∧
      ∀ k' e', In (k', e') (Cache.flush r (Cache.by_key g)) →
               Cache.deadline e ≤ Cache.deadline e')).
Proof.
  intros [Hwf _ _ Hc _] Hr Hne.
  pose proof (get_insert_from_self now r source g Hwf Hr Hc Hne) as Hself.
  rewrite insert_from_live in Hself |- * by done. cbv zeta in *.
  pose proof (wf_flush r _ Hwf) as Hwf'.
  destruct (HashMap.get (key_of r) (by_key g)) as [e0|] eqn:Hg;
    (split; [done|]; split; [done|]); simpl; unfold HashMap.get; split; intros k e Hk;
    rewrite HashMap.find_insert_ne by done;
    intros ([k' e'] & Hf & ->)%fmap_Some; simpl.
  - rewrite find_flush in Hf by done. cases.
  - destruct (flushed_cases r _ _ _ _ Hwf Hf); auto.
  - apply HashMap.find_Some in Hf as [Hin Hkk].
    apply in_make_room, in_flush in Hin. by rewrite (HashMap.find_in_wf k _ (k', e')).
  - destruct (flushed_cases r _ _ _ _ Hwf Hf) as [([k2 e2] & Hfl & ->)%fmap_Some|Hx]; [|auto].
    destruct (find_make_room (max_entries g) _ k _ Hwf' Hfl) as [->|(_&?&?)]; auto.
Qed.

(** A goodbye (TTL 0) removes exactly the entry of its key, whatever the
    TTL cap is, and reports whether there was one. *)
Theorem insert_from_goodbye_spec now r source g :
  rec_ttl r = 0 →
  let '(o, g') := Cache.insert_from now r source g in
  (o = GoodbyeRemoved ↔ is_Some (HashMap.get (key_of r) (Cache.by_key g))) ∧
  (o = GoodbyeNoOp ↔ HashMap.get (key_of r) (Cache.by_key g) = None) ∧
  ∀ k, HashMap.get k (Cache.by_key g') =
       if decide (k ≡ key_of r) then None else HashMap.get k (Cache.by_key g).
Proof.
  intros H0. rewrite insert_from_goodbye by done. simpl.
  split_and!; [..|intros k; apply HashMap.get_remove];
    case_match; split; try done; try eauto; by intros [? ?].
Qed.

(** After a record with the cache-flush bit is stored, every entry of the
    same name, type and class carries its data: the stale siblings are gone. *)
Theorem cache_flush_replaces now r source g k e :
  Cache.inv now g → record_ok r → rec_ttl r ≠ 0 → rec_cache_flush r = true →
  In (k, e) (Cache.by_key (Cache.insert_from now r source g).2) →
  key_name k ≡ rec_name r → key_rtype k = record_type r → key_class k = rec_class r →
  key_rdata k ≡ rec_data r.
Proof.
  intros [Hwf _ _ Hc _] Hr Hne Hfl Hin Hn Ht Hcl.
  assert (Hcases : k ≡ key_of r ∨ In (k, e) (flush r (by_key g))).
  { rewrite insert_from_live in Hin by done. cbv zeta in Hin.
    case_match; simpl in Hin; apply HashMap.in_insert in Hin as [[_ ?]|?];
      eauto using in_make_room. }
  destruct Hcases as [Hk|Hk]; [apply (key_equiv_rdata _ _ Hk)|].
  unfold flush in Hk. rewrite Hfl in Hk. apply HashMap.in_retain in Hk as [_ Hs].
  unfold survives_flush in Hs. simpl in Hs.
  rewrite !bool_decide_eq_true_2 in Hs by done. simpl in Hs. by bool_to_prop.
Qed.

(** C20. Insert then lookup: until its deadline a stored record is found under
    its name and type (and under ANY) with the seconds left, rounded up, as
    its TTL. *)
Theorem insert_then_lookup now now' r source g rtype :
  Cache.inv now g → record_ok r → rec_ttl r ≠ 0 →
  rtype = record_type r ∨ rtype = RT_ANY →
  now' < Cache.deadline (Cache.stored now r source g) →
  In (set_ttl (Z.min (Cache.remaining_secs (Cache.stored now r source g) now') u32_MAX) r)
     (Cache.lookup now' (rec_name r) rtype (Cache.insert_from now r source g).2).
Proof.
  intros [Hwf _ _ Hc _] Hr Hne Ht Hlt.
  pose proof (get_insert_from_self now r source g Hwf Hr Hc Hne) as Hg.
  apply HashMap.get_in in Hg as (k & Hin & _).
  assert (Hrec : ∀ t, set_ttl t (record (stored now r source g)) = set_ttl t r).
  { intros t. unfold stored, cap_record. simpl. by repeat case_match. }
  apply in_lookup_inner. exists k, (stored now r source g).
  split_and!; try done. unfold record_matches, stored, cap_record. simpl.
  assert (Hm : (rec_name r == rec_name r) = true) by by rewrite bool_decide_eq_true_2.
  apply andb_true_iff. split; [by repeat case_match|].
  apply orb_true_iff. rewrite !bool_decide_eq_true.
  destruct Ht as [->| ->]; [right|by left]. by repeat case_match.
Qed.

(** A lookup returns exactly the live entries that match the name and
    type and pass the source filter, each with its remaining seconds as TTL;
    for a consistent cache these TTLs are between 1 and the configured cap. *)
Theorem lookup_inner_spec now now' name rtype f g :
  Cache.inv now g → now ≤ now' →
  (∀ r, In r (Cache.lookup_inner now' name rtype f g) ↔
     ∃ k e, In (k, e) (Cache.by_key g) ∧ rec_name (Cache.record e) ≡ name ∧
            (rtype = RT_ANY ∨ record_type (Cache.record e) = rtype) ∧
            f e = true ∧ now' < Cache.deadline e ∧
            r = set_ttl (Z.min (Cache.remaining_secs e now') u32_MAX) (Cache.record e)) ∧
  (∀ r, In r (Cache.lookup_inner now' name rtype f g) →
     1 ≤ rec_ttl r ≤ u32_MAX ∧
     match Cache.max_ttl g with Some c => rec_ttl r ≤ c | None => True end).
Proof.
  intros Hinv Hle. split; [|eauto using lookup_inner_bounds].
  intros r. rewrite in_lookup_inner. setoid_rewrite andb_true_iff.
  setoid_rewrite orb_true_iff. setoid_rewrite bool_decide_eq_true.
  split; intros (k & e & Hx); exists k, e; tauto.
Qed.

(** C21. Records relayed to another link: each comes from a live entry learned
    on a known interface other than the one of the query, and none carries
    the cache-flush bit. *)
Theorem lookup_from_other_ifaces_safe now name rtype arrival g r :
  In r (Cache.lookup_from_other_ifaces now name rtype arrival g) →
  rec_cache_flush r = false ∧
  ∃ k e i, In (k, e) (Cache.by_key g) ∧ Cache.source_ifindex e = Some i ∧ i ≠ arrival ∧
           now < Cache.deadline e ∧ key_of r = key_of (Cache.record e).
Proof.
  intros (r0 & <- & Hr)%in_map_iff. split; [done|].
  apply in_lookup_inner in Hr as (k & e & Hin & _ & Hf & Hlt & ->).
  unfold from_other_iface in Hf. destruct (source_ifindex e) as [i|] eqn:Hs; [|done].
  bool_to_prop. by exists k, e, i.
Qed.

(** C38. The sweep removes exactly the expired entries, returns their number,
    and does not change the answer of any later lookup. *)
Theorem evict_expired_spec now g :
  let '(n, g') := Cache.evict_expired now g in
  (n + Cache.len g' = Cache.len g)%nat ∧
  (∀ k e, In (k, e) (Cache.by_key g') ↔ In (k, e) (Cache.by_key g) ∧ now < Cache.deadline e) ∧
  (∀ now' name rtype f, now ≤ now' →
     Cache.lookup_inner now' name rtype f g' ≡ₚ Cache.lookup_inner now' name rtype f g).
Proof.
  simpl. split_and!.
  - pose proof (HashMap.len_retain_le (λ _ e, now <? deadline e) (by_key g)).
    unfold len. simpl. lia.
  - intros k e. rewrite HashMap.in_retain. simpl. by rewrite Z.ltb_lt.
  - intros now' name rtype f Hle. unfold lookup_inner. simpl.
    rewrite (hash_iter_perm (HashMap.retain _ _)), (hash_iter_perm (by_key g)).
    rewrite lookup_values_retain by lia. done.
Qed.

(** Inserting never reports [Rejected]: a full cache always makes room. *)
Theorem insert_never_rejected now r source g :
  (Cache.insert_from now r source g).1 ≠ Rejected.
Proof. unfold insert_from. by repeat case_match. Qed.
End properties.

(** ** Witnesses: the properties at a concrete cache *)

Module CacheSample.
Import Sample.
Definition rec_a : DnsRecord := A_record "printer.local."%string 120 7.
Definition rec_b : DnsRecord := set_cache_flush true (A_record "Printer.LOCAL."%string 4500 8).
Definition bye_a : DnsRecord := set_ttl 0 rec_a.
Definition g0 : Cache.Inner := Cache.with_capacity_and_max_ttl 2 (Some 60).
Definition g1 : Cache.Inner := (Cache.insert_from 5 rec_a (Some 10) g0).2.

Lemma reach_g1 : Cache.reachable 5 g1.
Proof.
  apply Cache.reach_insert; [done|]. apply Cache.reach_new. by vm_compute.
Qed.

Lemma inv_g1 : Cache.inv 5 g1.
Proof. apply Cache.inv_reachable, reach_g1. Qed.

Lemma cache_reachable_inv_witness : Cache.reachable 5 g1 ∧ Cache.inv 5 g1.
Proof. split; [apply reach_g1|]. apply (cache_reachable_inv 5 g1), reach_g1. Defined.

Lemma insert_from_live_spec_witness :
  rec_ttl rec_b ≠ 0 ∧ (Cache.insert_from 5 rec_b (Some 20) g1).1 = Inserted.
Proof.
  split; [done|].
  pose proof (insert_from_live_spec 5 rec_b (Some 20) g1 inv_g1 ltac:(done) ltac:(done)) as Hs.
  destruct (Cache.insert_from 5 rec_b (Some 20) g1) as [o g'].
  destruct Hs as [-> _]. reflexivity.
Defined.

Lemma insert_from_goodbye_spec_witness :
  rec_ttl bye_a = 0 ∧ (Cache.insert_from 6 bye_a None g1).1 = GoodbyeRemoved.
Proof.
  split; [done|]. pose proof (insert_from_goodbye_spec 6 bye_a None g1 eq_refl) as Hs.
  destruct (Cache.insert_from 6 bye_a None g1) as [o g'].
  destruct Hs as [Ho _]. apply Ho. eexists. reflexivity.
Defined.

Lemma cache_flush_replaces_witness :
  ∃ k e, In (k, e) (Cache.by_key (Cache.insert_from 5 rec_b None g1).2) ∧
         key_rdata k ≡ rec_data rec_b.
Proof.
  eexists _, _. split; [by left|].
  apply (cache_flush_replaces 5 rec_b None g1 _ (Cache.stored 5 rec_b None g1));
    [apply inv_g1|done|done|done|by left|done|done|done].
Defined.

Lemma insert_then_lookup_witness :
  In (set_ttl 60 rec_a) (Cache.lookup 5 (rec_name rec_a) RT_A g1).
Proof.
  assert (Hi : Cache.inv 5 g0) by (apply Cache.inv_new; by vm_compute).
  apply (insert_then_lookup 5 5 rec_a (Some 10) g0 RT_A Hi ltac:(done) ltac:(done));
    [by left|done].
Defined.

Lemma lookup_inner_spec_witness :
  Cache.lookup_inner 6 (rec_name rec_a) RT_ANY (λ _, true) g1 = [set_ttl 60 rec_a] ∧
  1 ≤ rec_ttl (set_ttl 60 rec_a) ≤ u32_MAX.
Proof.
  split; [reflexivity|].
  apply (proj2 (lookup_inner_spec 5 6 (rec_name rec_a) RT_ANY (λ _, true) g1
           inv_g1 ltac:(lia)) (set_ttl 60 rec_a)). by left.
Defined.

Lemma lookup_from_other_ifaces_safe_witness :
  rec_cache_flush (set_ttl 60 rec_a) = false ∧
  Cache.lookup_from_other_ifaces 6 (rec_name rec_a) RT_A 10 g1 = [].
Proof.
  split; [|reflexivity].
  apply (lookup_from_other_ifaces_safe 6 (rec_name rec_a) RT_A 11 g1 (set_ttl 60 rec_a)).
  by left.
Defined.
End CacheSample.
