(* ===== verification/CacheSpec.v ===== *)
(** * CacheSpec: what the record cache promises, and that [Cache] keeps it

    The abstract cache is a partial map from record keys to entries, without
    hash tables, orders of iteration or machine integers.  [transition] says,
    for each operation, which answers and which next states are allowed; the
    only freedom is which of the entries with the earliest deadline is displaced
    when a new record arrives at a full cache, and the order of the records of a
    lookup.  [cache_refines_spec] is a forward simulation: every run of the code
    is a run of the specification with the same answers. *)

From S2P Require Import Prelude RustStd StdNet Hickory RecordKey Cache.
From Stdlib Require Import SetoidList SetoidPermutation Permutation.
From stdpp Require Import strings.
Open Scope Z_scope.
Open Scope list_scope.

(** ** Operations and their answers *)

Section operations.
Context `{Hickory} {HI : HashIter}.

(** A lookup is for all interfaces, or relays to the interface [arrival]. *)
Inductive CacheOp :=
| OpInsert (r : DnsRecord) (source : option Z)
| OpEvict
| OpLookup (name : Name) (rtype : RecordType) (arrival : option Z).

Inductive CacheAns :=
| AnsOutcome (o : InsertOutcome)
| AnsCount (n : nat)
| AnsRecords (rs : list DnsRecord).

Definition cache_op (now : Instant) (op : CacheOp) (g : Cache.Inner) : CacheAns * Cache.Inner :=
  match op with
  | OpInsert r source =>
      let '(o, g') := Cache.insert_from now r source g in (AnsOutcome o, g')
  | OpEvict => let '(n, g') := Cache.evict_expired now g in (AnsCount n, g')
  | OpLookup name rtype None => (AnsRecords (Cache.lookup now name rtype g), g)
  | OpLookup name rtype (Some arrival) =>
      (AnsRecords (Cache.lookup_from_other_ifaces now name rtype arrival g), g)
  end.

Fixpoint cache_ops (ops : list (Instant * CacheOp)) (g : Cache.Inner)
    : list CacheAns * Cache.Inner :=
  match ops with
  | [] => ([], g)
  | (now, op) :: ops =>
      let '(a, g1) := cache_op now op g in
      let '(l, g2) := cache_ops ops g1 in (a :: l, g2)
  end.

(** What comes from the wire has 32-bit TTLs. *)
Definition op_ok (op : CacheOp) : Prop :=
  match op with OpInsert r _ => record_ok r | _ => True end.

(** The clock does not go back. *)
Fixpoint timed (now : Instant) (ops : list (Instant * CacheOp)) : Prop :=
  match ops with
  | [] => True
  | (t, _) :: ops => now ≤ t ∧ timed t ops
  end.
End operations.

(** ** The specification *)

Section specification.
Context `{Hickory} {HI : HashIter}.

Definition AbsCache : Type := RecordKey → option Cache.Entry.

(** [P] holds of exactly [n] keys. *)
Definition counts (P : RecordKey → Prop) (n : nat) : Prop :=
  ∃ ks, NoDupA (≡) ks ∧ (∀ k, InA (≡) k ks ↔ P k) ∧ length ks = n.

(** The records that a record with the cache-flush bit replaces: same name,
    type and class, other data. *)
Definition superseded (r : DnsRecord) (k : RecordKey) : Prop :=
  rec_cache_flush r = true ∧ key_name k ≡ rec_name r ∧ key_rtype k = record_type r ∧
  key_class k = rec_class r ∧ ¬ key_rdata k ≡ rec_data r.

(** The entry for a record learned at [now], with the TTL cap [cap]. *)
Definition entry_for (cap : option Z) (now : Instant) (r : DnsRecord) (source : option Z)
    : Cache.Entry :=
  let ttl := match cap with Some c => Z.min (rec_ttl r) c | None => rec_ttl r end in
  Cache.mkEntry (set_ttl ttl r) (now + Duration.from_secs ttl) source.

(** [a'] is [a] with [x] stored for [r] and the keys [gone] removed. *)
Record stores (r : DnsRecord) (x : Cache.Entry) (gone : RecordKey → Prop) (a a' : AbsCache)
    : Prop := {
  stores_new : ∀ k, k ≡ key_of r → a' k = Some x;
  stores_gone : ∀ k, ¬ k ≡ key_of r → gone k → a' k = None;
  stores_old : ∀ k, ¬ k ≡ key_of r → ¬ gone k → a' k = a k;
}.

(** What a query sees of an entry. *)
Definition visible (now : Instant) (name : Name) (rtype : RecordType) (arrival : option Z)
    (e : Cache.Entry) : Prop :=
  rec_name (Cache.record e) ≡ name ∧
  (rtype = RT_ANY ∨ record_type (Cache.record e) = rtype) ∧ now < Cache.deadline e ∧
  match arrival with
  | None => True
  | Some i => ∃ j, Cache.source_ifindex e = Some j ∧ j ≠ i
  end.

(** The seconds left, rounded up, are its TTL; a relayed record is not unique
    on the other link. *)
Definition shown (now : Instant) (arrival : option Z) (e : Cache.Entry) : DnsRecord :=
  let r := set_ttl ((Cache.deadline e - now + (NANOS_PER_SEC - 1)) / NANOS_PER_SEC)
             (Cache.record e) in
  match arrival with None => r | Some _ => set_cache_flush false r end.

(** The allowed transitions of a cache of at most [limit] entries. *)
Inductive transition (limit : Z) (cap : option Z) (now : Instant)
    : CacheOp → AbsCache → CacheAns → AbsCache → Prop :=
| tr_goodbye r source a a' :
    rec_ttl r = 0 →
    (∀ k, k ≡ key_of r → a' k = None) → (∀ k, ¬ k ≡ key_of r → a' k = a k) →
    transition limit cap now (OpInsert r source) a
      (AnsOutcome (match a (key_of r) with Some _ => GoodbyeRemoved | None => GoodbyeNoOp end)) a'
| tr_refresh r source a a' e :
    rec_ttl r ≠ 0 → a (key_of r) = Some e →
    stores r (entry_for cap now r
                (match source with Some i => Some i | None => Cache.source_ifindex e end))
      (superseded r) a a' →
    transition limit cap now (OpInsert r source) a (AnsOutcome Refreshed) a'
| tr_insert r source a a' n :
    rec_ttl r ≠ 0 → a (key_of r) = None →
    counts (λ k, is_Some (a k) ∧ ¬ superseded r k) n → Z.of_nat n < limit →
    stores r (entry_for cap now r source) (superseded r) a a' →
    transition limit cap now (OpInsert r source) a (AnsOutcome Inserted) a'
| tr_displace r source a a' n v ev :
    rec_ttl r ≠ 0 → a (key_of r) = None →
    counts (λ k, is_Some (a k) ∧ ¬ superseded r k) n → limit ≤ Z.of_nat n →
    a v = Some ev → ¬ superseded r v →
    (∀ k e, a k = Some e → ¬ superseded r k → Cache.deadline ev ≤ Cache.deadline e) →
    stores r (entry_for cap now r source) (λ k, superseded r k ∨ k ≡ v) a a' →
    transition limit cap now (OpInsert r source) a (AnsOutcome Inserted) a'
| tr_evict a a' n :
    counts (λ k, ∃ e, a k = Some e ∧ Cache.deadline e ≤ now) n →
    (∀ k, a' k = match a k with
                 | Some e => if now <? Cache.deadline e then Some e else None
                 | None => None
                 end) →
    transition limit cap now OpEvict a (AnsCount n) a'
| tr_lookup name rtype arrival a ks rs :
    NoDupA (≡) ks →
    (∀ k, InA (≡) k ks ↔ ∃ e, a k = Some e ∧ visible now name rtype arrival e) →
    Forall2 (λ k r, ∃ e, a k = Some e ∧ r = shown now arrival e) ks rs →
    transition limit cap now (OpLookup name rtype arrival) a (AnsRecords rs) a.

(** Runs of the specification. *)
Inductive spec_run (limit : Z) (cap : option Z)
    : AbsCache → list (Instant * CacheOp) → list CacheAns → AbsCache → Prop :=
| run_nil a : spec_run limit cap a [] [] a
| run_cons now op ops ans l a a1 a2 :
    transition limit cap now op a ans a1 → spec_run limit cap a1 ops l a2 →
    spec_run limit cap a ((now, op) :: ops) (ans :: l) a2.

(** The abstraction. *)
Definition view (g : Cache.Inner) : AbsCache := λ k, HashMap.get k (Cache.by_key g).
End specification.

(** ** Counting the keys of a hash table *)

Section counting.
Context `{Hickory} {HI : HashIter}.

Lemma counts_iff (P Q : RecordKey → Prop) n : (∀ k, P k ↔ Q k) → counts P n → counts Q n.
Proof. intros Hpq (ks & Hd & Hk & Hn). exists ks. setoid_rewrite <- Hpq. done. Qed.

Lemma InA_keys {V} (m : HashMap RecordKey V) k :
  InA (≡) k (map fst m) ↔ ∃ p, In p m ∧ k ≡ p.1.
Proof.
  rewrite InA_alt. setoid_rewrite in_map_iff. split.
  - intros (k' & Hk & p & <- & Hp). eauto.
  - intros (p & Hp & Hk). eauto 10.
Qed.

Lemma NoDupA_keys {V} (m : HashMap RecordKey V) : HashMap.wf m → NoDupA (≡) (map fst m).
Proof.
  induction m as [|[k v] m IH]; simpl; [constructor|]. intros [Hn Hwf]. constructor; [|auto].
  rewrite InA_keys. intros (p & Hp & Hk). by apply (proj1 (HashMap.find_None k m) Hn p Hp).
Qed.

Lemma get_is_Some {V} (m : HashMap RecordKey V) k :
  is_Some (HashMap.get k m) ↔ ∃ p, In p m ∧ k ≡ p.1.
Proof.
  unfold HashMap.get. rewrite fmap_is_Some. split; [|apply HashMap.find_is_Some].
  intros [p Hp%HashMap.find_Some]. eauto.
Qed.

Lemma counts_keys {V} (m : HashMap RecordKey V) :
  HashMap.wf m → counts (λ k, is_Some (HashMap.get k m)) (HashMap.len m).
Proof.
  intros Hwf. exists (map fst m). split; [by apply NoDupA_keys|]. split.
  - intros k. by rewrite InA_keys, get_is_Some.
  - apply List.length_map.
Qed.

(** The pairs of a table that satisfy [f], in the order of a visit. *)
Lemma visit_keys {V} (f : RecordKey * V → bool) (m : HashMap RecordKey V) :
  HashMap.wf m →
  let l := List.filter f (hash_iter m) in
  NoDupA (≡) (map fst l) ∧
  (∀ p, In p l ↔ In p m ∧ f p = true) ∧
  Forall (λ p, HashMap.get p.1 m = Some p.2) l.
Proof.
  intros Hwf l.
  assert (Hin : ∀ p, In p l ↔ In p m ∧ f p = true).
  { intros p. unfold l. rewrite filter_In. split; intros [Hp ?]; (split; [|done]).
    - by eapply Permutation_in; [apply hash_iter_perm|].
    - by eapply Permutation_in; [symmetry; apply hash_iter_perm|]. }
  split_and!; [|done|].
  - assert (Hd : NoDupA (≡) (map fst (hash_iter m))).
    { eapply (PermutationA_preserves_NoDupA _ (l₁ := map fst m)); [|by apply NoDupA_keys].
      apply (Permutation_PermutationA _). by rewrite hash_iter_perm. }
    unfold l. clear l Hin. induction (hash_iter m) as [|p l IH]; simpl in *; [done|].
    inversion Hd as [|? ? Hn Hd']; subst. case_match; simpl; [|auto]. constructor; [|auto].
    rewrite InA_keys in *. intros (q & [Hq _]%filter_In & Hk). eauto.
  - apply Forall_forall. intros [k v] Hp. rewrite list_elem_of_In in Hp.
    apply Hin in Hp as [Hp _]. by eapply HashMap.get_in_wf.
Qed.
End counting.

(** ** Simulation *)

Section simulation.
Context `{Hickory} {HI : HashIter}.
Import Cache.

Lemma superseded_dec r k :
  rec_cache_flush r && negb (survives_flush r k) = true ↔ superseded r k.
Proof.
  unfold superseded, survives_flush. rewrite negb_involutive, !andb_true_iff, negb_true_iff.
  rewrite !bool_decide_eq_true, bool_decide_eq_false. tauto.
Qed.

Lemma superseded_proper r k k' : k ≡ k' → superseded r k → superseded r k'.
Proof.
  intros (Hn & Ht & Hc & Hd) (Hf & Hn' & Ht' & Hc' & Hd'). unfold superseded.
  split_and!; [done| |congruence|congruence|].
  - by rewrite <- Hn.
  - by rewrite <- Hd.
Qed.

Lemma superseded_self r k : k ≡ key_of r → ¬ superseded r k.
Proof. intros (_ & _ & _ & Hd) (_ & _ & _ & _ & Hn). by apply Hn. Qed.

Lemma get_flush r m k :
  HashMap.wf m →
  (superseded r k → HashMap.get k (flush r m) = None) ∧
  (¬ superseded r k → HashMap.get k (flush r m) = HashMap.get k m).
Proof.
  intros Hwf. unfold HashMap.get. rewrite find_flush by done.
  destruct (HashMap.find k m) as [p|] eqn:Hp; [|done].
  apply HashMap.find_Some in Hp as [_ Hk].
  destruct (rec_cache_flush r && negb (survives_flush r p.1)) eqn:Hs.
  - apply superseded_dec in Hs. split; [done|]. intros Hn. destruct Hn.
    by eapply superseded_proper.
  - split; [|done]. intros Hk'. apply (superseded_proper _ _ _ Hk), superseded_dec in Hk'.
    congruence.
Qed.

Lemma counts_flush r m :
  HashMap.wf m →
  counts (λ k, is_Some (HashMap.get k m) ∧ ¬ superseded r k) (HashMap.len (flush r m)).
Proof.
  intros Hwf. eapply counts_iff; [|by apply counts_keys, wf_flush]. intros k. simpl.
  destruct (get_flush r m k Hwf) as [Hs Hn].
  destruct (rec_cache_flush r && negb (survives_flush r k)) eqn:Hd.
  - apply superseded_dec in Hd. rewrite Hs by done. split; [by intros [? ?]|tauto].
  - assert (¬ superseded r k) by (rewrite <- superseded_dec; congruence).
    rewrite Hn by done. tauto.
Qed.

Lemma stored_entry now r source g :
  record_ok r → cap_ok (max_ttl g) → rec_ttl r ≠ 0 →
  stored now r source g =
  entry_for (max_ttl g) now r
    (match source with
     | Some i => Some i
     | None => match HashMap.get (key_of r) (by_key g) with
               | Some e => source_ifindex e
               | None => None
               end
     end).
Proof.
  unfold record_ok, stored, entry_for, cap_record. intros Hr Hc Hne.
  rewrite (proj2 (Z.ltb_lt _ _)) by lia. destruct r, (max_ttl g) as [c|]; simpl in *; [|done].
  by rewrite as_u32_small by lia.
Qed.

Lemma sim_goodbye limit cap now r source g :
  rec_ttl r = 0 →
  transition limit cap now (OpInsert r source) (view g)
    (cache_op now (OpInsert r source) g).1 (view (cache_op now (OpInsert r source) g).2).
Proof.
  intros H0. unfold cache_op. rewrite insert_from_goodbye by done. simpl.
  apply (tr_goodbye limit cap now r source (view g)); [done|..]; unfold view; simpl; intros k Hk; rewrite HashMap.get_remove.
  - by rewrite decide_True.
  - by rewrite decide_False.
Qed.

(** Storing into the flushed table. *)
Lemma stores_flush r x m :
  HashMap.wf m →
  stores r x (superseded r) (λ k, HashMap.get k m)
    (λ k, HashMap.get k (HashMap.insert (key_of r) x (flush r m))).
Proof.
  intros Hwf. split; intros k Hk; rewrite HashMap.get_insert.
  - by rewrite decide_True.
  - rewrite decide_False by done. apply get_flush. done.
  - rewrite decide_False by done. apply get_flush. done.
Qed.

Lemma stores_displace r x m v :
  HashMap.wf m →
  stores r x (λ k, superseded r k ∨ k ≡ v) (λ k, HashMap.get k m)
    (λ k, HashMap.get k (HashMap.insert (key_of r) x (HashMap.remove v (flush r m)))).
Proof.
  intros Hwf. split; intros k Hk; rewrite HashMap.get_insert, ?HashMap.get_remove.
  - by rewrite decide_True.
  - rewrite decide_False by done. intros [Hs|Hv]; [|by rewrite decide_True].
    case_decide; [done|]. by apply get_flush.
  - intros Hn. rewrite !decide_False by tauto. apply get_flush; tauto.
Qed.

Lemma sim_live now r source g :
  inv now g → record_ok r → rec_ttl r ≠ 0 →
  transition (max_entries g) (max_ttl g) now (OpInsert r source) (view g)
    (cache_op now (OpInsert r source) g).1 (view (cache_op now (OpInsert r source) g).2).
Proof.
  intros [Hwf _ Hmax Hc _] Hr Hne. unfold cache_op, view.
  pose proof (stored_entry now r source g Hr Hc Hne) as Hst.
  rewrite insert_from_live by done. cbv zeta.
  destruct (HashMap.get (key_of r) (by_key g)) as [e|] eqn:Hg; simpl.
  { eapply tr_refresh; [done..|]. rewrite Hst. by apply stores_flush. }
  assert (Hs : stored now r source g = entry_for (max_ttl g) now r source)
    by (rewrite Hst; by destruct source).
  rewrite Hs. unfold make_room.
  destruct (Z.leb_spec (max_entries g) (Z.of_nat (HashMap.len (flush r (by_key g))))).
  2:{ eapply tr_insert; [done..|by apply counts_flush|done|by apply stores_flush]. }
  destruct (victim (flush r (by_key g))) as [v|] eqn:Hv.
  2:{ apply victim_None in Hv. rewrite Hv in *. unfold HashMap.len in *. simpl in *. lia. }
  destruct (victim_Some _ _ Hv) as (ev & Hin & Hmin).
  pose proof (wf_flush r _ Hwf) as Hwf'.
  assert (Hget : HashMap.get v (flush r (by_key g)) = Some ev) by by eapply HashMap.get_in_wf.
  assert (Hns : ¬ superseded r v)
    by (intros Hsup; by rewrite (proj1 (get_flush r _ v Hwf) Hsup) in Hget).
  eapply (tr_displace _ _ _ _ _ _ _ _ v ev);
    [done..|by apply counts_flush|done| |done| |by apply stores_displace].
  - by rewrite <- (proj2 (get_flush r _ v Hwf) Hns).
  - intros k e Hk Hnk. rewrite <- (proj2 (get_flush r _ k Hwf) Hnk) in Hk.
    apply HashMap.get_in in Hk as (k' & Hk' & _). by eapply Hmin.
Qed.

Lemma get_retain_value {V} (q : V → bool) (m : HashMap RecordKey V) k :
  HashMap.wf m →
  HashMap.get k (HashMap.retain (λ _ v, q v) m) =
    match HashMap.get k m with Some v => if q v then Some v else None | None => None end.
Proof.
  intros Hwf. unfold HashMap.get. rewrite HashMap.get_retain by done.
  destruct (HashMap.find k m) as [[k' v]|]; simpl; [|done]. by destruct (q v).
Qed.

Lemma sim_evict now g :
  HashMap.wf (by_key g) →
  transition (max_entries g) (max_ttl g) now OpEvict (view g)
    (cache_op now OpEvict g).1 (view (cache_op now OpEvict g).2).
Proof.
  intros Hwf. simpl. apply tr_evict.
  - pose proof (counts_keys (HashMap.retain (λ _ e, negb (now <? deadline e)) (by_key g))
      (HashMap.wf_retain _ _ Hwf)) as Hc.
    replace (HashMap.len (by_key g) - _)%nat
      with (HashMap.len (HashMap.retain (λ _ e, negb (now <? deadline e)) (by_key g))).
    + eapply counts_iff; [|exact Hc]. intros k. simpl.
      rewrite (get_retain_value (λ e, negb (now <? deadline e))) by done. unfold view.
      destruct (HashMap.get k (by_key g)) as [e|]; [|naive_solver].
      destruct (Z.ltb_spec now (deadline e)); simpl; split.
      * by intros [? ?].
      * intros (? & [= <-] & ?). lia.
      * intros _. exists e. split; [done|lia].
      * by eexists.
    + unfold HashMap.len, HashMap.retain.
      pose proof (List.filter_length (λ p : RecordKey * Entry, now <? deadline p.2) (by_key g)) as Hl.
      cbv beta in *. lia.
  - intros k. unfold view. simpl. by apply (get_retain_value (λ e, now <? deadline e)).
Qed.

(** A lookup as a visit of the table. *)
Lemma lookup_inner_visit now name rtype f g :
  lookup_inner now name rtype f g =
  map (λ p, set_ttl (Z.min (remaining_secs p.2 now) u32_MAX) (record p.2))
    (List.filter (λ p, record_matches (record p.2) name rtype && f p.2 && (now <? deadline p.2))
       (hash_iter (by_key g))).
Proof.
  unfold lookup_inner. induction (hash_iter (by_key g)) as [|[k e] l IH]; simpl; [done|].
  destruct (record_matches (record e) name rtype && f e); simpl; [|exact IH].
  rewrite record_with_remaining_ttl_spec. destruct (now <? deadline e); simpl; by rewrite IH.
Qed.

Definition source_ok (arrival : option Z) (e : Entry) : bool :=
  match arrival with None => true | Some i => from_other_iface i e end.

Definition strip (arrival : option Z) (r : DnsRecord) : DnsRecord :=
  match arrival with None => r | Some _ => set_cache_flush false r end.

Lemma lookup_op now name rtype arrival g :
  cache_op now (OpLookup name rtype arrival) g =
  (AnsRecords (map (strip arrival) (lookup_inner now name rtype (source_ok arrival) g)), g).
Proof. destruct arrival; simpl; [done|]. by rewrite List.map_id. Qed.

Lemma visible_iff now name rtype arrival e :
  record_matches (record e) name rtype && source_ok arrival e && (now <? deadline e) = true ↔
  visible now name rtype arrival e.
Proof.
  unfold visible, record_matches, source_ok, from_other_iface.
  rewrite !andb_true_iff, orb_true_iff, !bool_decide_eq_true, Z.ltb_lt.
  destruct arrival as [i|]; [|tauto]. destruct (source_ifindex e) as [j|].
  - rewrite negb_true_iff, Z.eqb_neq. naive_solver.
  - naive_solver.
Qed.

Lemma sim_lookup now now' name rtype arrival g :
  inv now g → now ≤ now' →
  transition (max_entries g) (max_ttl g) now' (OpLookup name rtype arrival) (view g)
    (cache_op now' (OpLookup name rtype arrival) g).1 (view g).
Proof.
  intros [Hwf _ _ _ He] Hle. rewrite lookup_op, lookup_inner_visit. simpl.
  destruct (visit_keys (λ p, record_matches (record p.2) name rtype && source_ok arrival p.2
    && (now' <? deadline p.2)) (by_key g) Hwf) as (Hd & Hin & Hget).
  eapply tr_lookup; [exact Hd|..].
  - intros k. rewrite InA_keys. setoid_rewrite Hin. setoid_rewrite visible_iff. split.
    + intros ([k' e] & [Hp Hv] & Hk). exists e. split; [|done]. by eapply HashMap.get_in_wf.
    + intros (e & (k' & Hk' & Hk)%HashMap.get_in & Hv). by exists (k', e).
  - set (l := List.filter _ _) in *. clearbody l.
    assert (Hb : Forall (λ p, Z.min (remaining_secs p.2 now') u32_MAX = remaining_secs p.2 now') l).
    { apply Forall_forall. intros [k e] Hp. rewrite list_elem_of_In in Hp.
      apply Hin in Hp as [Hp _]. destruct (He k e Hp). simpl.
      pose proof (remaining_secs_le e now' (rec_ttl (record e)) ltac:(lia)). lia. }
    clear Hin Hd. induction l as [|p l IH]; simpl; constructor.
    + inversion Hget; inversion Hb; subst. exists p.2. split; [done|].
      match goal with Hm : Z.min _ _ = _ |- _ => rewrite Hm end. by destruct arrival.
    + inversion Hget; inversion Hb; subst. auto.
Qed.

Lemma sim_op now now' op g :
  inv now g → now ≤ now' → op_ok op →
  transition (max_entries g) (max_ttl g) now' op (view g)
    (cache_op now' op g).1 (view (cache_op now' op g).2) ∧ inv now' (cache_op now' op g).2 ∧
  max_entries (cache_op now' op g).2 = max_entries g ∧ max_ttl (cache_op now' op g).2 = max_ttl g.
Proof.
  intros Hi Hle Hop. pose proof (inv_mono _ _ _ Hle Hi) as Hi'.
  destruct op as [r source| |name rtype arrival].
  - split; [|split].
    + destruct (decide (rec_ttl r = 0)); [by apply sim_goodbye|by apply sim_live].
    + pose proof (inv_insert_from now' r source g Hop Hi') as Hn. simpl.
      by destruct (insert_from now' r source g).
    + simpl. destruct (insert_from now' r source g) as [o g'] eqn:Hg.
      unfold insert_from in Hg. repeat case_match; by simplify_eq.
  - split; [apply sim_evict; by destruct Hi|]. split; [|done].
    exact (inv_evict now' now' g Hi').
  - pose proof (sim_lookup now now' name rtype arrival g Hi Hle) as Ht.
    rewrite lookup_op in *. done.
Qed.

Lemma sim_ops now ops g :
  inv now g → timed now ops → Forall op_ok (map snd ops) →
  spec_run (max_entries g) (max_ttl g) (view g) ops
    (cache_ops ops g).1 (view (cache_ops ops g).2).
Proof.
  revert now g; induction ops as [|[t op] ops IH]; intros now g Hi; simpl; [constructor|].
  intros [Hle Ht] Hok. inversion Hok as [|? ? Hop Hok']; subst.
  destruct (sim_op now t op g Hi Hle Hop) as (Htr & Hi' & Hm & Hc).
  destruct (cache_op t op g) as [ans g1]. simpl in *.
  specialize (IH t g1 Hi' Ht Hok'). rewrite Hm, Hc in IH.
  destruct (cache_ops ops g1) as [l g2]. by econstructor.
Qed.
End simulation.

(** ** Properties *)

Section properties.
Context `{Hickory} {HI : HashIter}.

(** C3. The cache implements its specification: for every sequence of inserts,
    sweeps and lookups under a clock that does not go back, starting from an
    empty cache, the answers of the code are those of a run of the abstract
    cache, which ends in the abstraction of the final state. *)
Theorem cache_refines_spec max_entries max_ttl now ops :
  Cache.cap_ok max_ttl → timed now ops → Forall op_ok (map snd ops) →
  let '(answers, g) := cache_ops ops (Cache.with_capacity_and_max_ttl max_entries max_ttl) in
  spec_run (Z.max max_entries 1) max_ttl (λ _, None) ops answers
    (λ k, HashMap.get k (Cache.by_key g)).
Proof.
  intros Hc Ht Hok.
  pose proof (sim_ops now ops _ (Cache.inv_new now max_entries max_ttl Hc) Ht Hok) as Hs.
  by destruct (cache_ops ops _) as [answers g].
Qed.
End properties.

Module CacheSpecSample.
Import Sample CacheSample.

(** A full cache: the second record displaces the first. *)
Definition ops : list (Instant * CacheOp) :=
  [(5, OpInsert rec_a (Some 10)); (6, OpInsert (A_record "scanner.local." 120 9) None);
   (7, OpLookup (name "scanner.local.") RT_ANY None); (8, OpEvict)].

Lemma cache_refines_spec_witness :
  ∃ answers a, length answers = 4%nat ∧ spec_run 1 (Some 60) (λ _, None) ops answers a.
Proof.
  exists (cache_ops ops (Cache.with_capacity_and_max_ttl 1 (Some 60))).1.
  assert (Hok : Forall op_ok (map snd ops)) by (repeat constructor; by vm_compute).
  assert (Ht : timed 0 ops) by (vm_compute; intuition congruence).
  pose proof (cache_refines_spec 1 (Some 60) 0 ops ltac:(by vm_compute) Ht Hok) as Hs.
  destruct (cache_ops ops (Cache.with_capacity_and_max_ttl 1 (Some 60))) as [answers g] eqn:He.
  eexists. split; [|exact Hs].
  change answers with (answers, g).1. rewrite <- He. vm_compute. reflexivity.
Defined.
End CacheSpecSample.
