(* ===== verification/Timing.v ===== *)
(** * Timing: rate limiting and randomized delays ([src/timing.rs])

    The map behind the mutex of [MulticastTracker] is an association from
    (interface index, record key) to the instant of the last multicast; each
    method is a function of it and of its reading of the clock.  A random
    number drawn with [fastrand::u64(lo..=hi)] is the value of a parameter
    [draw lo hi], known only to lie in the range ([rng_ok]). *)

From S2P Require Import Prelude RustStd StdNet Hickory RecordKey.
From stdpp Require Import strings.
Open Scope Z_scope.

Definition MIN_MULTICAST_INTERVAL : Duration := Duration.from_secs 1.
Definition PROBE_DEFENSE_INTERVAL : Duration := Duration.from_millis 250.
Definition ANNOUNCE_GAP : Duration := Duration.from_secs 1.
Definition PROBE_INTERVAL : Duration := Duration.from_millis 250.
Definition PROBE_INITIAL_MAX : Duration := Duration.from_millis 250.

(** ** Delays *)

Inductive DelayClass := ProbeDefense | UniqueAnswer | Shared | Truncated.

#[export] Instance DelayClass_eq_dec : EqDecision DelayClass.
Proof. solve_decision. Defined.

(** What [fastrand::u64(lo..=hi)] promises. *)
Definition rng_ok (draw : Z → Z → Z) : Prop :=
  ∀ lo hi, lo ≤ hi → lo ≤ draw lo hi ≤ hi.

Definition response_delay (draw : Z → Z → Z) (class : DelayClass) : Duration :=
  match class with
  | ProbeDefense | UniqueAnswer => Duration.from_millis 0
  | Shared => Duration.from_millis (draw 20 120)
  | Truncated => Duration.from_millis (draw 400 500)
  end.

Definition jitter_0_to_max (draw : Z → Z → Z) (max : Duration) : Duration :=
  Duration.from_millis (draw 0 (Duration.as_millis max mod 2 ^ 64)).

Definition first_query_jitter (draw : Z → Z → Z) : Duration :=
  Duration.from_millis (draw 20 120).

(** The range each delay class draws from. *)
Definition delay_range (class : DelayClass) : Duration * Duration :=
  match class with
  | ProbeDefense | UniqueAnswer => (0, 0)
  | Shared => (Duration.from_millis 20, Duration.from_millis 120)
  | Truncated => (Duration.from_millis 400, Duration.from_millis 500)
  end.

Lemma response_delay_range draw class :
  rng_ok draw → (delay_range class).1 ≤ response_delay draw class ≤ (delay_range class).2.
Proof.
  intros Hr. unfold response_delay, delay_range, Duration.from_millis, NANOS_PER_MILLI.
  pose proof (Hr 20 120 ltac:(lia)). pose proof (Hr 400 500 ltac:(lia)).
  destruct class; simpl; lia.
Qed.

Lemma jitter_range draw max :
  rng_ok draw → 0 ≤ max < Duration.from_millis (2 ^ 64) → 0 ≤ jitter_0_to_max draw max ≤ max.
Proof.
  unfold jitter_0_to_max, Duration.from_millis, Duration.as_millis, NANOS_PER_MILLI.
  intros Hr Hmax.
  assert (Hs : max / 1000000 mod 2 ^ 64 = max / 1000000).
  { apply Z.mod_small. split; [apply Z.div_pos; lia|apply Z.div_lt_upper_bound; lia]. }
  rewrite Hs. pose proof (Hr 0 (max / 1000000) (Z.div_pos max 1000000 ltac:(lia) ltac:(lia))).
  pose proof (Z.mul_div_le max 1000000 ltac:(lia)). lia.
Qed.

(** ** The rate limiter *)

Section tracker.
Context `{Hickory}.

Definition TrackKey : Type := Z * RecordKey.

#[export] Instance TrackKey_equiv : Equiv TrackKey := λ a b, a.1 = b.1 ∧ a.2 ≡ b.2.

#[export] Instance TrackKey_dec : RelDecision (≡@{TrackKey}).
Proof. intros a b. unfold equiv, TrackKey_equiv. apply _. Defined.

#[export] Instance TrackKey_equivalence : Equivalence (≡@{TrackKey}).
Proof.
  split; unfold equiv, TrackKey_equiv.
  - by intros a.
  - intros a b [? ?]. by split.
  - intros a b c [? ?] [? ?]. split; [congruence|by etrans].
Qed.

Definition MulticastTracker : Type := HashMap TrackKey Instant.

Definition track_key (ifindex : Z) (r : DnsRecord) : TrackKey := (ifindex, key_of r).
End tracker.

Module MulticastTracker.
Section ops.
Context `{Hickory}.

Definition new : MulticastTracker := HashMap.empty.

Definition mark (now : Instant) (ifindex : Z) (r : DnsRecord) (t : MulticastTracker)
    : MulticastTracker :=
  HashMap.insert (track_key ifindex r) now t.

Definition len (t : MulticastTracker) : nat := HashMap.len t.
Definition is_empty (t : MulticastTracker) : bool := (len t =? 0)%nat.

Definition prune_older_than (now : Instant) (min_interval : Duration) (t : MulticastTracker)
    : MulticastTracker :=
  HashMap.retain (λ _ s, Instant.duration_since now s <? min_interval) t.

Definition allows (now : Instant) (ifindex : Z) (r : DnsRecord) (min_interval : Duration)
    (t : MulticastTracker) : bool :=
  match HashMap.get (track_key ifindex r) t with
  | Some s => min_interval <=? Instant.duration_since now s
  | None => true
  end.

Definition check_and_mark (now : Instant) (ifindex : Z) (r : DnsRecord)
    (min_interval : Duration) (t : MulticastTracker) : bool * MulticastTracker :=
  let key := track_key ifindex r in
  match HashMap.get key t with
  | Some s => if Instant.duration_since now s <? min_interval then (false, t)
              else (true, HashMap.insert key now t)
  | None => (true, HashMap.insert key now t)
  end.

Lemma wf_mark now i r t : HashMap.wf t → HashMap.wf (mark now i r t).
Proof. apply HashMap.wf_insert. Qed.

Lemma wf_prune now iv t : HashMap.wf t → HashMap.wf (prune_older_than now iv t).
Proof. apply HashMap.wf_retain. Qed.

Lemma wf_check now i r iv t : HashMap.wf t → HashMap.wf (check_and_mark now i r iv t).2.
Proof. unfold check_and_mark. intros ?. repeat case_match; simpl; try apply HashMap.wf_insert; done. Qed.

Lemma get_prune now iv k (t : MulticastTracker) :
  HashMap.wf t →
  HashMap.get k (prune_older_than now iv t) =
    match HashMap.get k t with
    | Some s => if Instant.duration_since now s <? iv then Some s else None
    | None => None
    end.
Proof.
  intros Hwf. unfold HashMap.get, prune_older_than. rewrite HashMap.get_retain by done.
  destruct (HashMap.find k t) as [[k' s]|]; simpl; [|done]. by case_match.
Qed.

Lemma check_and_mark_allows now i r iv t :
  check_and_mark now i r iv t =
    if allows now i r iv t then (true, mark now i r t) else (false, t).
Proof.
  unfold check_and_mark, allows, mark.
  destruct (HashMap.get (track_key i r) t) as [s|]; [|done].
  destruct (Z.ltb_spec (Instant.duration_since now s) iv),
    (Z.leb_spec iv (Instant.duration_since now s)); done || lia.
Qed.

(** ** Executions of the shared tracker

    A grant is a permission to multicast: a [mark] or a successful
    [check_and_mark].  [g_at] is when the lock was held, [g_stamp] the
    clock reading that was stored, [g_interval] the interval that was asked
    for (0 for an unconditional [mark]). *)

Record Grant := mkGrant {
  g_at : Instant;
  g_stamp : Instant;
  g_key : TrackKey;
  g_interval : Duration;
}.

(** [exec W clock t log]: after some interleaving of operations of any
    number of tasks, at time [clock], the tracker is [t] and the grants so
    far, latest first, are [log].  [check_and_mark] and [prune_older_than]
    read the clock before they take the lock, so their reading may be
    older; [mark] reads it under the lock.  [W] is the interval of the
    periodic sweep, and no check asks for more. *)
Inductive exec (W : Duration) : Instant → MulticastTracker → list Grant → Prop :=
| exec_new clock : exec W clock new []
| exec_wait clock clock' t log :
    clock ≤ clock' → exec W clock t log → exec W clock' t log
| exec_mark clock i r t log :
    exec W clock t log →
    exec W clock (mark clock i r t) (mkGrant clock clock (track_key i r) 0 :: log)
| exec_check clock stamp i r iv b t t' log :
    stamp ≤ clock → 0 ≤ iv ≤ W →
    check_and_mark stamp i r iv t = (b, t') →
    exec W clock t log →
    exec W clock t' (if b then mkGrant clock stamp (track_key i r) iv :: log else log)
| exec_prune clock stamp t log :
    stamp ≤ clock → exec W clock t log →
    exec W clock (prune_older_than stamp W t) log.

(** The latest grant for a key. *)
Fixpoint last_grant (k : TrackKey) (log : list Grant) : option Grant :=
  match log with
  | [] => None
  | g :: log => if decide (k ≡ g_key g) then Some g else last_grant k log
  end.

(** Each grant respects its interval with respect to the previous grant of
    the same key. *)
Fixpoint spaced (log : list Grant) : Prop :=
  match log with
  | [] => True
  | g :: log =>
      match last_grant (g_key g) log with
      | Some p => g_stamp p + g_interval g ≤ g_at g
      | None => True
      end ∧ spaced log
  end.

(** A grant is given when the lock is held, at or after the reading it stores,
    and the grants are recorded in the order of the lock. *)
Fixpoint timed (clock : Instant) (log : list Grant) : Prop :=
  match log with
  | [] => True
  | g :: log => g_stamp g ≤ g_at g ≤ clock ∧ timed (g_at g) log
  end.

(** What the tracker remembers of the log at time [clock]. *)
Definition agrees (W : Duration) (clock : Instant) (t : MulticastTracker)
    (log : list Grant) : Prop :=
  ∀ k, match last_grant k log with
       | Some g => g_stamp g ≤ clock ∧
                   (HashMap.get k t = Some (g_stamp g) ∨
                    (HashMap.get k t = None ∧ g_stamp g + W ≤ clock))
       | None => HashMap.get k t = None
       end.

Lemma agrees_wait W c c' t log : c ≤ c' → agrees W c t log → agrees W c' t log.
Proof.
  intros Hle Ha k. specialize (Ha k). destruct (last_grant k log); [|done].
  intuition lia.
Qed.

Lemma agrees_stamp W c t log at_ s i r iv :
  s ≤ c → agrees W c t log →
  agrees W c (HashMap.insert (track_key i r) s t) (mkGrant at_ s (track_key i r) iv :: log).
Proof.
  intros Hs Ha k. simpl. rewrite HashMap.get_insert. case_decide as Hk; simpl; [auto|].
  specialize (Ha k). by destruct (last_grant k log).
Qed.

Lemma agrees_prune W c s t log :
  HashMap.wf t → 0 ≤ W → s ≤ c → agrees W c t log → agrees W c (prune_older_than s W t) log.
Proof.
  intros Hwf HW Hs Ha k. specialize (Ha k). rewrite get_prune by done.
  destruct (last_grant k log) as [g|]; [|by rewrite Ha].
  destruct Ha as [Hle [Hg|[Hg Hold]]]; rewrite Hg; [|by auto].
  split; [done|]. destruct (Z.ltb_spec (Instant.duration_since s (g_stamp g)) W); [by left|].
  right. split; [done|]. unfold Instant.duration_since in *. lia.
Qed.

(** A granted check is spaced from the previous grant of its key. *)
Lemma check_spaced W c s i r iv t t' log :
  s ≤ c → 0 ≤ iv ≤ W → agrees W c t log →
  check_and_mark s i r iv t = (true, t') →
  match last_grant (track_key i r) log with
  | Some p => g_stamp p + iv ≤ c
  | None => True
  end.
Proof.
  intros Hs Hiv Ha Hc. specialize (Ha (track_key i r)).
  destruct (last_grant (track_key i r) log) as [p|]; [|done].
  destruct Ha as [Hle [Hg|[Hg Hold]]]; [|lia].
  unfold check_and_mark in Hc. rewrite Hg in Hc.
  destruct (Z.ltb_spec (Instant.duration_since s (g_stamp p)) iv); [done|].
  unfold Instant.duration_since in *. lia.
Qed.

Lemma timed_wait c c' log : c ≤ c' → timed c log → timed c' log.
Proof. destruct log as [|g log]; simpl; [done|]. intros ? [? ?]. split; [lia|done]. Qed.

Lemma exec_timed W clock t log : exec W clock t log → timed clock log.
Proof.
  induction 1; simpl; try done; try (split; [lia|done]).
  - by eapply timed_wait.
  - destruct b; simpl; [split; [lia|done]|done].
Qed.

Lemma last_grant_timed c log k p :
  timed c log → last_grant k log = Some p → g_stamp p ≤ g_at p ≤ c.
Proof.
  revert c; induction log as [|g log IH]; intros c; simpl; [done|]. intros [Hg Ht].
  case_decide; [intros [= <-]; lia|]. intros Hl. destruct (IH _ Ht Hl). lia.
Qed.

(** Two successive grants of one key, with the order of their times. *)
Lemma timed_split c l1 g l2 p :
  timed c (l1 ++ g :: l2) → last_grant (g_key g) l2 = Some p →
  g_stamp g ≤ g_at g ∧ g_stamp p ≤ g_at p ≤ g_at g.
Proof.
  revert c; induction l1 as [|g' l1 IH]; intros c; simpl; intros [Hg Ht] Hl; [|by eapply IH].
  split; [lia|]. by eapply last_grant_timed.
Qed.

Lemma exec_inv W clock t log :
  0 ≤ W → exec W clock t log → HashMap.wf t ∧ agrees W clock t log ∧ spaced log.
Proof.
  intros HW. induction 1 as [c|c c' t log Hle _ IH|c i r t log _ IH
    |c s i r iv b t t' log Hs Hiv Hc _ IH|c s t log Hs _ IH]; try destruct IH as (Hwf & Ha & Hsp).
  - split; [done|]. by split; [intros k|].
  - eauto using agrees_wait.
  - split; [by apply wf_mark|]. split; [by apply agrees_stamp|]. simpl. split; [|done].
    specialize (Ha (track_key i r)). destruct (last_grant _ log); [|done]. simpl. lia.
  - split; [pose proof (wf_check s i r iv t Hwf) as Hw; by rewrite Hc in Hw|].
    rewrite check_and_mark_allows in Hc.
    destruct (allows s i r iv t) eqn:Hal; simplify_eq; [|done].
    split; [by apply agrees_stamp|]. simpl. split; [|done].
    eapply (check_spaced W c s i r iv t); try done.
    rewrite check_and_mark_allows, Hal. done.
  - split; [by apply wf_prune|]. split; [by apply agrees_prune|done].
Qed.

Lemma spaced_split l1 g l2 p :
  spaced (l1 ++ g :: l2) → last_grant (g_key g) l2 = Some p →
  g_stamp p + g_interval g ≤ g_at g.
Proof.
  induction l1 as [|g' l1 IH]; simpl; intros [Hg Hs] Hl; [by rewrite Hl in Hg|auto].
Qed.

(** ** Sequences of operations, each with its reading of the clock *)

Inductive TrackOp :=
| TMark (ifindex : Z) (r : DnsRecord)
| TCheck (ifindex : Z) (r : DnsRecord) (iv : Duration)
| TPrune (iv : Duration).

Definition is_prune (op : TrackOp) : bool := match op with TPrune _ => true | _ => false end.

(** The decisions of the checks, in order. *)
Fixpoint decisions (ops : list (Instant * TrackOp)) (t : MulticastTracker) : list bool :=
  match ops with
  | [] => []
  | (now, TMark i r) :: ops => decisions ops (mark now i r t)
  | (now, TPrune iv) :: ops => decisions ops (prune_older_than now iv t)
  | (now, TCheck i r iv) :: ops =>
      let '(b, t') := check_and_mark now i r iv t in b :: decisions ops t'
  end.

(** The readings of the checks of [ops]. *)
Definition checks_at (ops : list (Instant * TrackOp)) (c : Instant) : Prop :=
  ∃ i r iv, In (c, TCheck i r iv) ops.

(** Checks ask for at most [W], sweeps use at least [W], and no check uses a
    reading of the clock older than that of a sweep before it. *)
Record sweeps_within (W : Duration) (ops : list (Instant * TrackOp)) : Prop := {
  sw_check : ∀ c i r iv, In (c, TCheck i r iv) ops → iv ≤ W;
  sw_sweep : ∀ s iv, In (s, TPrune iv) ops → W ≤ iv;
  sw_fresh : ∀ l1 s iv l2 c, ops = l1 ++ (s, TPrune iv) :: l2 → checks_at l2 c → s ≤ c;
}.

Lemma sweeps_within_tail W x ops : sweeps_within W (x :: ops) → sweeps_within W ops.
Proof.
  intros [Hc Hs Hf]. split.
  - intros c i r iv Hin. eapply Hc. by right.
  - intros s iv Hin. eapply Hs. by right.
  - intros l1 s iv l2 c ->. apply (Hf (x :: l1) s iv l2 c eq_refl).
Qed.

(** [t] is [u] without some of the stamps that have aged for every check to come. *)
Definition swept_of (W : Duration) (later : Instant → Prop) (t u : MulticastTracker) : Prop :=
  HashMap.wf t ∧
  ∀ k, HashMap.get k t = HashMap.get k u ∨
       HashMap.get k t = None ∧ ∃ s, HashMap.get k u = Some s ∧ ∀ c, later c → s + W ≤ c.

Lemma swept_of_weaken W (P Q : Instant → Prop) t u :
  (∀ c, Q c → P c) → swept_of W P t u → swept_of W Q t u.
Proof.
  intros HPQ [Hwf Hs]. split; [done|]. intros k.
  destruct (Hs k) as [?|(? & s & ? & ?)]; [by left|right]. eauto 10.
Qed.

Lemma swept_of_mark W P now t u i r :
  swept_of W P t u → swept_of W P (mark now i r t) (mark now i r u).
Proof.
  intros [Hwf Hs]. split; [by apply wf_mark|]. intros k. unfold mark.
  rewrite !HashMap.get_insert. case_decide; [by left|apply Hs].
Qed.

Lemma swept_of_allows W (P : Instant → Prop) now t u i r iv :
  swept_of W P t u → P now → iv ≤ W → allows now i r iv t = allows now i r iv u.
Proof.
  intros [_ Hs] HP Hiv. unfold allows. destruct (Hs (track_key i r)) as [->|(-> & s & -> & Hold)];
    [done|]. specialize (Hold now HP). symmetry. apply Z.leb_le. unfold Instant.duration_since. lia.
Qed.

Lemma swept_of_prune W (P : Instant → Prop) now t u iv :
  0 < W ≤ iv → (∀ c, P c → now ≤ c) → swept_of W P t u →
  swept_of W P (prune_older_than now iv t) u.
Proof.
  intros HW Hlater [Hwf Hs]. split; [by apply wf_prune|]. intros k. rewrite get_prune by done.
  destruct (Hs k) as [->|(-> & Hold)]; [|auto].
  destruct (HashMap.get k u) as [s|]; [|by left].
  destruct (Z.ltb_spec (Instant.duration_since now s) iv); [by left|right].
  split; [done|]. exists s. split; [done|]. intros c Hc%Hlater.
  unfold Instant.duration_since in *. lia.
Qed.

Lemma swept_decisions W ops t u :
  0 < W → sweeps_within W ops → swept_of W (checks_at ops) t u →
  decisions ops t = decisions (List.filter (λ p, negb (is_prune p.2)) ops) u.
Proof.
  intros HW. revert t u. induction ops as [|[c op] ops IH]; intros t u; [done|].
  intros Hw Hs. pose proof (sweeps_within_tail _ _ _ Hw) as Hw'. destruct Hw as [Hc Hp Hf].
  assert (Hs' : swept_of W (checks_at ops) t u).
  { eapply swept_of_weaken; [|exact Hs]. intros c' (i & r & iv & ?). exists i, r, iv. by right. }
  destruct op as [i r|i r iv|iv]; simpl.
  - apply IH; [done|]. by apply swept_of_mark.
  - rewrite !check_and_mark_allows, (swept_of_allows W _ _ _ _ _ _ _ Hs).
    + destruct (allows c i r iv u); f_equal; apply IH; auto using swept_of_mark.
    + exists i, r, iv. by left.
    + eapply Hc. by left.
  - apply IH; [done|]. apply swept_of_prune; [|intros c'; by apply (Hf [] c iv ops c')|done].
    split; [done|]. eapply Hp. by left.
Qed.
End ops.
End MulticastTracker.

(** ** Properties *)

Section properties.
Context `{Hickory}.
Import MulticastTracker.

(** RFC 6762 section 6, for any interleaving of the tasks that share the
    tracker: when a record is granted on an interface, the interval that
    was asked for has elapsed since the stored time of the previous grant
    of the same record on the same interface, whether or not the sweep has
    dropped the entry in between. *)
Theorem rate_limit_spacing W clock t l1 g l2 p :
  0 ≤ W →
  MulticastTracker.exec W clock t (l1 ++ g :: l2) →
  MulticastTracker.last_grant (MulticastTracker.g_key g) l2 = Some p →
  MulticastTracker.g_stamp p + MulticastTracker.g_interval g ≤ MulticastTracker.g_at g.
Proof. intros HW (_ & _ & Hs)%exec_inv Hl; [by eapply spaced_split|done]. Qed.

(** C37. [check_and_mark] decides as [allows] does; granting stores the
    reading for that interface and record and refuses every other request
    made less than the interval later (in particular a concurrent one);
    refusing leaves the tracker as it was; other keys are not affected. *)
Theorem check_and_mark_spec now i r iv t :
  let '(b, t') := MulticastTracker.check_and_mark now i r iv t in
  b = MulticastTracker.allows now i r iv t ∧
  (b = false → t' = t) ∧
  (∀ k, ¬ k ≡ track_key i r → HashMap.get k t' = HashMap.get k t) ∧
  (b = true →
     HashMap.get (track_key i r) t' = Some now ∧
     ∀ now2 r2, now2 < now + iv → 0 < iv → key_of r2 ≡ key_of r →
       (MulticastTracker.check_and_mark now2 i r2 iv t').1 = false).
Proof.
  rewrite check_and_mark_allows. destruct (allows now i r iv t) eqn:Ha; split_and!; try done.
  - intros k Hk. unfold mark. by rewrite HashMap.get_insert, decide_False.
  - intros _. assert (Hself : ∀ r2, key_of r2 ≡ key_of r →
      HashMap.get (track_key i r2) (mark now i r t) = Some now).
    { intros r2 Hr2. unfold mark. by rewrite HashMap.get_insert, decide_True. }
    split; [by apply Hself|]. intros now2 r2 Hlt Hiv Hr2.
    rewrite check_and_mark_allows. unfold allows. rewrite Hself by done.
    rewrite (proj2 (Z.leb_gt _ _)); [done|]. unfold Instant.duration_since. lia.
Qed.

(** The sweep is invisible: pruning with an interval at least as long as
    the one asked for changes neither the decision of a later check nor
    what is stored for its key when it is granted. *)
Theorem prune_transparent now now' piv iv i r t :
  HashMap.wf t → now ≤ now' → iv ≤ piv →
  let '(b, t1) := MulticastTracker.check_and_mark now' i r iv t in
  let '(b', t2) := MulticastTracker.check_and_mark now' i r iv
                     (MulticastTracker.prune_older_than now piv t) in
  b' = b ∧ (b = true → HashMap.get (track_key i r) t2 = HashMap.get (track_key i r) t1).
Proof.
  intros Hwf Hle Hiv. rewrite !check_and_mark_allows.
  assert (Ha : allows now' i r iv (prune_older_than now piv t) = allows now' i r iv t).
  { unfold allows. rewrite get_prune by done.
    destruct (HashMap.get (track_key i r) t) as [s|]; [|done].
    destruct (Z.ltb_spec (Instant.duration_since now s) piv); [done|].
    unfold Instant.duration_since in *. symmetry. apply Z.leb_le. lia. }
  rewrite Ha. destruct (allows now' i r iv t); split; try done.
  intros _. unfold mark. rewrite !HashMap.get_insert. by rewrite !decide_True.
Qed.

(** C13. The sweep of the rate limiter is unobservable to fresh checks: for a
    sequence of operations, each with its own reading of the clock, in which
    checks ask for at most [W], sweeps use at least [W] and no check uses a
    reading older than that of a sweep before it, the tracker decides every check
    as the reference tracker that is never swept.  The readings need not be in
    order otherwise. *)
Theorem sweep_unobservable W ops :
  0 < W →
  (∀ c i r iv, In (c, MulticastTracker.TCheck i r iv) ops → iv ≤ W) →
  (∀ s iv, In (s, MulticastTracker.TPrune iv) ops → W ≤ iv) →
  (∀ l1 s piv l2 c i r iv, ops = l1 ++ (s, MulticastTracker.TPrune piv) :: l2 →
     In (c, MulticastTracker.TCheck i r iv) l2 → s ≤ c) →
  MulticastTracker.decisions ops MulticastTracker.new =
  MulticastTracker.decisions
    (List.filter (λ p, negb (MulticastTracker.is_prune p.2)) ops) MulticastTracker.new.
Proof.
  intros HW Hc Hp Hf. apply (swept_decisions W); [done| |].
  - split; [done..|]. intros l1 s iv l2 c Heq (i & r & civ & Hin). by eapply Hf.
  - split; [done|]. intros k. by left.
Qed.

(** The randomized delays: none for probe defence and unique answers,
    20 to 120 ms for shared answers and a first query, 400 to 500 ms for
    truncated queries, at most the maximum for the initial probe delay. *)
Theorem delay_ranges draw max :
  rng_ok draw → 0 ≤ max < Duration.from_millis (2 ^ 64) →
  response_delay draw ProbeDefense = 0 ∧ response_delay draw UniqueAnswer = 0 ∧
  Duration.from_millis 20 ≤ response_delay draw Shared ≤ Duration.from_millis 120 ∧
  Duration.from_millis 400 ≤ response_delay draw Truncated ≤ Duration.from_millis 500 ∧
  Duration.from_millis 20 ≤ first_query_jitter draw ≤ Duration.from_millis 120 ∧
  0 ≤ jitter_0_to_max draw max ≤ max.
Proof.
  intros Hr Hmax. pose proof (jitter_range draw max Hr Hmax).
  pose proof (response_delay_range draw Shared Hr).
  pose proof (response_delay_range draw Truncated Hr).
  unfold first_query_jitter. simpl in *. split_and!; try done; lia.
Qed.
End properties.

Module TimingSample.
Import Sample.
Definition r : DnsRecord := A_record "printer.local."%string 120 7.
Definition t1 : MulticastTracker := MulticastTracker.mark 100 1 r MulticastTracker.new.
Definition ms (n : Z) : Instant := Duration.from_millis n.

Lemma rate_limit_spacing_witness :
  MulticastTracker.g_stamp (MulticastTracker.mkGrant (ms 0) (ms 0) (track_key 1 r) 0)
    + PROBE_DEFENSE_INTERVAL ≤ ms 300.
Proof.
  eapply (rate_limit_spacing MIN_MULTICAST_INTERVAL (ms 300)
    (MulticastTracker.check_and_mark (ms 260) 1 r PROBE_DEFENSE_INTERVAL
       (MulticastTracker.mark (ms 0) 1 r MulticastTracker.new)).2 []
    (MulticastTracker.mkGrant (ms 300) (ms 260) (track_key 1 r) PROBE_DEFENSE_INTERVAL)
    [MulticastTracker.mkGrant (ms 0) (ms 0) (track_key 1 r) 0]); [done| |done].
  apply (MulticastTracker.exec_check MIN_MULTICAST_INTERVAL (ms 300) (ms 260) 1 r
    PROBE_DEFENSE_INTERVAL true (MulticastTracker.mark (ms 0) 1 r MulticastTracker.new));
    [done|done|done|].
  apply (MulticastTracker.exec_wait _ (ms 0)); [done|].
  apply MulticastTracker.exec_mark, MulticastTracker.exec_new.
Defined.

Lemma prune_transparent_witness :
  (MulticastTracker.check_and_mark (ms 1200) 1 r MIN_MULTICAST_INTERVAL
     (MulticastTracker.prune_older_than (ms 1100) MIN_MULTICAST_INTERVAL t1)).1 = true.
Proof.
  pose proof (prune_transparent (ms 1100) (ms 1200) MIN_MULTICAST_INTERVAL
    MIN_MULTICAST_INTERVAL 1 r t1 ltac:(by repeat split) ltac:(done) ltac:(done)) as Hp.
  destruct (MulticastTracker.check_and_mark (ms 1200) 1 r MIN_MULTICAST_INTERVAL t1)
    as [b t'] eqn:Hc.
  destruct (MulticastTracker.check_and_mark _ _ _ _ (MulticastTracker.prune_older_than _ _ _)).
  destruct Hp as [-> _]. by injection Hc.
Defined.

(** The second check is refused, the third granted; the sweeps in between drop
    the stamp once it has aged; the last mark has an old reading. *)
Definition swept : list (Instant * MulticastTracker.TrackOp) :=
  [(ms 0, MulticastTracker.TCheck 1 r MIN_MULTICAST_INTERVAL);
   (ms 500, MulticastTracker.TPrune MIN_MULTICAST_INTERVAL);
   (ms 600, MulticastTracker.TCheck 1 r MIN_MULTICAST_INTERVAL);
   (ms 1500, MulticastTracker.TPrune MIN_MULTICAST_INTERVAL);
   (ms 1600, MulticastTracker.TCheck 1 r MIN_MULTICAST_INTERVAL);
   (ms 700, MulticastTracker.TMark 1 r);
   (ms 1700, MulticastTracker.TCheck 1 r MIN_MULTICAST_INTERVAL)].

Lemma sweep_unobservable_witness :
  MulticastTracker.decisions
    (List.filter (λ p, negb (MulticastTracker.is_prune p.2)) swept) MulticastTracker.new
  = [true; false; true; true].
Proof.
  rewrite <- (sweep_unobservable MIN_MULTICAST_INTERVAL swept); [reflexivity|done|..].
  - intros c i r' iv Hin. simpl in Hin. intuition (simplify_eq; done).
  - intros s iv Hin. simpl in Hin. intuition (simplify_eq; done).
  - intros l1 s piv l2 c i r' iv Heq Hin.
    assert (Hall : (ms 500 = s ∧ ms 600 ≤ c) ∨ (ms 1500 = s ∧ ms 1600 ≤ c)).
    { do 7 (destruct l1 as [|? l1]; simpl in Heq; [simplify_eq; simpl in Hin; intuition simplify_eq;
        (left + right); split; done|]; injection Heq as <- Heq). by destruct l1. }
    unfold ms, Duration.from_millis, NANOS_PER_MILLI in Hall. lia.
Defined.

(** A check whose reading is older than a sweep is granted although the tracker
    that was not swept refuses it. *)
Lemma stale_check_after_sweep :
  let ops := [(ms 0, MulticastTracker.TMark 1 r); (ms 1000, MulticastTracker.TPrune MIN_MULTICAST_INTERVAL);
              (ms 500, MulticastTracker.TCheck 1 r MIN_MULTICAST_INTERVAL)] in
  MulticastTracker.decisions ops MulticastTracker.new = [true] ∧
  MulticastTracker.decisions (List.filter (λ p, negb (MulticastTracker.is_prune p.2)) ops)
    MulticastTracker.new = [false].
Proof. split; reflexivity. Qed.

(** Two grants of an interval of one second at the same instant: the first task
    read the clock one second before it held the lock. *)
Lemma stale_reading_grants :
  MulticastTracker.exec MIN_MULTICAST_INTERVAL (ms 1000)
    (MulticastTracker.mark (ms 1000) 1 r (MulticastTracker.mark (ms 0) 1 r MulticastTracker.new))
    [MulticastTracker.mkGrant (ms 1000) (ms 1000) (track_key 1 r) MIN_MULTICAST_INTERVAL;
     MulticastTracker.mkGrant (ms 1000) (ms 0) (track_key 1 r) MIN_MULTICAST_INTERVAL].
Proof.
  apply (MulticastTracker.exec_check MIN_MULTICAST_INTERVAL (ms 1000) (ms 1000) 1 r
    MIN_MULTICAST_INTERVAL true (MulticastTracker.mark (ms 0) 1 r MulticastTracker.new));
    [done..|].
  apply (MulticastTracker.exec_check MIN_MULTICAST_INTERVAL (ms 1000) (ms 0) 1 r
    MIN_MULTICAST_INTERVAL true MulticastTracker.new); [done..|].
  constructor.
Qed.

Lemma delay_ranges_witness : 0 ≤ jitter_0_to_max (λ lo _, lo) PROBE_INITIAL_MAX ≤ PROBE_INITIAL_MAX.
Proof.
  apply (delay_ranges (λ lo _, lo) PROBE_INITIAL_MAX); [intros lo hi ?; lia|done].
Defined.
End TimingSample.
