(* ===== verification/Os.v ===== *)
(** * Os: sockets and interface queries

    The operating system behind [nix], [socket2] and [tokio::net] is a
    parameter.  A socket is the sequence of the calls that succeeded on it,
    and [sys] is the system's answer to the next call; [getifaddrs] and
    [if_nametoindex] are the answers to the two interface queries. *)

From S2P Require Import Prelude RustStd StdNet.
From stdpp Require Import strings.
Open Scope Z_scope.

(** The calls the sources make on a socket. *)
Inductive SockCall :=
| Socket_new_v4
| Socket_new_v6
| set_only_v6 (b : bool)
| set_reuse_address (b : bool)
| bind_device (name : string)
| bind (a : SocketAddr)
| set_multicast_if_v4 (a : Ipv4Addr)
| set_multicast_if_v6 (ifindex : Z)
| set_multicast_loop_v4 (b : bool)
| set_multicast_loop_v6 (b : bool)
| set_multicast_ttl_v4 (n : Z)
| set_multicast_hops_v6 (n : Z)
| set_unicast_hops_v6 (n : Z)
| set_nonblocking (b : bool)
| setsockopt_Ipv4PacketInfo (b : bool)
| setsockopt_Ipv6RecvPacketInfo (b : bool)
| leave_multicast_v4 (group iface : Ipv4Addr)
| join_multicast_v4 (group iface : Ipv4Addr)
| leave_multicast_v6 (group : Ipv6Addr) (ifindex : Z)
| join_multicast_v6 (group : Ipv6Addr) (ifindex : Z)
| UdpSocket_from_std
| AsyncFd_new.

#[export] Instance SockCall_eq_dec : EqDecision SockCall.
Proof. solve_decision. Defined.

Definition Socket : Type := list SockCall.

(** A socket address as [getifaddrs] reports it. *)
Inductive SockaddrStorage :=
| Sockaddr_in (ip : Ipv4Addr)
| Sockaddr_in6 (ip : Ipv6Addr) (scope_id : Z)
| Sockaddr_other.

Record InterfaceAddress := mkIfAddr {
  interface_name : string;
  address : option SockaddrStorage;
  netmask : option SockaddrStorage;
}.

Definition as_sockaddr_in (s : SockaddrStorage) : option Ipv4Addr :=
  match s with Sockaddr_in ip => Some ip | _ => None end.
Definition as_sockaddr_in6 (s : SockaddrStorage) : option (Ipv6Addr * Z) :=
  match s with Sockaddr_in6 ip sc => Some (ip, sc) | _ => None end.

(** [std::io::Error]: an error of the system, or one the sources build. *)
Inductive IoError :=
| Io_Os (code : Z)
| Io_NotFound (what : string)
| Io_InvalidData (what : string)
| Io_NotConnected (what : string).

Class Os := {
  sys : Socket → SockCall → result IoError unit;
  getifaddrs : result IoError (list InterfaceAddress);
  if_nametoindex : string → result IoError Z;
}.

(** A system on which every call succeeds, with the given interfaces. *)
Definition permissive_os (addrs : list InterfaceAddress) (index : string → result IoError Z)
    : Os :=
  {| sys := λ _ _, Ok tt; getifaddrs := Ok addrs; if_nametoindex := index |}.

Section calls.
Context {O : Os}.

(** [sock.c()?]. *)
Definition call (c : SockCall) (s : Socket) : result IoError Socket :=
  match sys s c with Ok _ => Ok (s ++ [c]) | Err e => Err e end.

(** [let _ = sock.c();]. *)
Definition call_ignore (c : SockCall) (s : Socket) : Socket :=
  match sys s c with Ok _ => s ++ [c] | Err _ => s end.

(** A sequence of calls, each with [?]. *)
Fixpoint calls (cs : list SockCall) (s : Socket) : result IoError Socket :=
  match cs with
  | [] => Ok s
  | c :: cs => match call c s with Ok s' => calls cs s' | Err e => Err e end
  end.

Lemma call_ok c s s' : call c s = Ok s' → s' = s ++ [c].
Proof. unfold call. case_match; naive_solver. Qed.

Lemma calls_ok cs s s' : calls cs s = Ok s' → s' = s ++ cs.
Proof.
  revert s; induction cs as [|c cs IH]; intros s; simpl; [rewrite app_nil_r; naive_solver|].
  destruct (call c s) eqn:Hc; [|done]. intros ->%IH. apply call_ok in Hc as ->.
  by rewrite <- app_assoc.
Qed.

(** The first call the system refuses is the error that is returned. *)
Lemma calls_err cs s e :
  calls cs s = Err e → ∃ cs1 c cs2, cs = cs1 ++ c :: cs2 ∧ sys (s ++ cs1) c = Err e.
Proof.
  revert s; induction cs as [|c cs IH]; intros s; simpl; [done|].
  unfold call at 1. destruct (sys s c) as [[]|e'] eqn:Hc.
  - intros (cs1 & c' & cs2 & -> & Hs)%IH. exists (c :: cs1), c', cs2.
    split; [done|]. by rewrite <- app_assoc in Hs.
  - intros [= <-]. exists [], c, cs. by rewrite app_nil_r.
Qed.
End calls.
