(* ===== verification/Effects.v ===== *)
(** * Effects: programs over the daemon's shared state

    The [async] functions are programs: trees of the actions they perform on
    the world (reading the clock, drawing random numbers, sleeping, sending a
    datagram, one critical section of the cache or of the rate limiter) with
    a continuation for the answer.  Such a tree is finite; how long a program may
    wait is a property of its traces.  A program that may panic returns [Exit].

    A program has two readings.
    - [traces p tr a]: [p] can perform the actions and receive the answers
      recorded in [tr] and return [a].  The answers are arbitrary (up to
      [admissible]): what holds of all traces holds whatever other tasks do
      between two actions.
    - [run env p w]: the execution of [p] alone from the world [w], with the
      choices of the environment given by [env]; it computes. *)

From S2P Require Import Prelude RustStd StdNet Hickory RecordKey Cache Timing Os.
From stdpp Require Import strings.
Open Scope Z_scope.

Section effects.
Context `{Hickory} {HI : HashIter}.

(** ** Actions *)

Inductive Act : Type → Type :=
| ANow : Act Instant
| ARng : Act (Z → Z → Z)
| ARandU16 : Act Z
| ASleep (d : Duration) : Act unit
(** [select! { sleep(d) => false, shutdown.cancelled() => true }]. *)
| ASleepOrShutdown (d : Duration) : Act bool
| AIsCancelled : Act bool
| ASend (s : Socket) (b : bytes) (dst : SocketAddr) : Act (result IoError Z)
(** [Cache::insert_from] reads the clock under the lock. *)
| AInsert (r : DnsRecord) (source : option Z) : Act InsertOutcome
(** The critical section of [Cache::lookup_from_other_ifaces] after its
    reading [now] of the clock. *)
| ALookup (now : Instant) (name : Name) (rtype : RecordType) (arrival : Z)
    : Act (list DnsRecord)
| AEvict (now : Instant) : Act nat
| AMark (ifindex : Z) (r : DnsRecord) : Act unit
| ACheck (now : Instant) (ifindex : Z) (r : DnsRecord) (iv : Duration) : Act bool
| APrune (now : Instant) (iv : Duration) : Act unit
(** [select! { shutdown.cancelled() => true, tick.tick() => false }] with a
    timer of that period: when it fires is up to the environment. *)
| ATick (period : Duration) : Act bool.

Inductive Prog (A : Type) : Type :=
| Ret (a : A)
| Vis {X : Type} (act : Act X) (k : X → Prog A).
Arguments Ret {A} a.
Arguments Vis {A X} act k.

Fixpoint prog_bind {A B} (p : Prog A) (f : A → Prog B) : Prog B :=
  match p with
  | Ret a => f a
  | Vis act k => Vis act (λ x, prog_bind (k x) f)
  end.

Definition trigger {X} (act : Act X) : Prog X := Vis act Ret.

(** [for x in l { body }] without early exit. *)
Fixpoint for_each {A} (l : list A) (body : A → Prog unit) : Prog unit :=
  match l with
  | [] => Ret tt
  | x :: l => prog_bind (body x) (λ _, for_each l body)
  end.

(** [v.retain(p)] with an effectful predicate. *)
Fixpoint retain_m {A} (p : A → Prog bool) (l : list A) : Prog (list A) :=
  match l with
  | [] => Ret []
  | x :: l => prog_bind (p x) (λ b,
              prog_bind (retain_m p l) (λ l', Ret (if b then x :: l' else l')))
  end.

(** How a task ends. *)
Inductive Exit := Completed | Panicked.

(** [p; q] when [p] may panic. *)
Definition and_then (p q : Prog Exit) : Prog Exit :=
  prog_bind p (λ e, match e with Completed => q | Panicked => Ret Panicked end).

(** [for x in l { body }] when the body may panic. *)
Fixpoint for_each_exit {A} (l : list A) (body : A → Prog Exit) : Prog Exit :=
  match l with
  | [] => Ret Completed
  | x :: l => and_then (body x) (for_each_exit l body)
  end.

(** ** Observable events: an action with its answer *)

Inductive Event :=
| EvNow (t : Instant)
| EvRng (draw : Z → Z → Z)
| EvRandU16 (n : Z)
| EvSleep (d : Duration)
| EvSleepOrShutdown (d : Duration) (cancelled : bool)
| EvIsCancelled (b : bool)
| EvSend (s : Socket) (b : bytes) (dst : SocketAddr) (res : result IoError Z)
| EvInsert (r : DnsRecord) (source : option Z) (o : InsertOutcome)
| EvLookup (now : Instant) (name : Name) (rtype : RecordType) (arrival : Z)
    (found : list DnsRecord)
| EvEvict (now : Instant) (n : nat)
| EvMark (ifindex : Z) (r : DnsRecord)
| EvCheck (now : Instant) (ifindex : Z) (r : DnsRecord) (iv : Duration) (granted : bool)
| EvPrune (now : Instant) (iv : Duration)
| EvTick (period : Duration) (cancelled : bool).

Definition obs {X} (act : Act X) : X → Event :=
  match act with
  | ANow => EvNow
  | ARng => EvRng
  | ARandU16 => EvRandU16
  | ASleep d => λ _, EvSleep d
  | ASleepOrShutdown d => EvSleepOrShutdown d
  | AIsCancelled => EvIsCancelled
  | ASend s b dst => EvSend s b dst
  | AInsert r src => EvInsert r src
  | ALookup now n t a => EvLookup now n t a
  | AEvict now => EvEvict now
  | AMark i r => λ _, EvMark i r
  | ACheck now i r iv => EvCheck now i r iv
  | APrune now iv => λ _, EvPrune now iv
  | ATick d => EvTick d
  end.

(** The answers the environment may give. *)
Definition admissible {X} (act : Act X) : X → Prop :=
  match act with
  | ARng => rng_ok
  | ARandU16 => λ n, 0 ≤ n ≤ u16_MAX
  | ALookup now n t a => λ l,
      ∃ g, l = Cache.lookup_from_other_ifaces now n t a g
  | _ => λ _, True
  end.

(** ** Traces *)

Fixpoint traces {A} (p : Prog A) (tr : list Event) (a : A) : Prop :=
  match p with
  | Ret b => tr = [] ∧ a = b
  | Vis act k => ∃ x tr', tr = obs act x :: tr' ∧ admissible act x ∧ traces (k x) tr' a
  end.

Lemma traces_bind {A B} (p : Prog A) (f : A → Prog B) tr b :
  traces (prog_bind p f) tr b ↔
  ∃ tr1 tr2 a, tr = tr1 ++ tr2 ∧ traces p tr1 a ∧ traces (f a) tr2 b.
Proof.
  revert tr; induction p as [a|X act k IH]; intros tr; simpl.
  - split.
    + intros Ht. by exists [], tr, a.
    + by intros (tr1 & tr2 & a' & -> & [-> ->] & Ht).
  - split.
    + intros (x & tr' & -> & Ha & (tr1 & tr2 & a & -> & H1 & H2)%IH).
      exists (obs act x :: tr1), tr2, a. split; [done|]. split; [|done]. by exists x, tr1.
    + intros (tr1 & tr2 & a & -> & (x & tr' & -> & Ha & H1) & H2).
      exists x, (tr' ++ tr2). split; [done|]. split; [done|]. apply IH. eauto 10.
Qed.

Lemma traces_trigger {X} (act : Act X) tr x :
  traces (trigger act) tr x ↔ tr = [obs act x] ∧ admissible act x.
Proof.
  simpl. split.
  - by intros (y & tr' & -> & Ha & -> & ->).
  - intros [-> Ha]. by exists x, [].
Qed.

(** A property of every event of every trace of a loop body holds of the loop. *)
Lemma for_each_Forall {A} (P : Event → Prop) (l : list A) body tr :
  (∀ x tr, In x l → traces (body x) tr tt → Forall P tr) →
  traces (for_each l body) tr tt → Forall P tr.
Proof.
  revert tr; induction l as [|x l IH]; intros tr Hb; simpl.
  - by intros [-> _].
  - intros (tr1 & tr2 & [] & -> & H1 & H2)%traces_bind. apply Forall_app. split.
    + eapply Hb; [by left|done].
    + apply IH; [|done]. intros y tr' Hy. apply Hb. by right.
Qed.

(** The trace of a loop is the concatenation of the traces of its rounds. *)
Lemma traces_for_each {A} (l : list A) body tr :
  traces (for_each l body) tr tt ↔
  ∃ trs, tr = concat trs ∧ Forall2 (λ x t, traces (body x) t tt) l trs.
Proof.
  revert tr; induction l as [|x l IH]; intros tr; simpl.
  - split.
    + intros [-> _]. by exists [].
    + intros (trs & -> & Ht). by inversion Ht.
  - rewrite traces_bind. split.
    + intros (tr1 & tr2 & [] & -> & H1 & (trs & -> & H2)%IH).
      exists (tr1 :: trs). split; [done|]. by constructor.
    + intros (trs & -> & Ht). inversion Ht as [|? t1 ? ts H1 H2]; subst.
      exists t1, (concat ts), tt. split; [done|]. split; [done|]. apply IH. eauto.
Qed.

(** The same for a loop whose rounds do not panic. *)
Lemma traces_for_each_exit {A} (l : list A) body tr e :
  (∀ x t e, In x l → traces (body x) t e → e = Completed) →
  traces (for_each_exit l body) tr e ↔
  e = Completed ∧ ∃ trs, tr = concat trs ∧ Forall2 (λ x t, traces (body x) t Completed) l trs.
Proof.
  revert tr; induction l as [|x l IH]; intros tr Hb; simpl.
  - split.
    + intros [-> ->]. split; [done|]. by exists [].
    + intros (-> & trs & -> & Ht). by inversion Ht.
  - unfold and_then. rewrite traces_bind. split.
    + intros (tr1 & tr2 & e1 & -> & H1 & H2). pose proof (Hb x tr1 e1 (or_introl eq_refl) H1) as ->.
      apply IH in H2 as (-> & trs & -> & H2); [|intros y t e' Hy; apply Hb; by right].
      split; [done|]. exists (tr1 :: trs). split; [done|]. by constructor.
    + intros (-> & trs & -> & Ht). inversion Ht as [|? t1 ? ts H1 H2]; subst.
      exists t1, (concat ts), Completed. split; [done|]. split; [done|].
      apply IH; [intros y t e' Hy; apply Hb; by right|]. eauto.
Qed.

(** ** Execution alone *)

Record Sent := mkSent {
  sent_at : Instant;
  sent_socket : Socket;
  sent_bytes : bytes;
  sent_dst : SocketAddr;
}.

Record World := mkWorld {
  w_step : nat;
  w_clock : Instant;
  w_cache : Cache.Inner;
  w_tracker : MulticastTracker;
  w_sent : list Sent;
}.

Record Env := mkEnv {
  e_draw : nat → Z → Z → Z;
  e_u16 : nat → Z;
  e_send : nat → Socket → result IoError Z;
  e_cancelled : nat → bool;
}.

Definition set_clock (t : Instant) (w : World) : World :=
  mkWorld (w_step w) t (w_cache w) (w_tracker w) (w_sent w).
Definition set_cache (c : Cache.Inner) (w : World) : World :=
  mkWorld (w_step w) (w_clock w) c (w_tracker w) (w_sent w).
Definition set_tracker (t : MulticastTracker) (w : World) : World :=
  mkWorld (w_step w) (w_clock w) (w_cache w) t (w_sent w).

Definition perform (env : Env) (w : World) {X} (act : Act X) : X * World :=
  match act in Act X return X * World with
  | ANow => (w_clock w, w)
  | ARng => (e_draw env (w_step w), w)
  | ARandU16 => (e_u16 env (w_step w), w)
  | ASleep d => (tt, set_clock (w_clock w + d) w)
  | ASleepOrShutdown d =>
      if e_cancelled env (w_step w) then (true, w)
      else (false, set_clock (w_clock w + d) w)
  | AIsCancelled => (e_cancelled env (w_step w), w)
  | ASend s b dst =>
      let res := e_send env (w_step w) s in
      (res, match res with
            | Ok _ => mkWorld (w_step w) (w_clock w) (w_cache w) (w_tracker w)
                        (w_sent w ++ [mkSent (w_clock w) s b dst])
            | Err _ => w
            end)
  | AInsert r src =>
      let '(o, g) := Cache.insert_from (w_clock w) r src (w_cache w) in (o, set_cache g w)
  | ALookup now n t a => (Cache.lookup_from_other_ifaces now n t a (w_cache w), w)
  | AEvict now =>
      let '(n, g) := Cache.evict_expired now (w_cache w) in (n, set_cache g w)
  | AMark i r => (tt, set_tracker (MulticastTracker.mark (w_clock w) i r (w_tracker w)) w)
  | ACheck now i r iv =>
      let '(b, t) := MulticastTracker.check_and_mark now i r iv (w_tracker w) in
      (b, set_tracker t w)
  | APrune now iv =>
      (tt, set_tracker (MulticastTracker.prune_older_than now iv (w_tracker w)) w)
  | ATick _ => (e_cancelled env (w_step w), w)
  end.

Definition bump (w : World) : World :=
  mkWorld (S (w_step w)) (w_clock w) (w_cache w) (w_tracker w) (w_sent w).

Fixpoint run {A} (env : Env) (p : Prog A) (w : World) : A * World :=
  match p with
  | Ret a => (a, w)
  | Vis act k => let '(x, w') := perform env w act in run env (k x) (bump w')
  end.

(** The events of that execution. *)
Fixpoint run_trace {A} (env : Env) (p : Prog A) (w : World) : list Event :=
  match p with
  | Ret a => []
  | Vis act k =>
      let '(x, w') := perform env w act in obs act x :: run_trace env (k x) (bump w')
  end.

(** The environments [admissible] describes. *)
Record env_ok (env : Env) : Prop := {
  env_draw : ∀ n, rng_ok (e_draw env n);
  env_u16 : ∀ n, 0 ≤ e_u16 env n ≤ u16_MAX;
}.

Lemma perform_admissible env w {X} (act : Act X) :
  env_ok env → admissible act (perform env w act).1.
Proof.
  intros []. destruct act; simpl; try done; repeat case_match; simpl; eauto.
Qed.

(** Every execution is one of the traces. *)
Lemma run_traces {A} env (p : Prog A) w :
  env_ok env → traces p (run_trace env p w) (run env p w).1.
Proof.
  intros He. revert w. induction p as [a|X act k IH]; intros w; simpl; [done|].
  pose proof (perform_admissible env w act He) as Ha.
  destruct (perform env w act) as [x w'] eqn:Hp. simpl in Ha. eauto.
Qed.
End effects.

Arguments Prog {_} A.
Arguments Ret {_ A} a.
Arguments Vis {_ A X} act k.

Declare Scope prog_scope.
Delimit Scope prog_scope with prog.
Notation "x <- p ;; k" := (prog_bind p (λ x, k))
  (at level 100, p at next level, right associativity) : prog_scope.
Notation "p ;;; k" := (prog_bind p (λ _, k))
  (at level 100, right associativity) : prog_scope.
#[global] Open Scope prog_scope.
