(* ===== verification/Iface.v ===== *)
(** * Iface: interfaces, their sockets and the address arithmetic
    ([src/iface.rs], the Linux build)

    - The [Iface] record with its address tests and the send functions, which
      are programs of [Effects].
    - The discovery of an interface's addresses from [getifaddrs], the socket
      construction and [setup], over the system parameter [Os].
    - [ipv6_net] and [ipv6_prefix_len] on 128-bit integers.  The shift amount
      of [ipv6_net] is an 8-bit subtraction; it is written with its
      wrap-around (the behaviour of a release build) and shown not to wrap for
      the prefix lengths the program computes. *)

From S2P Require Import Prelude RustStd StdNet Hickory RecordKey Cache Timing Os.
From S2P Require Import Effects.
From stdpp Require Import strings.
Open Scope Z_scope.

Definition MDNS_ADDR_V4 : Ipv4Addr := Ipv4Addr_new 224 0 0 251.
Definition MDNS_ADDR_V6 : Ipv6Addr := Ipv6Addr_of_groups [0xff02; 0; 0; 0; 0; 0; 0; 0x00fb].
Definition MDNS_PORT : Z := 5353.
Definition MDNS_SOCKADDR_V4 : SocketAddr := SockV4 MDNS_ADDR_V4 MDNS_PORT.
Definition MDNS_SOCKADDR_V6 : SocketAddr := SockV6 MDNS_ADDR_V6 MDNS_PORT 0 0.
Definition MAX_PACKET : Z := 9000.

Inductive IpFamily := FamV4 | FamV6.

#[export] Instance IpFamily_eq_dec : EqDecision IpFamily.
Proof. solve_decision. Defined.

Record IfaceV4 := mkIfaceV4 {
  v4_addr : Ipv4Addr;
  v4_mask : Ipv4Addr;
  v4_net : Ipv4Addr;
  v4_send : Socket;
}.

Record IfaceV6 := mkIfaceV6 {
  v6_addr : Ipv6Addr;
  v6_prefix_len : Z;
  v6_net : Ipv6Addr;
  v6_scope_id : Z;
  v6_send : Socket;
}.

Record Iface := mkIface {
  if_name : string;
  ifindex : Z;
  if_v4 : option IfaceV4;
  if_v6 : option IfaceV6;
}.

(** ** Address arithmetic *)

Definition ipv6_net (addr : Ipv6Addr) (prefix_len : Z) : Ipv6Addr :=
  let mask := if prefix_len =? 0 then 0
              else Z.land (Z.shiftl u128_MAX (((128 - prefix_len) mod 2 ^ 8) mod 128)) u128_MAX in
  Z.land addr mask.

Definition is_unicast_link_local_v6 (addr : Ipv6Addr) : bool :=
  let first := Ipv6Addr_segment0 addr in
  Z.land first 0xffc0 =? 0xfe80.

(** [u8::leading_ones]. *)
Definition leading_ones (b : Z) : Z :=
  fold_left (λ acc i, if (acc =? i) && Z.testbit b (7 - i) then i + 1 else acc)
    [0; 1; 2; 3; 4; 5; 6; 7] 0.

Fixpoint prefix_len_octets (octets : list Z) (bits : Z) : Z :=
  match octets with
  | [] => bits
  | byte :: octets =>
      if byte =? 0xff then prefix_len_octets octets (bits + 8)
      else bits + leading_ones byte
  end.

Definition ipv6_prefix_len (mask : Ipv6Addr) : Z := prefix_len_octets (Ipv6Addr_octets mask) 0.

#[global] Arguments ipv6_net : simpl never.
#[global] Arguments is_unicast_link_local_v6 : simpl never.
#[global] Arguments ipv6_prefix_len : simpl never.

(** ** [impl Iface] *)

Definition addr_v4 (i : Iface) : option Ipv4Addr := v4_addr <$> if_v4 i.
Definition addr_v6 (i : Iface) : option Ipv6Addr := v6_addr <$> if_v6 i.

Definition has_addr (i : Iface) (ip : IpAddr) : bool :=
  match ip with
  | IpV4 ip => bool_decide (addr_v4 i = Some ip)
  | IpV6 ip => bool_decide (addr_v6 i = Some ip)
  end.

Definition iface_contains (i : Iface) (ip : IpAddr) : bool :=
  match ip with
  | IpV4 ip => match if_v4 i with
               | Some v4 => Z.land ip (v4_mask v4) =? v4_net v4
               | None => false
               end
  | IpV6 ip => match if_v6 i with
               | Some v6 => ipv6_net ip (v6_prefix_len v6) =? v6_net v6
               | None => false
               end
  end.

Definition families (i : Iface) : list IpFamily :=
  match if_v4 i with Some _ => [FamV4] | None => [] end ++
  match if_v6 i with Some _ => [FamV6] | None => [] end.

(** Where [send_mdns_on] sends for a family: the socket and the destination. *)
Definition egress (i : Iface) (family : IpFamily) : option (Socket * SocketAddr) :=
  match family with
  | FamV4 => (λ v4, (v4_send v4, MDNS_SOCKADDR_V4)) <$> if_v4 i
  | FamV6 => (λ v6, (v6_send v6,
      SockV6 MDNS_ADDR_V6 MDNS_PORT 0
        (if v6_scope_id v6 =? 0 then ifindex i else v6_scope_id v6))) <$> if_v6 i
  end.

Section send.
Context `{Hickory} {HI : HashIter}.

Definition send_mdns_on (i : Iface) (family : IpFamily) (b : bytes)
    : Prog (result IoError Z) :=
  match egress i family with
  | Some (s, dst) => trigger (ASend s b dst)
  | None => Ret (Err (Io_NotFound (match family with
                                   | FamV4 => "no IPv4 socket"
                                   | FamV6 => "no IPv6 socket"
                                   end)%string))
  end.

(** The loop of [send_mdns_all] over the families. *)
Fixpoint send_families (i : Iface) (fs : list IpFamily) (b : bytes) (sent : Z)
    (last_err : option IoError) : Prog (Z * option IoError) :=
  match fs with
  | [] => Ret (sent, last_err)
  | f :: fs =>
      r <- send_mdns_on i f b ;;
      match r with
      | Ok _ => send_families i fs b (sent + 1) last_err
      | Err e => send_families i fs b sent (Some e)
      end
  end.

Definition send_mdns_all (i : Iface) (b : bytes) : Prog (result IoError Z) :=
  r <- send_families i (families i) b 0 None ;;
  let '(sent, last_err) := r in
  if 0 <? sent then Ret (Ok sent)
  else Ret (Err (match last_err with
                 | Some e => e
                 | None => Io_NotFound "no send sockets"%string
                 end)).

Definition send_mdns (i : Iface) (b : bytes) : Prog (result IoError Z) :=
  r <- send_mdns_all i b ;;
  Ret (match r with Ok _ => Ok (Z.of_nat (List.length b)) | Err e => Err e end).
End send.

(** ** Discovery and setup *)

Record IfaceAddrV4 := mkIfaceAddrV4 {
  a4_addr : Ipv4Addr; a4_mask : Ipv4Addr; a4_net : Ipv4Addr;
}.

Record IfaceAddrV6 := mkIfaceAddrV6 {
  a6_addr : Ipv6Addr; a6_prefix_len : Z; a6_net : Ipv6Addr; a6_scope_id : Z;
}.

(** The IPv4 address an entry of [getifaddrs] gives. *)
Definition v4_of (ifa : InterfaceAddress) : option IfaceAddrV4 :=
  match address ifa ≫= as_sockaddr_in with
  | Some ip =>
      let mask := match netmask ifa ≫= as_sockaddr_in with
                  | Some m => m
                  | None => Ipv4Addr_new 255 255 255 0
                  end in
      Some (mkIfaceAddrV4 ip mask (Z.land ip mask))
  | None => None
  end.

Definition v6_of (ifindex : Z) (netmask : option SockaddrStorage) (ip : Ipv6Addr) (scope : Z)
    : IfaceAddrV6 :=
  let prefix_len := match netmask ≫= as_sockaddr_in6 with
                    | Some (m, _) => ipv6_prefix_len m
                    | None => 64
                    end in
  mkIfaceAddrV6 ip prefix_len (ipv6_net ip prefix_len) (if scope =? 0 then ifindex else scope).

#[global] Arguments v4_of : simpl never.
#[global] Arguments v6_of : simpl never.

Fixpoint scan_addrs (ifname : string) (ifindex : Z) (addrs : list InterfaceAddress)
    (found_v4 : option IfaceAddrV4) (found_v6 : option IfaceAddrV6)
    : option IfaceAddrV4 * option IfaceAddrV6 :=
  match addrs with
  | [] => (found_v4, found_v6)
  | ifa :: addrs =>
      if negb (bool_decide (interface_name ifa = ifname)) then
        scan_addrs ifname ifindex addrs found_v4 found_v6
      else
        let found_v4 := match found_v4 with Some v => Some v | None => v4_of ifa end in
        let next found_v6 :=
          match found_v4, found_v6 with
          | Some _, Some _ => (found_v4, found_v6)
          | _, _ => scan_addrs ifname ifindex addrs found_v4 found_v6
          end in
        match found_v6 with
        | Some _ => next found_v6
        | None =>
            match address ifa ≫= as_sockaddr_in6 with
            | Some (ip, scope) =>
                if negb (is_unicast_link_local_v6 ip) then
                  scan_addrs ifname ifindex addrs found_v4 found_v6
                else next (Some (v6_of ifindex (netmask ifa) ip scope))
            | None => next found_v6
            end
        end
  end.

Section setup.
Context {O : Os}.

Definition iface_addrs (ifname : string) (ifindex : Z)
    : result IoError (option IfaceAddrV4 * option IfaceAddrV6) :=
  match getifaddrs with
  | Err e => Err e
  | Ok addrs => Ok (scan_addrs ifname ifindex addrs None None)
  end.

Definition build_recv_socket_v4 : result IoError Socket :=
  calls [Socket_new_v4; set_reuse_address true; bind (SockV4 0 MDNS_PORT);
         set_multicast_loop_v4 true; set_nonblocking true;
         setsockopt_Ipv4PacketInfo true] [].

Definition build_recv_socket_v6 : result IoError Socket :=
  calls [Socket_new_v6; set_only_v6 true; set_reuse_address true;
         bind (SockV6 0 MDNS_PORT 0 0); set_multicast_loop_v6 true; set_nonblocking true;
         setsockopt_Ipv6RecvPacketInfo true] [].

Definition build_send_socket_v4 (name : string) (addr : Ipv4Addr) : result IoError Socket :=
  calls [Socket_new_v4; bind_device name; set_reuse_address true;
         bind (SockV4 addr MDNS_PORT); set_multicast_if_v4 addr;
         set_multicast_loop_v4 true; set_multicast_ttl_v4 255; set_nonblocking true] [].

Definition build_send_socket_v6 (name : string) (addr : Ipv6Addr) (ifindex scope_id : Z)
    : result IoError Socket :=
  calls [Socket_new_v6; set_only_v6 true; bind_device name; set_reuse_address true;
         bind (SockV6 addr MDNS_PORT 0 scope_id); set_multicast_if_v6 ifindex;
         set_multicast_loop_v6 true; set_multicast_hops_v6 255; set_unicast_hops_v6 255;
         set_nonblocking true] [].

Definition Discovered : Type := string * Z * option IfaceAddrV4 * option IfaceAddrV6.

(** The first loop of [setup]. *)
Definition discover (name : string) : result IoError Discovered :=
  match if_nametoindex name with
  | Err e => Err e
  | Ok idx =>
      match iface_addrs name idx with
      | Err e => Err e
      | Ok (None, None) =>
          Err (Io_NotFound "no IPv4 or link-local IPv6 address for interface"%string)
      | Ok (v4, v6) => Ok (name, idx, v4, v6)
      end
  end.

Definition have_v4 (ds : list Discovered) : bool :=
  existsb (λ d : Discovered, match d.1.2 with Some _ => true | None => false end) ds.
Definition have_v6 (ds : list Discovered) : bool :=
  existsb (λ d : Discovered, match d.2 with Some _ => true | None => false end) ds.

Definition open_when (b : bool) (mk : result IoError Socket)
    : result IoError (option Socket) :=
  if b then match mk with Ok s => Ok (Some s) | Err e => Err e end else Ok None.

(** [leave; join] on the shared receive socket. *)
Definition rejoin (leave join : SockCall) (recv : option Socket)
    : result IoError (option Socket) :=
  match recv with
  | None => Ok None
  | Some s => match call join (call_ignore leave s) with
              | Ok s => Ok (Some s)
              | Err e => Err e
              end
  end.

Definition open_v4 (name : string) (meta : option IfaceAddrV4) (recv : option Socket)
    : result IoError (option IfaceV4 * option Socket) :=
  match meta with
  | None => Ok (None, recv)
  | Some m =>
      match build_send_socket_v4 name (a4_addr m) with
      | Err e => Err e
      | Ok send =>
          match rejoin (leave_multicast_v4 MDNS_ADDR_V4 (a4_addr m))
                       (join_multicast_v4 MDNS_ADDR_V4 (a4_addr m)) recv with
          | Err e => Err e
          | Ok recv =>
              match call UdpSocket_from_std send with
              | Err e => Err e
              | Ok send =>
                  Ok (Some (mkIfaceV4 (a4_addr m) (a4_mask m) (a4_net m) send), recv)
              end
          end
      end
  end.

Definition open_v6 (name : string) (idx : Z) (meta : option IfaceAddrV6)
    (recv : option Socket) : result IoError (option IfaceV6 * option Socket) :=
  match meta with
  | None => Ok (None, recv)
  | Some m =>
      match build_send_socket_v6 name (a6_addr m) idx (a6_scope_id m) with
      | Err e => Err e
      | Ok send =>
          match rejoin (leave_multicast_v6 MDNS_ADDR_V6 idx)
                       (join_multicast_v6 MDNS_ADDR_V6 idx) recv with
          | Err e => Err e
          | Ok recv =>
              match call UdpSocket_from_std send with
              | Err e => Err e
              | Ok send =>
                  Ok (Some (mkIfaceV6 (a6_addr m) (a6_prefix_len m) (a6_net m)
                              (a6_scope_id m) send), recv)
              end
          end
      end
  end.

(** The second loop of [setup]. *)
Fixpoint open_ifaces (ds : list Discovered) (recv4 recv6 : option Socket)
    : result IoError (list Iface * option Socket * option Socket) :=
  match ds with
  | [] => Ok ([], recv4, recv6)
  | (name, idx, m4, m6) :: ds =>
      match open_v4 name m4 recv4 with
      | Err e => Err e
      | Ok (v4, recv4) =>
          match open_v6 name idx m6 recv6 with
          | Err e => Err e
          | Ok (v6, recv6) =>
              match open_ifaces ds recv4 recv6 with
              | Err e => Err e
              | Ok (ifs, recv4, recv6) => Ok (mkIface name idx v4 v6 :: ifs, recv4, recv6)
              end
          end
      end
  end.

Record RecvSocket := mkRecv { recv_v4 : option Socket; recv_v6 : option Socket }.

Definition to_async (s : option Socket) : result IoError (option Socket) :=
  match s with
  | None => Ok None
  | Some s => match call AsyncFd_new s with Ok s => Ok (Some s) | Err e => Err e end
  end.

Definition setup (ifnames : list string) : result IoError (RecvSocket * list Iface) :=
  match collect_result discover ifnames with
  | Err e => Err e
  | Ok ds =>
      match open_when (have_v4 ds) build_recv_socket_v4 with
      | Err e => Err e
      | Ok r4 =>
          match open_when (have_v6 ds) build_recv_socket_v6 with
          | Err e => Err e
          | Ok r6 =>
              match open_ifaces ds r4 r6 with
              | Err e => Err e
              | Ok (ifs, r4, r6) =>
                  match to_async r4 with
                  | Err e => Err e
                  | Ok r4 =>
                      match to_async r6 with
                      | Err e => Err e
                      | Ok r6 => Ok (mkRecv r4 r6, ifs)
                      end
                  end
              end
          end
      end
  end.
End setup.

(** ** Received datagrams *)

Record Datagram := mkDatagram {
  data : bytes;
  source : SocketAddr;
  family : IpFamily;
  recv_ifindex : option Z;
}.

(** What [recvmsg] returns: the buffer of [MAX_PACKET] bytes, how many were read, the source address and the
    interface indices of the packet-info control messages ([None] when they
    could not be parsed). *)
Record RecvMsg := mkRecvMsg {
  rm_buf : bytes;
  rm_bytes : nat;
  rm_address : option SocketAddr;
  rm_pktinfo : option (list Z);
}.

(** The packet-info loop keeps the last index it sees. *)
Definition last_pktinfo (cmsgs : option (list Z)) : option Z :=
  match cmsgs with
  | Some l => fold_left (λ _ i, Some (as_u32 i)) l None
  | None => None
  end.

(** [do_recvmsg_v4] and [do_recvmsg_v6] after the system call. *)
Definition do_recvmsg (fam : IpFamily) (msg : result IoError RecvMsg) : result IoError Datagram :=
  match msg with
  | Err e => Err e
  | Ok m =>
      match rm_address m with
      | None => Err (Io_InvalidData "no source addr"%string)
      | Some a => Ok (mkDatagram (take (rm_bytes m) (rm_buf m)) a fam (last_pktinfo (rm_pktinfo m)))
      end
  end.

(** One round of [recv_one]: waiting for readiness fails, the read would block,
    or [recvmsg] returns. *)
Inductive Readiness :=
| NotReadable (e : IoError)
| WouldBlock
| Received (msg : result IoError RecvMsg).

Definition has_socket (r : RecvSocket) (fam : IpFamily) : bool :=
  match fam with
  | FamV4 => match recv_v4 r with Some _ => true | None => false end
  | FamV6 => match recv_v6 r with Some _ => true | None => false end
  end.

(** The loops of [recv_one] on the sockets that exist, raced against each other:
    [events] are their rounds in the order in which they happen.  [None]: still
    waiting. *)
Fixpoint recv_one (r : RecvSocket) (events : list (IpFamily * Readiness))
    : option (result IoError Datagram) :=
  match events with
  | [] => None
  | (fam, ev) :: events =>
      if has_socket r fam then
        match ev with
        | NotReadable e => Some (Err e)
        | WouldBlock => recv_one r events
        | Received m => Some (do_recvmsg fam m)
        end
      else recv_one r events
  end.

Definition recv (r : RecvSocket) (events : list (IpFamily * Readiness))
    : option (result IoError Datagram) :=
  match recv_v4 r, recv_v6 r with
  | None, None => Some (Err (Io_NotConnected "no receive sockets configured"%string))
  | _, _ => recv_one r events
  end.

(** ** Lemmas *)

(** A received datagram is tagged with the family of the socket it came from,
    and its payload is what was read. *)
Lemma recv_tagged r events d :
  recv r events = Some (Ok d) →
  has_socket r (family d) = true ∧
  ∃ m, In (family d, Received (Ok m)) events ∧ data d = take (rm_bytes m) (rm_buf m) ∧
       rm_address m = Some (source d).
Proof.
  assert (Hone : recv_one r events = Some (Ok d) →
    has_socket r (family d) = true ∧
    ∃ m, In (family d, Received (Ok m)) events ∧ data d = take (rm_bytes m) (rm_buf m) ∧
         rm_address m = Some (source d)).
  { induction events as [|[fam ev] events IH]; simpl; [done|].
    assert (Hrec : recv_one r events = Some (Ok d) → has_socket r (family d) = true ∧
      ∃ m, ((fam, ev) = (family d, Received (Ok m)) ∨ In (family d, Received (Ok m)) events) ∧
        data d = take (rm_bytes m) (rm_buf m) ∧ rm_address m = Some (source d))
      by (intros [? (m & ? & ?)]%IH; eauto 10).
    destruct (has_socket r fam) eqn:Hs; [|done]. destruct ev as [e| |[m|e]]; try done.
    unfold do_recvmsg. destruct (rm_address m) eqn:Ha; [|done].
    intros [= <-]. simpl. split; [done|]. exists m. auto. }
  unfold recv. repeat case_match; try done.
Qed.

Lemma u128_MAX_ones : u128_MAX = Z.ones 128.
Proof. reflexivity. Qed.

Lemma addr_high_bits a i n : 0 ≤ a < 2 ^ n → 0 ≤ n ≤ i → Z.testbit a i = false.
Proof.
  intros Ha Hi. rewrite <- (Z.mod_small a (2 ^ n)) by done. apply Z.mod_pow2_bits_high. lia.
Qed.

Lemma ipv6_net_testbit a p i :
  0 ≤ a < 2 ^ 128 → 0 ≤ p ≤ 128 → 0 ≤ i →
  Z.testbit (ipv6_net a p) i = Z.testbit a i && (128 - p <=? i).
Proof.
  intros Ha Hp Hi. unfold ipv6_net. destruct (Z.eqb_spec p 0) as [->|Hp0].
  - rewrite Z.land_0_r, Z.testbit_0_l. destruct (Z.leb_spec (128 - 0) i).
    + by rewrite (addr_high_bits a i 128) by lia.
    + by rewrite andb_false_r.
  - rewrite (Z.mod_small (128 - p)) by lia. rewrite (Z.mod_small (128 - p)) by lia.
    rewrite u128_MAX_ones, !Z.land_spec, Z.shiftl_spec by done.
    destruct (Z.leb_spec 128 i).
    + by rewrite (addr_high_bits a i 128) by lia.
    + rewrite (Z.ones_spec_low 128 i) by lia. rewrite andb_true_r. f_equal.
      destruct (Z.leb_spec (128 - p) i).
      * apply Z.ones_spec_low. lia.
      * apply Z.testbit_neg_r. lia.
Qed.

(** Two addresses have the same network exactly when their first [p] bits agree. *)
Lemma ipv6_net_eq a b p :
  0 ≤ a < 2 ^ 128 → 0 ≤ b < 2 ^ 128 → 0 ≤ p ≤ 128 →
  ipv6_net a p = ipv6_net b p ↔
  ∀ i, 128 - p ≤ i < 128 → Z.testbit a i = Z.testbit b i.
Proof.
  intros Ha Hb Hp. split.
  - intros Heq i Hi. pose proof (ipv6_net_testbit a p i Ha Hp ltac:(lia)) as H1.
    pose proof (ipv6_net_testbit b p i Hb Hp ltac:(lia)) as H2.
    rewrite (proj2 (Z.leb_le _ _)) in H1, H2 by lia. rewrite andb_true_r in H1, H2. congruence.
  - intros Hbits. apply Z.bits_inj'. intros i Hi. rewrite !ipv6_net_testbit by lia.
    destruct (Z.leb_spec (128 - p) i); [|by rewrite !andb_false_r].
    rewrite !andb_true_r. destruct (Z.leb_spec 128 i).
    + by rewrite !(addr_high_bits _ i 128) by lia.
    + apply Hbits. lia.
Qed.

Lemma leading_ones_range b : 0 ≤ leading_ones b ≤ 8.
Proof. unfold leading_ones. simpl. repeat case_match; lia. Qed.

Lemma prefix_len_octets_range os bits :
  0 ≤ bits →
  bits ≤ prefix_len_octets os bits ≤ bits + 8 * Z.of_nat (List.length os).
Proof.
  revert bits; induction os as [|b os IH]; intros bits Hb; simpl; [lia|].
  case_match; [|pose proof (leading_ones_range b); lia].
  specialize (IH (bits + 8) ltac:(lia)). lia.
Qed.

Lemma ipv6_prefix_len_range m : 0 ≤ ipv6_prefix_len m ≤ 128.
Proof.
  pose proof (prefix_len_octets_range (Ipv6Addr_octets m) 0 ltac:(lia)) as Hr.
  unfold ipv6_prefix_len. assert (Hl : List.length (Ipv6Addr_octets m) = 16%nat)
    by (unfold Ipv6Addr_octets; by rewrite length_map, length_seq).
  rewrite Hl in Hr. lia.
Qed.

(** The first entry of the interface that gives an address. *)
Fixpoint first_of {A} (f : InterfaceAddress → option A) (ifname : string)
    (addrs : list InterfaceAddress) : option A :=
  match addrs with
  | [] => None
  | ifa :: addrs =>
      if bool_decide (interface_name ifa = ifname) then
        match f ifa with Some a => Some a | None => first_of f ifname addrs end
      else first_of f ifname addrs
  end.

Definition link_local_of (ifindex : Z) (ifa : InterfaceAddress) : option IfaceAddrV6 :=
  match address ifa ≫= as_sockaddr_in6 with
  | Some (ip, scope) =>
      if is_unicast_link_local_v6 ip then Some (v6_of ifindex (netmask ifa) ip scope) else None
  | None => None
  end.

Definition or_else {A} (o o' : option A) : option A :=
  match o with Some a => Some a | None => o' end.

Lemma scan_addrs_first ifname idx addrs f4 f6 :
  scan_addrs ifname idx addrs f4 f6 =
    (or_else f4 (first_of v4_of ifname addrs),
     or_else f6 (first_of (link_local_of idx) ifname addrs)).
Proof.
  revert f4 f6; induction addrs as [|ifa addrs IH]; intros f4 f6; cbn [scan_addrs first_of].
  { by destruct f4, f6. }
  destruct (bool_decide (interface_name ifa = ifname)); cbn [negb]; [|apply IH].
  unfold link_local_of at 1.
  destruct f4 as [a4|], f6 as [a6|]; cbn [or_else]; try done.
  - destruct (address ifa ≫= as_sockaddr_in6) as [[ip sc]|]; [|by rewrite IH].
    destruct (is_unicast_link_local_v6 ip); cbn [or_else negb]; [done|by rewrite IH].
  - destruct (v4_of ifa); cbn [or_else negb]; [done|by rewrite IH].
  - destruct (address ifa ≫= as_sockaddr_in6) as [[ip sc]|].
    + destruct (is_unicast_link_local_v6 ip); cbn [or_else negb].
      * destruct (v4_of ifa); cbn [or_else negb]; [done|by rewrite IH].
      * rewrite IH. by destruct (v4_of ifa).
    + destruct (v4_of ifa); cbn [or_else negb]; by rewrite IH.
Qed.

Lemma first_of_Some {A} (f : InterfaceAddress → option A) ifname addrs a :
  first_of f ifname addrs = Some a →
  ∃ ifa, In ifa addrs ∧ interface_name ifa = ifname ∧ f ifa = Some a.
Proof.
  induction addrs as [|ifa addrs IH]; simpl; [done|].
  destruct (bool_decide_reflect (interface_name ifa = ifname)).
  - destruct (f ifa) eqn:Hf; [intros [= <-]; eauto 10|]. intros Hs%IH. naive_solver.
  - intros Hs%IH. naive_solver.
Qed.

(** ** The interfaces [setup] returns *)

Record v4_ready (name : string) (v4 : IfaceV4) : Prop := {
  v4_on_net : Z.land (v4_addr v4) (v4_mask v4) = v4_net v4;
  v4_ttl : In (set_multicast_ttl_v4 255) (v4_send v4);
  v4_bound : In (bind (SockV4 (v4_addr v4) MDNS_PORT)) (v4_send v4);
  v4_device : In (bind_device name) (v4_send v4);
}.

Record v6_ready (name : string) (idx : Z) (v6 : IfaceV6) : Prop := {
  v6_on_net : ipv6_net (v6_addr v6) (v6_prefix_len v6) = v6_net v6;
  v6_prefix : 0 ≤ v6_prefix_len v6 ≤ 128;
  v6_link_local : is_unicast_link_local_v6 (v6_addr v6) = true;
  v6_hops : In (set_multicast_hops_v6 255) (v6_send v6) ∧
            In (set_unicast_hops_v6 255) (v6_send v6);
  v6_bound : In (bind (SockV6 (v6_addr v6) MDNS_PORT 0 (v6_scope_id v6))) (v6_send v6);
  v6_device : In (bind_device name) (v6_send v6);
  v6_scope : idx ≠ 0 → v6_scope_id v6 ≠ 0;
}.

Record iface_ready (i : Iface) : Prop := {
  ready_some : is_Some (if_v4 i) ∨ is_Some (if_v6 i);
  ready_v4 : ∀ v4, if_v4 i = Some v4 → v4_ready (if_name i) v4;
  ready_v6 : ∀ v6, if_v6 i = Some v6 → v6_ready (if_name i) (ifindex i) v6;
}.

Section setup_lemmas.
Context {O : Os}.

Record discovered_ok (d : Discovered) : Prop := {
  disc_some : is_Some d.1.2 ∨ is_Some d.2;
  disc_v4 : ∀ m, d.1.2 = Some m → Z.land (a4_addr m) (a4_mask m) = a4_net m;
  disc_v6 : ∀ m, d.2 = Some m →
    ipv6_net (a6_addr m) (a6_prefix_len m) = a6_net m ∧
    0 ≤ a6_prefix_len m ≤ 128 ∧ is_unicast_link_local_v6 (a6_addr m) = true ∧
    (d.1.1.2 ≠ 0 → a6_scope_id m ≠ 0);
}.

Lemma v6_of_ok idx mask ip scope :
  let m := v6_of idx mask ip scope in
  a6_addr m = ip ∧ ipv6_net ip (a6_prefix_len m) = a6_net m ∧
  0 ≤ a6_prefix_len m ≤ 128 ∧ (idx ≠ 0 → a6_scope_id m ≠ 0).
Proof.
  unfold v6_of. simpl. split; [done|]. split; [done|]. split.
  - destruct (mask ≫= as_sockaddr_in6) as [[m ?]|]; [apply ipv6_prefix_len_range|lia].
  - by destruct (Z.eqb_spec scope 0).
Qed.

Lemma discover_ok name d : discover name = Ok d → d.1.1.1 = name ∧ discovered_ok d.
Proof.
  unfold discover, iface_addrs. destruct (if_nametoindex name) as [idx|]; [|done].
  destruct getifaddrs as [addrs|]; [|done]. rewrite scan_addrs_first. simpl.
  intros Hd.
  assert (Hd' : d = (name, idx, first_of v4_of name addrs,
                     first_of (link_local_of idx) name addrs) ∧
    (is_Some (first_of v4_of name addrs) ∨ is_Some (first_of (link_local_of idx) name addrs))).
  { destruct (first_of v4_of name addrs), (first_of (link_local_of idx) name addrs);
      simplify_eq; eauto. }
  destruct Hd' as [-> Hsome]. split; [done|]. split; simpl; [done|..]; intros m.
  - intros (ifa & _ & _ & Hm)%first_of_Some. unfold v4_of in Hm. cases.
  - intros (ifa & _ & _ & Hm)%first_of_Some. unfold link_local_of in Hm.
    destruct (address ifa ≫= as_sockaddr_in6) as [[ip sc]|]; [|done].
    destruct (is_unicast_link_local_v6 ip) eqn:Hl; simplify_eq.
    destruct (v6_of_ok idx (netmask ifa) ip sc) as (-> & ? & ? & ?). done.
Qed.

Lemma open_v4_ok name meta recv v4 recv' :
  open_v4 name meta recv = Ok (v4, recv') →
  (∀ m, meta = Some m → Z.land (a4_addr m) (a4_mask m) = a4_net m) →
  (is_Some v4 ↔ is_Some meta) ∧ ∀ v, v4 = Some v → v4_ready name v.
Proof.
  unfold open_v4. intros Ho Hnet. destruct meta as [m|]; simplify_eq/=; [|done].
  destruct (build_send_socket_v4 name (a4_addr m)) as [send|] eqn:Hs; [|done].
  destruct (rejoin _ _ _); [|done].
  destruct (call UdpSocket_from_std send) as [send'|] eqn:Hf; simplify_eq.
  split; [by split; eauto|]. intros v [= <-].
  apply call_ok in Hf as ->. apply calls_ok in Hs as ->.
  split; simpl; [by apply Hnet|tauto..].
Qed.

Lemma open_v6_ok name idx meta recv v6 recv' :
  open_v6 name idx meta recv = Ok (v6, recv') →
  (∀ m, meta = Some m →
    ipv6_net (a6_addr m) (a6_prefix_len m) = a6_net m ∧
    0 ≤ a6_prefix_len m ≤ 128 ∧ is_unicast_link_local_v6 (a6_addr m) = true ∧
    (idx ≠ 0 → a6_scope_id m ≠ 0)) →
  (is_Some v6 ↔ is_Some meta) ∧ ∀ v, v6 = Some v → v6_ready name idx v.
Proof.
  unfold open_v6. intros Ho Hnet. destruct meta as [m|]; simplify_eq/=; [|done].
  destruct (build_send_socket_v6 name (a6_addr m) idx (a6_scope_id m)) as [send|] eqn:Hs; [|done].
  destruct (rejoin _ _ _); [|done].
  destruct (call UdpSocket_from_std send) as [send'|] eqn:Hf; simplify_eq.
  split; [by split; eauto|]. intros v [= <-].
  apply call_ok in Hf as ->. apply calls_ok in Hs as ->.
  destruct (Hnet m eq_refl) as (?&?&?&?). split; simpl; tauto.
Qed.

Lemma open_ifaces_ok ds r4 r6 ifs r4' r6' :
  open_ifaces ds r4 r6 = Ok (ifs, r4', r6') → Forall discovered_ok ds →
  map if_name ifs = map (λ d : Discovered, d.1.1.1) ds ∧ Forall iface_ready ifs.
Proof.
  revert r4 r6 ifs; induction ds as [|[[[name idx] m4] m6] ds IH];
    intros r4 r6 ifs Ho Hd; simpl in *; [by simplify_eq|].
  inversion Hd as [|? ? [Hsome H4 H6] Hds]; subst; simpl in *.
  destruct (open_v4 name m4 r4) as [[v4 r4a]|] eqn:E4; [|done].
  destruct (open_v6 name idx m6 r6) as [[v6 r6a]|] eqn:E6; [|done].
  destruct (open_ifaces ds r4a r6a) as [[[ifs' ra] rb]|] eqn:Eo; simplify_eq/=.
  destruct (open_v4_ok _ _ _ _ _ E4 H4) as [Hs4 Hr4].
  destruct (open_v6_ok _ _ _ _ _ _ E6 H6) as [Hs6 Hr6].
  destruct (IH _ _ _ Eo Hds) as [Hn Hf]. split; [by rewrite Hn|].
  constructor; [|done]. split; simpl; tauto.
Qed.

Lemma setup_ifaces_ok ifnames recv ifs :
  setup ifnames = Ok (recv, ifs) →
  map if_name ifs = ifnames ∧ Forall iface_ready ifs.
Proof.
  unfold setup. destruct (collect_result discover ifnames) as [ds|] eqn:Hd; [|done].
  destruct (open_when (have_v4 ds) _) as [r4|]; [|done].
  destruct (open_when (have_v6 ds) _) as [r6|]; [|done].
  destruct (open_ifaces ds r4 r6) as [[[ifs' r4'] r6']|] eqn:Ho; [|done].
  destruct (to_async r4'); [|done]. destruct (to_async r6'); [|done].
  intros [= <- <-]. apply collect_result_ok in Hd.
  assert (Hds : map (λ d : Discovered, d.1.1.1) ds = ifnames ∧ Forall discovered_ok ds).
  { clear Ho. induction Hd as [|name d names ds Hn _ IH]; [done|].
    apply discover_ok in Hn as [Hn Hok]. destruct IH as [IH1 IH2].
    simpl. split; [by rewrite Hn, IH1|by constructor]. }
  destruct Hds as [Hn Hok]. destruct (open_ifaces_ok _ _ _ _ _ _ Ho Hok) as [Hn' Hr].
  split; [congruence|done].
Qed.
End setup_lemmas.

(** ** Sending *)

Section send_lemmas.
Context `{Hickory} {HI : HashIter}.

Definition is_send (e : Event) : bool := match e with EvSend _ _ _ _ => true | _ => false end.
Definition send_succeeded (e : Event) : bool :=
  match e with EvSend _ _ _ (Ok _) => true | _ => false end.

(** The sends of a family list, in order, each to the family's mDNS address. *)
Definition sends_to (i : Iface) (b : bytes) (f : IpFamily) (e : Event) : Prop :=
  ∃ s dst res, egress i f = Some (s, dst) ∧ e = EvSend s b dst res.

Lemma egress_families i f : In f (families i) → is_Some (egress i f).
Proof.
  unfold families, egress. rewrite in_app_iff.
  destruct (if_v4 i), (if_v6 i), f; simpl; intuition (eauto; done).
Qed.

Lemma traces_send_mdns_on i f b tr r :
  traces (send_mdns_on i f b) tr r →
  match egress i f with
  | Some (s, dst) => tr = [EvSend s b dst r]
  | None => tr = [] ∧ ∃ w, r = Err (Io_NotFound w)
  end.
Proof.
  unfold send_mdns_on. destruct (egress i f) as [[s dst]|].
  - by intros [-> _]%traces_trigger.
  - simpl. intros [-> ->]. eauto.
Qed.

Lemma traces_send_families i fs b sent le tr r :
  (∀ f, In f fs → is_Some (egress i f)) →
  traces (send_families i fs b sent le) tr r →
  Forall2 (sends_to i b) fs tr ∧
  r.1 = sent + Z.of_nat (List.length (List.filter send_succeeded tr)).
Proof.
  revert sent le tr r; induction fs as [|f fs IH]; intros sent le tr r Hfs; cbn [send_families].
  - intros [-> ->]. split; [constructor|]. simpl. lia.
  - intros (tr1 & tr2 & x & -> & H1 & H2)%traces_bind.
    destruct (Hfs f (or_introl eq_refl)) as [[s dst] He].
    apply traces_send_mdns_on in H1. rewrite He in H1. subst tr1.
    destruct x as [n|e];
      destruct (IH _ _ _ _ (λ f' H', Hfs f' (or_intror H')) H2) as (Hf & Hn);
      simpl; (split; [constructor; [by eexists s, dst, _|done]|lia]).
Qed.

Lemma traces_send_mdns_all i b tr r :
  traces (send_mdns_all i b) tr r →
  Forall2 (sends_to i b) (families i) tr ∧
  let n := Z.of_nat (List.length (List.filter send_succeeded tr)) in
  (0 < n → r = Ok n) ∧ (n = 0 → ∃ e, r = Err e).
Proof.
  unfold send_mdns_all. intros (tr1 & tr2 & [sent le] & -> & H1 & H2)%traces_bind.
  apply traces_send_families in H1 as (Hf & Hn); [|apply egress_families].
  cbn [fst] in Hn. destruct (Z.ltb_spec 0 sent).
  - destruct H2 as [-> ->]. rewrite app_nil_r. split; [done|]. cbv zeta.
    split; [|lia]. intros _. f_equal. lia.
  - destruct H2 as [-> ->]. rewrite app_nil_r. split; [done|]. cbv zeta. split; [lia|eauto].
Qed.

Lemma traces_send_mdns i b tr r :
  traces (send_mdns i b) tr r →
  Forall2 (sends_to i b) (families i) tr ∧
  (is_ok r = true ↔ Exists (λ e, send_succeeded e = true) tr).
Proof.
  unfold send_mdns. intros (tr1 & tr2 & r' & -> & H1 & [-> ->])%traces_bind.
  rewrite app_nil_r. apply traces_send_mdns_all in H1 as (Hf & Hpos & Hz).
  split; [done|]. cbv zeta in *. rewrite Exists_exists.
  destruct (List.filter send_succeeded tr1) as [|e l] eqn:Hl.
  - destruct (Hz eq_refl) as [e ->]. split; [done|].
    intros (x & Hx%list_elem_of_In & Hs).
    assert (Hin : In x (List.filter send_succeeded tr1)) by by apply filter_In.
    by rewrite Hl in Hin.
  - simpl in Hpos. rewrite Hpos by lia. split; [|done]. intros _.
    assert (Hin : In e (List.filter send_succeeded tr1)) by (rewrite Hl; by left).
    apply filter_In in Hin as [? ?]. exists e. by rewrite list_elem_of_In.
Qed.
End send_lemmas.

(** ** Properties *)



(** [ipv6_prefix_len] inverts the construction of a mask: the mask of [n]
    leading ones has prefix length [n]; every mask gives a length within 0 and
    128, so the shift of [ipv6_net] does not wrap. *)
Theorem ipv6_prefix_len_roundtrip n m :
  0 ≤ n ≤ 128 →
  ipv6_prefix_len (ipv6_net u128_MAX n) = n ∧ 0 ≤ ipv6_prefix_len m ≤ 128.
Proof.
  intros Hn. split; [|apply ipv6_prefix_len_range].
  assert (Hall : forallb (λ k : nat,
    ipv6_prefix_len (ipv6_net u128_MAX (Z.of_nat k)) =? Z.of_nat k) (seq 0 129) = true)
    by (vm_compute; reflexivity).
  rewrite forallb_forall in Hall. specialize (Hall (Z.to_nat n)).
  rewrite in_seq, Z2Nat.id, Z.eqb_eq in Hall by lia. apply Hall. lia.
Qed.

Lemma ipv6_prefix_len_roundtrip_witness : ipv6_prefix_len (ipv6_net u128_MAX 10) = 10.
Proof. apply (ipv6_prefix_len_roundtrip 10 0). lia. Defined.

(** Address discovery returns the first IPv4 address of the named
    interface and its first link-local IPv6 address, in the order of
    [getifaddrs]. *)
Theorem iface_addrs_first `{Os} ifname idx addrs :
  getifaddrs = Ok addrs →
  iface_addrs ifname idx =
    Ok (first_of v4_of ifname addrs, first_of (link_local_of idx) ifname addrs).
Proof. intros Ha. unfold iface_addrs. rewrite Ha. by rewrite scan_addrs_first. Qed.

(** C33. When [setup] succeeds it returns one interface per configured name, in
    order; each has at least one address, lies on its own subnet, and sends
    from port 5353 of the device with an IP TTL (hop limit) of 255. *)
Theorem setup_ready `{Os} ifnames recv ifs :
  setup ifnames = Ok (recv, ifs) →
  map if_name ifs = ifnames ∧ Forall iface_ready ifs.
Proof. apply setup_ifaces_ok. Qed.

Section send_properties.
Context `{Hickory} {HI : HashIter}.

(** [send_mdns_all] sends the datagram exactly once per address family of
    the interface, to the mDNS group and port of that family; it reports
    the number of successful sends, and an error when there was none. *)
Theorem send_mdns_all_spec i b tr r :
  traces (send_mdns_all i b) tr r →
  Forall2 (sends_to i b) (families i) tr ∧
  let n := Z.of_nat (List.length (List.filter send_succeeded tr)) in
  (0 < n → r = Ok n) ∧ (n = 0 → ∃ e, r = Err e).
Proof. apply traces_send_mdns_all. Qed.
End send_properties.

Module IfaceSample.
Import Sample.
Definition addrs : list InterfaceAddress :=
  [mkIfAddr "eth0" (Some (Sockaddr_in (Ipv4Addr_new 192 168 1 1)))
     (Some (Sockaddr_in (Ipv4Addr_new 255 255 255 0)));
   mkIfAddr "eth0" (Some (Sockaddr_in6 0x20010db8000000000000000000000001 0)) None;
   mkIfAddr "eth0" (Some (Sockaddr_in6 0xfe800000000000000000000000000001 2)) None].
#[export] Instance os : Os := permissive_os addrs (λ _, Ok 2).

Definition eth0 : Iface :=
  match setup ["eth0"%string] with
  | Ok (_, [i]) => i
  | _ => mkIface "" 0 None None
  end.

Definition recv0 : RecvSocket :=
  match setup ["eth0"%string] with Ok (r, _) => r | Err _ => mkRecv None None end.

Lemma setup_eq : setup ["eth0"%string] = Ok (recv0, [eth0]).
Proof. vm_compute. reflexivity. Qed.

Lemma iface_addrs_first_witness :
  iface_addrs "eth0" 2 =
    Ok (first_of v4_of "eth0" addrs, first_of (link_local_of 2) "eth0" addrs).
Proof. apply (iface_addrs_first "eth0" 2 addrs). reflexivity. Defined.

Lemma setup_ready_witness : setup ["eth0"%string] = Ok (recv0, [eth0]) ∧ iface_ready eth0.
Proof.
  split; [apply setup_eq|].
  apply (Forall_inv (proj2 (setup_ready ["eth0"%string] recv0 [eth0] setup_eq))).
Defined.

Lemma send_mdns_all_spec_witness :
  Forall2 (sends_to eth0 []) (families eth0)
    [EvSend (match if_v4 eth0 with Some v => v4_send v | None => [] end) []
       MDNS_SOCKADDR_V4 (Ok 0);
     EvSend (match if_v6 eth0 with Some v => v6_send v | None => [] end) []
       (SockV6 MDNS_ADDR_V6 MDNS_PORT 0 2) (Err (Io_Os 1))].
Proof.
  eapply (send_mdns_all_spec eth0 [] _ (Ok 1)).
  eexists _, _. split; [reflexivity|]. split; [done|].
  eexists _, _. split; [reflexivity|]. split; done.
Defined.
End IfaceSample.
