(* ===== verification/Config.v ===== *)
(** * Config: the configuration file and the source filters ([src/config.rs])

    The TOML reader and [serde] are a parameter that returns the keys present
    in the document ([TomlDoc]); the defaults of the [serde] attributes and
    the validation of [Resolved::parse] are modelled.  The CIDR parser works
    on the text, with the standard parsers of [StdNet]. *)

From S2P Require Import Prelude RustStd StdNet Hickory RecordKey Cache Timing Os.
From S2P Require Import Effects Iface.
From Stdlib Require Import Ascii.
From stdpp Require Import strings.
Open Scope Z_scope.
Open Scope list_scope.

Definition MAX_CACHE_TTL_SECS : Z := u32_MAX.

(** ** Subnets *)

Inductive Subnet :=
| SubV4 (addr : Ipv4Addr) (prefix_len : Z) (mask net : Ipv4Addr)
| SubV6 (addr : Ipv6Addr) (prefix_len : Z) (net : Ipv6Addr).

Definition subnet_matches (s : Subnet) (ip : IpAddr) : bool :=
  match s, ip with
  | SubV4 _ _ mask net, IpV4 ip => Z.land ip mask =? net
  | SubV6 _ prefix_len net, IpV6 ip => ipv6_net ip prefix_len =? net
  | _, _ => false
  end.

Section config.
Context {TomlError : Type}.

Inductive ConfigError :=
| CE_Io (path : string) (e : IoError)
| CE_Parse (e : TomlError)
| CE_BadSubnet (s : chars) (why : string)
| CE_NoInterfaces
| CE_BlackAndWhite
| CE_BadCacheMaxTtl (value max : Z).

Definition ipv4_mask (bits : Z) : Z :=
  if bits =? 0 then 0 else Z.land (Z.shiftl 0xFFFFFFFF (32 - bits)) u32_MAX.

Definition parse_subnet (s : chars) : result ConfigError Subnet :=
  match split_once "/"%char s with
  | None => Err (CE_BadSubnet s "missing /")
  | Some (addr_s, mask_s) =>
  match parse_u32 mask_s with
  | None => Err (CE_BadSubnet s "bad mask")
  | Some bits =>
  if contains ":"%char addr_s then
    match parse_ipv6 addr_s with
    | None => Err (CE_BadSubnet s "bad IPv6 address")
    | Some addr =>
        if 128 <? bits then Err (CE_BadSubnet s "mask > 128")
        else let prefix_len := as_u8 bits in
             Ok (SubV6 addr prefix_len (ipv6_net addr prefix_len))
    end
  else
    match parse_ipv4 addr_s with
    | None => Err (CE_BadSubnet s "bad IPv4 address")
    | Some addr =>
        if 32 <? bits then Err (CE_BadSubnet s "mask > 32")
        else let mask_u := ipv4_mask bits in
             Ok (SubV4 addr (as_u8 bits) mask_u (Z.land addr mask_u))
    end
  end
  end.

(** ** The configuration document *)

Record ServiceConfig := mkServiceConfig {
  sc_name : string;
  sc_service : string;
  sc_port : Z;
  sc_txt : list string;
  sc_host : option string;
}.

(** The keys a document gives. *)
Record TomlDoc := mkTomlDoc {
  td_interfaces : list string;
  td_repeat : option bool;
  td_answer_from_cache : option bool;
  td_blacklist : option (list chars);
  td_whitelist : option (list chars);
  td_hostname : option string;
  td_browse : option (list string);
  td_browse_interval_secs : option Z;
  td_cache_tick_secs : option Z;
  td_max_cache_entries : option Z;
  td_cache_max_ttl_secs : option Z;
  td_services : option (list ServiceConfig);
}.

Record RawConfig := mkRawConfig {
  rc_interfaces : list string;
  rc_repeat : bool;
  rc_answer_from_cache : bool;
  rc_blacklist : list chars;
  rc_whitelist : list chars;
  rc_hostname : option string;
  rc_browse : list string;
  rc_browse_interval_secs : Z;
  rc_cache_tick_secs : Z;
  rc_max_cache_entries : Z;
  rc_cache_max_ttl_secs : option Z;
  rc_services : list ServiceConfig;
}.

Definition default_true : bool := true.
Definition default_browse_secs : Z := 60.
Definition default_browse : list string := ["_services._dns-sd._udp.local."%string].
Definition default_cache_tick : Z := 5.
Definition default_max_cache_entries : Z := DEFAULT_MAX_ENTRIES.

(** The [#[serde(default)]] attributes. *)
Definition raw_of_doc (d : TomlDoc) : RawConfig := {|
  rc_interfaces := td_interfaces d;
  rc_repeat := default default_true (td_repeat d);
  rc_answer_from_cache := default default_true (td_answer_from_cache d);
  rc_blacklist := default [] (td_blacklist d);
  rc_whitelist := default [] (td_whitelist d);
  rc_hostname := td_hostname d;
  rc_browse := default default_browse (td_browse d);
  rc_browse_interval_secs := default default_browse_secs (td_browse_interval_secs d);
  rc_cache_tick_secs := default default_cache_tick (td_cache_tick_secs d);
  rc_max_cache_entries := default default_max_cache_entries (td_max_cache_entries d);
  rc_cache_max_ttl_secs := td_cache_max_ttl_secs d;
  rc_services := default [] (td_services d);
|}.

Record Resolved := mkResolved {
  cfg_interfaces : list string;
  cfg_repeat : bool;
  cfg_answer_from_cache : bool;
  cfg_hostname : option string;
  cfg_browse : list string;
  cfg_browse_interval_secs : Z;
  cfg_cache_tick_secs : Z;
  cfg_max_cache_entries : Z;
  cfg_cache_max_ttl_secs : option Z;
  cfg_services : list ServiceConfig;
  cfg_blacklist : list Subnet;
  cfg_whitelist : list Subnet;
}.

(** The match on [cache_max_ttl_secs]: 0 and absent mean no cap. *)
Definition resolve_cache_max_ttl (raw : option Z) : result ConfigError (option Z) :=
  match raw with
  | None => Ok None
  | Some ttl =>
      if ttl =? 0 then Ok None
      else if MAX_CACHE_TTL_SECS <? ttl then Err (CE_BadCacheMaxTtl ttl MAX_CACHE_TTL_SECS)
      else Ok (Some ttl)
  end.

(** [Resolved::parse] after the document is read. *)
Definition resolve (raw : RawConfig) : result ConfigError Resolved :=
  match rc_interfaces raw with
  | [] => Err CE_NoInterfaces
  | _ =>
  if negb (bool_decide (rc_blacklist raw = [])) && negb (bool_decide (rc_whitelist raw = []))
  then Err CE_BlackAndWhite
  else
  match collect_result parse_subnet (rc_blacklist raw) with
  | Err e => Err e
  | Ok blacklist =>
  match collect_result parse_subnet (rc_whitelist raw) with
  | Err e => Err e
  | Ok whitelist =>
  match resolve_cache_max_ttl (rc_cache_max_ttl_secs raw) with
  | Err e => Err e
  | Ok cache_max_ttl_secs =>
      Ok {| cfg_interfaces := rc_interfaces raw;
            cfg_repeat := rc_repeat raw;
            cfg_answer_from_cache := rc_answer_from_cache raw;
            cfg_hostname := rc_hostname raw;
            cfg_browse := rc_browse raw;
            cfg_browse_interval_secs := rc_browse_interval_secs raw;
            cfg_cache_tick_secs := rc_cache_tick_secs raw;
            cfg_max_cache_entries := rc_max_cache_entries raw;
            cfg_cache_max_ttl_secs := cache_max_ttl_secs;
            cfg_services := rc_services raw;
            cfg_blacklist := blacklist;
            cfg_whitelist := whitelist |}
  end end end
  end.

Definition allow_source (cfg : Resolved) (ip : IpAddr) : bool :=
  match cfg_whitelist cfg with
  | [] => negb (existsb (λ s, subnet_matches s ip) (cfg_blacklist cfg))
  | _ => existsb (λ s, subnet_matches s ip) (cfg_whitelist cfg)
  end.

Section load.
Variable toml_from_str : string → result TomlError TomlDoc.
Variable read_to_string : string → result IoError string.

Definition resolved_parse (body : string) : result ConfigError Resolved :=
  match toml_from_str body with
  | Err e => Err (CE_Parse e)
  | Ok d => resolve (raw_of_doc d)
  end.

Definition resolved_load (path : string) : result ConfigError Resolved :=
  match read_to_string path with
  | Err e => Err (CE_Io path e)
  | Ok body => resolved_parse body
  end.
End load.
End config.
Arguments ConfigError : clear implicits.
#[global] Arguments ipv4_mask : simpl never.

(** ** Ranges of the parsed numbers *)

Definition ipv4_ok (a : Ipv4Addr) : Prop := 0 ≤ a < 2 ^ 32.
Definition ipv6_ok (a : Ipv6Addr) : Prop := 0 ≤ a < 2 ^ 128.
Definition ip_ok (a : IpAddr) : Prop :=
  match a with IpV4 a => ipv4_ok a | IpV6 a => ipv6_ok a end.

Lemma to_digit_range radix c d : to_digit radix c = Some d → 0 ≤ d.
Proof.
  unfold to_digit. intros Hd.
  repeat (case_match; try done); simplify_eq; bool_to_prop; lia.
Qed.

Lemma read_digits_nonneg radix s : Forall (λ d, 0 ≤ d) (read_digits radix s).1.
Proof.
  induction s as [|c s IH]; simpl; [constructor|].
  destruct (to_digit radix c) eqn:Hd; [|constructor].
  destruct (read_digits radix s). constructor; [by eapply to_digit_range|done].
Qed.

Lemma digits_fold_nonneg radix ds acc :
  0 ≤ radix → 0 ≤ acc → Forall (λ d, 0 ≤ d) ds →
  0 ≤ fold_left (λ a d, a * radix + d) ds acc.
Proof.
  intros Hr Ha Hds. revert acc Ha. induction Hds as [|d ds Hd _ IH]; intros acc Ha; simpl; [done|].
  apply IH. nia.
Qed.

Lemma read_number_range radix n z mx s v r :
  0 ≤ radix → read_number radix n z mx s = Some (v, r) → 0 ≤ v ≤ mx.
Proof.
  intros Hr. unfold read_number. pose proof (read_digits_nonneg radix s) as Hd.
  destruct (read_digits radix s) as [ds r']. simpl in Hd.
  pose proof (digits_fold_nonneg radix ds 0 Hr ltac:(lia) Hd).
  intros Hs. repeat (case_match; try done); simplify_eq; bool_to_prop; lia.
Qed.

Lemma read_separator_Some {A} sep i (inner : chars → option (A * chars)) s p :
  read_separator sep i inner s = Some p → ∃ s', inner s' = Some p.
Proof. unfold read_separator. intros Hs. repeat (case_match; try done); eauto. Qed.

Lemma read_octet_range i s v r : read_octet i s = Some (v, r) → 0 ≤ v ≤ u8_MAX.
Proof.
  unfold read_octet. intros [s' Hs]%read_separator_Some. eapply read_number_range; [|done]. lia.
Qed.

Lemma read_ipv4_addr_ok s a r : read_ipv4_addr s = Some (a, r) → ipv4_ok a.
Proof.
  unfold read_ipv4_addr. intros Hs.
  repeat match type of Hs with
  | match read_octet ?i ?t with _ => _ end = _ =>
      let E := fresh in destruct (read_octet i t) as [[? ?]|] eqn:E;
      [apply read_octet_range in E|done]
  end.
  simplify_eq. unfold ipv4_ok, Ipv4Addr_new, u8_MAX in *. lia.
Qed.

Lemma parse_ipv4_ok s a : parse_ipv4 s = Some a → ipv4_ok a.
Proof.
  unfold parse_ipv4. intros Hs. case_match; [done|].
  destruct (read_ipv4_addr s) as [[a' [|]]|] eqn:Hr; simplify_eq. by eapply read_ipv4_addr_ok.
Qed.

Lemma read_groups_ok n i s :
  let '(gs, _, _) := read_groups n i s in
  Forall (λ g, 0 ≤ g ≤ u16_MAX) gs ∧ (List.length gs ≤ n)%nat.
Proof.
  revert i s; induction n as [|n IH]; intros i s; cbn [read_groups]; [split; [constructor|simpl; lia]|].
  destruct (if (0 <? n)%nat then _ else None) as [[v4 r]|] eqn:E4.
  - destruct (0 <? n)%nat eqn:Hn; [|done]. apply Nat.ltb_lt in Hn.
    apply read_separator_Some in E4 as [s' Hv]. apply read_ipv4_addr_ok in Hv.
    unfold ipv4_ok in Hv. split; [|simpl; lia].
    assert (Hsh : 0 ≤ Z.shiftr v4 16 ≤ u16_MAX).
    { rewrite Z.shiftr_div_pow2 by lia. unfold u16_MAX.
      split; [apply Z.div_pos; lia|apply Z.lt_succ_r, Z.div_lt_upper_bound; lia]. }
    assert (Hla : 0 ≤ Z.land v4 0xffff ≤ u16_MAX).
    { change 0xffff with (Z.ones 16). rewrite Z.land_ones by lia. unfold u16_MAX.
      pose proof (Z.mod_pos_bound v4 (2 ^ 16) ltac:(lia)). lia. }
    repeat constructor; lia.
  - destruct (read_separator ":"%char i (read_number 16 4 true u16_MAX) s)
      as [[g r]|] eqn:Eg;
      [|simpl; split; [constructor|lia]].
    apply read_separator_Some in Eg as [s' Hg]. apply read_number_range in Hg; [|lia].
    specialize (IH (S i) r). destruct (read_groups n (S i) r) as [[gs b] r'].
    destruct IH as [Hf Hl]. split; [by constructor|simpl; lia].
Qed.

Lemma groups_fold_bound gs acc n :
  Forall (λ g, 0 ≤ g ≤ u16_MAX) gs → 0 ≤ acc < 2 ^ (16 * Z.of_nat n) →
  0 ≤ fold_left (λ a g, a * 2 ^ 16 + g) gs acc < 2 ^ (16 * Z.of_nat (n + List.length gs)).
Proof.
  intros Hg. revert acc n. induction Hg as [|g gs Hg _ IH]; intros acc n Ha.
  - simpl. by rewrite Nat.add_0_r.
  - cbn [fold_left List.length]. replace (n + S (List.length gs))%nat with (S n + List.length gs)%nat by lia.
    apply IH. rewrite Nat2Z.inj_succ. replace (16 * Z.succ (Z.of_nat n)) with (16 * Z.of_nat n + 16) by lia.
    rewrite Z.pow_add_r by lia. unfold u16_MAX in Hg. change (2 ^ 16) with 65536. nia.
Qed.

Lemma groups_ok gs :
  Forall (λ g, 0 ≤ g ≤ u16_MAX) gs → (List.length gs ≤ 8)%nat → ipv6_ok (Ipv6Addr_of_groups gs).
Proof.
  intros Hg Hl. unfold ipv6_ok, Ipv6Addr_of_groups.
  destruct (groups_fold_bound gs 0 0 Hg ltac:(simpl; lia)) as [H1 H2]. split; [done|].
  eapply Z.lt_le_trans; [apply H2|]. apply Z.pow_le_mono_r; lia.
Qed.

Lemma parse_ipv6_ok s a : parse_ipv6 s = Some a → ipv6_ok a.
Proof.
  unfold parse_ipv6, read_ipv6_addr. intros Hs.
  pose proof (read_groups_ok 8 0 s) as Hh.
  destruct (read_groups 8 0 s) as [[head b] r]. destruct Hh as [Hh Hl].
  destruct (List.length head =? 8)%nat.
  { destruct r; simplify_eq. by apply groups_ok. }
  destruct b; [done|]. destruct (read_given_char _ r) as [r1|]; [|done].
  destruct (read_given_char _ r1) as [r2|]; [|done].
  pose proof (read_groups_ok (8 - (List.length head + 1)) 0 r2) as Ht.
  destruct (read_groups _ 0 r2) as [[tail b2] r3]. destruct Ht as [Ht Hlt].
  destruct r3; simplify_eq. apply groups_ok.
  - apply Forall_app; split; [done|]. apply Forall_app; split; [|done].
    apply Forall_replicate. unfold u16_MAX. lia.
  - rewrite !length_app, length_replicate. lia.
Qed.

Lemma parse_u32_range s v : parse_u32 s = Some v → 0 ≤ v ≤ u32_MAX.
Proof.
  unfold parse_u32. intros Hs. case_match; [done|].
  destruct (digits_value 10 0 _) as [v'|] eqn:Hd; [|done].
  destruct (Z.leb_spec v' u32_MAX); simplify_eq. split; [|done].
  assert (Hnn : ∀ cs acc w, 0 ≤ acc → digits_value 10 acc cs = Some w → 0 ≤ w).
  { intros cs; induction cs as [|c cs IH]; intros acc w Ha; simpl; [naive_solver|].
    destruct (to_digit 10 c) as [d|] eqn:Hdg; [|done]. apply to_digit_range in Hdg.
    apply IH. lia. }
  by eapply (Hnn _ 0).
Qed.

(** ** Masks *)

Lemma ipv4_mask_testbit bits i :
  0 ≤ bits ≤ 32 → 0 ≤ i < 32 → Z.testbit (ipv4_mask bits) i = (32 - bits <=? i).
Proof.
  intros Hb Hi. unfold ipv4_mask. destruct (Z.eqb_spec bits 0) as [->|].
  - rewrite Z.testbit_0_l. symmetry. apply Z.leb_gt. lia.
  - change u32_MAX with (Z.ones 32). change 0xFFFFFFFF with (Z.ones 32).
    rewrite Z.land_spec, Z.shiftl_spec, (Z.ones_spec_low 32 i) by lia. rewrite andb_true_r.
    destruct (Z.leb_spec (32 - bits) i).
    + apply Z.ones_spec_low. lia.
    + apply Z.testbit_neg_r. lia.
Qed.

Lemma ipv4_net_eq a b bits :
  ipv4_ok a → ipv4_ok b → 0 ≤ bits ≤ 32 →
  Z.land a (ipv4_mask bits) = Z.land b (ipv4_mask bits) ↔
  ∀ i, 32 - bits ≤ i < 32 → Z.testbit a i = Z.testbit b i.
Proof.
  unfold ipv4_ok. intros Ha Hb Hp. split.
  - intros Heq i Hi. apply (f_equal (λ z, Z.testbit z i)) in Heq.
    rewrite !Z.land_spec, !ipv4_mask_testbit in Heq by lia.
    rewrite (proj2 (Z.leb_le _ _)) in Heq by lia. by rewrite !andb_true_r in Heq.
  - intros Hbits. apply Z.bits_inj'. intros i Hi. rewrite !Z.land_spec.
    destruct (Z.ltb_spec i 32).
    + rewrite !ipv4_mask_testbit by lia. destruct (Z.leb_spec (32 - bits) i).
      * by rewrite Hbits by lia.
      * by rewrite !andb_false_r.
    + by rewrite (addr_high_bits a i 32), (addr_high_bits b i 32) by lia.
Qed.

(** What a subnet means: the first [prefix_len] bits are those of its address. *)
Definition in_subnet (s : Subnet) (ip : IpAddr) : Prop :=
  match s, ip with
  | SubV4 a p _ _, IpV4 b => ∀ i, 32 - p ≤ i < 32 → Z.testbit a i = Z.testbit b i
  | SubV6 a p _, IpV6 b => ∀ i, 128 - p ≤ i < 128 → Z.testbit a i = Z.testbit b i
  | _, _ => False
  end.

Section config_lemmas.
Context {TomlError : Type}.
Abbreviation parse := (parse_subnet (TomlError := TomlError)).

Lemma parse_subnet_ok s sn :
  parse s = Ok sn →
  match sn with
  | SubV4 a p m n => ipv4_ok a ∧ 0 ≤ p ≤ 32 ∧ m = ipv4_mask p ∧ n = Z.land a m
  | SubV6 a p n => ipv6_ok a ∧ 0 ≤ p ≤ 128 ∧ n = ipv6_net a p
  end.
Proof.
  unfold parse_subnet. destruct (split_once _ s) as [[a_s m_s]|]; [|done].
  destruct (parse_u32 m_s) as [bits|] eqn:Hb; [|done]. apply parse_u32_range in Hb.
  destruct (contains _ a_s).
  - destruct (parse_ipv6 a_s) as [a|] eqn:Ha; [|done]. apply parse_ipv6_ok in Ha.
    destruct (Z.ltb_spec 128 bits); [done|]. intros [= <-].
    rewrite as_u8_small by (unfold u8_MAX; lia). split_and!; lia || done.
  - destruct (parse_ipv4 a_s) as [a|] eqn:Ha; [|done]. apply parse_ipv4_ok in Ha.
    destruct (Z.ltb_spec 32 bits); [done|]. intros [= <-].
    rewrite as_u8_small by (unfold u8_MAX; lia). split_and!; lia || done.
Qed.

Lemma subnet_matches_in s sn ip :
  parse s = Ok sn → ip_ok ip → subnet_matches sn ip = true ↔ in_subnet sn ip.
Proof.
  intros Hs Hip. apply parse_subnet_ok in Hs.
  destruct sn as [a p m n|a p n], ip as [b|b]; simpl in *; try done;
    rewrite Z.eqb_eq.
  - destruct Hs as (Ha & Hp & -> & ->). rewrite ipv4_net_eq by done. naive_solver.
  - destruct Hs as (Ha & Hp & ->). rewrite ipv6_net_eq by done. naive_solver.
Qed.

Lemma filters_spec l sns ip :
  ip_ok ip → Forall2 (λ s sn, parse s = Ok sn) l sns →
  existsb (λ s, subnet_matches s ip) sns = true ↔
  ∃ s sn, In s l ∧ parse s = Ok sn ∧ in_subnet sn ip.
Proof.
  intros Hip. induction 1 as [|s sn l sns Hs _ IH]; simpl; [naive_solver|].
  rewrite orb_true_iff, IH, (subnet_matches_in s sn ip Hs Hip). split.
  - intros [?|(s' & sn' & ? & ? & ?)]; [by exists s, sn; auto|by exists s', sn'; auto].
  - intros (s' & sn' & [<-|?] & Hp & ?); [|eauto 10]. rewrite Hs in Hp. simplify_eq. by left.
Qed.

(** The fields of an accepted configuration. *)
Lemma resolve_ok (raw : RawConfig) cfg :
  resolve (TomlError := TomlError) raw = Ok cfg →
  rc_interfaces raw ≠ [] ∧ (rc_blacklist raw = [] ∨ rc_whitelist raw = []) ∧
  Forall2 (λ s sn, parse s = Ok sn) (rc_blacklist raw) (cfg_blacklist cfg) ∧
  Forall2 (λ s sn, parse s = Ok sn) (rc_whitelist raw) (cfg_whitelist cfg) ∧
  resolve_cache_max_ttl (TomlError := TomlError) (rc_cache_max_ttl_secs raw)
    = Ok (cfg_cache_max_ttl_secs cfg) ∧
  cfg_interfaces cfg = rc_interfaces raw.
Proof.
  unfold resolve. destruct (rc_interfaces raw) as [|i ifs] eqn:Hi; [done|].
  destruct (negb _ && negb _) eqn:Hbw; [done|].
  destruct (collect_result parse_subnet (rc_blacklist raw)) as [bl|] eqn:Hbl; [|done].
  destruct (collect_result parse_subnet (rc_whitelist raw)) as [wl|] eqn:Hwl; [|done].
  destruct (resolve_cache_max_ttl _) as [c|] eqn:Hc; [|done].
  intros [= <-]. simpl. apply collect_result_ok in Hbl, Hwl.
  apply andb_false_iff in Hbw. split_and!; try done.
  destruct Hbw as [Hx|Hx]; bool_to_prop; auto.
Qed.

Lemma parsed_ok l ys s :
  Forall2 (λ s sn, parse_subnet (TomlError := TomlError) s = Ok sn) l ys → In s l →
  is_ok (parse_subnet (TomlError := TomlError) s) = true.
Proof. intros Hf. induction Hf as [|x y l ys Hx _ IH]; [done|]. intros [<-|?]; [by rewrite Hx|auto]. Qed.

Lemma resolve_cache_max_ttl_ok raw c :
  (∀ t, raw = Some t → 0 ≤ t ≤ u64_MAX) →
  resolve_cache_max_ttl (TomlError := TomlError) raw = Ok c →
  (∀ t, raw = Some t → t ≤ u32_MAX) ∧ Cache.cap_ok c ∧
  (c = None ↔ raw = None ∨ raw = Some 0) ∧ (∀ t, c = Some t → raw = Some t).
Proof.
  intros Hu. unfold resolve_cache_max_ttl, MAX_CACHE_TTL_SECS, Cache.cap_ok.
  destruct raw as [t|]; [|intros [= <-]; naive_solver]. specialize (Hu t eq_refl).
  destruct (Z.eqb_spec t 0) as [->|]; [intros [= <-]; naive_solver|].
  destruct (Z.ltb_spec u32_MAX t); [done|]. intros [= <-].
  split_and!; [by intros ? [= <-]|lia|lia|naive_solver|naive_solver].
Qed.

(** The conditions under which [resolve] succeeds. *)
Lemma resolve_accepts (raw : RawConfig) :
  rc_interfaces raw ≠ [] → rc_blacklist raw = [] ∨ rc_whitelist raw = [] →
  (∀ s, In s (rc_blacklist raw ++ rc_whitelist raw) →
     is_ok (parse_subnet (TomlError := TomlError) s) = true) →
  (∀ t, rc_cache_max_ttl_secs raw = Some t → t ≤ u32_MAX) →
  is_ok (resolve (TomlError := TomlError) raw) = true.
Proof.
  intros Hi Hbw Hp Ht. unfold resolve. destruct (rc_interfaces raw) as [|i ifs]; [done|].
  destruct (negb _ && negb _) eqn:Hc; [bool_to_prop; naive_solver|].
  assert (Hok : ∀ l, (∀ s, In s l → In s (rc_blacklist raw ++ rc_whitelist raw)) →
    is_ok (collect_result (parse_subnet (TomlError := TomlError)) l) = true).
  { intros l Hl. destruct (collect_result _ l) as [|e] eqn:He; [done|].
    apply collect_result_err in He as (l1 & x & l2 & -> & Hx & _).
    specialize (Hp x). rewrite Hx in Hp. apply Hp, Hl. rewrite in_app_iff. simpl. auto. }
  pose proof (Hok (rc_blacklist raw)) as Hb. pose proof (Hok (rc_whitelist raw)) as Hw.
  destruct (collect_result _ (rc_blacklist raw));
    [|by apply Hb; intros s ?; rewrite in_app_iff; auto].
  destruct (collect_result _ (rc_whitelist raw));
    [|by apply Hw; intros s ?; rewrite in_app_iff; auto].
  unfold resolve_cache_max_ttl, MAX_CACHE_TTL_SECS.
  destruct (rc_cache_max_ttl_secs raw) as [t|]; [|done]. specialize (Ht t eq_refl).
  destruct (t =? 0); [done|]. rewrite (proj2 (Z.ltb_ge _ _)) by lia. done.
Qed.
End config_lemmas.

(** ** Properties *)

Section properties.
Context {TomlError : Type}.
Abbreviation parse := (parse_subnet (TomlError := TomlError)).

(** C28. A parsed CIDR matches an address exactly when the family is the same
    and the first [prefix_len] bits of the two addresses agree. *)
Theorem subnet_matches_spec s sn ip :
  parse s = Ok sn → ip_ok ip → subnet_matches sn ip = true ↔ in_subnet sn ip.
Proof. apply subnet_matches_in. Qed.

(** C30. Printing an IPv4 network in CIDR notation and parsing it gives the
    subnet back; a prefix longer than 32 is refused. *)
Theorem parse_subnet_print a b c d n :
  0 ≤ a ≤ u8_MAX → 0 ≤ b ≤ u8_MAX → 0 ≤ c ≤ u8_MAX → 0 ≤ d ≤ u8_MAX → 0 ≤ n ≤ u8_MAX →
  let s := print_ipv4 a b c d ++ "/"%char :: print_dec3 n in
  parse s =
    if n <=? 32
    then Ok (SubV4 (Ipv4Addr_new a b c d) n (ipv4_mask n)
               (Z.land (Ipv4Addr_new a b c d) (ipv4_mask n)))
    else Err (CE_BadSubnet s "mask > 32").
Proof.
  intros Ha Hb Hc Hd Hn s. unfold parse_subnet, s.
  pose proof (print_ipv4_plain a b c d Ha Hb Hc Hd) as Hp.
  rewrite split_once_print by (eapply Forall_impl; [done|naive_solver]).
  rewrite parse_u32_print by done.
  rewrite contains_false by (eapply Forall_impl; [done|naive_solver]).
  rewrite parse_ipv4_print by done. rewrite as_u8_small by done.
  rewrite Z.ltb_antisym. by destruct (n <=? 32).
Qed.

(** C31. Which configurations load, and what they become.  A configuration is
    accepted exactly when it names an interface, has at most one of the two filter
    lists, every listed network parses and the cache TTL cap is at most
    [u32::MAX].  The result has these interfaces; its filter lists are the parsed
    networks, in order; the cap is absent exactly when the key is absent or 0, and
    is otherwise the value of the key, between 1 and [u32::MAX]. *)
Theorem resolve_spec (raw : RawConfig) :
  (∀ t, rc_cache_max_ttl_secs raw = Some t → 0 ≤ t ≤ u64_MAX) →
  (is_ok (resolve (TomlError := TomlError) raw) = true ↔
     rc_interfaces raw ≠ [] ∧ (rc_blacklist raw = [] ∨ rc_whitelist raw = []) ∧
     (∀ s, In s (rc_blacklist raw ++ rc_whitelist raw) → is_ok (parse s) = true) ∧
     (∀ t, rc_cache_max_ttl_secs raw = Some t → t ≤ u32_MAX)) ∧
  ∀ cfg, resolve (TomlError := TomlError) raw = Ok cfg →
    cfg_interfaces cfg = rc_interfaces raw ∧ cfg_interfaces cfg ≠ [] ∧
    Forall2 (λ s sn, parse s = Ok sn) (rc_blacklist raw) (cfg_blacklist cfg) ∧
    Forall2 (λ s sn, parse s = Ok sn) (rc_whitelist raw) (cfg_whitelist cfg) ∧
    (cfg_blacklist cfg = [] ∨ cfg_whitelist cfg = []) ∧
    Cache.cap_ok (cfg_cache_max_ttl_secs cfg) ∧
    (cfg_cache_max_ttl_secs cfg = None ↔
       rc_cache_max_ttl_secs raw = None ∨ rc_cache_max_ttl_secs raw = Some 0) ∧
    (∀ t, cfg_cache_max_ttl_secs cfg = Some t → rc_cache_max_ttl_secs raw = Some t).
Proof.
  intros Hu. split; [split|].
  - destruct (resolve raw) as [cfg|] eqn:Hr; [intros _|done].
    apply resolve_ok in Hr as (Hi & Hbw & Hbl & Hwl & Hc & Heq). split_and!; try done.
    + intros s [Hs|Hs]%in_app_iff; [by eapply parsed_ok in Hbl|by eapply parsed_ok in Hwl].
    + apply resolve_cache_max_ttl_ok in Hc; [|done]. naive_solver.
  - intros (Hi & Hbw & Hp & Ht). rewrite resolve_accepts by done. done.
  - intros cfg (Hi & Hbw & Hbl & Hwl & Hc & Heq)%resolve_ok.
    apply resolve_cache_max_ttl_ok in Hc as (_ & ? & ? & ?); [|done]. split_and!; try done.
    + congruence.
    + destruct Hbw as [E|E]; [rewrite E in Hbl; inversion Hbl; auto
                             |rewrite E in Hwl; inversion Hwl; auto].
Qed.

(** C29. The source filter in terms of the configured lists: with a whitelist
    an address is accepted when some listed network contains it, otherwise
    when no network of the blacklist does. *)
Theorem allow_source_spec (raw : RawConfig) cfg ip :
  resolve (TomlError := TomlError) raw = Ok cfg → ip_ok ip →
  allow_source cfg ip = true ↔
    (rc_whitelist raw ≠ [] ∧
     ∃ s sn, In s (rc_whitelist raw) ∧ parse s = Ok sn ∧ in_subnet sn ip) ∨
    (rc_whitelist raw = [] ∧
     ∀ s sn, In s (rc_blacklist raw) → parse s = Ok sn → ¬ in_subnet sn ip).
Proof.
  intros (_ & _ & Hbl & Hwl & _ & _)%resolve_ok Hip.
  unfold allow_source. pose proof (filters_spec _ _ ip Hip Hbl) as Hb.
  pose proof (filters_spec _ _ ip Hip Hwl) as Hw.
  destruct (cfg_whitelist cfg) as [|w ws] eqn:Ew.
  - inversion Hwl as [E|]. rewrite negb_true_iff, <- not_true_iff_false, Hb. naive_solver.
  - inversion Hwl as [|s ? l ? Hs Hl E]; subst. rewrite Hw. rewrite <- E. naive_solver.
Qed.
End properties.

Module ConfigSample.
Definition cidr : chars := chars_of "192.168.1.0/24"%string.
Definition raw : RawConfig := raw_of_doc {|
  td_interfaces := ["br-lan"%string; "br-iot"%string];
  td_repeat := None; td_answer_from_cache := None; td_blacklist := Some [cidr];
  td_whitelist := None; td_hostname := None; td_browse := None;
  td_browse_interval_secs := None; td_cache_tick_secs := None;
  td_max_cache_entries := None; td_cache_max_ttl_secs := Some 300; td_services := None |}.
Definition cfg : Resolved :=
  match resolve (TomlError := unit) raw with
  | Ok c => c
  | Err _ => mkResolved [] true true None [] 0 0 0 None [] [] []
  end.

Lemma resolve_eq : resolve (TomlError := unit) raw = Ok cfg.
Proof. vm_compute. reflexivity. Qed.

Definition net24 : Subnet :=
  SubV4 (Ipv4Addr_new 192 168 1 0) 24 (ipv4_mask 24) (Ipv4Addr_new 192 168 1 0).

Lemma subnet_matches_spec_witness : in_subnet net24 (IpV4 (Ipv4Addr_new 192 168 1 77)).
Proof.
  apply (subnet_matches_spec (TomlError := unit) cidr net24);
    [vm_compute; reflexivity|by vm_compute|vm_compute; reflexivity].
Defined.

Lemma parse_subnet_print_witness :
  parse_subnet (TomlError := unit)
    (print_ipv4 10 0 0 5 ++ "/"%char :: print_dec3 8) =
  Ok (SubV4 (Ipv4Addr_new 10 0 0 5) 8 (ipv4_mask 8) (Ipv4Addr_new 10 0 0 0)).
Proof.
  apply (parse_subnet_print (TomlError := unit) 10 0 0 5 8); by vm_compute.
Defined.

Lemma resolve_spec_witness :
  Cache.cap_ok (cfg_cache_max_ttl_secs cfg) ∧
  length (cfg_blacklist cfg) = length (rc_blacklist raw).
Proof.
  assert (Hu : ∀ t, rc_cache_max_ttl_secs raw = Some t → 0 ≤ t ≤ u64_MAX)
    by (intros t [= <-]; by vm_compute).
  destruct (proj2 (resolve_spec (TomlError := unit) raw Hu) cfg resolve_eq)
    as (_ & _ & Hbl & _ & _ & Hc & _).
  split; [exact Hc|]. symmetry. exact (Forall2_length _ _ _ Hbl).
Defined.

Lemma allow_source_spec_witness :
  allow_source cfg (IpV4 (Ipv4Addr_new 192 168 1 77)) = false ∧
  ¬ (∀ s sn, In s (rc_blacklist raw) → parse_subnet (TomlError := unit) s = Ok sn →
       ¬ in_subnet sn (IpV4 (Ipv4Addr_new 192 168 1 77))).
Proof.
  split; [vm_compute; reflexivity|]. intros Hn.
  assert (Ht : allow_source cfg (IpV4 (Ipv4Addr_new 192 168 1 77)) = true).
  { apply (allow_source_spec (TomlError := unit) raw cfg); [apply resolve_eq|by vm_compute|].
    right. split; [done|exact Hn]. }
  vm_compute in Ht. discriminate.
Defined.
End ConfigSample.
