(* ===== verification/Services.v ===== *)
(** * Services: the records the daemon publishes ([src/services.rs]) *)

From S2P Require Import Prelude RustStd StdNet Hickory RecordKey Cache Timing Os.
From S2P Require Import Effects Iface Config.
From Stdlib Require Import Ascii.
From stdpp Require Import strings.
Open Scope Z_scope.
Open Scope list_scope.

Definition TTL_HOST : Z := 120.
Definition TTL_SERVICE : Z := 4500.

(** [s.split('.').next()]: the text before the first dot. *)
Fixpoint before_dot (s : string) : string :=
  match s with
  | EmptyString => EmptyString
  | String c s => if bool_decide (c = "."%char) then EmptyString else String c (before_dot s)
  end.

Section services.
Context `{Hickory}.

Inductive ServiceError :=
| BadServiceType (s : string) (e : ProtoError)
| BadInstanceName (s : string) (e : ProtoError)
| BadInstanceCompose (name service : string) (e : ProtoError)
| BadHost (h : string) (e : ProtoError)
| Internal (e : ProtoError).

Record ServiceRecords := mkServiceRecords {
  instance_name : Name;
  service_type : Name;
  ptr_type_to_instance : DnsRecord;
  ptr_meta_to_type : DnsRecord;
  srv : DnsRecord;
  txt : DnsRecord;
}.

Record Published := mkPublished {
  hostname : Name;
  host_a : list DnsRecord;
  host_aaaa : list DnsRecord;
  services : list ServiceRecords;
}.

(** [gethostname] is the system's host name, when it has one in UTF-8.  The
    [expect] on the static name is discharged by [router_local_parses]. *)
Definition resolve_hostname (gethostname : option string) (explicit : option string) : Name :=
  let raw := match explicit with
             | Some h => h
             | None => match gethostname with Some h => h | None => "router"%string end
             end in
  let bare := before_dot raw in
  match Name_from_str (bare +:+ ".local.") with
  | Ok n => n
  | Err _ => match Name_from_str "router.local." with Ok n => n | Err _ => router_local end
  end.

Definition host_record (hostname : Name) (d : RData) : DnsRecord :=
  set_cache_flush true (Record_from_rdata hostname TTL_HOST d).

(** One round of the loop of [build]. *)
Definition build_service (hostname meta : Name) (sc : ServiceConfig)
    : result ServiceError ServiceRecords :=
  match Name_from_str (sc_service sc) with
  | Err e => Err (BadServiceType (sc_service sc) e)
  | Ok svc_type =>
  match Name_from_labels [sc_name sc] with
  | Err e => Err (BadInstanceName (sc_name sc) e)
  | Ok instance_label =>
  match Name_append_name instance_label svc_type with
  | Err e => Err (BadInstanceCompose (sc_name sc) (sc_service sc) e)
  | Ok instance_name =>
  match (match sc_host sc with
         | Some h => map_err (BadHost h) (Name_from_str h)
         | None => Ok hostname
         end) with
  | Err e => Err e
  | Ok target =>
      let ptr_type := Record_from_rdata svc_type TTL_SERVICE (RD_PTR instance_name) in
      let ptr_meta := Record_from_rdata meta TTL_SERVICE (RD_PTR svc_type) in
      let srv := set_cache_flush true
        (Record_from_rdata instance_name TTL_HOST (RD_SRV (mkSRV 0 0 (sc_port sc) target))) in
      let txt_data := match sc_txt sc with
                      | [] => [EmptyString]
                      | l => l
                      end in
      let txt := set_cache_flush true
        (Record_from_rdata instance_name TTL_SERVICE (RD_TXT txt_data)) in
      Ok (mkServiceRecords instance_name svc_type ptr_type ptr_meta srv txt)
  end end end end.

Definition build (hostname : Name) (services : list ServiceConfig) (ifaces : list Iface)
    : result ServiceError Published :=
  let host_a := map (λ a, host_record hostname (RD_A a)) (iter_filter_map addr_v4 ifaces) in
  let host_aaaa := map (λ a, host_record hostname (RD_AAAA a)) (iter_filter_map addr_v6 ifaces) in
  match Name_from_str "_services._dns-sd._udp.local." with
  | Err e => Err (Internal e)
  | Ok meta =>
      match collect_result (build_service hostname meta) services with
      | Err e => Err e
      | Ok recs => Ok (mkPublished hostname host_a host_aaaa recs)
      end
  end.

Definition validate (hostname : Name) (services : list ServiceConfig)
    : result ServiceError unit :=
  match build hostname services [] with Ok _ => Ok tt | Err e => Err e end.

(** ** [impl Published] *)

Definition answer_service (any : bool) (qname : Name) (qtype : RecordType) (s : ServiceRecords)
    : list DnsRecord :=
  (if (any || (qtype ==? RT_PTR)) && (qname == service_type s)
   then [ptr_type_to_instance s] else []) ++
  (if (any || (qtype ==? RT_PTR)) && (qname == rec_name (ptr_meta_to_type s))
   then [ptr_meta_to_type s] else []) ++
  (if (any || (qtype ==? RT_SRV)) && (qname == instance_name s) then [srv s] else []) ++
  (if (any || (qtype ==? RT_TXT)) && (qname == instance_name s) then [txt s] else []).

Definition answer (p : Published) (qname : Name) (qtype : RecordType) : list DnsRecord :=
  let any := qtype ==? RT_ANY in
  (if any || (qtype ==? RT_A)
   then List.filter (λ r, rec_name r == qname) (host_a p) else []) ++
  (if any || (qtype ==? RT_AAAA)
   then List.filter (λ r, rec_name r == qname) (host_aaaa p) else []) ++
  flat_map (answer_service any qname qtype) (services p).

Definition host_a_for (p : Published) (addr : Ipv4Addr) : list DnsRecord :=
  List.filter (λ r, match rec_data r with RD_A a => a =? addr | _ => false end) (host_a p).

Definition host_aaaa_for (p : Published) (addr : Ipv6Addr) : list DnsRecord :=
  List.filter (λ r, match rec_data r with RD_AAAA a => a =? addr | _ => false end) (host_aaaa p).

Definition host_records_for_iface (p : Published) (i : Iface) : list DnsRecord :=
  match addr_v4 i with Some a => host_a_for p a | None => [] end ++
  match addr_v6 i with Some a => host_aaaa_for p a | None => [] end.

Definition unique_service_records (p : Published) : list DnsRecord :=
  flat_map (λ s, [srv s; txt s]) (services p).

Definition unique_for_iface (p : Published) (i : Iface) : list DnsRecord :=
  host_records_for_iface p i ++ unique_service_records p.

Definition goodbye (p : Published) : list DnsRecord :=
  map (set_ttl 0) (host_a p) ++ map (set_ttl 0) (host_aaaa p) ++
  flat_map (λ s, [set_ttl 0 (ptr_type_to_instance s); set_ttl 0 (srv s); set_ttl 0 (txt s)])
    (services p).

(** ** What [build] produces *)

(** The records of one service instance. *)
Record service_ok (s : ServiceRecords) : Prop := {
  so_ptr_name : rec_name (ptr_type_to_instance s) = service_type s;
  so_ptr_data : rec_data (ptr_type_to_instance s) = RD_PTR (instance_name s);
  so_meta_data : rec_data (ptr_meta_to_type s) = RD_PTR (service_type s);
  so_srv_name : rec_name (srv s) = instance_name s;
  so_srv_data : ∃ d, rec_data (srv s) = RD_SRV d;
  so_txt_name : rec_name (txt s) = instance_name s;
  so_txt_data : ∃ d, rec_data (txt s) = RD_TXT d ∧ d ≠ [];
  so_shared : rec_cache_flush (ptr_type_to_instance s) = false ∧
              rec_cache_flush (ptr_meta_to_type s) = false;
  so_unique : rec_cache_flush (srv s) = true ∧ rec_cache_flush (txt s) = true;
  so_ttls : rec_ttl (ptr_type_to_instance s) = TTL_SERVICE ∧
            rec_ttl (ptr_meta_to_type s) = TTL_SERVICE ∧
            rec_ttl (srv s) = TTL_HOST ∧ rec_ttl (txt s) = TTL_SERVICE;
}.

Definition host_ok (host : Name) (v6 : bool) (r : DnsRecord) : Prop :=
  rec_name r = host ∧ rec_ttl r = TTL_HOST ∧ rec_cache_flush r = true ∧
  rec_class r = DNSClass_IN ∧
  ∃ a, rec_data r = if v6 then RD_AAAA a else RD_A a.

Record published_ok (p : Published) : Prop := {
  po_host_a : Forall (host_ok (hostname p) false) (host_a p);
  po_host_aaaa : Forall (host_ok (hostname p) true) (host_aaaa p);
  po_services : Forall service_ok (services p);
}.

(** All published records. *)
Definition service_records (s : ServiceRecords) : list DnsRecord :=
  [ptr_type_to_instance s; ptr_meta_to_type s; srv s; txt s].
Definition all_records (p : Published) : list DnsRecord :=
  host_a p ++ host_aaaa p ++ flat_map service_records (services p).

Lemma build_service_ok host meta sc s :
  build_service host meta sc = Ok s →
  service_ok s ∧ rec_name (ptr_meta_to_type s) = meta ∧
  Name_from_str (sc_service sc) = Ok (service_type s) ∧
  (∃ l, Name_from_labels [sc_name sc] = Ok l ∧
        Name_append_name l (service_type s) = Ok (instance_name s)) ∧
  ∃ target, rec_data (srv s) = RD_SRV (mkSRV 0 0 (sc_port sc) target) ∧
    match sc_host sc with Some h => Name_from_str h = Ok target | None => target = host end.
Proof.
  unfold build_service.
  destruct (Name_from_str (sc_service sc)) as [ty|] eqn:Hty; [|done].
  destruct (Name_from_labels [sc_name sc]) as [l|] eqn:Hl; [|done].
  destruct (Name_append_name l ty) as [inst|] eqn:Hi; [|done].
  destruct (match sc_host sc with Some _ => _ | None => _ end) as [tg|] eqn:Ht; [|done].
  rewrite !Record_from_rdata_spec. intros [= <-]. simpl. split_and!; try done.
  - split; simpl; eauto. eexists. split; [done|]. by destruct (sc_txt sc).
  - eauto.
  - exists tg. split; [done|]. destruct (sc_host sc) as [h|]; [|congruence].
    destruct (Name_from_str h); simpl in Ht; congruence.
Qed.

Lemma build_ok host svcs ifs p :
  build host svcs ifs = Ok p →
  hostname p = host ∧ published_ok p ∧
  host_a p = map (λ a, host_record host (RD_A a)) (iter_filter_map addr_v4 ifs) ∧
  host_aaaa p = map (λ a, host_record host (RD_AAAA a)) (iter_filter_map addr_v6 ifs) ∧
  ∃ meta, Name_from_str "_services._dns-sd._udp.local." = Ok meta ∧
    Forall2 (λ sc s, build_service host meta sc = Ok s) svcs (services p).
Proof.
  unfold build. destruct (Name_from_str _) as [meta|]; [|done].
  destruct (collect_result _ svcs) as [recs|] eqn:Hr; [|done].
  apply collect_result_ok in Hr. intros [= <-]. simpl.
  split; [done|]. split; [|eauto]. split; simpl.
  - apply Forall_map, Forall_true. intros a. unfold host_record.
    rewrite Record_from_rdata_spec. split_and!; eauto.
  - apply Forall_map, Forall_true. intros a. unfold host_record.
    rewrite Record_from_rdata_spec. split_and!; eauto.
  - induction Hr as [|sc s scs ss Hs _ IH]; [constructor|].
    constructor; [apply (build_service_ok _ _ _ _ Hs)|done].
Qed.

Lemma validate_build host svcs ifs :
  validate host svcs = match build host svcs ifs with Ok _ => Ok tt | Err e => Err e end.
Proof. unfold validate, build. by repeat case_match; simplify_eq. Qed.

(** ** Answers *)

Lemma in_answer_service t q s r :
  service_ok s →
  In r (answer_service (t ==? RT_ANY) q t s) ↔
  In r (service_records s) ∧ rec_name r ≡ q ∧ (t = RT_ANY ∨ record_type r = t).
Proof.
  intros [Hn Hd Hm Hsn [sd Hsd] Htn (td & Htd & _) _ _ _].
  assert (H1 : record_type (ptr_type_to_instance s) = RT_PTR) by (unfold record_type; by rewrite Hd).
  assert (H2 : record_type (ptr_meta_to_type s) = RT_PTR) by (unfold record_type; by rewrite Hm).
  assert (H3 : record_type (srv s) = RT_SRV) by (unfold record_type; by rewrite Hsd).
  assert (H4 : record_type (txt s) = RT_TXT) by (unfold record_type; by rewrite Htd).
  unfold answer_service. rewrite !in_app_iff, !in_if1, !andb_true_iff, !orb_true_iff,
    !bool_decide_eq_true. cbn [service_records In]. split.
  - intros [[[Ht Hq] ->]|[[[Ht Hq] ->]|[[[Ht Hq] ->]|[[Ht Hq] ->]]]];
      rewrite ?Hn, ?Hsn, ?Htn, ?H1, ?H2, ?H3, ?H4; naive_solver.
  - intros [[<-|[<-|[<-|[<-|[]]]]] [Hq Ht]]; rewrite ?Hn, ?Hsn, ?Htn, ?H1, ?H2, ?H3, ?H4 in *;
      naive_solver.
Qed.

Lemma in_answer_host host (v6 : bool) t q l r :
  Forall (host_ok host v6) l →
  In r (if (t ==? RT_ANY) || (t ==? if v6 then RT_AAAA else RT_A)
        then List.filter (λ r, rec_name r == q) l else []) ↔
  In r l ∧ rec_name r ≡ q ∧ (t = RT_ANY ∨ record_type r = t).
Proof.
  intros Hl. rewrite in_if, filter_In, orb_true_iff, !bool_decide_eq_true. split.
  - intros [Ht [Hin Hq]]. split; [done|]. split; [done|].
    rewrite Forall_forall in Hl. destruct (Hl r) as (_ & _ & _ & _ & a & Ha);
      [by apply list_elem_of_In|].
    destruct Ht as [?| ->]; [by left|right]. unfold record_type. rewrite Ha. by destruct v6.
  - intros (Hin & Hq & Ht). split; [|done]. destruct Ht as [?|Ht]; [by left|right].
    rewrite Forall_forall in Hl. destruct (Hl r) as (_ & _ & _ & _ & a & Ha);
      [by apply list_elem_of_In|].
    rewrite <- Ht. unfold record_type. rewrite Ha. by destruct v6.
Qed.

Lemma in_answer p q t r :
  published_ok p →
  In r (answer p q t) ↔
  In r (all_records p) ∧ rec_name r ≡ q ∧ (t = RT_ANY ∨ record_type r = t).
Proof.
  intros [Ha H6 Hs]. unfold answer, all_records.
  rewrite !in_app_iff, (in_answer_host _ false t q _ r Ha), (in_answer_host _ true t q _ r H6).
  rewrite !in_flat_map. rewrite Forall_forall in Hs.
  assert (Hsv : (∃ x, In x (services p) ∧ In r (answer_service (t ==? RT_ANY) q t x)) ↔
    (∃ x, In x (services p) ∧ In r (service_records x)) ∧ rec_name r ≡ q ∧
    (t = RT_ANY ∨ record_type r = t)).
  { split.
    - intros (x & Hx & Hr). rewrite in_answer_service in Hr by (apply Hs, list_elem_of_In, Hx).
      naive_solver.
    - intros ((x & Hx & Hr) & Hq). exists x. split; [done|].
      rewrite in_answer_service by (apply Hs, list_elem_of_In, Hx). naive_solver. }
  rewrite Hsv. tauto.
Qed.

(** ** Host records of an interface *)

Definition record_addr_of (i : Iface) (r : DnsRecord) : Prop :=
  match rec_data r with
  | RD_A a => addr_v4 i = Some a
  | RD_AAAA a => addr_v6 i = Some a
  | _ => False
  end.

Lemma in_host_records p i r :
  published_ok p →
  In r (host_records_for_iface p i) ↔
  In r (host_a p ++ host_aaaa p) ∧ record_addr_of i r.
Proof.
  intros [Ha H6 _]. unfold host_records_for_iface, host_a_for, host_aaaa_for, record_addr_of.
  rewrite Forall_forall in Ha. rewrite Forall_forall in H6. rewrite !in_app_iff. split.
  - intros [Hr|Hr].
    + destruct (addr_v4 i); [|done]. apply filter_In in Hr as [Hin Hd].
      split; [by left|]. destruct (rec_data r); try done. bool_to_prop. by subst.
    + destruct (addr_v6 i); [|done]. apply filter_In in Hr as [Hin Hd].
      split; [by right|]. destruct (rec_data r); try done. bool_to_prop. by subst.
  - intros [[Hin|Hin] Hd].
    + left. destruct (Ha r) as (_ & _ & _ & _ & a & Hda); [by apply list_elem_of_In|].
      rewrite Hda in Hd. rewrite Hd. apply filter_In. split; [done|]. rewrite Hda. by apply Z.eqb_refl.
    + right. destruct (H6 r) as (_ & _ & _ & _ & a & Hda); [by apply list_elem_of_In|].
      rewrite Hda in Hd. rewrite Hd. apply filter_In. split; [done|]. rewrite Hda. by apply Z.eqb_refl.
Qed.

Lemma unique_flush p i r :
  published_ok p → In r (unique_for_iface p i) → rec_cache_flush r = true.
Proof.
  intros Hp. pose proof Hp as [Ha H6 Hs]. rewrite Forall_forall in Ha. rewrite Forall_forall in H6. rewrite Forall_forall in Hs.
  unfold unique_for_iface. rewrite in_app_iff, in_host_records by done.
  unfold unique_service_records. rewrite in_flat_map, in_app_iff.
  intros [[[Hr|Hr] _]|(s & Hin & Hr)].
  - by apply (Ha r), list_elem_of_In.
  - by apply (H6 r), list_elem_of_In.
  - destruct (so_unique s (Hs s (proj2 (list_elem_of_In _ _) Hin))) as [H1 H2].
    destruct Hr as [<-|[<-|[]]]; done.
Qed.

(** ** Goodbye *)

Lemma in_goodbye p r :
  In r (goodbye p) ↔
  ∃ r0, r = set_ttl 0 r0 ∧
    (In r0 (host_a p) ∨ In r0 (host_aaaa p) ∨
     ∃ s, In s (services p) ∧ (r0 = ptr_type_to_instance s ∨ r0 = srv s ∨ r0 = txt s)).
Proof.
  unfold goodbye. rewrite !in_app_iff, !in_map_iff, in_flat_map. simpl. split.
  - intros [(x & <- & Hx)|[(x & <- & Hx)|(s & Hs & [<-|[<-|[<-|[]]]])]]; eauto 10.
  - intros (x & -> & [Hx|[Hx|(s & Hs & [->|[->| ->]])]]); eauto 10.
Qed.
End services.

(** A peer that receives a list of goodbyes drops every one of their keys. *)
Lemma goodbyes_withdraw `{Hickory} {HI : HashIter} now source rs (g : Cache.Inner) r :
  Forall (λ r, rec_ttl r = 0) rs → In r rs →
  HashMap.get (key_of r)
    (Cache.by_key (fold_left (λ g r, (Cache.insert_from now r source g).2) rs g)) = None.
Proof.
  intros Hz. revert g.
  assert (Hkeep : ∀ rs g k, Forall (λ r, rec_ttl r = 0) rs →
    HashMap.get k (Cache.by_key g) = None →
    HashMap.get k (Cache.by_key
      (fold_left (λ g r, (Cache.insert_from now r source g).2) rs g)) = None).
  { intros rs' g k Hrs. revert g. induction Hrs as [|x rs' Hx _ IH]; intros g Hg; simpl; [done|].
    apply IH. rewrite Cache.insert_from_goodbye by done. simpl.
    rewrite HashMap.get_remove. by case_decide. }
  induction Hz as [|x rs Hx Hz IH]; intros g; simpl; [done|]. intros [<-|Hin]; [|by apply IH].
  apply Hkeep; [done|]. rewrite Cache.insert_from_goodbye by done. simpl.
  rewrite HashMap.get_remove. by rewrite decide_True.
Qed.

(** ** Properties *)

Section properties.
Context `{Hickory} {HI : HashIter}.

(** A successful [build] publishes, in order, one set of records per
    configured service (shared PTR records without the cache-flush bit,
    unique SRV and TXT records with it, the documented TTLs, a non-empty
    TXT) and one unique host record per interface address. *)
Theorem build_spec host svcs ifs p :
  build host svcs ifs = Ok p →
  hostname p = host ∧ published_ok p ∧
  map rec_data (host_a p) = map RD_A (iter_filter_map addr_v4 ifs) ∧
  map rec_data (host_aaaa p) = map RD_AAAA (iter_filter_map addr_v6 ifs) ∧
  Forall2 (λ sc s, Name_from_str (sc_service sc) = Ok (service_type s) ∧
    ∃ target, rec_data (srv s) = RD_SRV (mkSRV 0 0 (sc_port sc) target) ∧
      match sc_host sc with Some h => Name_from_str h = Ok target | None => target = host end)
    svcs (services p).
Proof.
  intros (Hh & Hok & -> & -> & meta & _ & Hs)%build_ok.
  unfold host_record. setoid_rewrite Record_from_rdata_spec. rewrite !map_map.
  split_and!; try done.
  eapply Forall2_impl; [exact Hs|]. intros sc s Hb%build_service_ok. tauto.
Qed.

(** The validation of [--check] and the construction at startup accept
    the same service configurations, and give the same error, whatever the
    interfaces are. *)
Theorem validate_iff_build host svcs ifs :
  validate host svcs = match build host svcs ifs with Ok _ => Ok tt | Err e => Err e end.
Proof. apply validate_build. Qed.

(** C32. [answer] returns a record exactly when it is published, has the name
    of the question, and has its type or the question is for ANY. *)
Theorem answer_spec host svcs ifs p q t r :
  build host svcs ifs = Ok p →
  In r (answer p q t) ↔
  In r (all_records p) ∧ rec_name r ≡ q ∧ (t = RT_ANY ∨ record_type r = t).
Proof. intros (_ & Hok & _)%build_ok. by apply in_answer. Qed.

(** The host records used on an interface are exactly the published ones
    with an address of that interface, and everything that is probed for
    there is a unique record. *)
Theorem host_records_for_iface_spec host svcs ifs p i :
  build host svcs ifs = Ok p →
  (∀ r, In r (host_records_for_iface p i) ↔
        In r (host_a p ++ host_aaaa p) ∧ record_addr_of i r) ∧
  (∀ r, In r (unique_for_iface p i) → rec_cache_flush r = true).
Proof.
  intros (_ & Hok & _)%build_ok. split; intros r.
  - by apply in_host_records.
  - by apply unique_flush.
Qed.

(** C25. The goodbye records have TTL 0, and a peer's cache that processes
    them holds none of the host, PTR, SRV and TXT records any more. *)
Theorem goodbye_withdraws p now source (g : Cache.Inner) r :
  In r (host_a p) ∨ In r (host_aaaa p) ∨
    (∃ s, In s (services p) ∧ (r = ptr_type_to_instance s ∨ r = srv s ∨ r = txt s)) →
  Forall (λ r, rec_ttl r = 0) (goodbye p) ∧
  HashMap.get (key_of r)
    (Cache.by_key (fold_left (λ g r, (Cache.insert_from now r source g).2) (goodbye p) g)) = None.
Proof.
  intros Hr. assert (Hz : Forall (λ r, rec_ttl r = 0) (goodbye p)).
  { apply Forall_forall. intros x (x0 & -> & _)%list_elem_of_In%in_goodbye. done. }
  split; [done|]. rewrite <- (key_of_set_ttl 0 r).
  apply goodbyes_withdraw; [done|]. apply in_goodbye. eauto.
Qed.

(** The advertised host name is made of the text before the first dot of
    the configured (or system) name; if that is not a valid label the
    fallback name is used. *)
Theorem resolve_hostname_spec gethostname explicit :
  let raw := default (default "router"%string gethostname) explicit in
  resolve_hostname gethostname explicit =
    match Name_from_str (before_dot raw +:+ ".local.") with
    | Ok n => n
    | Err _ => router_local
    end ∧
  (∀ n c, String.get n (before_dot raw) = Some c → c ≠ "."%char).
Proof.
  intros raw. split.
  - unfold resolve_hostname. replace (match explicit with Some h => h | None => _ end) with raw
      by (unfold raw; by destruct explicit, gethostname).
    destruct (Name_from_str (before_dot raw +:+ ".local.")); [done|].
    by rewrite router_local_parses.
  - clear. induction raw as [|ch s IH]; intros n c; [by destruct n|]. cbn [before_dot].
    case_bool_decide as Hd; [by destruct n|].
    destruct n as [|n]; simpl; [congruence|apply IH].
Qed.
End properties.

Module ServicesSample.
Import Sample IfaceSample.
Definition sc_http : ServiceConfig :=
  mkServiceConfig "Router Admin" "_http._tcp.local." 80 ["path=/"%string] None.
Definition host : Name := name "router.local.".
Definition pub : Published :=
  match build host [sc_http] [eth0] with
  | Ok p => p
  | Err _ => mkPublished host [] [] []
  end.

Lemma build_eq : build host [sc_http] [eth0] = Ok pub.
Proof.
  assert (Hok : is_ok (build host [sc_http] [eth0]) = true) by (vm_compute; reflexivity).
  unfold pub. by destruct (build host [sc_http] [eth0]).
Qed.

Lemma build_spec_witness : hostname pub = host ∧ length (services pub) = 1%nat.
Proof.
  pose proof (build_spec host [sc_http] [eth0] pub build_eq) as (Hh & _ & _ & _ & Hs).
  split; [exact Hh|]. symmetry. exact (Forall2_length _ _ _ Hs).
Defined.

Lemma answer_spec_witness :
  ∃ r, In r (answer pub (name "Router.LOCAL.") RT_A) ∧ In r (all_records pub).
Proof.
  eexists. split; [by left|].
  eapply (proj1 (answer_spec host [sc_http] [eth0] pub (name "Router.LOCAL.") RT_A _ build_eq)).
  by left.
Defined.

Lemma host_records_for_iface_spec_witness :
  List.length (host_records_for_iface pub eth0) = 2%nat ∧
  ∀ r, In r (unique_for_iface pub eth0) → rec_cache_flush r = true.
Proof.
  split; [vm_compute; reflexivity|].
  apply (host_records_for_iface_spec host [sc_http] [eth0] pub eth0 build_eq).
Defined.

Lemma goodbye_withdraws_witness : Forall (λ r, rec_ttl r = 0) (goodbye pub).
Proof.
  apply (goodbye_withdraws pub 0 None (Cache.with_capacity 4)
           (host_record host (RD_A (Ipv4Addr_new 192 168 1 1)))).
  left. left. reflexivity.
Defined.
End ServicesSample.
