(* ===== verification/State.v ===== *)
(** * State: what every task shares ([src/state.rs])

    The configuration and the interfaces do not change after startup and are
    the record [State].  The cache, the rate limiter and the shutdown token
    are behind locks or atomics: they are the shared part of the world that
    the actions of [Effects] read and update. *)

From S2P Require Import Prelude RustStd StdNet Hickory RecordKey Cache Timing Os.
From S2P Require Import Effects Iface Config.

Record State := mkState {
  config : Resolved;
  ifaces : list Iface;
}.
