(* ===== verification/Repeater.v ===== *)
(** * Repeater: forwarding datagrams between interfaces ([src/repeater.rs]) *)

From S2P Require Import Prelude RustStd StdNet Hickory RecordKey Cache Timing Os.
From S2P Require Import Effects Iface Config State.
From stdpp Require Import strings.
From Stdlib Require Import Sorted.
Open Scope Z_scope.
Open Scope list_scope.

(** The filter of the second branch only sees indices in bounds. *)
Definition forward_targets (recv_idx : option nat) (source : IpAddr) (ifaces : list Iface)
    : list nat :=
  match recv_idx with
  | Some i => List.filter (λ j, negb (j =? i)%nat) (seq 0 (length ifaces))
  | None =>
      if existsb (λ iface, iface_contains iface source) ifaces then
        List.filter (λ j, match ifaces !! j with
                          | Some iface => negb (iface_contains iface source)
                          | None => false
                          end) (seq 0 (length ifaces))
      else []
  end.

Definition identify_recv_iface (pkt : Datagram) (ifaces : list Iface) : option nat :=
  let by_subnet :=
    let from := SocketAddr.ip (source pkt) in
    if match from with IpV6 ip => Ipv6Addr_is_unicast_link_local ip | IpV4 _ => false end
    then None
    else position (λ i, iface_contains i from) ifaces in
  match recv_ifindex pkt with
  | Some idx =>
      match position (λ i, ifindex i =? idx) ifaces with
      | Some p => Some p
      | None => by_subnet
      end
  | None => by_subnet
  end.

(** [a - b] on [usize]: [None] when it underflows. *)
Definition checked_sub (a b : nat) : option nat :=
  if (b <=? a)%nat then Some (a - b)%nat else None.

Section forward.
Context `{Hickory} {HI : HashIter}.

(** The send of one target; a failed send is logged and ignored.  Indexing the
    interfaces panics out of bounds. *)
Definition forward_one (st : State) (pkt : Datagram) (j : nat) : Prog Exit :=
  match ifaces st !! j with
  | Some iface => _ <- send_mdns_on iface (family pkt) (data pkt) ;; Ret Completed
  | None => Ret Panicked
  end.

(** The name of the ingress is looked up for the log line, and the number of
    skipped interfaces is computed for it: the index panics out of bounds, and so
    does the subtraction when it would underflow.  The line itself and the counter
    of successful sends it prints are left out. *)
Definition forward (st : State) (pkt : Datagram) (recv_iface_idx : option nat) : Prog Exit :=
  let from_ip := SocketAddr.ip (source pkt) in
  let recv_name :=
    match recv_iface_idx with
    | Some i => (λ iface, Some (if_name iface)) <$> ifaces st !! i
    | None => Some None
    end in
  let targets := forward_targets recv_iface_idx from_ip (ifaces st) in
  let skipped := checked_sub (length (ifaces st)) (length targets) in
  match recv_name, skipped with
  | Some _, Some _ => for_each_exit targets (forward_one st pkt)
  | _, _ => Ret Panicked
  end.
End forward.

(** ** Lemmas *)

Lemma in_forward_targets recv source ifs j :
  In j (forward_targets recv source ifs) ↔
  ∃ iface, ifs !! j = Some iface ∧
    match recv with
    | Some i => j ≠ i
    | None => iface_contains iface source = false ∧
              ∃ iface', In iface' ifs ∧ iface_contains iface' source = true
    end.
Proof.
  unfold forward_targets. destruct recv as [i|].
  - rewrite filter_In, in_seq, negb_true_iff, Nat.eqb_neq. split.
    + intros [[_ Hlt] Hne]. destruct (lookup_lt_is_Some_2 ifs j) as [f Hf]; [lia|]. eauto.
    + intros (f & Hf%lookup_lt_Some & Hne). lia.
  - destruct (existsb _ ifs) eqn:He.
    + rewrite filter_In, in_seq. apply existsb_exists in He as (f' & Hf' & Hc). split.
      * intros [_ Hj]. destruct (ifs !! j) as [f|]; [|done]. bool_to_prop. eauto 10.
      * intros (f & Hf & Hn & _). rewrite Hf, Hn. apply lookup_lt_Some in Hf. split; [lia|done].
    + rewrite existsb_false in He. simpl. split; [done|].
      intros (_ & _ & _ & f' & Hf' & Hc). rewrite He in Hc by done. done.
Qed.

Lemma forward_targets_NoDup recv source ifs : List.NoDup (forward_targets recv source ifs).
Proof.
  unfold forward_targets. repeat case_match; try apply List.NoDup_filter, List.seq_NoDup.
  constructor.
Qed.

(** Every target is one of the interfaces, so they are no more numerous. *)
Lemma forward_targets_le recv source ifs :
  (length (forward_targets recv source ifs) ≤ length ifs)%nat.
Proof.
  rewrite <- (List.length_seq (length ifs) 0).
  apply List.NoDup_incl_length; [apply forward_targets_NoDup|].
  intros j (i & Hi%lookup_lt_Some & _)%in_forward_targets. apply in_seq. lia.
Qed.

Lemma filter_sorted {A} (R : A → A → Prop) p (l : list A) :
  StronglySorted R l → StronglySorted R (List.filter p l).
Proof.
  induction 1 as [|x l _ IH Hx]; simpl; [constructor|]. destruct (p x); [|done].
  constructor; [done|]. rewrite Forall_forall in *. intros y Hy. apply Hx.
  apply list_elem_of_In, filter_In in Hy as [Hy _]. by apply list_elem_of_In.
Qed.

Lemma seq_sorted n m : StronglySorted lt (seq n m).
Proof.
  revert n; induction m as [|m IH]; intros n; simpl; constructor; [done|].
  apply Forall_forall. intros x Hx%list_elem_of_In%in_seq. lia.
Qed.

Lemma forward_targets_sorted recv source ifs :
  StronglySorted lt (forward_targets recv source ifs).
Proof.
  unfold forward_targets. repeat case_match; try (apply filter_sorted, seq_sorted). constructor.
Qed.

Lemma identify_recv_iface_lt pkt ifs p :
  identify_recv_iface pkt ifs = Some p → (p < length ifs)%nat.
Proof.
  unfold identify_recv_iface. intros Hp.
  repeat (case_match; try done); simplify_eq; eauto using position_lt.
Qed.

(** [p] is the first element of [l] with [P]. *)
Definition first_such {A} (P : A → Prop) (l : list A) (p : nat) : Prop :=
  (∃ x, l !! p = Some x ∧ P x) ∧ ∀ j x, (j < p)%nat → l !! j = Some x → ¬ P x.

Lemma position_first {A} (P : A → Prop) f (l : list A) :
  (∀ x, f x = true ↔ P x) →
  (∀ p, position f l = Some p ↔ first_such P l p) ∧
  (position f l = None ↔ ∀ x, In x l → ¬ P x).
Proof.
  intros Hf. unfold first_such. setoid_rewrite <- Hf. setoid_rewrite not_true_iff_false.
  split; [intros p; apply position_Some|apply position_None].
Qed.

(** The two stages of [identify_recv_iface]. *)
Definition by_index (pkt : Datagram) (ifs : list Iface) : option nat :=
  match recv_ifindex pkt with
  | Some idx => position (λ i, ifindex i =? idx) ifs
  | None => None
  end.
Definition link_local_source (from : IpAddr) : bool :=
  match from with IpV6 ip => Ipv6Addr_is_unicast_link_local ip | IpV4 _ => false end.
Definition by_subnet (from : IpAddr) (ifs : list Iface) : option nat :=
  if link_local_source from then None else position (λ i, iface_contains i from) ifs.

Lemma identify_recv_iface_eq pkt ifs :
  identify_recv_iface pkt ifs =
    match by_index pkt ifs with
    | Some p => Some p
    | None => by_subnet (SocketAddr.ip (source pkt)) ifs
    end.
Proof. unfold identify_recv_iface, by_index. by destruct (recv_ifindex pkt). Qed.

Lemma by_index_spec pkt ifs :
  let named i := match recv_ifindex pkt with Some idx => ifindex i = idx | None => False end in
  (∀ p, by_index pkt ifs = Some p ↔ first_such named ifs p) ∧
  (by_index pkt ifs = None ↔ ∀ i, In i ifs → ¬ named i).
Proof.
  unfold by_index. destruct (recv_ifindex pkt) as [idx|]; simpl.
  - apply position_first. intros i. apply Z.eqb_eq.
  - unfold first_such. naive_solver.
Qed.

Lemma by_subnet_spec from ifs :
  let link_local := ∃ ip, from = IpV6 ip ∧ Ipv6Addr_is_unicast_link_local ip = true in
  let on_link i := iface_contains i from = true in
  (∀ p, by_subnet from ifs = Some p ↔ ¬ link_local ∧ first_such on_link ifs p) ∧
  (by_subnet from ifs = None ↔ link_local ∨ ∀ i, In i ifs → ¬ on_link i).
Proof.
  intros link_local on_link.
  assert (Hll : link_local_source from = true ↔ link_local).
  { unfold link_local_source, link_local. destruct from; naive_solver. }
  unfold by_subnet. destruct (position_first on_link (λ i, iface_contains i from) ifs) as [Hp Hn];
    [done|]. destruct (link_local_source from).
  - assert (Hl : link_local) by by apply Hll.
    split; [intros p; split; [done|by intros [? _]]|split; [by left|done]].
  - assert (Hl : ¬ link_local) by (intros Hl; by apply Hll in Hl).
    split; [intros p; rewrite Hp|rewrite Hn]; split.
    + by split.
    + by intros [_ ?].
    + by right.
    + by intros [?|?].
Qed.

Section forward_lemmas.
Context `{Hickory} {HI : HashIter}.

Lemma traces_forward_one st pkt j tr e :
  is_Some (ifaces st !! j) → traces (forward_one st pkt j) tr e →
  e = Completed ∧
  match ifaces st !! j ≫= λ i, egress i (family pkt) with
  | Some (s, dst) => ∃ r, tr = [EvSend s (data pkt) dst r]
  | None => tr = []
  end.
Proof.
  unfold forward_one. intros [i ->]. simpl.
  intros (tr1 & tr2 & r & -> & H1 & [-> ->])%traces_bind. rewrite app_nil_r.
  apply traces_send_mdns_on in H1. destruct (egress i (family pkt)) as [[s dst]|]; [eauto|].
  by destruct H1.
Qed.

(** Forwarding from an interface of the daemon does not panic. *)
Lemma traces_forward st pkt recv tr e :
  (∀ i, recv = Some i → (i < length (ifaces st))%nat) →
  traces (forward st pkt recv) tr e →
  e = Completed ∧ ∃ trs, tr = concat trs ∧
    Forall2 (λ j t, ∃ iface, ifaces st !! j = Some iface ∧
        match egress iface (family pkt) with
        | Some (s, dst) => ∃ r, t = [EvSend s (data pkt) dst r]
        | None => t = []
        end)
      (forward_targets recv (SocketAddr.ip (source pkt)) (ifaces st)) trs.
Proof.
  intros Hrecv. unfold forward, checked_sub.
  assert (Hle : (length (forward_targets recv (SocketAddr.ip (source pkt)) (ifaces st)) <=?
    length (ifaces st))%nat = true) by apply Nat.leb_le, forward_targets_le.
  rewrite Hle.
  assert (Hin : ∀ j, In j (forward_targets recv (SocketAddr.ip (source pkt)) (ifaces st)) →
    is_Some (ifaces st !! j)) by (intros j (i & ? & _)%in_forward_targets; eauto).
  assert (Hname : is_Some (match recv with
    | Some i => (λ iface, Some (if_name iface)) <$> ifaces st !! i | None => Some None end)).
  { destruct recv as [i|]; [|eauto].
    destruct (lookup_lt_is_Some_2 _ _ (Hrecv i eq_refl)) as [f ->]. simpl. eauto. }
  destruct Hname as [name ->]. intros (-> & trs & -> & Hf)%traces_for_each_exit.
  - split; [done|]. exists trs. split; [done|]. clear Hle. revert Hin.
    induction Hf as [|j t js trs Ht _ IH]; intros Hin; constructor.
    + destruct (Hin j (or_introl eq_refl)) as [f Hj]. exists f. split; [done|].
      apply traces_forward_one in Ht as [_ Ht]; [|eauto]. by rewrite Hj in Ht.
    + apply IH. intros j' Hj'. apply Hin. by right.
  - intros j t e' Hj Ht. by destruct (traces_forward_one _ _ _ _ _ (Hin j Hj) Ht).
Qed.
End forward_lemmas.

(** ** Properties *)

(** The targets of a forward are distinct interfaces; with a known ingress
    they are exactly the other interfaces; without one they are the interfaces
    off the source's subnet, and there are none unless the source lies on some
    monitored subnet. *)
Theorem forward_targets_spec recv source ifs :
  List.NoDup (forward_targets recv source ifs) ∧
  ∀ j, In j (forward_targets recv source ifs) ↔
    ∃ iface, ifs !! j = Some iface ∧
      match recv with
      | Some i => j ≠ i
      | None => iface_contains iface source = false ∧
                ∃ iface', In iface' ifs ∧ iface_contains iface' source = true
      end.
Proof. split; [apply forward_targets_NoDup|intros j; apply in_forward_targets]. Qed.

(** C27. The ingress interface, completely.  The index is [Some p] exactly when [p]
    is the first interface with the index the kernel reported, or no interface has
    that index (or none was reported), the source is not a link-local IPv6 address,
    whose subnet is the same on every link, and [p] is the first interface whose
    subnet contains the source; in all other cases it is [None]. *)
Theorem identify_recv_iface_spec pkt ifs :
  let from := SocketAddr.ip (source pkt) in
  let named i := match recv_ifindex pkt with Some idx => ifindex i = idx | None => False end in
  let link_local := ∃ ip, from = IpV6 ip ∧ Ipv6Addr_is_unicast_link_local ip = true in
  let is_first (P : Iface → Prop) p :=
    (∃ i, ifs !! p = Some i ∧ P i) ∧ ∀ j i, (j < p)%nat → ifs !! j = Some i → ¬ P i in
  let unnamed := ∀ i, In i ifs → ¬ named i in
  let on_link i := iface_contains i from = true in
  (∀ p, identify_recv_iface pkt ifs = Some p ↔
     is_first named p ∨ unnamed ∧ ¬ link_local ∧ is_first on_link p) ∧
  (identify_recv_iface pkt ifs = None ↔
     unnamed ∧ (link_local ∨ ∀ i, In i ifs → ¬ on_link i)).
Proof.
  intros from named link_local is_first unnamed on_link. rewrite identify_recv_iface_eq.
  destruct (by_index_spec pkt ifs) as [Hp Hn]. destruct (by_subnet_spec from ifs) as [Hs Hsn].
  change (∀ p, by_index pkt ifs = Some p ↔ is_first named p) in Hp.
  change (by_index pkt ifs = None ↔ unnamed) in Hn.
  change (∀ p, by_subnet from ifs = Some p ↔ ¬ link_local ∧ is_first on_link p) in Hs.
  change (by_subnet from ifs = None ↔ link_local ∨ ∀ i, In i ifs → ¬ on_link i) in Hsn.
  fold from. clearbody link_local is_first unnamed on_link named from.
  destruct (by_index pkt ifs) as [q|].
  - split; [|naive_solver]. intros p. rewrite (Hp p). naive_solver.
  - split; [intros p; rewrite (Hs p); naive_solver|]. rewrite Hsn. naive_solver.
Qed.

Section properties.
Context `{Hickory} {HI : HashIter}.

(** C26. Forwarding from a monitored interface (or from an unknown one) does not
    panic and sends the received bytes, unchanged, once to each target interface,
    in ascending order: to the group 224.0.0.251 or ff02::fb of the packet's family
    at port 5353 through the interface's socket of that family, or not at all if
    it lacks the family.  The targets are exactly the other interfaces; with an
    unknown ingress they are the interfaces off the source's subnet, and there are
    none unless the source lies on some monitored subnet. *)
Theorem forward_spec st pkt recv tr e :
  match recv with Some i => (i < length (ifaces st))%nat | None => True end →
  traces (forward st pkt recv) tr e →
  e = Completed ∧
  ∃ targets trs, tr = concat trs ∧ StronglySorted lt targets ∧
    (∀ j, In j targets ↔ ∃ iface, ifaces st !! j = Some iface ∧
       match recv with
       | Some i => j ≠ i
       | None => iface_contains iface (SocketAddr.ip (source pkt)) = false ∧
                 ∃ iface', In iface' (ifaces st) ∧
                   iface_contains iface' (SocketAddr.ip (source pkt)) = true
       end) ∧
    Forall2 (λ j t, ∃ iface, ifaces st !! j = Some iface ∧
      match family pkt with
      | FamV4 =>
          match if_v4 iface with
          | Some v4 => ∃ r, t = [EvSend (v4_send v4) (data pkt)
                                   (SockV4 (Ipv4Addr_new 224 0 0 251) 5353) r]
          | None => t = []
          end
      | FamV6 =>
          match if_v6 iface with
          | Some v6 => ∃ r scope, t = [EvSend (v6_send v6) (data pkt)
              (SockV6 (Ipv6Addr_of_groups [0xff02; 0; 0; 0; 0; 0; 0; 0x00fb]) 5353 0 scope) r] ∧
              scope = (if v6_scope_id v6 =? 0 then ifindex iface else v6_scope_id v6)
          | None => t = []
          end
      end) targets trs.
Proof.
  intros Hrecv (-> & trs & -> & Hf)%traces_forward; [|by intros i ->]. split; [done|].
  eexists _, trs. split; [done|]. split; [apply forward_targets_sorted|].
  split; [intros j; apply in_forward_targets|].
  eapply Forall2_impl; [exact Hf|]. intros j t (iface & Hi & Ht). exists iface. split; [done|].
  unfold egress in Ht. destruct (family pkt).
  - by destruct (if_v4 iface).
  - destruct (if_v6 iface); simpl in Ht; [|done]. destruct Ht as [r ->]. eauto.
Qed.
End properties.

Module RepeaterSample.
Import Sample IfaceSample.
Definition eth1 : Iface := mkIface "eth1" 3 (if_v4 eth0) None.
Definition cfg : Resolved := mkResolved [] true true None [] 60 5 4 None [] [] [].
Definition st : State := mkState cfg [eth0; eth1].
Definition pkt : Datagram :=
  mkDatagram [Byte.x2a] (SockV4 (Ipv4Addr_new 192 168 1 9) 5353) FamV4 (Some 2).

Definition sock0 : Socket := match if_v4 eth0 with Some v => v4_send v | None => [] end.

(** From [eth0] to [eth1], whose socket is that of [eth0]. *)
Lemma forward_spec_witness :
  ∃ targets : list nat, (∀ j, In j targets ↔ j = 1%nat) ∧
    traces (forward st pkt (Some 0%nat)) [EvSend sock0 [Byte.x2a] MDNS_SOCKADDR_V4 (Ok 1)] Completed.
Proof.
  assert (Ht : traces (forward st pkt (Some 0%nat))
    [EvSend sock0 [Byte.x2a] MDNS_SOCKADDR_V4 (Ok 1)] Completed)
    by (eexists _, _; split; [reflexivity|]; split; done).
  destruct (forward_spec st pkt (Some 0%nat) _ _ ltac:(simpl; lia) Ht)
    as (_ & targets & _ & _ & _ & Hin & _).
  exists targets. split; [|exact Ht]. intros j. rewrite Hin. split.
  - intros (f & Hf & Hj). apply lookup_lt_Some in Hf. simpl in Hf. lia.
  - intros ->. by exists eth1.
Defined.

(** A datagram without an interface index is attributed by its subnet. *)
Lemma identify_recv_iface_spec_witness :
  identify_recv_iface (mkDatagram [] (SockV4 (Ipv4Addr_new 192 168 1 9) 5353) FamV4 None) [eth0]
    = Some 0%nat.
Proof.
  apply (proj1 (identify_recv_iface_spec _ _)). right. split; [intros i _ Hn; exact Hn|].
  split; [by intros (ip & ? & _)|]. split; [|lia]. exists eth0. split; reflexivity.
Defined.
End RepeaterSample.
