(* ===== verification/Responder.v ===== *)
(** * Responder: answering queries, probing, announcing, goodbye
    ([src/responder.rs])

    The pure parts (known-answer suppression, probe detection, the delay
    class, the message builders) are functions; the parts that touch the
    cache, the rate limiter, the clock or the sockets are programs of
    [Effects], composed as the code composes them. *)

From S2P Require Import Prelude RustStd StdNet Hickory RecordKey Cache Timing Os.
From S2P Require Import Effects Iface Config Services State.
From Stdlib Require Import SetoidList.
From stdpp Require Import strings.
Open Scope Z_scope.
Open Scope list_scope.

Section responder.
Context `{Hickory} {HI : HashIter}.

Definition add_answers (rs : list DnsRecord) (m : Message) : Message :=
  fold_left (λ m r, add_answer r m) rs m.
Definition add_additionals (rs : list DnsRecord) (m : Message) : Message :=
  fold_left (λ m r, add_additional r m) rs m.
Definition add_authorities (rs : list DnsRecord) (m : Message) : Message :=
  fold_left (λ m r, add_authority r m) rs m.

Definition response_message (query_id : Z) (answers additionals : list DnsRecord) : Message :=
  add_additionals additionals
    (add_answers answers (set_authoritative true (Message_response query_id Op_Query))).

Definition build_response (query_id : Z) (answers additionals : list DnsRecord)
    : option bytes :=
  match answers with
  | [] => None
  | _ => ok (to_vec (response_message query_id answers additionals))
  end.

Definition is_probe_for_us (msg : Message) (unique : list DnsRecord) : bool :=
  match authorities msg with
  | [] => false
  | auths => existsb (λ a, existsb (λ u, (rec_name u == rec_name a) &&
                                         (record_type u ==? record_type a)) unique) auths
  end.

(** The closure of [apply_known_answers]: [known] suppresses [ans]. *)
Definition suppresses (known ans : DnsRecord) : bool :=
  (rec_name known == rec_name ans) && (record_type known ==? record_type ans)
  && (rec_data known == rec_data ans)
  && (rec_ttl ans <=? u32_saturating_mul (rec_ttl known) 2).

Definition apply_known_answers (ans : list DnsRecord) (query_msg : Message)
    : list DnsRecord :=
  match answers query_msg with
  | [] => ans
  | knowns => List.filter (λ a, negb (existsb (λ known, suppresses known a) knowns)) ans
  end.

(** A vector under construction with the set of the keys pushed so far. *)
Definition Acc : Type := list DnsRecord * list RecordKey.

Definition push_unique (acc : Acc) (r : DnsRecord) : Acc :=
  let '(out, seen) := acc in
  if existsb (λ k, k == key_of r) seen then (out, seen)
  else (out ++ [r], key_of r :: seen).

(** Host address records of other interfaces are stripped. *)
Definition foreign_host_record (p : Published) (arrival : Iface) (r : DnsRecord) : bool :=
  ((record_type r ==? RT_A) || (record_type r ==? RT_AAAA))
  && negb (existsb (λ hr, record_eqb hr r) (host_records_for_iface p arrival)).

Definition push_published (p : Published) (arrival : Iface) (acc : Acc) (q : Query) : Acc :=
  fold_left (λ acc r, if foreign_host_record p arrival r then acc else push_unique acc r)
    (answer p (q_name q) (q_type q)) acc.

(** [Cache::lookup_from_other_ifaces]. *)
Definition cache_lookup (name : Name) (rtype : RecordType) (arrival_ifindex : Z)
    : Prog (list DnsRecord) :=
  now <- trigger ANow ;;
  trigger (ALookup now name rtype arrival_ifindex).

(** One round of the loop over the questions. *)
Definition candidate_round (st : State) (arrival : Iface) (p : Published) (acc : Acc)
    (q : Query) : Prog Acc :=
  let acc := push_published p arrival acc q in
  if cfg_answer_from_cache (config st) then
    found <- cache_lookup (q_name q) (q_type q) (ifindex arrival) ;;
    Ret (fold_left push_unique found acc)
  else Ret acc.

Fixpoint candidate_loop (st : State) (arrival : Iface) (p : Published) (qs : list Query)
    (acc : Acc) : Prog Acc :=
  match qs with
  | [] => Ret acc
  | q :: qs => acc <- candidate_round st arrival p acc q ;;
               candidate_loop st arrival p qs acc
  end.

Definition candidate_answers (st : State) (msg : Message) (arrival : Iface) (p : Published)
    : Prog (list DnsRecord) :=
  acc <- candidate_loop st arrival p (queries msg) ([], []) ;; Ret acc.1.

Definition add_cached_records (name : Name) (rtype : RecordType) (arrival_ifindex : Z)
    (acc : Acc) : Prog Acc :=
  found <- cache_lookup name rtype arrival_ifindex ;;
  Ret (fold_left push_unique found acc).

(** Loop 1: SRV and TXT of the instances that PTR answers point at. *)
Fixpoint ptr_loop (arrival : Iface) (ans : list DnsRecord) (acc : Acc) : Prog Acc :=
  match ans with
  | [] => Ret acc
  | a :: ans =>
      match rec_data a with
      | RD_PTR target =>
          acc <- add_cached_records target RT_SRV (ifindex arrival) acc ;;
          acc <- add_cached_records target RT_TXT (ifindex arrival) acc ;;
          ptr_loop arrival ans acc
      | _ => ptr_loop arrival ans acc
      end
  end.

(** Loop 2: the addresses of the hosts that SRV records point at. *)
Fixpoint srv_loop (arrival : Iface) (srvs : list DnsRecord) (acc : Acc) : Prog Acc :=
  match srvs with
  | [] => Ret acc
  | r :: srvs =>
      match rec_data r with
      | RD_SRV s =>
          acc <- add_cached_records (srv_target s) RT_A (ifindex arrival) acc ;;
          acc <- add_cached_records (srv_target s) RT_AAAA (ifindex arrival) acc ;;
          srv_loop arrival srvs acc
      | _ => srv_loop arrival srvs acc
      end
  end.

Definition cached_additionals (st : State) (ans : list DnsRecord) (arrival : Iface)
    : Prog (list DnsRecord) :=
  if negb (cfg_answer_from_cache (config st)) then Ret []
  else
    acc <- ptr_loop arrival ans ([], map key_of ans) ;;
    let srv_records := List.filter (λ r, record_type r ==? RT_SRV) (ans ++ acc.1) in
    acc <- srv_loop arrival srv_records acc ;;
    Ret acc.1.

Definition answer_uniqueness (ans : list DnsRecord) : bool * bool :=
  (forallb rec_cache_flush ans, existsb rec_cache_flush ans).

Definition classify_delay (msg : Message) (ans : list DnsRecord) (probe_defense : bool)
    : DelayClass :=
  let '(all_unique, any_unique) := answer_uniqueness ans in
  if probe_defense then ProbeDefense
  else if md_truncation (metadata msg) then Truncated
  else if (length (queries msg) =? 1)%nat && all_unique && any_unique then UniqueAnswer
  else Shared.

(** [MulticastTracker::check_and_mark]. *)
Definition check_and_mark (ifindex : Z) (iv : Duration) (r : DnsRecord) : Prog bool :=
  now <- trigger ANow ;;
  trigger (ACheck now ifindex r iv).

Definition min_interval (probe_defense : bool) : Duration :=
  if probe_defense then PROBE_DEFENSE_INTERVAL else MIN_MULTICAST_INTERVAL.

(** [handle_query] from the rate limiter on. *)
Definition respond (msg : Message) (arrival : Iface) (fam : IpFamily) (probe_defense : bool)
    (ans adds : list DnsRecord) : Prog unit :=
  let iv := min_interval probe_defense in
  ans <- retain_m (check_and_mark (ifindex arrival) iv) ans ;;
  match ans with
  | [] => Ret tt
  | _ =>
      adds <- retain_m (check_and_mark (ifindex arrival) iv) adds ;;
      match build_response (md_id (metadata msg)) ans adds with
      | None => Ret tt
      | Some b => _ <- send_mdns_on arrival fam b ;; Ret tt
      end
  end.

Definition handle_query (st : State) (msg : Message) (arrival : Iface) (fam : IpFamily)
    (p : Published) : Prog unit :=
  if negb (md_message_type (metadata msg) ==? MT_Query) then Ret tt
  else match queries msg with
  | [] => Ret tt
  | _ =>
      ans <- candidate_answers st msg arrival p ;;
      let ans := apply_known_answers ans msg in
      match ans with
      | [] => Ret tt
      | _ =>
          adds <- cached_additionals st ans arrival ;;
          let probe_defense := is_probe_for_us msg (unique_for_iface p arrival) in
          let class := classify_delay msg ans probe_defense in
          draw <- trigger ARng ;;
          let delay := response_delay draw class in
          _ <- (if Duration.is_zero delay then Ret tt else trigger (ASleep delay)) ;;
          respond msg arrival fam probe_defense ans adds
      end
  end.

(** ** Unsolicited messages *)

Definition announce_records (p : Published) (i : Iface) : list DnsRecord :=
  host_records_for_iface p i ++
  flat_map (λ s, [ptr_type_to_instance s; ptr_meta_to_type s; srv s; txt s]) (services p).

Definition announce_message (p : Published) (i : Iface) : Message :=
  add_answers (announce_records p i) (set_authoritative true (Message_response 0 Op_Query)).

Definition build_announce (p : Published) (i : Iface) : option bytes :=
  match answers (announce_message p i) with
  | [] => None
  | _ => ok (to_vec (announce_message p i))
  end.

(** The deduplicated names of the records to probe for. *)
Definition probe_names (unique : list DnsRecord) : list Name :=
  fold_left (λ names r, if existsb (λ n, n == rec_name r) names then names
                        else names ++ [rec_name r]) unique [].

Definition probe_query (n : Name) : Query := mkQuery n RT_ANY DNSClass_IN true.

Definition probe_message (id : Z) (unique : list DnsRecord) : Message :=
  add_authorities unique
    (fold_left (λ m n, add_query (probe_query n) m) (probe_names unique)
       (Message_new id MT_Query Op_Query)).

(** [n] attempts are left; a failed send ends the loop. *)
Fixpoint probe_attempts (i : Iface) (unique : list DnsRecord) (n : nat) : Prog unit :=
  match n with
  | O => Ret tt
  | S n' =>
      id <- trigger ARandU16 ;;
      r <- (match to_vec (probe_message id unique) with
            | Ok b => send_mdns i b
            | Err _ => Ret (Ok 0)
            end) ;;
      match r with
      | Err _ => Ret tt
      | Ok _ =>
          _ <- (if (0 <? n')%nat then trigger (ASleep PROBE_INTERVAL) else Ret tt) ;;
          probe_attempts i unique n'
      end
  end.

Definition probe_iface (p : Published) (i : Iface) : Prog unit :=
  match unique_for_iface p i with
  | [] => Ret tt
  | unique =>
      draw <- trigger ARng ;;
      _ <- trigger (ASleep (jitter_0_to_max draw PROBE_INITIAL_MAX)) ;;
      probe_attempts i unique 3
  end.

Definition probe_all (st : State) (p : Published) : Prog unit :=
  for_each (ifaces st) (probe_iface p).

Definition announce_iface (p : Published) (i : Iface) : Prog unit :=
  match build_announce p i with
  | None => Ret tt
  | Some b =>
      r <- send_mdns i b ;;
      match r with
      | Err _ => Ret tt
      | Ok _ => for_each (unique_for_iface p i) (λ r, trigger (AMark (ifindex i) r))
      end
  end.

Definition announce_all (st : State) (p : Published) : Prog unit :=
  _ <- for_each (ifaces st) (announce_iface p) ;;
  cancelled <- trigger (ASleepOrShutdown ANNOUNCE_GAP) ;;
  if cancelled : bool then Ret tt
  else for_each (ifaces st) (announce_iface p).

Definition goodbye_message (p : Published) : Message :=
  add_answers (goodbye p) (set_authoritative true (Message_response 0 Op_Query)).

Definition goodbye_iface (p : Published) (i : Iface) : Prog unit :=
  match to_vec (goodbye_message p) with
  | Ok b => _ <- send_mdns i b ;; Ret tt
  | Err _ => Ret tt
  end.

Definition announce_goodbye (st : State) (p : Published) : Prog unit :=
  match goodbye p with
  | [] => Ret tt
  | _ =>
      _ <- for_each (ifaces st) (goodbye_iface p) ;;
      _ <- trigger (ASleep ANNOUNCE_GAP) ;;
      for_each (ifaces st) (goodbye_iface p)
  end.
End responder.

(** ** Lemmas: message builders *)

Section message_lemmas.
Context `{Hickory}.

Lemma add_answers_eq rs m :
  add_answers rs m =
  mkMessage (metadata m) (queries m) (answers m ++ rs) (authorities m) (additionals m).
Proof.
  revert m; induction rs as [|r rs IH]; intros m; simpl.
  - rewrite app_nil_r. by destruct m.
  - rewrite IH. simpl. by rewrite <- app_assoc.
Qed.

Lemma add_additionals_eq rs m :
  add_additionals rs m =
  mkMessage (metadata m) (queries m) (answers m) (authorities m) (additionals m ++ rs).
Proof.
  revert m; induction rs as [|r rs IH]; intros m; simpl.
  - rewrite app_nil_r. by destruct m.
  - rewrite IH. simpl. by rewrite <- app_assoc.
Qed.

Lemma add_authorities_eq rs m :
  add_authorities rs m =
  mkMessage (metadata m) (queries m) (answers m) (authorities m ++ rs) (additionals m).
Proof.
  revert m; induction rs as [|r rs IH]; intros m; simpl.
  - rewrite app_nil_r. by destruct m.
  - rewrite IH. simpl. by rewrite <- app_assoc.
Qed.

Lemma add_queries_eq ns m :
  fold_left (λ m n, add_query (probe_query n) m) ns m =
  mkMessage (metadata m) (queries m ++ map probe_query ns) (answers m) (authorities m)
    (additionals m).
Proof.
  revert m; induction ns as [|n ns IH]; intros m; simpl.
  - rewrite app_nil_r. by destruct m.
  - rewrite IH. simpl. by rewrite <- app_assoc.
Qed.

(** The metadata of every message the responder originates as a response. *)
Definition response_metadata (id : Z) : Metadata := mkMetadata id MT_Response Op_Query true false.

Lemma response_message_eq id ans adds :
  response_message id ans adds = mkMessage (response_metadata id) [] ans [] adds.
Proof.
  unfold response_message. by rewrite add_additionals_eq, add_answers_eq, Message_response_spec.
Qed.

Lemma announce_message_eq p i :
  announce_message p i = mkMessage (response_metadata 0) [] (announce_records p i) [] [].
Proof. unfold announce_message. by rewrite add_answers_eq, Message_response_spec. Qed.

Lemma goodbye_message_eq p :
  goodbye_message p = mkMessage (response_metadata 0) [] (goodbye p) [] [].
Proof. unfold goodbye_message. by rewrite add_answers_eq, Message_response_spec. Qed.

Lemma probe_message_eq id unique :
  probe_message id unique =
  mkMessage (mkMetadata id MT_Query Op_Query false false)
    (map probe_query (probe_names unique)) [] unique [].
Proof.
  unfold probe_message. by rewrite add_authorities_eq, add_queries_eq, Message_new_spec.
Qed.
End message_lemmas.

(** ** Lemmas: vectors without duplicate keys *)

Section unique_lemmas.
Context `{Hickory}.

Definition same_key (a b : DnsRecord) : Prop := key_of a ≡ key_of b.

#[export] Instance same_key_equivalence : Equivalence same_key.
Proof.
  split; unfold same_key; [by intros a|by intros a b ->|by intros a b c -> ->].
Qed.

Definition key_in (k : RecordKey) (ks : list RecordKey) : Prop := ∃ k', In k' ks ∧ k' ≡ k.

(** [seen] holds the keys it started with and those of the vector, and the
    vector has one record per key, none of them a starting one. *)
Record acc_ok (ks0 : list RecordKey) (acc : Acc) : Prop := {
  acc_seen : ∀ k, key_in k acc.2 ↔ key_in k ks0 ∨ key_in k (map key_of acc.1);
  acc_nodup : NoDupA same_key acc.1;
  acc_fresh : ∀ r, In r acc.1 → ¬ key_in (key_of r) ks0;
}.

Lemma key_in_map k l : key_in k (map key_of l) ↔ ∃ r, In r l ∧ key_of r ≡ k.
Proof. unfold key_in. setoid_rewrite in_map_iff. naive_solver. Qed.

Lemma key_in_existsb k ks : existsb (λ k', k' == k) ks = true ↔ key_in k ks.
Proof. rewrite existsb_exists. by setoid_rewrite bool_decide_eq_true. Qed.

Lemma push_unique_ok ks0 acc r : acc_ok ks0 acc → acc_ok ks0 (push_unique acc r).
Proof.
  destruct acc as [out seen]. intros [Hs Hd Hf]. simpl in *.
  destruct (existsb _ seen) eqn:He; [done|].
  assert (Hnew : ¬ key_in (key_of r) seen) by (rewrite <- key_in_existsb; congruence).
  rewrite Hs in Hnew. split; simpl.
  - intros k. rewrite map_app. unfold key_in in *. setoid_rewrite in_app_iff. simpl.
    specialize (Hs k). naive_solver.
  - apply NoDupA_app; [apply _|done|repeat constructor; by inversion 1|].
    intros x Hx%InA_alt Hr%InA_alt. destruct Hx as (y & Hxy & Hy).
    destruct Hr as (z & Hxz & [<-|[]]). apply Hnew. right. apply key_in_map.
    exists y. split; [done|]. unfold same_key in *. by rewrite <- Hxy.
  - intros x [Hx|[<-|[]]]%in_app_iff; [auto|tauto].
Qed.

Lemma push_all_ok ks0 l acc : acc_ok ks0 acc → acc_ok ks0 (fold_left push_unique l acc).
Proof. revert acc; induction l; simpl; auto using push_unique_ok. Qed.

(** Pushing only appends, and only pushed records appear. *)
Lemma push_unique_in acc r x :
  In x (push_unique acc r).1 → In x acc.1 ∨ x = r.
Proof.
  destruct acc as [out seen]. simpl. case_match; simpl; [tauto|].
  rewrite in_app_iff. simpl. naive_solver.
Qed.

Lemma push_unique_keeps acc r x : In x acc.1 → In x (push_unique acc r).1.
Proof. destruct acc. simpl. case_match; simpl; rewrite ?in_app_iff; tauto. Qed.

Lemma push_unique_covers ks0 acc r :
  acc_ok ks0 acc → key_in (key_of r) ks0 ∨ key_in (key_of r) (map key_of (push_unique acc r).1).
Proof.
  destruct acc as [out seen]. intros [Hs _ _]. simpl in *.
  destruct (existsb _ seen) eqn:He; simpl; [by apply Hs, key_in_existsb|].
  right. apply key_in_map. exists r. by rewrite in_app_iff; simpl; auto.
Qed.

Lemma push_all_in l acc x : In x (fold_left push_unique l acc).1 → In x acc.1 ∨ In x l.
Proof.
  revert acc; induction l as [|r l IH]; simpl; [auto|].
  intros acc [Hx|Hx]%IH; [|auto]. apply push_unique_in in Hx as [?| ->]; auto.
Qed.

Lemma push_all_keeps l acc x : In x acc.1 → In x (fold_left push_unique l acc).1.
Proof. revert acc; induction l; simpl; auto using push_unique_keeps. Qed.

Lemma push_all_covers ks0 l acc r :
  acc_ok ks0 acc → In r l →
  key_in (key_of r) ks0 ∨ key_in (key_of r) (map key_of (fold_left push_unique l acc).1).
Proof.
  revert acc; induction l as [|x l IH]; simpl; [done|]. intros acc Hok [->|Hr].
  - destruct (push_unique_covers _ _ r Hok) as [?|(k & Hk & Hkr)]; [by left|right].
    apply in_map_iff in Hk as (y & <- & Hy). apply key_in_map. exists y.
    split; [by apply push_all_keeps|done].
  - apply IH; [by apply push_unique_ok|done].
Qed.

Lemma acc_ok_start ks : acc_ok ks ([], ks).
Proof.
  split; simpl; [|constructor|done]. intros k. split; [by left|].
  intros [?|(k' & [] & _)]. done.
Qed.
End unique_lemmas.

#[export] Hint Resolve push_unique_ok push_all_ok acc_ok_start : nmdns.

(** ** Lemmas: candidate answers *)

Section candidate_lemmas.
Context `{Hickory} {HI : HashIter}.

Definition asks (q : Query) (r : DnsRecord) : Prop :=
  rec_name r ≡ q_name q ∧ (q_type q = RT_ANY ∨ record_type r = q_type q).

(** Address records stay on the link of their interface. *)
Definition local_to (arrival : Iface) (r : DnsRecord) : Prop :=
  record_type r = RT_A ∨ record_type r = RT_AAAA → record_addr_of arrival r.

(** [r] was returned by a lookup recorded in [tr]. *)
Definition relayed (arrival : Iface) (tr : list Event) (r : DnsRecord) : Prop :=
  rec_cache_flush r = false ∧
  ∃ now name rtype found,
    In (EvLookup now name rtype (ifindex arrival) found) tr ∧ In r found ∧
    rec_name r ≡ name ∧ (rtype = RT_ANY ∨ record_type r = rtype) ∧ 1 ≤ rec_ttl r ≤ u32_MAX.

Lemma relayed_app arrival tr1 tr2 r :
  relayed arrival tr1 r ∨ relayed arrival tr2 r → relayed arrival (tr1 ++ tr2) r.
Proof.
  unfold relayed. setoid_rewrite in_app_iff. intros [(?&?&?&?&?&?&?)|(?&?&?&?&?&?&?)]; naive_solver.
Qed.

Lemma traces_cache_lookup name rtype (arrival : Iface) tr found :
  traces (cache_lookup name rtype (ifindex arrival)) tr found →
  (∃ now, tr = [EvNow now; EvLookup now name rtype (ifindex arrival) found]) ∧
  ∀ r, In r found → relayed arrival tr r ∧ asks (mkQuery name rtype DNSClass_IN false) r.
Proof.
  unfold cache_lookup. intros (tr1 & tr2 & now & -> & [-> _]%traces_trigger & H2)%traces_bind.
  apply traces_trigger in H2 as [-> [g Hg]]. simpl. split; [eauto|].
  intros r Hr. rewrite Hg in Hr.
  destruct (Cache.in_lookup_from_other_ifaces _ _ _ _ _ _ Hr) as (?&?&?&[? ?]).
  split; [|by split]. split; [done|]. exists now, name, rtype, found. rewrite Hg.
  simpl. split_and!; auto.
Qed.

Lemma foreign_host_record_spec p arrival r :
  published_ok p → foreign_host_record p arrival r = false ↔
  (record_type r ≠ RT_A ∧ record_type r ≠ RT_AAAA) ∨
  ∃ hr, In hr (host_records_for_iface p arrival) ∧ record_eqb hr r = true.
Proof.
  intros Hp. unfold foreign_host_record.
  rewrite andb_false_iff, orb_false_iff, !bool_decide_eq_false, negb_false_iff, existsb_exists.
  done.
Qed.

Lemma equal_host_record p arrival r :
  published_ok p →
  (∃ hr, In hr (host_records_for_iface p arrival) ∧ record_eqb hr r = true) →
  record_addr_of arrival r.
Proof.
  intros Hp (hr & [_ Ha]%in_host_records & [_ Hd]%record_eqb_sound); [|done].
  unfold record_addr_of in *. destruct (rec_data hr), (rec_data r);
    unfold equiv, RData_equiv in Hd; naive_solver.
Qed.

(** The published records that answer [q] on the link of [arrival]. *)
Definition published_answers (p : Published) (arrival : Iface) (q : Query) : list DnsRecord :=
  List.filter (λ r, negb (foreign_host_record p arrival r)) (answer p (q_name q) (q_type q)).

Lemma push_published_eq p arrival acc q :
  push_published p arrival acc q = fold_left push_unique (published_answers p arrival q) acc.
Proof.
  unfold push_published, published_answers. generalize (answer p (q_name q) (q_type q)) as l.
  intros l. revert acc. induction l as [|r l IH]; intros acc; simpl; [done|].
  destruct (foreign_host_record p arrival r); simpl; auto.
Qed.

Lemma all_records_host p r :
  published_ok p → In r (all_records p) →
  In r (host_a p ++ host_aaaa p) ∨ record_type r ≠ RT_A ∧ record_type r ≠ RT_AAAA.
Proof.
  intros [_ _ Hs]. unfold all_records. rewrite !in_app_iff, in_flat_map.
  intros [?|[?|(s & Hin & Hr)]]; [by left; left|by left; right|right].
  rewrite Forall_forall in Hs. apply list_elem_of_In, Hs in Hin as
    [_ Hd Hm _ [sd Hsd] _ (td & Htd & _) _ _ _].
  unfold service_records in Hr. unfold record_type.
  destruct Hr as [<-|[<-|[<-|[<-|[]]]]]; rewrite ?Hd, ?Hm, ?Hsd, ?Htd; done.
Qed.

Lemma in_published_answers p arrival q r :
  published_ok p →
  In r (published_answers p arrival q) ↔
  In r (all_records p) ∧ asks q r ∧ local_to arrival r.
Proof.
  intros Hp. unfold published_answers. rewrite filter_In, in_answer, negb_true_iff by done.
  rewrite foreign_host_record_spec by done. unfold asks, local_to. split.
  - intros [(Hr & Hn & Ht) Hf]. split_and!; try done.
    destruct Hf as [[? ?]|Hf]; [naive_solver|]. intros _. by eapply equal_host_record.
  - intros (Hr & [Hn Ht] & Hl). split; [done|].
    destruct (decide (record_type r = RT_A)); [|destruct (decide (record_type r = RT_AAAA));
      [|by left]];
    (right; exists r; split; [|apply record_eqb_refl]; apply in_host_records; [done|];
     destruct (all_records_host _ _ Hp Hr) as [?|[? ?]]; [|done]; split; [done|auto]).
Qed.

(** What the loop over the questions maintains after the questions [qs] and
    the events [tr]. *)
Record candidates_ok (st : State) (arrival : Iface) (p : Published) (qs : list Query)
    (tr : list Event) (acc : Acc) : Prop := {
  cand_acc : acc_ok [] acc;
  cand_sound : ∀ r, In r acc.1 →
    (∃ q, In q qs ∧ asks q r) ∧
    (In r (all_records p) ∧ local_to arrival r ∨
     cfg_answer_from_cache (config st) = true ∧ relayed arrival tr r);
  cand_complete : ∀ q r, In q qs → In r (published_answers p arrival q) →
    ∃ r', In r' acc.1 ∧ same_key r' r;
  cand_relays : ∀ now name rtype found r,
    In (EvLookup now name rtype (ifindex arrival) found) tr → In r found →
    ∃ r', In r' acc.1 ∧ same_key r' r;
  cand_quiet : cfg_answer_from_cache (config st) = false → tr = [];
}.

Lemma covers_empty l acc r :
  acc_ok [] acc → In r l → ∃ r', In r' (fold_left push_unique l acc).1 ∧ same_key r' r.
Proof.
  intros Hok Hr. destruct (push_all_covers _ _ _ _ Hok Hr) as [(? & [] & _)|Hk].
  by apply key_in_map in Hk.
Qed.

Lemma candidates_published st arrival p qs tr acc q :
  published_ok p → candidates_ok st arrival p qs tr acc →
  candidates_ok st arrival p (qs ++ [q]) tr (push_published p arrival acc q).
Proof.
  intros Hp [Ha Hs Hc Hr Hq]. rewrite push_published_eq. split; try done.
  - by apply push_all_ok.
  - intros r [Hin|Hin]%push_all_in.
    + destruct (Hs r Hin) as [(q' & Hq' & Has) Hsrc]. split; [|done].
      exists q'. rewrite in_app_iff. auto.
    + apply in_published_answers in Hin as (Hin & Has & Hl); [|done]. split; [|by left].
      exists q. rewrite in_app_iff; simpl; auto.
  - intros q' r [Hq'|[<-|[]]]%in_app_iff Hin.
    + destruct (Hc q' r Hq' Hin) as (r' & ? & ?). eauto using push_all_keeps.
    + by apply covers_empty.
  - intros now name rtype found r He Hin.
    destruct (Hr _ _ _ _ _ He Hin) as (r' & ? & ?). eauto using push_all_keeps.
Qed.

Lemma candidates_relayed st arrival p qs tr acc q tr' found :
  cfg_answer_from_cache (config st) = true → In q qs →
  candidates_ok st arrival p qs tr acc →
  traces (cache_lookup (q_name q) (q_type q) (ifindex arrival)) tr' found →
  candidates_ok st arrival p qs (tr ++ tr') (fold_left push_unique found acc).
Proof.
  intros Hcfg Hq [Ha Hs Hc Hr _] Ht.
  apply traces_cache_lookup in Ht as [[now ->] Hfound]. split; try done.
  - by apply push_all_ok.
  - intros r [Hin|Hin]%push_all_in.
    + destruct (Hs r Hin) as [? [?|[? ?]]]; split; auto using relayed_app.
    + destruct (Hfound r Hin) as [? [? ?]].
      split; [exists q; by split|]. right. auto using relayed_app.
  - intros q' r Hq' Hin. destruct (Hc q' r Hq' Hin) as (r' & ? & ?). eauto using push_all_keeps.
  - intros now' name rtype f r [He|[He|[He|[]]]]%in_app_iff Hin; simplify_eq/=.
    + destruct (Hr _ _ _ _ _ He Hin) as (r' & Hr' & Hk). exists r'.
      split; [by apply push_all_keeps|done].
    + by apply covers_empty.
  - congruence.
Qed.

Lemma traces_candidate_loop st arrival p done todo tr acc tr' acc' :
  published_ok p → candidates_ok st arrival p done tr acc →
  traces (candidate_loop st arrival p todo acc) tr' acc' →
  candidates_ok st arrival p (done ++ todo) (tr ++ tr') acc'.
Proof.
  intros Hp. revert done tr acc tr'; induction todo as [|q todo IH];
    intros done tr acc tr' Hok; cbn [candidate_loop].
  - intros [-> ->]. by rewrite !app_nil_r.
  - intros (tr1 & tr2 & acc1 & -> & H1 & H2)%traces_bind.
    pose proof (candidates_published _ _ _ _ _ _ q Hp Hok) as Hpub.
    rewrite (app_assoc tr), (cons_middle q), (app_assoc done).
    eapply IH; [|done]. unfold candidate_round in H1.
    destruct (cfg_answer_from_cache (config st)) eqn:Hcfg.
    + apply traces_bind in H1 as (tr3 & tr4 & found & -> & H3 & [-> ->]).
      rewrite app_nil_r. eapply (candidates_relayed _ _ _ _ _ _ q); try done.
      rewrite in_app_iff. simpl. auto.
    + destruct H1 as [-> ->]. by rewrite app_nil_r.
Qed.

Lemma traces_candidate_answers st msg arrival p tr ans :
  published_ok p → traces (candidate_answers st msg arrival p) tr ans →
  ∃ seen, candidates_ok st arrival p (queries msg) tr (ans, seen).
Proof.
  intros Hp (tr1 & tr2 & [out seen] & -> & H1 & [-> ->])%traces_bind.
  exists seen. rewrite app_nil_r. apply (traces_candidate_loop _ _ _ [] _ [] ([], [])) in H1;
    [done|done|]. split; try done. apply acc_ok_start.
Qed.

(** What the cache was asked for, in order. *)
Definition lookups_of (tr : list Event) : list (Name * RecordType * Z) :=
  omap (λ e, match e with EvLookup _ n t a _ => Some (n, t, a) | _ => None end) tr.

Lemma lookups_candidate_loop st arrival p qs acc tr acc' :
  traces (candidate_loop st arrival p qs acc) tr acc' →
  lookups_of tr = if cfg_answer_from_cache (config st)
                  then map (λ q, (q_name q, q_type q, ifindex arrival)) qs else [].
Proof.
  revert acc tr; induction qs as [|q qs IH]; intros acc tr; cbn [candidate_loop].
  - intros [-> _]. by case_match.
  - intros (tr1 & tr2 & acc1 & -> & H1 & H2)%traces_bind. unfold lookups_of in *.
    rewrite omap_app, (IH _ _ H2). unfold candidate_round in H1.
    destruct (cfg_answer_from_cache (config st)).
    + apply traces_bind in H1 as (tr3 & tr4 & found & -> & H3 & [-> ->]).
      apply traces_cache_lookup in H3 as [[now ->] _]. done.
    + by destruct H1 as [-> _].
Qed.

Lemma lookups_candidate_answers st msg arrival p tr ans :
  traces (candidate_answers st msg arrival p) tr ans →
  lookups_of tr = if cfg_answer_from_cache (config st)
                  then map (λ q, (q_name q, q_type q, ifindex arrival)) (queries msg) else [].
Proof.
  intros (tr1 & tr2 & [out seen] & -> & H1 & [-> ->])%traces_bind. rewrite app_nil_r.
  by eapply lookups_candidate_loop.
Qed.
End candidate_lemmas.

(** ** Lemmas: additional records *)

Section additional_lemmas.
Context `{Hickory} {HI : HashIter}.

(** Why an additional record is sent: it describes the instance a PTR answer
    points at, or gives an address of the host of a service record. *)
Definition describes (ans adds : list DnsRecord) (r : DnsRecord) : Prop :=
  (∃ a target, In a ans ∧ rec_data a = RD_PTR target ∧ rec_name r ≡ target ∧
     (record_type r = RT_SRV ∨ record_type r = RT_TXT)) ∨
  (∃ s d, In s (ans ++ adds) ∧ rec_data s = RD_SRV d ∧ rec_name r ≡ srv_target d ∧
     (record_type r = RT_A ∨ record_type r = RT_AAAA)).

Record additionals_ok (arrival : Iface) (ans : list DnsRecord) (tr : list Event) (acc : Acc)
    : Prop := {
  adds_acc : acc_ok (map key_of ans) acc;
  adds_relayed : ∀ r, In r acc.1 → relayed arrival tr r;
  adds_describe : ∀ r, In r acc.1 → describes ans acc.1 r;
}.

Lemma describes_mono ans adds adds' r :
  (∀ x, In x adds → In x adds') → describes ans adds r → describes ans adds' r.
Proof.
  intros Hsub [?|(s & d & Hs & Hrest)]; [by left|right]. exists s, d. split; [|done].
  rewrite in_app_iff in *. naive_solver.
Qed.

Lemma traces_add_cached name rtype arrival ans tr acc tr' acc' :
  additionals_ok arrival ans tr acc → rtype ≠ RT_ANY →
  (∀ r, rec_name r ≡ name → record_type r = rtype → describes ans acc.1 r) →
  traces (add_cached_records name rtype (ifindex arrival) acc) tr' acc' →
  additionals_ok arrival ans (tr ++ tr') acc' ∧ ∀ x, In x acc.1 → In x acc'.1.
Proof.
  intros [Ha Hr Hd] Hany Hdesc (tr1 & tr2 & found & -> & H1 & [-> ->])%traces_bind.
  rewrite app_nil_r. apply traces_cache_lookup in H1 as [_ Hfound].
  assert (Hkeep : ∀ x, In x acc.1 → In x (fold_left push_unique found acc).1)
    by eauto using push_all_keeps.
  split; [|done]. split.
  - by apply push_all_ok.
  - intros r [?|Hin]%push_all_in; [by apply relayed_app; auto|].
    apply relayed_app. right. by apply Hfound.
  - intros r [?|Hin]%push_all_in; eapply describes_mono; eauto.
    destruct (Hfound r Hin) as [_ [Hn [?|Ht]]]; [done|]. by apply Hdesc.
Qed.

Lemma traces_add_cached2 name t1 t2 arrival ans tr acc tr' acc' (k : Acc → Prog Acc) :
  additionals_ok arrival ans tr acc → t1 ≠ RT_ANY → t2 ≠ RT_ANY →
  (∀ adds r, (∀ x, In x acc.1 → In x adds) →
     rec_name r ≡ name → record_type r = t1 ∨ record_type r = t2 → describes ans adds r) →
  traces (acc <- add_cached_records name t1 (ifindex arrival) acc ;;
          acc <- add_cached_records name t2 (ifindex arrival) acc ;; k acc) tr' acc' →
  ∃ tr1 tr2 acc1, tr' = tr1 ++ tr2 ∧ additionals_ok arrival ans (tr ++ tr1) acc1 ∧
    (∀ x, In x acc.1 → In x acc1.1) ∧ traces (k acc1) tr2 acc'.
Proof.
  intros Hok Ht1 Ht2 Hd (u1 & u2 & a1 & -> & H1 & H2)%traces_bind.
  apply traces_bind in H2 as (u3 & u4 & a2 & -> & H2 & H3).
  destruct (traces_add_cached _ _ _ _ _ _ _ _ Hok Ht1
    ltac:(intros; eapply Hd; eauto) H1) as [Hok1 Hs1].
  destruct (traces_add_cached _ _ _ _ _ _ _ _ Hok1 Ht2
    ltac:(intros; eapply Hd; eauto) H2) as [Hok2 Hs2].
  exists (u1 ++ u3), u4, a2. rewrite <- !app_assoc in *. split_and!; auto.
Qed.

Lemma traces_ptr_loop arrival ans todo tr acc tr' acc' :
  (∀ a, In a todo → In a ans) → additionals_ok arrival ans tr acc →
  traces (ptr_loop arrival todo acc) tr' acc' →
  additionals_ok arrival ans (tr ++ tr') acc'.
Proof.
  revert tr acc tr'; induction todo as [|a todo IH]; intros tr acc tr' Hsub Hok;
    cbn [ptr_loop].
  - intros [-> ->]. by rewrite app_nil_r.
  - assert (Hsub' : ∀ x, In x todo → In x ans) by (intros; apply Hsub; by right).
    destruct (rec_data a) eqn:Ha; try (by apply IH).
    intros Ht. eapply traces_add_cached2 in Ht as (tr1 & tr2 & acc1 & -> & Hok1 & _ & H2); eauto.
    + rewrite app_assoc. by eapply IH.
    + intros adds r _ Hn Ht'. left. exists a, n. split; [apply Hsub; by left|done].
Qed.

Lemma traces_srv_loop arrival ans todo tr acc tr' acc' :
  (∀ a, In a todo → In a (ans ++ acc.1)) → additionals_ok arrival ans tr acc →
  traces (srv_loop arrival todo acc) tr' acc' →
  additionals_ok arrival ans (tr ++ tr') acc'.
Proof.
  revert tr acc tr'; induction todo as [|a todo IH]; intros tr acc tr' Hsub Hok;
    cbn [srv_loop].
  - intros [-> ->]. by rewrite app_nil_r.
  - assert (Hsub' : ∀ x, In x todo → In x (ans ++ acc.1)) by (intros; apply Hsub; by right).
    destruct (rec_data a) eqn:Ha; try (by apply IH).
    intros Ht. eapply traces_add_cached2 in Ht as (tr1 & tr2 & acc1 & -> & Hok1 & Hs & H2); eauto.
    + rewrite app_assoc. eapply (IH _ acc1); [|done|done].
      intros x Hx. specialize (Hsub' x Hx).
      rewrite in_app_iff in *. naive_solver.
    + intros adds r Hadds Hn Ht'. right. exists a, s.
      specialize (Hsub a (or_introl eq_refl)). rewrite in_app_iff in *. naive_solver.
Qed.

Lemma traces_cached_additionals st ans arrival tr adds :
  traces (cached_additionals st ans arrival) tr adds →
  (cfg_answer_from_cache (config st) = false → adds = [] ∧ tr = []) ∧
  ∃ seen, additionals_ok arrival ans tr (adds, seen).
Proof.
  assert (H0 : additionals_ok arrival ans [] ([], map key_of ans))
    by (split; [apply acc_ok_start|done..]).
  unfold cached_additionals. destruct (cfg_answer_from_cache (config st)); simpl.
  - intros (tr1 & tr2 & acc1 & -> & H1 & H2)%traces_bind. split; [done|].
    apply traces_bind in H2 as (tr3 & tr4 & [out seen] & -> & H2 & [-> ->]).
    exists seen. rewrite app_nil_r.
    apply (traces_ptr_loop _ ans _ [] _ _ _ (λ a Ha, Ha) H0) in H1.
    eapply traces_srv_loop in H2; eauto.
    intros x Hx. by apply filter_In in Hx as [? _].
  - intros [-> ->]. split; [done|]. eauto.
Qed.
End additional_lemmas.

(** ** Lemmas: the response *)

Section respond_lemmas.
Context `{Hickory} {HI : HashIter}.

(** The records that the rate limiter granted, in order. *)
Definition granted_of (tr : list Event) : list DnsRecord :=
  iter_filter_map (λ e, match e with EvCheck _ _ r _ true => Some r | _ => None end) tr.

(** Events that wait. *)
Definition is_sleep (e : Event) : bool :=
  match e with EvSleep _ | EvSleepOrShutdown _ _ | EvTick _ _ => true | _ => false end.

(** Readings of the clock and decisions of the rate limiter with interval
    [iv] for the interface [i]. *)
Definition checking (i : Z) (iv : Duration) (e : Event) : Prop :=
  match e with
  | EvNow _ => True
  | EvCheck _ i' _ iv' _ => i' = i ∧ iv' = iv
  | _ => False
  end.

Lemma granted_app tr1 tr2 : granted_of (tr1 ++ tr2) = granted_of tr1 ++ granted_of tr2.
Proof.
  unfold granted_of. induction tr1 as [|e tr1 IH]; simpl; [done|].
  case_match; simpl; by rewrite IH.
Qed.

Lemma traces_check_all i iv l tr kept :
  traces (retain_m (check_and_mark i iv) l) tr kept →
  kept = granted_of tr ∧ sublist kept l ∧ Forall (checking i iv) tr.
Proof.
  revert tr kept; induction l as [|r l IH]; intros tr kept; cbn [retain_m].
  - intros [-> ->]. split_and!; constructor.
  - intros (tr1 & tr2 & b & -> & H1 & H2)%traces_bind.
    apply traces_bind in H2 as (tr3 & tr4 & kept' & -> & H2 & [-> ->]).
    rewrite app_nil_r. apply IH in H2 as (-> & Hsub & Hf).
    apply traces_bind in H1 as (u1 & u2 & now & -> & [-> _]%traces_trigger & H1).
    apply traces_trigger in H1 as [-> _]. simpl. split_and!.
    + by destruct b.
    + destruct b; by constructor.
    + repeat constructor; done.
Qed.

Lemma checking_quiet i iv tr :
  Forall (checking i iv) tr → Forall (λ e, is_send e = false ∧ is_sleep e = false) tr.
Proof. intros Hf. eapply Forall_impl; [exact Hf|]. by intros []. Qed.

(** [respond]: the grants are exactly what the response carries. *)
Lemma traces_respond msg arrival fam probe ans adds tr :
  traces (respond msg arrival fam probe ans adds) tr tt →
  ∃ pre kept_ans kept_adds,
    Forall (checking (ifindex arrival) (min_interval probe)) pre ∧
    granted_of pre = kept_ans ++ kept_adds ∧
    sublist kept_ans ans ∧ sublist kept_adds adds ∧ (kept_ans = [] → kept_adds = []) ∧
    match build_response (md_id (metadata msg)) kept_ans kept_adds, egress arrival fam with
    | Some b, Some (s, dst) => ∃ res, tr = pre ++ [EvSend s b dst res]
    | _, _ => tr = pre
    end.
Proof.
  unfold respond. intros (tr1 & tr2 & kept & -> & H1 & H2)%traces_bind.
  apply traces_check_all in H1 as (Hk & Hs & Hf).
  destruct kept as [|a kept'] eqn:E.
  - destruct H2 as [-> _]. exists tr1, [], []. rewrite (app_nil_r tr1).
    split_and!; try done; apply sublist_nil_l.
  - rewrite <- E in *. apply traces_bind in H2 as (tr3 & tr4 & kept2 & -> & H2 & H3).
    apply traces_check_all in H2 as (Hk2 & Hs2 & Hf2).
    exists (tr1 ++ tr3), kept, kept2. split_and!; try done.
    + by apply Forall_app.
    + rewrite granted_app. congruence.
    + by rewrite E.
    + destruct (build_response _ kept kept2) as [b|].
      * apply traces_bind in H3 as (tr5 & tr6 & res & -> & H3 & [-> _]).
        apply traces_send_mdns_on in H3. rewrite app_nil_r.
        destruct (egress arrival fam) as [[s dst]|]; [|].
        -- exists res. subst tr5. by rewrite app_assoc.
        -- destruct H3 as [-> _]. by rewrite app_nil_r.
      * destruct H3 as [-> _]. by rewrite app_nil_r.
Qed.
End respond_lemmas.

(** ** Lemmas: [handle_query] as a whole *)

Section handle_lemmas.
Context `{Hickory} {HI : HashIter}.

Definition probes_us (msg : Message) (p : Published) (arrival : Iface) : bool :=
  is_probe_for_us msg (unique_for_iface p arrival).

(** The pause before the response. *)
Definition pause (d : Duration) : list Event :=
  if Duration.is_zero d then [] else [EvSleep d].

(** The stages of a query that has something to answer. *)
Record handled (st : State) (msg : Message) (arrival : Iface) (fam : IpFamily)
    (p : Published) (cand adds : list DnsRecord) (draw : Z → Z → Z) (pre mid tail : list Event)
    : Prop := {
  h_query : md_message_type (metadata msg) = MT_Query;
  h_questions : queries msg ≠ [];
  h_cand : traces (candidate_answers st msg arrival p) pre cand;
  h_some : apply_known_answers cand msg ≠ [];
  h_adds : traces (cached_additionals st (apply_known_answers cand msg) arrival) mid adds;
  h_rng : rng_ok draw;
  h_respond : traces (respond msg arrival fam (probes_us msg p arrival)
                (apply_known_answers cand msg) adds) tail tt;
}.

Definition handled_delay (msg : Message) (p : Published) (arrival : Iface)
    (cand : list DnsRecord) (draw : Z → Z → Z) : Duration :=
  response_delay draw
    (classify_delay msg (apply_known_answers cand msg) (probes_us msg p arrival)).

Lemma traces_handle_query st msg arrival fam p tr :
  traces (handle_query st msg arrival fam p) tr tt →
  (tr = [] ∨ ∃ cand, traces (candidate_answers st msg arrival p) tr cand) ∨
  ∃ cand adds draw pre mid tail,
    handled st msg arrival fam p cand adds draw pre mid tail ∧
    tr = pre ++ mid ++ EvRng draw :: pause (handled_delay msg p arrival cand draw) ++ tail.
Proof.
  unfold handle_query. destruct (bool_decide _) eqn:Hq; cbn [negb]; [|intros [-> _]; by left; left].
  apply bool_decide_eq_true in Hq.
  destruct (queries msg) as [|q qs] eqn:Hqs; [intros [-> _]; by left; left|].
  intros (pre & tr1 & cand & -> & Hc & Ht)%traces_bind.
  destruct (apply_known_answers cand msg) as [|a l] eqn:Hans.
  - destruct Ht as [-> _]. rewrite app_nil_r. left. right. eauto.
  - rewrite <- Hans in Ht. right.
    apply traces_bind in Ht as (mid & tr2 & adds & -> & Ha & Ht).
    apply traces_bind in Ht as (tr3 & tr4 & draw & -> & [-> Hrng]%traces_trigger & Ht).
    apply traces_bind in Ht as (tr5 & tail & [] & -> & Hs & Ht).
    exists cand, adds, draw, pre, mid, tail. split.
    + split; try done; congruence.
    + simpl. unfold pause, handled_delay, probes_us. do 3 f_equal.
      destruct (Duration.is_zero _); [by destruct Hs as [-> _]|].
      by apply traces_trigger in Hs as [-> _].
Qed.

(** Gathering the answers neither sends, nor sleeps, nor asks for grants. *)
Definition gathering (e : Event) : Prop :=
  match e with EvNow _ | EvLookup _ _ _ _ _ => True | _ => False end.

Lemma gathering_lookup name rtype (arrival : Iface) tr found :
  traces (cache_lookup name rtype (ifindex arrival)) tr found → Forall gathering tr.
Proof.
  intros [[now ->] _]%traces_cache_lookup. repeat constructor.
Qed.

Lemma gathering_candidates st msg arrival p tr ans :
  traces (candidate_answers st msg arrival p) tr ans → Forall gathering tr.
Proof.
  unfold candidate_answers. intros (tr1 & tr2 & acc & -> & H1 & [-> _])%traces_bind.
  rewrite app_nil_r. clear ans. revert tr1 acc H1. generalize (@nil DnsRecord, @nil RecordKey).
  induction (queries msg) as [|q qs IH]; intros a0 tr1 acc; cbn [candidate_loop].
  - by intros [-> _].
  - intros (u1 & u2 & a1 & -> & H1 & H2)%traces_bind. apply Forall_app. split; [|by eapply IH].
    unfold candidate_round in H1. case_match; [|by destruct H1 as [-> _]].
    apply traces_bind in H1 as (u3 & u4 & f & -> & H1 & [-> _]). rewrite app_nil_r.
    by eapply gathering_lookup.
Qed.

Lemma gathering_add name rtype (arrival : Iface) acc tr acc' :
  traces (add_cached_records name rtype (ifindex arrival) acc) tr acc' → Forall gathering tr.
Proof.
  intros (u1 & u2 & f & -> & H1 & [-> _])%traces_bind. rewrite app_nil_r.
  by eapply gathering_lookup.
Qed.

Lemma gathering_loops arrival l acc tr acc' :
  traces (ptr_loop arrival l acc) tr acc' ∨ traces (srv_loop arrival l acc) tr acc' →
  Forall gathering tr.
Proof.
  revert acc tr; induction l as [|a l IH]; intros acc tr; cbn [ptr_loop srv_loop].
  - by intros [[-> _]|[-> _]].
  - intros [Ht|Ht]; destruct (rec_data a); eauto;
      apply traces_bind in Ht as (u1 & u2 & a1 & -> & H1 & H2);
      apply traces_bind in H2 as (u3 & u4 & a2 & -> & H2 & H3);
      rewrite !Forall_app; split_and!; eauto using gathering_add.
Qed.

Lemma gathering_additionals st ans arrival tr adds :
  traces (cached_additionals st ans arrival) tr adds → Forall gathering tr.
Proof.
  unfold cached_additionals. case_match; [by intros [-> _]|].
  intros (u1 & u2 & a1 & -> & H1 & H2)%traces_bind.
  apply traces_bind in H2 as (u3 & u4 & a2 & -> & H2 & [-> _]).
  rewrite !Forall_app. split_and!; eauto using gathering_loops.
Qed.

Lemma gathering_quiet tr :
  Forall gathering tr →
  Forall (λ e, is_send e = false ∧ is_sleep e = false) tr ∧ granted_of tr = [].
Proof.
  intros Hf. split; [eapply Forall_impl; [exact Hf|]; by intros []|].
  unfold granted_of. induction Hf as [|e tr He _ IH]; simpl; [done|]. by destruct e.
Qed.

(** The grants of a handled query are those of its last stage. *)
Lemma handled_granted st msg arrival fam p cand adds draw pre mid tail d :
  handled st msg arrival fam p cand adds draw pre mid tail →
  granted_of (pre ++ mid ++ EvRng draw :: pause d) = [].
Proof.
  intros [_ _ Hc _ Ha _ _].
  apply gathering_candidates, gathering_quiet in Hc as [_ Hc].
  apply gathering_additionals, gathering_quiet in Ha as [_ Ha].
  rewrite !granted_app, Hc, Ha. unfold pause. by case_match.
Qed.

Lemma gathering_silent tr : Forall gathering tr → Forall (λ e, is_send e = false) tr.
Proof. intros Hf. eapply Forall_impl; [exact Hf|]. by intros []. Qed.

Lemma handled_silent st msg arrival fam p cand adds draw pre mid tail d :
  handled st msg arrival fam p cand adds draw pre mid tail →
  Forall (λ e, is_send e = false) (pre ++ mid ++ EvRng draw :: pause d).
Proof.
  intros [_ _ Hc _ Ha _ _].
  apply gathering_candidates, gathering_silent in Hc.
  apply gathering_additionals, gathering_silent in Ha.
  rewrite !Forall_app, Forall_cons. unfold pause. split_and!; try done.
  case_match; by repeat constructor.
Qed.

Lemma granted_send tr s b dst res : granted_of (tr ++ [EvSend s b dst res]) = granted_of tr.
Proof. rewrite granted_app. by rewrite app_nil_r. Qed.

Lemma in_apply_known ans msg r :
  In r (apply_known_answers ans msg) ↔
  In r ans ∧ ∀ known, In known (answers msg) → suppresses known r = false.
Proof.
  unfold apply_known_answers. destruct (answers msg) as [|k ks] eqn:Hk.
  - split; [|tauto]. intros Hr. by split.
  - rewrite filter_In, negb_true_iff, existsb_false. done.
Qed.

Lemma NoDupA_sublist l l' : sublist l l' → NoDupA same_key l' → NoDupA same_key l.
Proof.
  induction 1 as [|x l l' Hsub IH|x l l' _ IH]; intros Hd; [done|..];
    inversion Hd as [|? ? Hn Hd']; subst; [|auto].
  constructor; [|auto]. intros (y & Hxy & Hy)%InA_alt. apply Hn, InA_alt. exists y.
  split; [done|]. rewrite <- list_elem_of_In in *. by eapply sublist_subseteq.
Qed.

Lemma NoDupA_filter (P : DnsRecord → bool) l :
  NoDupA same_key l → NoDupA same_key (List.filter P l).
Proof.
  induction 1 as [|x l Hn _ IH]; simpl; [constructor|]. case_match; [|done].
  constructor; [|done]. intros (y & Hxy & [Hy _]%filter_In)%InA_alt. apply Hn, InA_alt. eauto.
Qed.

Lemma NoDupA_known ans msg :
  NoDupA same_key ans → NoDupA same_key (apply_known_answers ans msg).
Proof. unfold apply_known_answers. case_match; auto using NoDupA_filter. Qed.

(** Answers and additionals together have one record per key. *)
Lemma handled_nodup st msg arrival fam p cand adds draw pre mid tail :
  published_ok p → handled st msg arrival fam p cand adds draw pre mid tail →
  NoDupA same_key (apply_known_answers cand msg ++ adds).
Proof.
  intros Hp [_ _ Hc _ Ha _ _].
  apply traces_candidate_answers in Hc as (? & [[_ Hd _] _ _ _ _]); [|done]. simpl in Hd.
  apply traces_cached_additionals in Ha as (_ & ? & [[_ Hd' Hf] _ _]). simpl in *.
  apply NoDupA_app; [apply _|by apply NoDupA_known|done|].
  intros u (y & Hxy & Hy)%InA_alt (z & Hxz & Hz)%InA_alt.
  apply (Hf z Hz), key_in_map. exists y. split; [done|].
  unfold same_key in *. by rewrite <- Hxy, Hxz.
Qed.
(** The events of a handled query up to the send. *)
Definition before_send (msg : Message) (p : Published) (arrival : Iface)
    (cand : list DnsRecord) (draw : Z → Z → Z) (pre mid chk : list Event) : list Event :=
  (pre ++ mid ++ EvRng draw :: pause (handled_delay msg p arrival cand draw)) ++ chk.

Lemma filter_none {A} (P : A → bool) l : Forall (λ x, P x = false) l → List.filter P l = [].
Proof. induction 1 as [|x l Hx _ IH]; simpl; [done|]. by rewrite Hx. Qed.

Lemma gathering_awake tr : Forall gathering tr → List.filter is_sleep tr = [].
Proof. intros Hf. apply filter_none. eapply Forall_impl; [exact Hf|]. by intros []. Qed.

Lemma sleeps_before_send st msg arrival fam p cand adds0 draw pre mid tail chk :
  handled st msg arrival fam p cand adds0 draw pre mid tail →
  Forall (checking (ifindex arrival) (min_interval (probes_us msg p arrival))) chk →
  List.filter is_sleep (before_send msg p arrival cand draw pre mid chk) =
  pause (handled_delay msg p arrival cand draw).
Proof.
  intros [_ _ Hc _ Ha _ _] Hchk. apply gathering_candidates, gathering_awake in Hc.
  apply gathering_additionals, gathering_awake in Ha.
  unfold before_send. rewrite !List.filter_app, Hc, Ha. simpl.
  rewrite (filter_none _ chk), app_nil_r
    by (eapply Forall_impl; [exact Hchk|]; by intros []).
  unfold pause. by case_match.
Qed.

Record stages_ok (msg : Message) (p : Published) (arrival : Iface) (cand adds0 : list DnsRecord)
    (body : list Event) (ans adds : list DnsRecord) : Prop := {
  so_checks : ∀ now i r iv g, In (EvCheck now i r iv g) body →
    i = ifindex arrival ∧ iv = min_interval (probes_us msg p arrival);
  so_granted : granted_of body = ans ++ adds;
  so_pause : ∃ draw, rng_ok draw ∧
    List.filter is_sleep body = pause (handled_delay msg p arrival cand draw);
  so_silent : Forall (λ e, is_send e = false) body;
  so_answers : sublist ans (apply_known_answers cand msg);
  so_additionals : sublist adds adds0;
  so_empty : ans = [] → adds = [];
}.

Lemma handled_no_check st msg arrival fam p cand adds draw pre mid tail d now i r iv g :
  handled st msg arrival fam p cand adds draw pre mid tail →
  ¬ In (EvCheck now i r iv g) (pre ++ mid ++ EvRng draw :: pause d).
Proof.
  intros [_ _ Hc _ Ha _ _]. apply gathering_candidates in Hc. apply gathering_additionals in Ha.
  rewrite Forall_forall in Hc. rewrite Forall_forall in Ha.
  rewrite !in_app_iff. intros [He|[He|[He|He]]]; [..|].
  - by apply list_elem_of_In, Hc in He.
  - by apply list_elem_of_In, Ha in He.
  - done.
  - unfold pause in He. case_match; simpl in He; naive_solver.
Qed.

(** [handle_query] on every path: either nothing is granted and nothing is
    sent, or the stages run and the response goes out if it can. *)
Lemma handle_query_stages st msg arrival fam p tr :
  traces (handle_query st msg arrival fam p) tr tt →
  (Forall (λ e, is_send e = false) tr ∧ granted_of tr = [] ∧
   Forall (λ e, is_sleep e = false) tr) ∨
  ∃ cand adds0 draw pre mid tail chk ans adds,
    handled st msg arrival fam p cand adds0 draw pre mid tail ∧
    stages_ok msg p arrival cand adds0 (before_send msg p arrival cand draw pre mid chk) ans adds ∧
    match build_response (md_id (metadata msg)) ans adds, egress arrival fam with
    | Some b, Some (s, dst) =>
        ∃ res, tr = before_send msg p arrival cand draw pre mid chk ++ [EvSend s b dst res]
    | _, _ => tr = before_send msg p arrival cand draw pre mid chk
    end.
Proof.
  intros Ht. apply traces_handle_query in Ht as [[->|[cand Hc]]|
    (cand & adds0 & draw & pre & mid & tail & Hh & ->)]; [by left|left|right].
  { apply gathering_candidates, gathering_quiet in Hc as [Hf ->].
    rewrite !Forall_forall in *. split_and!; try done; intros x Hx; by apply Hf. }
  destruct (traces_respond _ _ _ _ _ _ _ (h_respond _ _ _ _ _ _ _ _ _ _ _ Hh))
    as (chk & ans & adds & Hchk & Hgr & Hsa & Hsd & Hemp & Hcase).
  exists cand, adds0, draw, pre, mid, tail, chk, ans, adds. split; [done|].
  assert (Hassoc : ∀ t, pre ++ mid ++ EvRng draw :: pause (handled_delay msg p arrival cand draw) ++ t
    = (pre ++ mid ++ EvRng draw :: pause (handled_delay msg p arrival cand draw)) ++ t)
    by (intros t; by rewrite <- !app_assoc).
  rewrite Hassoc. unfold before_send. split; [split; try done|].
  - intros now i r iv g [He|He]%in_app_iff; [by eapply handled_no_check in He|].
    rewrite Forall_forall in Hchk. apply (Hchk _ (proj2 (list_elem_of_In _ _) He)).
  - by rewrite granted_app, (handled_granted _ _ _ _ _ _ _ _ _ _ _ _ Hh).
  - exists draw. split; [apply (h_rng _ _ _ _ _ _ _ _ _ _ _ Hh)|].
    by eapply (sleeps_before_send _ _ _ _ _ _ _ _ _ _ _ _ Hh).
  - rewrite Forall_app. split; [by eapply handled_silent|].
    eapply Forall_impl; [exact Hchk|]. by intros [].
  - destruct (build_response _ ans adds); [destruct (egress arrival fam) as [[s dst]|]|];
      [|by rewrite Hcase..].
    destruct Hcase as [res ->]. exists res. by rewrite app_assoc.
Qed.

Lemma build_response_Some id ans adds b :
  build_response id ans adds = Some b →
  ans ≠ [] ∧ to_vec (mkMessage (response_metadata id) [] ans [] adds) = Ok b.
Proof.
  unfold build_response. rewrite response_message_eq. destruct ans; [done|].
  intros Hb. split; [done|]. destruct (to_vec _); simpl in Hb; congruence.
Qed.

Lemma in_sublist {A} (l l' : list A) x : sublist l l' → In x l → In x l'.
Proof. rewrite <- !list_elem_of_In. intros Hs. by apply sublist_subseteq. Qed.

Lemma handled_answer st msg arrival fam p cand adds0 draw pre mid tail r chk send :
  published_ok p → handled st msg arrival fam p cand adds0 draw pre mid tail →
  In r (apply_known_answers cand msg) →
  (∃ q, In q (queries msg) ∧ asks q r) ∧
  (In r (all_records p) ∧ local_to arrival r ∨
   cfg_answer_from_cache (config st) = true ∧
   relayed arrival (before_send msg p arrival cand draw pre mid chk ++ send) r) ∧
  ∀ known, In known (answers msg) → suppresses known r = false.
Proof.
  intros Hp [_ _ Hc _ _ _ _] [Hr Hk]%in_apply_known.
  apply traces_candidate_answers in Hc as (? & [_ Hs _ _ _]); [|done].
  destruct (Hs r Hr) as [? [?|[? ?]]]; split_and!; auto. right. split; [done|].
  unfold before_send. do 3 (apply relayed_app; left). done.
Qed.

Lemma handled_additional st msg arrival fam p cand adds0 draw pre mid tail r chk send :
  handled st msg arrival fam p cand adds0 draw pre mid tail → In r adds0 →
  relayed arrival (before_send msg p arrival cand draw pre mid chk ++ send) r.
Proof.
  intros [_ _ _ _ Ha _ _] Hr. apply traces_cached_additionals in Ha as (_ & ? & [_ Hrel _]).
  unfold before_send. do 2 (apply relayed_app; left). apply relayed_app. right.
  apply relayed_app. left. by apply Hrel.
Qed.

Lemma classify_delay_cases msg ans probe :
  match classify_delay msg ans probe with
  | ProbeDefense => probe = true
  | Truncated => md_truncation (metadata msg) = true
  | UniqueAnswer => md_truncation (metadata msg) = false ∧ length (queries msg) = 1%nat ∧
                    Forall (λ r, rec_cache_flush r = true) ans
  | Shared => md_truncation (metadata msg) = false
  end.
Proof.
  unfold classify_delay, answer_uniqueness. destruct probe; [done|].
  destruct (md_truncation (metadata msg)); [done|].
  destruct ((_ =? 1)%nat && _ && _) eqn:Hu; [|done].
  bool_to_prop. split_and!; [done|by apply Nat.eqb_eq|].
  apply Forall_forall. intros r Hr. rewrite list_elem_of_In in Hr.
  match goal with Hf : forallb _ _ = true |- _ => rewrite forallb_forall in Hf; auto end.
Qed.

(** The pauses of a handled query. *)
Lemma handle_query_pause st msg arrival fam p tr :
  traces (handle_query st msg arrival fam p) tr tt →
  List.filter is_sleep tr = [] ∨
  ∃ d, List.filter is_sleep tr = [EvSleep d] ∧
    if md_truncation (metadata msg)
    then Duration.from_millis 400 ≤ d ≤ Duration.from_millis 500
    else Duration.from_millis 20 ≤ d ≤ Duration.from_millis 120.
Proof.
  intros Ht. destruct (handle_query_stages _ _ _ _ _ _ Ht) as [(_ & _ & Hs)|
    (cand & adds0 & draw & pre & mid & tail & chk & ans & adds & _ &
     [_ _ (draw' & Hrng & Hp) _ _ _ _] & Hcase)]; [left; by apply filter_none|].
  assert (Hsl : List.filter is_sleep tr = pause (handled_delay msg p arrival cand draw')).
  { destruct (build_response _ ans adds); [destruct (egress arrival fam) as [[s dst]|]|];
      [|by rewrite Hcase..].
    destruct Hcase as [res ->]. rewrite List.filter_app; simpl. by rewrite app_nil_r, Hp. }
  rewrite Hsl. unfold pause, handled_delay.
  set (class := classify_delay msg (apply_known_answers cand msg) (probes_us msg p arrival)).
  pose proof (response_delay_range draw' class Hrng) as Hrange.
  pose proof (classify_delay_cases msg (apply_known_answers cand msg) (probes_us msg p arrival))
    as Hclass. fold class in Hclass.
  unfold Duration.is_zero. destruct (Z.eqb_spec (response_delay draw' class) 0) as [Hz|Hz];
    [by left|right].
  exists (response_delay draw' class). split; [done|].
  destruct class; simpl in *; [lia..| |]; by rewrite Hclass.
Qed.

(** A response without a pause. *)
Lemma handle_query_immediate st msg arrival fam p tr s b dst res :
  traces (handle_query st msg arrival fam p) tr tt →
  In (EvSend s b dst res) tr → List.filter is_sleep tr = [] →
  probes_us msg p arrival = true ∨
  md_truncation (metadata msg) = false ∧ length (queries msg) = 1%nat ∧
  ∃ ans adds,
    to_vec (mkMessage (response_metadata (md_id (metadata msg))) [] ans [] adds) = Ok b ∧
    granted_of tr = ans ++ adds ∧ ans ≠ [] ∧ Forall (λ r, rec_cache_flush r = true) ans.
Proof.
  intros Ht Hin Hsl.
  destruct (handle_query_stages _ _ _ _ _ _ Ht) as [(Hsil & _ & _)|
    (cand & adds0 & draw & pre & mid & tail & chk & ans & adds & _ &
     [_ Hg (draw' & Hrng & Hp) Hsil Hsa _ _] & Hcase)].
  { rewrite Forall_forall in Hsil. by apply list_elem_of_In, Hsil in Hin. }
  rewrite Forall_forall in Hsil.
  destruct (build_response _ ans adds) as [b'|] eqn:Hb;
    [destruct (egress arrival fam) as [[s' dst']|]|];
    [|subst tr; by apply list_elem_of_In, Hsil in Hin..].
  destruct Hcase as [res' ->].
  apply in_app_iff in Hin as [Hin|[[= -> -> -> ->]|[]]];
    [by apply list_elem_of_In, Hsil in Hin|].
  apply build_response_Some in Hb as [Hne Hb]. rewrite granted_send.
  rewrite List.filter_app, Hp in Hsl. apply app_eq_nil in Hsl as [Hsl _]. unfold pause, handled_delay in Hsl.
  pose proof (response_delay_range draw' (classify_delay msg (apply_known_answers cand msg)
    (probes_us msg p arrival)) Hrng) as Hrange.
  pose proof (classify_delay_cases msg (apply_known_answers cand msg) (probes_us msg p arrival))
    as Hclass.
  unfold Duration.is_zero in Hsl.
  destruct (Z.eqb_spec (response_delay draw' (classify_delay msg (apply_known_answers cand msg)
    (probes_us msg p arrival))) 0) as [Hz|Hz]; [|done].
  destruct (classify_delay msg _ _); simpl in *;
    [by left| |unfold Duration.from_millis, NANOS_PER_MILLI in *; lia..].
  right. destruct Hclass as (Htr & Hlen & Hfl). split_and!; try done.
  exists ans, adds. split_and!; try done.
  rewrite Forall_forall in *. intros r Hr. apply Hfl. by eapply sublist_subseteq.
Qed.
End handle_lemmas.

(** ** Lemmas: probes, announcements, goodbyes *)

Section unsolicited_lemmas.
Context `{Hickory} {HI : HashIter}.

(** The events of the rounds with [sep] between two rounds. *)
Fixpoint interleave (sep : Event) (rounds : list (list Event)) : list Event :=
  match rounds with
  | [] => []
  | [t] => t
  | t :: rounds => t ++ sep :: interleave sep rounds
  end.

(** One probe: a fresh identifier, then the probe message to every family of
    the interface. *)
Definition probe_round (i : Iface) (unique : list DnsRecord) (t : list Event) : Prop :=
  ∃ id sends, t = EvRandU16 id :: sends ∧ 0 ≤ id ≤ u16_MAX ∧
    match to_vec (probe_message id unique) with
    | Ok b => Forall2 (sends_to i b) (families i) sends
    | Err _ => sends = []
    end.

(** A probe that was encoded and that no family could send. *)
Definition probe_failed (unique : list DnsRecord) (t : list Event) : Prop :=
  ∃ id sends b, t = EvRandU16 id :: sends ∧ to_vec (probe_message id unique) = Ok b ∧
    Forall (λ e, send_succeeded e = false) sends.

Lemma traces_probe_attempts i unique n tr :
  traces (probe_attempts i unique n) tr tt →
  ∃ rounds, tr = interleave (EvSleep PROBE_INTERVAL) rounds ∧
    Forall (probe_round i unique) rounds ∧
    (length rounds = n ∨
     ∃ init lst, rounds = init ++ [lst] ∧ (length rounds < n)%nat ∧ probe_failed unique lst).
Proof.
  revert tr; induction n as [|n IH]; intros tr; cbn [probe_attempts].
  - intros [-> _]. exists []. split_and!; auto.
  - intros (tr1 & tr2 & id & -> & [-> Hid]%traces_trigger & Ht)%traces_bind.
    apply traces_bind in Ht as (sends & tr3 & r & -> & Hs & Ht).
    assert (Hround : probe_round i unique (EvRandU16 id :: sends)).
    { exists id, sends. split; [done|]. split; [done|].
      destruct (to_vec (probe_message id unique)) as [b|]; [by apply traces_send_mdns in Hs as [? _]|].
      by destruct Hs as [-> _]. }
    destruct r as [k|e].
    + apply traces_bind in Ht as (tr4 & tr5 & [] & -> & Hsl & Ht).
      apply IH in Ht as (rounds & -> & Hf & Hlen).
      exists ((EvRandU16 id :: sends) :: rounds). split_and!.
      * destruct n as [|n]; simpl in Hsl.
        -- destruct Hsl as [-> _]. destruct Hlen as [Hlen|(? & ? & _ & ? & _)]; [|lia].
           destruct rounds; [|done]. simpl. by rewrite app_nil_r.
        -- destruct Hsl as (u & tr6 & -> & _ & -> & _).
           destruct rounds as [|t rounds]; [|done].
           destruct Hlen as [?|([] & ? & ? & _)]; done.
      * by constructor.
      * destruct Hlen as [Hlen|(init & lst & -> & Hlen & Hfail)]; [left; simpl; lia|right].
        exists ((EvRandU16 id :: sends) :: init), lst. split_and!; [done|simpl in *; lia|done].
    + destruct Ht as [-> _]. exists [EvRandU16 id :: sends]. split_and!.
      * simpl. by rewrite app_nil_r.
      * by repeat constructor.
      * destruct n as [|n]; [by left|right]. exists [], (EvRandU16 id :: sends).
        split_and!; [done|simpl; lia|]. exists id, sends.
        destruct (to_vec (probe_message id unique)) as [b|] eqn:Hb; [|by destruct Hs].
        exists b. split_and!; try done. apply traces_send_mdns in Hs as [_ Hok].
        apply Forall_forall. intros x Hx. apply not_true_iff_false. intros Hx'.
        assert (false = true) by (apply Hok, Exists_exists; eauto). done.
Qed.

(** The names of a probe: every name once. *)
Lemma probe_names_fold l names :
  let out := fold_left (λ names r, if existsb (λ n, n == rec_name r) names then names
                        else names ++ [rec_name r]) l names in
  (NoDupA equiv names → NoDupA equiv out) ∧
  (∀ n, In n out → In n names ∨ ∃ r, In r l ∧ rec_name r = n) ∧
  (∀ n, In n names → In n out) ∧ (∀ r, In r l → ∃ n, In n out ∧ n ≡ rec_name r).
Proof.
  revert names; induction l as [|r l IH]; intros names; simpl;
    [split_and!; [done|by left|done|done]|].
  destruct (existsb _ names) eqn:He.
  - destruct (IH names) as (H1 & H2 & H3 & H4). split_and!; try done.
    + intros n Hn. destruct (H2 n Hn) as [?|(x & ? & ?)]; eauto.
    + intros x [<-|Hx]; [|eauto]. apply existsb_exists in He as (n & Hn & Hr).
      bool_to_prop. eauto.
  - destruct (IH (names ++ [rec_name r])) as (H1 & H2 & H3 & H4).
    rewrite existsb_false in He. split_and!.
    + intros Hd. apply H1. apply NoDupA_app; [apply _|done|apply NoDupA_singleton|].
      intros x (y & Hxy & Hy)%InA_alt (z & Hxz & [<-|[]])%InA_alt.
      specialize (He y Hy). bool_to_prop. apply He. by rewrite <- Hxy.
    + intros n Hn. destruct (H2 n Hn) as [[?|[<-|[]]]%in_app_iff|(x & ? & ?)]; eauto.
    + intros n Hn. apply H3. rewrite in_app_iff. auto.
    + intros x [<-|Hx]; [|eauto]. exists (rec_name r). split; [|done].
      apply H3. rewrite in_app_iff. simpl. auto.
Qed.

(** One interface of one announcement round. *)
Definition announce_round (p : Published) (i : Iface) (t : list Event) : Prop :=
  match build_announce p i with
  | None => t = []
  | Some b => ∃ sends, Forall2 (sends_to i b) (families i) sends ∧
      t = sends ++ (if existsb send_succeeded sends
                    then map (EvMark (ifindex i)) (unique_for_iface p i) else [])
  end.

Lemma traces_marks i l tr :
  traces (for_each l (λ r, trigger (AMark i r))) tr tt → tr = map (EvMark i) l.
Proof.
  revert tr; induction l as [|r l IH]; intros tr; cbn [for_each].
  - by intros [-> _].
  - intros (tr1 & tr2 & [] & -> & [-> _]%traces_trigger & Ht)%traces_bind.
    by rewrite (IH _ Ht).
Qed.

Lemma traces_announce_iface p i tr :
  traces (announce_iface p i) tr tt → announce_round p i tr.
Proof.
  unfold announce_iface, announce_round. destruct (build_announce p i) as [b|];
    [|by intros [-> _]].
  intros (sends & tr2 & r & -> & Hs & Ht)%traces_bind.
  apply traces_send_mdns in Hs as [Hf Hok]. exists sends. split; [done|].
  destruct (existsb send_succeeded sends) eqn:He.
  - apply existsb_exists in He as (e & Hin & He).
    destruct r as [k|e']; [by rewrite (traces_marks _ _ _ Ht)|].
    assert (false = true) by (apply Hok, Exists_exists; exists e; by rewrite list_elem_of_In).
    done.
  - rewrite existsb_false in He. destruct r as [k|e']; [|by destruct Ht as [-> _]].
    apply proj1 in Hok. specialize (Hok eq_refl). apply Exists_exists in Hok as (e & Hin & Hs).
    rewrite list_elem_of_In in Hin. by rewrite He in Hs.
Qed.

Lemma traces_rounds {A} (l : list A) body (P : A → list Event → Prop) tr :
  (∀ x t, traces (body x) t tt → P x t) →
  traces (for_each l body) tr tt → ∃ ts, tr = concat ts ∧ Forall2 P l ts.
Proof.
  intros HP (ts & -> & Hf)%traces_for_each. exists ts. split; [done|].
  eapply Forall2_impl; [exact Hf|]. eauto.
Qed.

Definition goodbye_round (p : Published) (i : Iface) (t : list Event) : Prop :=
  match to_vec (goodbye_message p) with
  | Ok b => Forall2 (sends_to i b) (families i) t
  | Err _ => t = []
  end.

Lemma traces_goodbye_iface p i tr :
  traces (goodbye_iface p i) tr tt → goodbye_round p i tr.
Proof.
  unfold goodbye_iface, goodbye_round. destruct (to_vec _) as [b|]; [|by intros [-> _]].
  intros (t1 & t2 & r & -> & Hs & [-> _])%traces_bind. rewrite app_nil_r.
  by apply traces_send_mdns in Hs as [? _].
Qed.

Lemma traces_announce_goodbye st p tr :
  traces (announce_goodbye st p) tr tt →
  goodbye p = [] ∧ tr = [] ∨
  ∃ ts1 ts2, goodbye p ≠ [] ∧
    tr = concat ts1 ++ EvSleep (Duration.from_secs 1) :: concat ts2 ∧
    Forall2 (goodbye_round p) (ifaces st) ts1 ∧ Forall2 (goodbye_round p) (ifaces st) ts2.
Proof.
  unfold announce_goodbye. destruct (goodbye p) as [|g gs] eqn:Hg; [by intros [-> _]; left|].
  rewrite <- Hg. intros Ht. right. revert Ht. intros (t1 & t2 & [] & -> & H1 & H2)%traces_bind.
  apply traces_bind in H2 as (t3 & t4 & [] & -> & [-> _]%traces_trigger & H2).
  apply (traces_rounds _ _ _ _ (traces_goodbye_iface p)) in H1 as (ts1 & -> & H1).
  apply (traces_rounds _ _ _ _ (traces_goodbye_iface p)) in H2 as (ts2 & -> & H2).
  exists ts1, ts2. split_and!; try done. by rewrite Hg.
Qed.

Lemma announce_records_unique p i :
  published_ok p →
  (∀ r, In r (unique_for_iface p i) → In r (announce_records p i)) ∧
  (∀ r, In r (announce_records p i) → rec_cache_flush r = true → In r (unique_for_iface p i)).
Proof.
  intros [_ _ Hs]. unfold announce_records, unique_for_iface, unique_service_records.
  setoid_rewrite in_app_iff. setoid_rewrite in_flat_map. split.
  - intros r [?|(s & Hin & Hr)]; [by left|right]. exists s. simpl in *. tauto.
  - intros r [?|(s & Hin & Hr)] Hfl; [by left|right]. exists s. split; [done|].
    rewrite Forall_forall in Hs. destruct (Hs s) as [_ _ _ _ _ _ _ [Hp1 Hp2] _ _];
      [by apply list_elem_of_In|].
    simpl in *. naive_solver congruence.
Qed.
End unsolicited_lemmas.

(** ** Properties *)

Section properties.
Context `{Hickory} {HI : HashIter}.

(** C18. Known-answer suppression (RFC 6762 section 7.1) removes exactly the
    answers the querier already holds with at least half of their TTL: same
    name (ignoring case), type and data, and twice the known TTL reaches
    ours; the 32-bit saturation of the doubling changes nothing. *)
Theorem apply_known_answers_spec ans msg r :
  Forall record_ok ans → Forall record_ok (answers msg) →
  In r (apply_known_answers ans msg) ↔
  In r ans ∧ ¬ ∃ known, In known (answers msg) ∧ rec_name known ≡ rec_name r ∧
    record_type known = record_type r ∧ rec_data known ≡ rec_data r ∧
    rec_ttl r ≤ 2 * rec_ttl known.
Proof.
  rewrite !Forall_forall. intros Hans Hknown. rewrite in_apply_known.
  assert (Hsup : ∀ known, In r ans → In known (answers msg) → suppresses known r = true ↔
    rec_name known ≡ rec_name r ∧ record_type known = record_type r ∧
    rec_data known ≡ rec_data r ∧ rec_ttl r ≤ 2 * rec_ttl known).
  { intros k Hr Hk. unfold suppresses. rewrite !andb_true_iff, !bool_decide_eq_true, Z.leb_le.
    specialize (Hans r (proj2 (list_elem_of_In _ _) Hr)).
    specialize (Hknown k (proj2 (list_elem_of_In _ _) Hk)).
    unfold record_ok, u32_saturating_mul, u32_MAX in *.
    split; [intros [[[? ?] ?] ?]|intros (? & ? & ? & ?)]; split_and!; try done; lia. }
  split.
  - intros [Hr Hn]. split; [done|]. intros (k & Hk & Hs). rewrite <- Hsup in Hs by done.
    by rewrite Hn in Hs.
  - intros [Hr Hn]. split; [done|]. intros k Hk. apply not_true_iff_false.
    rewrite Hsup by done. naive_solver.
Qed.

(** C17. The candidate answers of a query: no two have the same key; each
    answers one of the questions, and is either one of our published records,
    with address records only for the interface of the query, or a record
    relayed from another interface, without cache-flush bit and only when
    the configuration allows it; conversely every published record that
    answers a question on this link, and every record the cache returned,
    is represented.  With relaying on the cache is looked up once for each
    question, in order, with its name and type, on behalf of the interface of the
    query; with relaying off it is not consulted. *)
Theorem candidate_answers_spec host svcs ifs p st msg arrival tr ans :
  build host svcs ifs = Ok p →
  traces (candidate_answers st msg arrival p) tr ans →
  NoDupA same_key ans ∧
  (∀ r, In r ans →
     (∃ q, In q (queries msg) ∧ asks q r) ∧
     (In r (all_records p) ∧ local_to arrival r ∨
      cfg_answer_from_cache (config st) = true ∧ relayed arrival tr r)) ∧
  (∀ q r, In q (queries msg) → In r (all_records p) → asks q r → local_to arrival r →
     ∃ r', In r' ans ∧ same_key r' r) ∧
  (∀ now name rtype found r,
     In (EvLookup now name rtype (ifindex arrival) found) tr → In r found →
     ∃ r', In r' ans ∧ same_key r' r) ∧
  (if cfg_answer_from_cache (config st)
   then lookups_of tr = map (λ q, (q_name q, q_type q, ifindex arrival)) (queries msg)
   else tr = []).
Proof.
  intros (_ & Hp & _)%build_ok Ht. pose proof (lookups_candidate_answers _ _ _ _ _ _ Ht) as Hlk.
  apply traces_candidate_answers in Ht as (seen & [[_ Hd _] Hs Hc Hr Hq]); [|done].
  split_and!; try done; [|by destruct (cfg_answer_from_cache (config st)); auto].
  intros q r Hqin Hin Has Hl. apply (Hc q r Hqin). by apply in_published_answers.
Qed.

(** C19. The additional records: distinct keys, none of them already an answer;
    each was relayed from the cache, without cache-flush bit, and is the SRV
    or TXT record of an instance that a PTR answer names or an address of
    the host that a service record names.  None with relaying off. *)
Theorem cached_additionals_spec st ans arrival tr adds :
  traces (cached_additionals st ans arrival) tr adds →
  NoDupA same_key adds ∧
  (∀ a r, In a ans → In r adds → ¬ same_key a r) ∧
  (∀ r, In r adds → relayed arrival tr r ∧ describes ans adds r) ∧
  (cfg_answer_from_cache (config st) = false → adds = [] ∧ tr = []).
Proof.
  intros [Hoff (seen & [[_ Hd Hf] Hr Hdesc])]%traces_cached_additionals. split_and!; try done.
  - intros a r Ha Hin Hk. apply (Hf r Hin), key_in_map. eauto.
  - intros r Hin. split; [by apply Hr|by apply Hdesc].
Qed.

(** C2. What handling a query can send: nothing, or one datagram, as its last
    action, on the arrival interface and family.  That datagram is the
    authoritative response with the query's identifier; its records are
    exactly the ones the rate limiter granted for this interface with the
    interval of the situation (250 ms when defending a probe, else 1 s); no
    record appears twice; each answer is asked for, is ours on this link or
    relayed, and is not suppressed by a known answer; additionals are
    relayed. *)
Theorem handle_query_response host svcs ifs p st msg arrival fam tr :
  build host svcs ifs = Ok p →
  traces (handle_query st msg arrival fam p) tr tt →
  Forall (λ e, is_send e = false) tr ∨
  ∃ pre s b dst res ans adds,
    tr = pre ++ [EvSend s b dst res] ∧ Forall (λ e, is_send e = false) pre ∧
    egress arrival fam = Some (s, dst) ∧
    ans ≠ [] ∧
    to_vec (mkMessage (response_metadata (md_id (metadata msg))) [] ans [] adds) = Ok b ∧
    granted_of tr = ans ++ adds ∧
    (∀ now i r iv g, In (EvCheck now i r iv g) tr →
       i = ifindex arrival ∧ iv = min_interval (probes_us msg p arrival)) ∧
    NoDupA same_key (ans ++ adds) ∧
    (∀ r, In r ans →
       (∃ q, In q (queries msg) ∧ asks q r) ∧
       (In r (all_records p) ∧ local_to arrival r ∨
        cfg_answer_from_cache (config st) = true ∧ relayed arrival tr r) ∧
       ∀ known, In known (answers msg) → suppresses known r = false) ∧
    (∀ r, In r adds → relayed arrival tr r).
Proof.
  intros (_ & Hp & _)%build_ok Ht.
  destruct (handle_query_stages _ _ _ _ _ _ Ht) as [[Hs _]|
    (cand & adds0 & draw & pre & mid & tail & chk & ans & adds & Hh & Hok & Hcase)]; [by left|].
  destruct Hok as [Hchk Hg _ Hsil Hsa Hsd _].
  destruct (build_response _ ans adds) as [b|] eqn:Hb;
    [destruct (egress arrival fam) as [[s dst]|]|]; [|left; by rewrite Hcase..].
  destruct Hcase as [res ->]. right.
  destruct (build_response_Some _ _ _ _ Hb) as [Hne Hb'].
  eexists _, s, b, dst, res, ans, adds. split; [reflexivity|].
  rewrite granted_send. split_and!; try done.
  - intros now i r iv g [He|[He|[]]]%in_app_iff; [|done]. by apply (Hchk now i r iv g).
  - eapply NoDupA_sublist; [|by eapply handled_nodup]. by apply sublist_app.
  - intros r Hr. eapply handled_answer; [done..|by eapply in_sublist].
  - intros r Hr. eapply handled_additional; [done..|by eapply in_sublist].
Qed.

(** C15. Grants of the rate limiter are not spent on suppressed responses: when
    something was granted, some answer was, and the response that carries exactly
    the granted records is handed to the socket of the family as the last action,
    once, unless it cannot be encoded or the interface has no socket for the
    family.  The grants stay spent in these two cases, and also when the send
    itself reports an I/O error [res]. *)
Theorem handle_query_grants_sent p st msg arrival fam tr :
  traces (handle_query st msg arrival fam p) tr tt → granted_of tr ≠ [] →
  ∃ ans adds, ans ≠ [] ∧ granted_of tr = ans ++ adds ∧
    match to_vec (mkMessage (response_metadata (md_id (metadata msg))) [] ans [] adds),
          egress arrival fam with
    | Ok b, Some (s, dst) =>
        ∃ pre res, tr = pre ++ [EvSend s b dst res] ∧ Forall (λ e, is_send e = false) pre
    | _, _ => Forall (λ e, is_send e = false) tr
    end.
Proof.
  intros Ht Hne. destruct (handle_query_stages _ _ _ _ _ _ Ht) as [(_ & Hg & _)|
    (cand & adds0 & draw & pre & mid & tail & chk & ans & adds & _ & [_ Hg _ Hs _ _ He] & Hcase)];
    [done|].
  unfold build_response in Hcase. rewrite response_message_eq in Hcase.
  destruct ans as [|a l] eqn:Ha.
  { rewrite He in Hg by done. by subst tr. }
  exists (a :: l), adds. split; [done|].
  destruct (to_vec _) as [b|]; [destruct (egress arrival fam) as [[s dst]|]|];
    cbn [ok] in Hcase; try (by subst tr; split).
  destruct Hcase as [res ->]. rewrite granted_send. eauto 10.
Qed.

(** C16. When a response is delayed (RFC 6762 section 6): there is at most one
    pause, of 400 to 500 ms for a truncated query and 20 to 120 ms otherwise;
    a response is sent without pause only to defend a probe, or when the query has
    a single question, is not truncated, and the whole answer section of the
    response consists of cache-flush (our own) records. *)
Theorem handle_query_delay p st msg arrival fam tr :
  traces (handle_query st msg arrival fam p) tr tt →
  (List.filter is_sleep tr = [] ∨
   ∃ d, List.filter is_sleep tr = [EvSleep d] ∧
     if md_truncation (metadata msg)
     then Duration.from_millis 400 ≤ d ≤ Duration.from_millis 500
     else Duration.from_millis 20 ≤ d ≤ Duration.from_millis 120) ∧
  (∀ s b dst res, In (EvSend s b dst res) tr → List.filter is_sleep tr = [] →
   probes_us msg p arrival = true ∨
   md_truncation (metadata msg) = false ∧ length (queries msg) = 1%nat ∧
   ∃ ans adds,
     to_vec (mkMessage (response_metadata (md_id (metadata msg))) [] ans [] adds) = Ok b ∧
     granted_of tr = ans ++ adds ∧ ans ≠ [] ∧ Forall (λ r, rec_cache_flush r = true) ans).
Proof.
  intros Ht. split; [by eapply handle_query_pause|]. intros s b dst res.
  by eapply handle_query_immediate.
Qed.

(** C23. Probing (RFC 6762 section 8.1): interface by interface, a random pause
    of at most 250 ms, then probes 250 ms apart, exactly three unless one
    could not be sent on any family.  A probe is a query of type ANY with the
    unicast-response bit for every name of our unique records, each name
    once, with those records as authorities, sent to every family.  An
    interface with no unique records is skipped. *)
Theorem probe_all_spec st p tr :
  traces (probe_all st p) tr tt →
  ∃ ts, tr = concat ts ∧ Forall2 (λ i t,
    let unique := unique_for_iface p i in
    (unique = [] ∧ t = []) ∨
    ∃ draw d rounds, 0 ≤ d ≤ Duration.from_millis 250 ∧
      t = EvRng draw :: EvSleep d :: interleave (EvSleep (Duration.from_millis 250)) rounds ∧
      Forall (probe_round i unique) rounds ∧
      (length rounds = 3%nat ∨
       ∃ init lst, rounds = init ++ [lst] ∧ (length rounds < 3)%nat ∧ probe_failed unique lst))
    (ifaces st) ts ∧
  (∀ id unique, ∃ names,
     probe_message id unique =
       mkMessage (mkMetadata id MT_Query Op_Query false false)
         (map (λ n, mkQuery n RT_ANY DNSClass_IN true) names) [] unique [] ∧
     NoDupA equiv names ∧ (∀ r, In r unique → ∃ n, In n names ∧ n ≡ rec_name r) ∧
     ∀ n, In n names → ∃ r, In r unique ∧ rec_name r = n).
Proof.
  intros Ht. apply traces_rounds with (P := λ i t, traces (probe_iface p i) t tt) in Ht
    as (ts & -> & Hf); [|done]. exists ts. split; [done|]. split.
  - eapply Forall2_impl; [exact Hf|]. intros i t Hi. cbv zeta. unfold probe_iface in Hi.
    destruct (unique_for_iface p i) as [|u us]; [left; by destruct Hi as [-> _]|right].
    apply traces_bind in Hi as (t1 & t2 & draw & -> & [-> Hrng]%traces_trigger & Hi).
    apply traces_bind in Hi as (t3 & t4 & [] & -> & [-> _]%traces_trigger & Hi).
    apply traces_probe_attempts in Hi as (rounds & -> & Hr & Hlen).
    exists draw, (jitter_0_to_max draw PROBE_INITIAL_MAX), rounds.
    split; [by apply jitter_range|]. by split_and!.
  - intros id unique. exists (probe_names unique). rewrite probe_message_eq. split; [done|].
    destruct (probe_names_fold unique []) as (H1 & H2 & _ & H4). split_and!.
    + apply H1. constructor.
    + exact H4.
    + intros n Hn. destruct (H2 n Hn) as [[]|?]. done.
Qed.

(** C22. Announcing (RFC 6762 section 8.3): a first round over all interfaces,
    one second, a second round unless shutdown came first.  Each round sends,
    per interface, the authoritative announcement of the host records of
    that interface and all service records to every family; when a send
    succeeded, exactly the cache-flush records of the announcement are
    stamped in the rate limiter (the PTR records it also carries are not). *)
Theorem announce_all_spec host svcs ifs st p tr :
  build host svcs ifs = Ok p →
  traces (announce_all st p) tr tt →
  ∃ ts1 ts2 cancelled,
    tr = concat ts1 ++ EvSleepOrShutdown (Duration.from_secs 1) cancelled :: concat ts2 ∧
    Forall2 (announce_round p) (ifaces st) ts1 ∧
    (if cancelled then ts2 = [] else Forall2 (announce_round p) (ifaces st) ts2) ∧
    (∀ i b, build_announce p i = Some b →
       to_vec (mkMessage (response_metadata 0) [] (announce_records p i) [] []) = Ok b) ∧
    (∀ i r, In r (unique_for_iface p i) ↔
       In r (announce_records p i) ∧ rec_cache_flush r = true).
Proof.
  intros (_ & Hp & _)%build_ok (t1 & t2 & [] & -> & H1 & H2)%traces_bind.
  apply traces_bind in H2 as (t3 & t4 & c & -> & [-> _]%traces_trigger & H2).
  apply (traces_rounds _ _ _ _ (traces_announce_iface p)) in H1 as (ts1 & -> & H1).
  assert (H2' : ∃ ts2, t4 = concat ts2 ∧
    if c then ts2 = [] else Forall2 (announce_round p) (ifaces st) ts2).
  { destruct c; [destruct H2 as [-> _]; by exists []|].
    by apply (traces_rounds _ _ _ _ (traces_announce_iface p)). }
  destruct H2' as (ts2 & -> & H2'). exists ts1, ts2, c. split_and!; try done.
  - intros i b Hb. unfold build_announce in Hb. rewrite announce_message_eq in Hb.
    simpl in Hb. destruct (announce_records p i); [done|].
    destruct (to_vec _); simpl in Hb; congruence.
  - intros i r. destruct (announce_records_unique p i Hp) as [Ha Hb].
    split; [|by intros []; auto]. intros Hr. split; [auto|by eapply unique_flush].
Qed.

(** C24. Goodbye (RFC 6762 section 10.1): the same authoritative response, whose
    answers are the withdrawn records with TTL 0, goes to every family of
    every interface twice, one second apart; nothing is sent when nothing
    was published. *)
Theorem announce_goodbye_spec st p tr :
  traces (announce_goodbye st p) tr tt →
  goodbye p = [] ∧ tr = [] ∨
  ∃ ts1 ts2, goodbye p ≠ [] ∧
    tr = concat ts1 ++ EvSleep (Duration.from_secs 1) :: concat ts2 ∧
    Forall2 (goodbye_round p) (ifaces st) ts1 ∧ Forall2 (goodbye_round p) (ifaces st) ts2 ∧
    goodbye_message p = mkMessage (response_metadata 0) [] (goodbye p) [] [] ∧
    Forall (λ r, rec_ttl r = 0) (goodbye p).
Proof.
  intros [?|(ts1 & ts2 & ? & ? & ? & ?)]%traces_announce_goodbye; [by left|right].
  exists ts1, ts2. split_and!; try done; [apply goodbye_message_eq|].
  apply Forall_forall. intros r Hr. apply list_elem_of_In, in_goodbye in Hr as (? & -> & _).
  done.
Qed.
End properties.

Module ResponderSample.
Import Sample IfaceSample ServicesSample.

(** A resolver that draws the lower bounds, sends everything and is not shut
    down. *)
Definition env : Env := mkEnv (λ _ lo _, lo) (λ _, 7) (λ _ _, Ok 1) (λ _, false).

Lemma env_fine : env_ok env.
Proof. split; simpl; [by intros n lo hi|unfold u16_MAX; lia]. Qed.

Definition cfg : Resolved := mkResolved [] true true None [] 60 5 4 None [] [] [].
Definition st : State := mkState cfg [eth0].

(** A printer learned on another interface. *)
Definition svc : Name := name "_http._tcp.local.".
Definition printer : Name := name "printer._http._tcp.local.".
Definition printer_ptr : DnsRecord := Record_from_rdata svc 4500 (RD_PTR printer).
Definition printer_srv : DnsRecord :=
  set_cache_flush true
    (Record_from_rdata printer 120 (RD_SRV (mkSRV 0 0 80 (name "printer.local.")))).
Definition learned : Cache.Inner :=
  (Cache.insert_from 0 printer_srv (Some 9)
     (Cache.insert_from 0 printer_ptr (Some 9) Cache.new).2).2.
Definition world : World := mkWorld 0 0 learned MulticastTracker.new [].

(** A query for the service type whose known answers hold our instance. *)
Definition our_ptr (ttl : Z) : list DnsRecord :=
  map (λ s, set_ttl ttl (ptr_type_to_instance s)) (services pub).
Definition query (knowns : list DnsRecord) : Message :=
  mkMessage (mkMetadata 5 MT_Query Op_Query false false)
    [mkQuery svc RT_PTR DNSClass_IN false] knowns [] [].

Definition hq : Prog unit := handle_query st (query (our_ptr 2000)) eth0 FamV4 pub.
Definition hq_trace : list Event := run_trace env hq world.

Lemma unit_traces (p : Prog unit) : traces p (run_trace env p world) tt.
Proof. pose proof (run_traces env p world env_fine) as Ht. by destruct (run env p world).1. Qed.

(** The response carries our PTR (known with too short a TTL), the learned PTR
    and the learned SRV as an additional. *)
Lemma hq_sends : existsb is_send hq_trace = true ∧ length (granted_of hq_trace) = 3%nat.
Proof. split; vm_compute; reflexivity. Qed.

Lemma apply_known_answers_spec_witness :
  apply_known_answers (our_ptr 4500) (query (our_ptr 2250)) = [] ∧
  apply_known_answers (our_ptr 4500) (query (our_ptr 2249)) = our_ptr 4500 ∧
  ∀ r, In r (our_ptr 4500) → ¬ In r (apply_known_answers (our_ptr 4500) (query (our_ptr 2250))).
Proof.
  split; [reflexivity|]. split; [reflexivity|]. intros r Hr Hin.
  apply (apply_known_answers_spec (our_ptr 4500) (query (our_ptr 2250)) r) in Hin;
    [|repeat constructor; vm_compute; congruence..].
  destruct Hin as [_ Hn]. apply Hn. destruct Hr as [<-|[]].
  eexists. split; [left; reflexivity|]. split_and!; try reflexivity.
Defined.

Definition cand : Prog (list DnsRecord) := candidate_answers st (query []) eth0 pub.
Definition cand_ans : list DnsRecord := (run env cand world).1.

Lemma candidate_answers_spec_witness :
  length cand_ans = 2%nat ∧ NoDupA same_key cand_ans ∧
  lookups_of (run_trace env cand world) = [(svc, RT_PTR, ifindex eth0)].
Proof.
  split; [vm_compute; reflexivity|].
  destruct (candidate_answers_spec host [sc_http] [eth0] pub st (query []) eth0 _ cand_ans build_eq
    (run_traces env cand world env_fine)) as (Hd & _ & _ & _ & Hl).
  split; [exact Hd|exact Hl].
Defined.

Definition adds : Prog (list DnsRecord) := cached_additionals st cand_ans eth0.

Lemma cached_additionals_spec_witness :
  length (run env adds world).1 = 1%nat ∧
  ∀ r, In r (run env adds world).1 →
    relayed eth0 (run_trace env adds world) r ∧ describes cand_ans (run env adds world).1 r.
Proof.
  split; [vm_compute; reflexivity|].
  apply (cached_additionals_spec st cand_ans eth0 (run_trace env adds world)
           (run env adds world).1).
  exact (run_traces env adds world env_fine).
Defined.

Lemma handle_query_response_witness :
  existsb is_send hq_trace = true ∧
  (Forall (λ e, is_send e = false) hq_trace ∨
   ∃ ans adds, ans ≠ [] ∧ granted_of hq_trace = ans ++ adds).
Proof.
  split; [apply hq_sends|].
  destruct (handle_query_response host [sc_http] [eth0] pub st (query (our_ptr 2000)) eth0 FamV4
    hq_trace build_eq (unit_traces hq))
    as [Hn|(pre & s & b & dst & res & an & ad & _ & _ & _ & Hne & _ & Hg & _)]; [by left|right].
  exists an, ad. split; [exact Hne|exact Hg].
Defined.

Lemma handle_query_grants_sent_witness :
  ∃ ans adds, ans ≠ [] ∧ granted_of hq_trace = ans ++ adds.
Proof.
  destruct (handle_query_grants_sent pub st (query (our_ptr 2000)) eth0 FamV4 hq_trace
    (unit_traces hq)) as (an & ad & Hne & Hg & _).
  - intros Hnil. pose proof (proj2 hq_sends) as Hl. rewrite Hnil in Hl. discriminate Hl.
  - exists an, ad. split; [exact Hne|exact Hg].
Defined.

Lemma handle_query_delay_witness :
  length (List.filter is_sleep hq_trace) = 1%nat ∧
  ∃ d, List.filter is_sleep hq_trace = [EvSleep d] ∧ Duration.from_millis 20 ≤ d.
Proof.
  assert (Hl : length (List.filter is_sleep hq_trace) = 1%nat) by (vm_compute; reflexivity).
  split; [exact Hl|].
  destruct (proj1 (handle_query_delay pub st (query (our_ptr 2000)) eth0 FamV4 hq_trace
    (unit_traces hq))) as [Hn|(d & Hd & Hr)].
  - rewrite Hn in Hl. discriminate Hl.
  - exists d. split; [exact Hd|exact (proj1 Hr)].
Defined.

Definition probe_trace : list Event := run_trace env (probe_all st pub) world.

Lemma probe_all_spec_witness :
  length (List.filter is_send probe_trace) = 6%nat ∧
  ∃ ts, probe_trace = concat ts ∧ length ts = 1%nat.
Proof.
  split; [vm_compute; reflexivity|].
  destruct (probe_all_spec st pub probe_trace (unit_traces (probe_all st pub)))
    as (ts & Ht & Hf & _).
  exists ts. split; [exact Ht|]. symmetry. exact (Forall2_length _ _ _ Hf).
Defined.

Definition announce_trace : list Event := run_trace env (announce_all st pub) world.

Lemma announce_all_spec_witness :
  length (List.filter is_send announce_trace) = 4%nat ∧
  ∃ ts1 ts2 c, announce_trace =
    concat ts1 ++ EvSleepOrShutdown (Duration.from_secs 1) c :: concat ts2.
Proof.
  split; [vm_compute; reflexivity|].
  destruct (announce_all_spec host [sc_http] [eth0] st pub announce_trace build_eq
    (unit_traces (announce_all st pub))) as (ts1 & ts2 & c & Ht & _).
  exists ts1, ts2, c. exact Ht.
Defined.

Definition goodbye_trace : list Event := run_trace env (announce_goodbye st pub) world.

Lemma announce_goodbye_spec_witness :
  length (List.filter is_send goodbye_trace) = 4%nat ∧
  (goodbye pub = [] ∧ goodbye_trace = [] ∨ Forall (λ r, rec_ttl r = 0) (goodbye pub)).
Proof.
  split; [vm_compute; reflexivity|].
  destruct (announce_goodbye_spec st pub goodbye_trace (unit_traces (announce_goodbye st pub)))
    as [?|(ts1 & ts2 & _ & _ & _ & _ & _ & Hf)]; [left; assumption|right; exact Hf].
Defined.
End ResponderSample.
