(* ===== verification/Browser.v ===== *)
(** * Browser: the periodic queries ([src/browser.rs])

    The task loops until shutdown.  [browse_rounds n] is the loop cut off after
    [n] rounds: it returns [Some d] when it is still running, with [d] the next
    delay, and [None] when the task has returned. *)

From S2P Require Import Prelude RustStd StdNet Hickory RecordKey Cache Timing Os.
From S2P Require Import Effects Iface Config State.
From stdpp Require Import strings.
Open Scope Z_scope.
Open Scope list_scope.

Definition next_backoff (cur cap : Duration) : Duration :=
  Z.min (Duration.saturating_mul cur 2) cap.

Section browser.
Context `{Hickory} {HI : HashIter}.

(** The browse targets that parse; the others are skipped. *)
Definition browse_names (browse : list string) : list Name :=
  iter_filter_map (λ s, ok (Name_from_str s)) browse.

Definition browse_query (n : Name) : Query := mkQuery n RT_PTR DNSClass_IN false.

Definition browse_message (names : list Name) : Message :=
  fold_left (λ m n, add_query (browse_query n) m) names (Message_new 0 MT_Query Op_Query).

Definition send_queries (st : State) (names : list Name) : Prog unit :=
  match to_vec (browse_message names) with
  | Err _ => Ret tt
  | Ok b => for_each (ifaces st) (λ i, _ <- send_mdns_all i b ;; Ret tt)
  end.

(** One round of the loop: [None] when it returns. *)
Definition browse_round (st : State) (names : list Name) (cap delay : Duration)
    : Prog (option Duration) :=
  cancelled <- trigger AIsCancelled ;;
  if cancelled : bool then Ret None
  else
    _ <- send_queries st names ;;
    stop <- trigger (ASleepOrShutdown delay) ;;
    if stop : bool then Ret None else Ret (Some (next_backoff delay cap)).

Fixpoint browse_rounds (n : nat) (st : State) (names : list Name) (cap delay : Duration)
    : Prog (option Duration) :=
  match n with
  | O => Ret (Some delay)
  | S n =>
      r <- browse_round st names cap delay ;;
      match r with
      | None => Ret None
      | Some delay => browse_rounds n st names cap delay
      end
  end.

Definition browse_cap (interval_secs : Z) : Duration :=
  Duration.from_secs (Z.max interval_secs 1).

(** [run] up to its loop: [Some] of the first delay when the loop is entered. *)
Definition browse_start (browse : list string) : Prog (option Duration) :=
  match browse with
  | [] => Ret None
  | _ =>
      match browse_names browse with
      | [] => Ret None
      | _ =>
          draw <- trigger ARng ;;
          stop <- trigger (ASleepOrShutdown (first_query_jitter draw)) ;;
          if stop : bool then Ret None else Ret (Some (Duration.from_secs 1))
      end
  end.

Definition run_browser (n : nat) (st : State) (browse : list string) (interval_secs : Z)
    : Prog (option Duration) :=
  r <- browse_start browse ;;
  match r with
  | None => Ret None
  | Some delay =>
      browse_rounds n st (browse_names browse) (browse_cap interval_secs) delay
  end.
End browser.

(** ** Lemmas *)

(** The delay before round [k + 1]. *)
Definition backoff_at (cap : Duration) (k : nat) : Duration :=
  Z.min (Duration.from_secs (2 ^ Z.of_nat k)) cap.

Lemma backoff_at_0 cap : Duration.from_secs 1 ≤ cap → backoff_at cap 0 = Duration.from_secs 1.
Proof. intros Hc. unfold backoff_at. change (2 ^ Z.of_nat 0) with 1. lia. Qed.

Lemma next_backoff_at cap k :
  0 ≤ cap ≤ Duration_MAX → next_backoff (backoff_at cap k) cap = backoff_at cap (S k).
Proof.
  intros Hcap. unfold next_backoff, backoff_at, Duration.saturating_mul, Duration.from_secs,
    NANOS_PER_SEC. rewrite Nat2Z.inj_succ, Z.pow_succ_r by lia.
  pose proof (Z.pow_pos_nonneg 2 (Z.of_nat k)). lia.
Qed.

Lemma browse_cap_bounds secs :
  secs ≤ u64_MAX → Duration.from_secs 1 ≤ browse_cap secs ≤ Duration_MAX.
Proof.
  unfold browse_cap, Duration.from_secs, Duration_MAX, NANOS_PER_SEC, u64_MAX. lia.
Qed.

Section browser_lemmas.
Context `{Hickory} {HI : HashIter}.

Lemma browse_names_le browse : (length (browse_names browse) ≤ length browse)%nat.
Proof. unfold browse_names. induction browse as [|b l IH]; simpl; [lia|]. case_match; simpl; lia. Qed.

(** The delays of the interruptible sleeps, in order. *)
Definition delays (tr : list Event) : list Duration :=
  iter_filter_map (λ e, match e with EvSleepOrShutdown d _ => Some d | _ => None end) tr.

Lemma delays_app t1 t2 : delays (t1 ++ t2) = delays t1 ++ delays t2.
Proof.
  unfold delays. induction t1 as [|e t1 IH]; simpl; [done|]. case_match; simpl; by rewrite IH.
Qed.

(** The event that told the task to stop. *)
Definition stops (e : Event) : bool :=
  match e with EvSleepOrShutdown _ true | EvIsCancelled true => true | _ => false end.

Definition quiet (e : Event) : Prop := stops e = false.

(** One query message to every family of every interface. *)
Definition query_sweep (st : State) (names : list Name) (t : list Event) : Prop :=
  match to_vec (mkMessage (mkMetadata 0 MT_Query Op_Query false false)
                  (map browse_query names) [] [] []) with
  | Err _ => t = []
  | Ok b => ∃ ts, t = concat ts ∧ Forall2 (λ i t, Forall2 (sends_to i b) (families i) t) (ifaces st) ts
  end.

Lemma browse_message_eq names :
  browse_message names =
  mkMessage (mkMetadata 0 MT_Query Op_Query false false) (map browse_query names) [] [] [].
Proof.
  unfold browse_message. rewrite Message_new_spec.
  change (map browse_query names) with ([] ++ map browse_query names).
  generalize (@nil Query) as qs. induction names as [|n names IH]; intros qs; simpl.
  - by rewrite app_nil_r.
  - unfold add_query at 2. simpl. rewrite IH. by rewrite <- app_assoc.
Qed.

Lemma traces_send_queries st names tr :
  traces (send_queries st names) tr tt → query_sweep st names tr.
Proof.
  unfold send_queries, query_sweep. rewrite browse_message_eq.
  destruct (to_vec _) as [b|]; [|by intros [-> _]].
  intros (ts & -> & Hf)%traces_for_each. exists ts. split; [done|].
  eapply Forall2_impl; [exact Hf|].
  intros i t (t1 & t2 & r & -> & H1 & [-> _])%traces_bind. rewrite app_nil_r.
  by apply traces_send_mdns_all in H1 as [? _].
Qed.

Lemma sweep_sends st names t :
  query_sweep st names t → Forall (λ e, is_send e = true) t.
Proof.
  unfold query_sweep. destruct (to_vec _) as [b|]; [|by intros ->].
  intros (ts & -> & Hf). apply Forall_concat. induction Hf as [|i t il ts Ht _ IH]; constructor;
    [|done]. clear IH. induction Ht as [|f e fs t He _ IH]; constructor; [|done].
  by destruct He as (? & ? & ? & _ & ->).
Qed.

Lemma sends_quiet t :
  Forall (λ e, is_send e = true) t → Forall quiet t ∧ delays t = [].
Proof.
  induction 1 as [|e t He _ [IH1 IH2]]; [done|]. destruct e; try done.
  split; [by constructor|done].
Qed.

(** The trace of one round: a test of the token, a sweep, a sleep. *)
Lemma traces_browse_round st names cap d tr r :
  traces (browse_round st names cap d) tr r →
  (tr = [EvIsCancelled true] ∧ r = None) ∨
  ∃ t stop, query_sweep st names t ∧
    tr = EvIsCancelled false :: t ++ [EvSleepOrShutdown d stop] ∧
    r = if stop then None else Some (next_backoff d cap).
Proof.
  unfold browse_round. intros (t1 & t2 & c & -> & [-> _]%traces_trigger & Ht)%traces_bind.
  destruct c; [left; by destruct Ht as [-> ->]|right].
  apply traces_bind in Ht as (t3 & t4 & [] & -> & Hs%traces_send_queries & Ht).
  apply traces_bind in Ht as (t5 & t6 & stop & -> & [-> _]%traces_trigger & Ht).
  exists t3, stop. split; [done|]. destruct stop; by destruct Ht as [-> ->].
Qed.

Lemma traces_run_browser n st browse secs tr r :
  traces (run_browser n st browse secs) tr r →
  (browse_names browse = [] ∧ tr = [] ∧ r = None) ∨
  ∃ draw stop rest, rng_ok draw ∧ browse_names browse ≠ [] ∧
    tr = EvRng draw :: EvSleepOrShutdown (first_query_jitter draw) stop :: rest ∧
    if stop then rest = [] ∧ r = None
    else traces (browse_rounds n st (browse_names browse) (browse_cap secs)
                   (Duration.from_secs 1)) rest r.
Proof.
  unfold run_browser, browse_start. intros (t1 & t2 & s & -> & Hs & Ht)%traces_bind.
  destruct browse as [|b0 bs]; [destruct Hs as [-> ->], Ht as [-> ->]; by left|].
  destruct (browse_names (b0 :: bs)) as [|n0 ns]; [destruct Hs as [-> ->], Ht as [-> ->]; by left|].
  right. apply traces_bind in Hs as (t3 & t4 & draw & -> & [-> Hrng]%traces_trigger & Hs).
  apply traces_bind in Hs as (t5 & t6 & stop & -> & [-> _]%traces_trigger & Hs).
  exists draw, stop. destruct stop; destruct Hs as [-> ->].
  - destruct Ht as [-> ->]. by exists [].
  - by exists t2.
Qed.

(** The rounds of the loop: the events [rounds] of the completed ones, then
    possibly the one that found the token cancelled. *)
Definition full_round (st : State) (names : list Name) (d : Duration) (stop : bool)
    (t : list Event) : Prop :=
  ∃ s, query_sweep st names s ∧ t = EvIsCancelled false :: s ++ [EvSleepOrShutdown d stop].

Inductive browsed (st : State) (names : list Name) (cap : Duration)
    : nat → nat → list Event → bool → Prop :=
| browsed_more k : browsed st names cap k 0 [] true
| browsed_found k n : browsed st names cap k (S n) [EvIsCancelled true] false
| browsed_woken k n t :
    full_round st names (backoff_at cap k) true t → browsed st names cap k (S n) t false
| browsed_round k n t tr b :
    full_round st names (backoff_at cap k) false t → browsed st names cap (S k) n tr b →
    browsed st names cap k (S n) (t ++ tr) b.

Lemma traces_browse_rounds st names cap n k tr r :
  0 ≤ cap ≤ Duration_MAX →
  traces (browse_rounds n st names cap (backoff_at cap k)) tr r →
  browsed st names cap k n tr (bool_decide (r ≠ None)) ∧ ∀ d, r = Some d → d = backoff_at cap (k + n)%nat.
Proof.
  intros Hcap. revert k tr. induction n as [|n IH]; intros k tr; cbn [browse_rounds].
  - intros [-> ->]. rewrite Nat.add_0_r, bool_decide_eq_true_2 by done.
    split; [constructor|by intros d [= ->]].
  - intros (t1 & t2 & r1 & -> & H1 & H2)%traces_bind.
    apply traces_browse_round in H1 as [[-> ->]|(t & [] & Hs & -> & ->)].
    + destruct H2 as [-> ->]. split; [constructor|done].
    + destruct H2 as [-> ->]. rewrite app_nil_r. split; [|done]. constructor. by exists t.
    + rewrite next_backoff_at in H2 by done. apply IH in H2 as [Hb Hd]. split.
      * constructor; [by exists t|done].
      * intros d Hr. rewrite (Hd d Hr). f_equal. lia.
Qed.

Lemma full_round_delays st names d stop t :
  full_round st names d stop t →
  delays t = [d] ∧ ∃ pre, t = pre ++ [EvSleepOrShutdown d stop] ∧ Forall quiet pre.
Proof.
  intros (s & Hs%sweep_sends & ->). apply sends_quiet in Hs as [Hq Hd]. split.
  - change (delays (s ++ [EvSleepOrShutdown d stop]) = [d]). by rewrite delays_app, Hd.
  - exists (EvIsCancelled false :: s). split; [done|]. by constructor.
Qed.

Lemma browsed_delays st names cap k n tr b :
  browsed st names cap k n tr b →
  ∃ m, (m ≤ n)%nat ∧ (b = true → m = n) ∧ delays tr = map (backoff_at cap) (seq k m).
Proof.
  induction 1 as [k|k n|k n t Ht|k n t tr b Ht _ (m & Hm & Hb & Hd)].
  - by exists 0%nat.
  - exists 0%nat. split; [lia|done].
  - exists 1%nat. split; [lia|]. split; [done|]. by apply full_round_delays in Ht as [-> _].
  - exists (S m). split; [lia|]. split; [intros; f_equal; auto|].
    rewrite delays_app, Hd. apply full_round_delays in Ht as [-> _]. done.
Qed.

Lemma browsed_stops st names cap k n tr b :
  browsed st names cap k n tr b →
  if b then Forall quiet tr else ∃ pre e, tr = pre ++ [e] ∧ Forall quiet pre ∧ stops e = true.
Proof.
  induction 1 as [k|k n|k n t Ht|k n t tr b Ht _ IH]; [done|by eexists [], _|..].
  - apply full_round_delays in Ht as [_ (pre & -> & Hp)]. eauto.
  - apply full_round_delays in Ht as [_ (pre & -> & Hp)].
    assert (Hq : Forall quiet (pre ++ [EvSleepOrShutdown (backoff_at cap k) false]))
      by (apply Forall_app; split; [done|by repeat constructor]).
    destruct b; [by apply Forall_app|]. destruct IH as (pre' & e & -> & Hp' & He).
    exists ((pre ++ [EvSleepOrShutdown (backoff_at cap k) false]) ++ pre'), e.
    split_and!; [by rewrite <- !app_assoc|by apply Forall_app|done].
Qed.
End browser_lemmas.

(** ** Properties *)

Section properties.
Context `{Hickory} {HI : HashIter}.

(** C34. The query schedule of the browser (RFC 6762 section 5.2): with at
    least one valid target, the first query waits 20 to 120 ms, and the pause
    after query number [k + 1] is [2^k] seconds capped at the configured
    interval (at least one second), for every 64-bit interval, without
    overflow; every round sends the PTR queries for all targets to every
    family of every interface.  Without valid targets nothing happens. *)
Theorem browser_schedule n st browse secs tr r :
  0 ≤ secs ≤ u64_MAX →
  traces (run_browser n st browse secs) tr r →
  (browse_names browse = [] ∧ tr = [] ∧ r = None) ∨
  ∃ draw d rest m stop,
    tr = EvRng draw :: EvSleepOrShutdown d stop :: rest ∧
    Duration.from_millis 20 ≤ d ≤ Duration.from_millis 120 ∧ (m ≤ n)%nat ∧
    delays rest =
      map (λ k, Z.min (Duration.from_secs (2 ^ Z.of_nat k)) (Duration.from_secs (Z.max secs 1)))
        (seq 0 m) ∧
    (stop = true → rest = []) ∧
    (stop = false →
       browsed st (browse_names browse) (browse_cap secs) 0 n rest (bool_decide (r ≠ None))) ∧
    (r ≠ None → m = n ∧ r = Some (backoff_at (browse_cap secs) n)).
Proof.
  intros Hsecs. pose proof (browse_cap_bounds secs ltac:(lia)) as [Hlo Hhi].
  intros [?|(draw & stop & rest & Hrng & _ & -> & Ht)]%traces_run_browser; [by left|right].
  pose proof (response_delay_range draw Shared Hrng) as Hd.
  exists draw, (first_query_jitter draw), rest. destruct stop.
  - destruct Ht as [-> ->]. exists 0%nat, true. split_and!; try done; [apply Hd|apply Hd|lia].
  - rewrite <- (backoff_at_0 (browse_cap secs)) in Ht by done.
    apply traces_browse_rounds in Ht as [Hb Hr];
      [|unfold Duration.from_secs, NANOS_PER_SEC in Hlo; lia].
    destruct (browsed_delays _ _ _ _ _ _ _ Hb) as (m & Hm & Hmn & Hdel).
    exists m, false. split_and!; try done; [apply Hd|apply Hd|].
    intros Hne. split; [apply Hmn; by apply bool_decide_eq_true|].
    destruct r as [d|]; [|done]. by rewrite (Hr d).
Qed.

End properties.

Module BrowserSample.
Import Sample IfaceSample.
Definition env (stop_at : nat) : Env :=
  mkEnv (λ _ lo _, lo) (λ _, 7) (λ _ _, Ok 1) (λ n, (stop_at <=? n)%nat).
Definition world : World := mkWorld 0 0 Cache.new MulticastTracker.new [].
Definition st : State := mkState (mkResolved [] true true None [] 3 5 4 None [] [] []) [eth0].
Definition targets : list string := ["bad..name."%string; "_http._tcp.local."%string].

Definition task (n : nat) : Prog (option Duration) := run_browser n st targets 3.

Lemma browser_env_ok k : env_ok (env k).
Proof. split; simpl; [by intros n lo hi|unfold u16_MAX; lia]. Qed.

Lemma targets_ok : browse_names targets ≠ [].
Proof.
  assert (Hl : length (browse_names targets) = 1%nat) by (vm_compute; reflexivity).
  intros Hn. by rewrite Hn in Hl.
Qed.

(** Four rounds: 1 s, 2 s, then the cap of 3 s. *)
Example four_rounds :
  map (λ d, d / NANOS_PER_MILLI) (delays (run_trace (env 1000) (task 4) world))
  = [20; 1000; 2000; 3000; 3000].
Proof. vm_compute. reflexivity. Qed.

Lemma browser_schedule_witness :
  browse_names targets ≠ [] ∧
  ∃ draw d rest stop, run_trace (env 1000) (task 4) world =
    EvRng draw :: EvSleepOrShutdown d stop :: rest ∧ Duration.from_millis 20 ≤ d.
Proof.
  split; [exact targets_ok|].
  destruct (browser_schedule 4 st targets 3 _ _ ltac:(unfold u64_MAX; lia)
    (run_traces (env 1000) (task 4) world (browser_env_ok 1000)))
    as [[Hn' _]|(draw & d & rest & m & stop & Ht & Hd & _)]; [by destruct targets_ok|].
  exists draw, d, rest, stop. split; [exact Ht|exact (proj1 Hd)].
Defined.

End BrowserSample.
