(* ===== verification/Engine.v ===== *)
(** * Engine: handling one datagram, sweeping, starting up ([src/engine.rs],
    [src/exit_code.rs])

    The per-datagram handler, with the log lines of the message it received, and
    the rounds of the periodic sweep are programs of [Effects].  An index out of
    bounds panics the task; the handlers return [Panicked] there, and
    [handle_datagram_effects] shows that they never do.
    The tasks running together are in [System]. *)

From S2P Require Import Prelude RustStd StdNet Hickory RecordKey Cache Timing Os.
From S2P Require Import Effects Iface Config Services State Repeater Responder.
From stdpp Require Import strings.
Open Scope Z_scope.
Open Scope list_scope.

Module exit_code.
Definition OK : Z := 0.
Definition USAGE : Z := 2.
Definition CONFIG : Z := 10.
Definition CONFIG_VALIDATION : Z := 11.
Definition RUNTIME : Z := 14.
Definition INTERFACE_SETUP : Z := 20.
Definition SERVICE_RECORDS : Z := 22.
End exit_code.

Definition MAX_INFLIGHT_HANDLERS : nat := 256.

Definition is_mdns_source (source : SocketAddr) : bool := SocketAddr.port source =? MDNS_PORT.

(** The counters of [handle_response_msg]. *)
Record Counters := mkCounters {
  inserted : nat;
  refreshed : nat;
  goodbyes : nat;
  rejected : nat;
}.

Definition count_outcome (c : Counters) (o : InsertOutcome) : Counters :=
  match o with
  | Inserted => mkCounters (S (inserted c)) (refreshed c) (goodbyes c) (rejected c)
  | Refreshed => mkCounters (inserted c) (S (refreshed c)) (goodbyes c) (rejected c)
  | GoodbyeRemoved => mkCounters (inserted c) (refreshed c) (S (goodbyes c)) (rejected c)
  | Rejected => mkCounters (inserted c) (refreshed c) (goodbyes c) (S (rejected c))
  | GoodbyeNoOp => c
  end.

Section engine.
Context `{Hickory} {HI : HashIter}.

(** ** The log lines of a received message

    A line is given with its level; the subscriber drops the lines of a level
    that is not enabled, and the [enabled!] test only saves building them.
    Indexing the interface panics when the index is out of bounds. *)

Inductive Level := TRACE | DEBUG.

Inductive LogLine :=
| LogQuestion (iface : string) (src : SocketAddr) (qname : Name) (qtype : RecordType)
    (qclass : DNSClass) (tc : bool)
| LogQuery (iface : string) (src : SocketAddr) (family : IpFamily)
    (bytes questions known_answers authorities : nat)
| LogRecord (iface : string) (src : SocketAddr) (rname : Name) (rtype : RecordType)
    (ttl : Z) (cache_flush : bool)
| LogResponse (iface : string) (src : SocketAddr) (family : IpFamily)
    (bytes answers authorities additionals : nat).

(** [recv_idx.map(|i| state.ifaces[i].name.as_str()).unwrap_or("?")]; [None]
    when the index panics. *)
Definition iface_label (st : State) (recv_idx : option nat) : option string :=
  match recv_idx with
  | None => Some "?"%string
  | Some idx => if_name <$> ifaces st !! idx
  end.

Definition log_query (st : State) (msg : Message) (pkt : Datagram) (recv_idx : option nat)
    : option (list (Level * LogLine)) :=
  iface ← iface_label st recv_idx;
  Some (map (λ q, (TRACE, LogQuestion iface (source pkt) (q_name q) (q_type q) (q_class q)
                            (md_truncation (metadata msg)))) (queries msg)
        ++ [(DEBUG, LogQuery iface (source pkt) (family pkt) (length (data pkt))
                      (length (queries msg)) (length (answers msg))
                      (length (authorities msg)))]).

Definition log_response (st : State) (msg : Message) (pkt : Datagram) (recv_idx : option nat)
    : option (list (Level * LogLine)) :=
  iface ← iface_label st recv_idx;
  Some (map (λ r, (TRACE, LogRecord iface (source pkt) (rec_name r) (record_type r) (rec_ttl r)
                            (rec_cache_flush r)))
          (answers msg ++ authorities msg ++ additionals msg)
        ++ [(DEBUG, LogResponse iface (source pkt) (family pkt) (length (data pkt))
                      (length (answers msg)) (length (authorities msg))
                      (length (additionals msg)))]).

(** ** Handling a datagram *)

Definition handle_query_msg (st : State) (p : Published) (msg : Message)
    (recv_idx : option nat) (fam : IpFamily) : Prog Exit :=
  match recv_idx with
  | Some idx =>
      match ifaces st !! idx with
      | Some arrival => _ <- handle_query st msg arrival fam p ;; Ret Completed
      | None => Ret Panicked
      end
  | None => Ret Completed
  end.

(** The loop over the records. *)
Fixpoint insert_records (source_ifindex : option Z) (rs : list DnsRecord) (c : Counters)
    : Prog Counters :=
  match rs with
  | [] => Ret c
  | r :: rs =>
      o <- trigger (AInsert r source_ifindex) ;;
      insert_records source_ifindex rs (count_outcome c o)
  end.

(** [None] when the index panics. *)
Definition handle_response_msg (st : State) (msg : Message) (recv_idx : option nat)
    : Prog (option Counters) :=
  let go source_ifindex :=
    c <- insert_records source_ifindex (answers msg ++ authorities msg ++ additionals msg)
           (mkCounters 0 0 0 0) ;;
    Ret (Some c) in
  match recv_idx with
  | None => go None
  | Some idx =>
      match ifaces st !! idx with
      | Some i => go (Some (ifindex i))
      | None => Ret None
      end
  end.

(** The [match] on the decoded message. *)
Definition dispatch (st : State) (p : Published) (pkt : Datagram) (recv_idx : option nat)
    : Prog Exit :=
  match from_vec (data pkt) with
  | Ok msg =>
      if md_message_type (metadata msg) ==? MT_Query then
        match log_query st msg pkt recv_idx with
        | None => Ret Panicked
        | Some _ => handle_query_msg st p msg recv_idx (family pkt)
        end
      else
        match log_response st msg pkt recv_idx with
        | None => Ret Panicked
        | Some _ =>
            c <- handle_response_msg st msg recv_idx ;;
            Ret (match c with Some _ => Completed | None => Panicked end)
        end
  | Err _ => Ret Completed
  end.

Definition handle_datagram (st : State) (p : Published) (pkt : Datagram) : Prog Exit :=
  let from := SocketAddr.ip (source pkt) in
  if negb (is_mdns_source (source pkt)) then Ret Completed
  else if existsb (λ i, has_addr i from) (ifaces st) then Ret Completed
  else if negb (allow_source (config st) from) then Ret Completed
  else
    let recv_idx := identify_recv_iface pkt (ifaces st) in
    if bool_decide (recv_idx = None) && negb (cfg_repeat (config st)) then Ret Completed
    else
      and_then (dispatch st p pkt recv_idx)
        (if cfg_repeat (config st) then forward st pkt recv_idx else Ret Completed).

(** The body of the loop of [cache_evictor], after the tick. *)
Definition sweep : Prog nat :=
  now <- trigger ANow ;;
  n <- trigger (AEvict now) ;;
  now <- trigger ANow ;;
  _ <- trigger (APrune now MIN_MULTICAST_INTERVAL) ;;
  Ret n.

(** [interval(Duration::from_secs(cache_tick_secs.max(1)))]: its period. *)
Definition tick_period (cfg : Resolved) : Duration :=
  Duration.from_secs (Z.max (cfg_cache_tick_secs cfg) 1).

(** One round of that loop: whether it goes on.  The task waits for the token or
    the timer and sweeps unless it was the token. *)
Definition evictor_round (cfg : Resolved) : Prog bool :=
  stop <- trigger (ATick (tick_period cfg)) ;;
  if stop : bool then Ret false
  else
    _ <- sweep ;;
    Ret true.

(** Whether the signal watcher reaches its [select!]: the registrations of
    SIGINT and then of SIGTERM must succeed, else the task returns. *)
Definition watches_signals (interrupt terminate : result IoError unit) : bool :=
  match interrupt with
  | Err _ => false
  | Ok _ => match terminate with Err _ => false | Ok _ => true end
  end.

(** The time the background tasks are given to return at the end of [run]. *)
Definition DRAIN_TIMEOUT : Duration := Duration.from_millis 200.

(** [run] up to the construction of the shared state: an exit code, or what
    the tasks share. *)
Definition startup `{Os} (gethostname : option string) (cfg : Resolved)
    : result Z (RecvSocket * State * Published * Cache.Inner) :=
  match setup (cfg_interfaces cfg) with
  | Err _ => Err exit_code.INTERFACE_SETUP
  | Ok (recv_sock, ifs) =>
      let host := resolve_hostname gethostname (cfg_hostname cfg) in
      match build host (cfg_services cfg) ifs with
      | Err _ => Err exit_code.SERVICE_RECORDS
      | Ok published =>
          Ok (recv_sock, mkState cfg ifs, published,
              Cache.with_capacity_and_max_ttl (cfg_max_cache_entries cfg)
                (cfg_cache_max_ttl_secs cfg))
      end
  end.
End engine.

(** ** Lemmas *)

Section engine_lemmas.
Context `{Hickory} {HI : HashIter}.

(** The records [rs] were inserted, in order, as learned from [src]. *)
Definition inserts (src : option Z) (rs : list DnsRecord) (os : list InsertOutcome)
    (tr : list Event) : Prop :=
  tr = zip_with (λ r o, EvInsert r src o) rs os ∧ length os = length rs.

Lemma traces_insert_records src rs c tr c' :
  traces (insert_records src rs c) tr c' →
  ∃ os, inserts src rs os tr ∧ c' = fold_left count_outcome os c.
Proof.
  revert c tr; induction rs as [|r rs IH]; intros c tr; cbn [insert_records].
  - intros [-> ->]. by exists [].
  - intros (t1 & t2 & o & -> & [-> _]%traces_trigger & Ht)%traces_bind.
    apply IH in Ht as (os & [-> Hl] & ->). exists (o :: os).
    split; [|done]. split; simpl; [done|lia].
Qed.

(** The interface a datagram came in on. *)
Definition ingress (st : State) (pkt : Datagram) : option Iface :=
  identify_recv_iface pkt (ifaces st) ≫= λ idx, ifaces st !! idx.

Lemma ingress_cases st pkt :
  match identify_recv_iface pkt (ifaces st) with
  | Some idx => ∃ i, ifaces st !! idx = Some i ∧ ingress st pkt = Some i
  | None => ingress st pkt = None
  end.
Proof.
  unfold ingress. destruct (identify_recv_iface pkt (ifaces st)) as [idx|] eqn:Hi; [|done].
  apply identify_recv_iface_lt in Hi. destruct (lookup_lt_is_Some_2 _ _ Hi) as [i Hl].
  exists i. by rewrite Hl.
Qed.

(** The index of the ingress is in bounds, so logging it does not panic. *)
Lemma iface_label_ingress st pkt :
  iface_label st (identify_recv_iface pkt (ifaces st))
  = Some (match ingress st pkt with Some i => if_name i | None => "?"%string end).
Proof.
  unfold iface_label. pose proof (ingress_cases st pkt) as Hc.
  destruct (identify_recv_iface pkt (ifaces st)) as [idx|]; [|by rewrite Hc].
  destruct Hc as (i & Hi & ->). by rewrite Hi.
Qed.

Lemma traces_handle_response_msg st msg pkt tr r :
  traces (handle_response_msg st msg (identify_recv_iface pkt (ifaces st))) tr r →
  ∃ os, r = Some (fold_left count_outcome os (mkCounters 0 0 0 0)) ∧
    inserts (ifindex <$> ingress st pkt) (all_sections msg) os tr.
Proof.
  unfold handle_response_msg. pose proof (ingress_cases st pkt) as Hc.
  destruct (identify_recv_iface pkt (ifaces st)) as [idx|];
    [destruct Hc as (i & Hi & ->); rewrite Hi|rewrite Hc];
    intros (t1 & t2 & c & -> & Ht & [-> ->])%traces_bind; rewrite app_nil_r;
    apply traces_insert_records in Ht as (os & ? & ->); eauto.
Qed.

(** What handling the decoded message does. *)
Definition message_effects (st : State) (p : Published) (pkt : Datagram) (tr : list Event)
    : Prop :=
  match from_vec (data pkt) with
  | Err _ => tr = []
  | Ok msg =>
      match md_message_type (metadata msg), ingress st pkt with
      | MT_Query, Some i => traces (handle_query st msg i (family pkt) p) tr tt
      | MT_Query, None => tr = []
      | MT_Response, i => ∃ os, inserts (ifindex <$> i) (all_sections msg) os tr
      end
  end.

Lemma traces_dispatch st p pkt tr e :
  traces (dispatch st p pkt (identify_recv_iface pkt (ifaces st))) tr e →
  e = Completed ∧ message_effects st p pkt tr.
Proof.
  unfold dispatch, message_effects. destruct (from_vec (data pkt)) as [msg|];
    [|by intros [-> ->]].
  destruct (md_message_type (metadata msg)).
  - rewrite bool_decide_eq_true_2 by done.
    unfold log_query, handle_query_msg. rewrite iface_label_ingress. cbn [mbind option_bind].
    pose proof (ingress_cases st pkt) as Hc.
    destruct (identify_recv_iface pkt (ifaces st)) as [idx|].
    + destruct Hc as (i & Hi & ->). rewrite Hi.
      intros (t1 & t2 & [] & -> & Ht & [-> ->])%traces_bind. by rewrite app_nil_r.
    + rewrite Hc. by intros [-> ->].
  - rewrite bool_decide_eq_false_2 by done.
    unfold log_response. rewrite iface_label_ingress. cbn [mbind option_bind].
    intros (t1 & t2 & c & -> & Ht & [-> ->])%traces_bind. rewrite app_nil_r.
    apply traces_handle_response_msg in Ht as (os & -> & Hi). eauto.
Qed.

(** The checks at the head of [handle_datagram]. *)
Definition accepted (st : State) (pkt : Datagram) : Prop :=
  SocketAddr.port (source pkt) = MDNS_PORT ∧
  (∀ i, In i (ifaces st) → has_addr i (SocketAddr.ip (source pkt)) = false) ∧
  allow_source (config st) (SocketAddr.ip (source pkt)) = true ∧
  (is_Some (ingress st pkt) ∨ cfg_repeat (config st) = true).

(** The checks of [handle_datagram] decide [accepted]. *)
Lemma handle_datagram_cases st p pkt :
  ¬ accepted st pkt ∧ handle_datagram st p pkt = Ret Completed ∨
  accepted st pkt ∧
  handle_datagram st p pkt =
    and_then (dispatch st p pkt (identify_recv_iface pkt (ifaces st)))
      (if cfg_repeat (config st)
       then forward st pkt (identify_recv_iface pkt (ifaces st)) else Ret Completed).
Proof.
  unfold handle_datagram, accepted. destruct (is_mdns_source (source pkt)) eqn:Hport;
    cbn [negb]; unfold is_mdns_source in Hport;
    [apply Z.eqb_eq in Hport|apply Z.eqb_neq in Hport; left; naive_solver].
  destruct (existsb _ (ifaces st)) eqn:Hself.
  { apply existsb_exists in Hself as (i & Hi & Ha). left.
    split; [|done]. intros (_ & Hn & _). by rewrite (Hn i Hi) in Ha. }
  rewrite existsb_false in Hself.
  destruct (allow_source _ _) eqn:Hallow; cbn [negb];
    [|left; split; [|done]; by intros (_ & _ & ? & _)].
  pose proof (ingress_cases st pkt) as Hc.
  destruct (bool_decide _ && _) eqn:Hin; [left|right]; (split; [|done]).
  { bool_to_prop. rewrite H0 in Hc. rewrite Hc. intros (_ & _ & _ & [[? ?]|?]); congruence. }
  split_and!; try done.
  apply andb_false_iff in Hin as [Hin|Hin]; bool_to_prop; [left|by right].
  destruct (identify_recv_iface pkt (ifaces st)); [|done].
  destruct Hc as (i & _ & ->). eauto.
Qed.

Lemma traces_handle_datagram st p pkt tr e :
  traces (handle_datagram st p pkt) tr e →
  e = Completed ∧
  (¬ accepted st pkt ∧ tr = [] ∨
   accepted st pkt ∧ ∃ t1 t2, tr = t1 ++ t2 ∧ message_effects st p pkt t1 ∧
     if cfg_repeat (config st)
     then traces (forward st pkt (identify_recv_iface pkt (ifaces st))) t2 Completed
     else t2 = []).
Proof.
  destruct (handle_datagram_cases st p pkt) as [[Hn ->]|[Hacc ->]]; [intros [-> ->]; auto|].
  intros (t1 & t2 & e1 & -> & [-> Hm]%traces_dispatch & Ht)%traces_bind.
  destruct (cfg_repeat (config st)).
  - destruct (traces_forward _ _ _ _ _ (λ i, identify_recv_iface_lt pkt (ifaces st) i) Ht)
      as [-> _].
    split; [done|]. right. split; [done|]. by exists t1, t2.
  - destruct Ht as [-> ->]. split; [done|]. right. split; [done|]. by exists t1, [].
Qed.

Lemma traces_sweep tr n :
  traces sweep tr n →
  ∃ t1 t2, tr = [EvNow t1; EvEvict t1 n; EvNow t2; EvPrune t2 MIN_MULTICAST_INTERVAL].
Proof.
  intros (t1 & ? & -> & _ & n' & ? & -> & _ & t2 & ? & -> & _ & [] & ? & -> & _ & -> & ->).
  by exists t1, t2.
Qed.
End engine_lemmas.

(** ** Properties *)

Section properties.
Context `{Hickory} {HI : HashIter}.

(** C5. The gate of the daemon: a datagram has an effect of any kind (a cache
    update, a grant, a datagram sent) only when its source port is 5353, its
    source is none of our own addresses, the source filter allows it, and
    its ingress interface is known or repeating is on. *)
Theorem handle_datagram_gate st p pkt tr e :
  traces (handle_datagram st p pkt) tr e → tr ≠ [] →
  SocketAddr.port (source pkt) = 5353 ∧
  (∀ i, In i (ifaces st) → has_addr i (SocketAddr.ip (source pkt)) = false) ∧
  allow_source (config st) (SocketAddr.ip (source pkt)) = true ∧
  (is_Some (ingress st pkt) ∨ cfg_repeat (config st) = true).
Proof. intros [_ [[_ ?]|[Ha _]]]%traces_handle_datagram; done. Qed.

(** C14. What a datagram causes, in order.  A datagram that does not pass the
    gate causes nothing.  For an accepted one, a query with a known ingress is
    answered there; a response has all records of its three sections inserted into
    the cache, in order, as learned on the ingress interface; anything else is not
    interpreted.  Then, if repeating is on, the datagram is forwarded away from its
    ingress.  The handler never panics on an interface index. *)
Theorem handle_datagram_effects st p pkt tr e :
  traces (handle_datagram st p pkt) tr e →
  let gate :=
    SocketAddr.port (source pkt) = 5353 ∧
    (∀ i, In i (ifaces st) → has_addr i (SocketAddr.ip (source pkt)) = false) ∧
    allow_source (config st) (SocketAddr.ip (source pkt)) = true ∧
    (is_Some (ingress st pkt) ∨ cfg_repeat (config st) = true) in
  e = Completed ∧
  (¬ gate ∧ tr = [] ∨
   gate ∧ ∃ t1 t2, tr = t1 ++ t2 ∧
     match from_vec (data pkt) with
     | Err _ => t1 = []
     | Ok msg =>
         match md_message_type (metadata msg), ingress st pkt with
         | MT_Query, Some i => traces (handle_query st msg i (family pkt) p) t1 tt
         | MT_Query, None => t1 = []
         | MT_Response, i =>
             ∃ os, length os = length (all_sections msg) ∧
               t1 = zip_with (λ r o, EvInsert r (ifindex <$> i) o) (all_sections msg) os
         end
     end ∧
     (if cfg_repeat (config st)
      then traces (forward st pkt (identify_recv_iface pkt (ifaces st))) t2 Completed
      else t2 = [])).
Proof.
  intros [-> [?|(Hacc & t1 & t2 & -> & Hm & Hf)]]%traces_handle_datagram; (split; [done|]);
    [by left|right].
  split; [exact Hacc|]. exists t1, t2. split; [done|]. split; [|done].
  unfold message_effects in Hm. destruct (from_vec (data pkt)) as [msg|]; [|done].
  destruct (md_message_type (metadata msg)); [done|]. destruct Hm as (os & -> & Hl). eauto.
Qed.

(** Logging a received message cannot panic, and costs one line at the level
    [DEBUG] and one line per question or record at the level [TRACE]. *)
Theorem log_lines st msg pkt :
  let idx := identify_recv_iface pkt (ifaces st) in
  match log_query st msg pkt idx, log_response st msg pkt idx with
  | Some q, Some r =>
      map fst q = replicate (length (queries msg)) TRACE ++ [DEBUG] ∧
      map fst r = replicate (length (all_sections msg)) TRACE ++ [DEBUG]
  | _, _ => False
  end.
Proof.
  cbv zeta. unfold log_query, log_response. rewrite iface_label_ingress. simpl.
  assert (Hmap : ∀ A (f : A → LogLine) l,
    map fst (map (λ x, (TRACE, f x)) l) = replicate (length l) TRACE).
  { intros A f l. induction l as [|x l IH]; simpl; [done|]. by rewrite IH. }
  rewrite !map_app, !Hmap. unfold all_sections.
  by rewrite !length_app, !replicate_add.
Qed.

(** C35. Starting up: the exit code tells which phase failed (20 the interfaces,
    22 the service records); on success there is one usable interface per
    configured name, the published records are those of the configuration,
    and the cache starts empty with the configured capacity (at least one)
    and TTL cap. *)
Theorem startup_spec `{Os} gethostname cfg :
  match startup gethostname cfg with
  | Err code =>
      (code = 20 ∧ is_ok (setup (cfg_interfaces cfg)) = false) ∨
      (code = 22 ∧ ∃ recv ifs, setup (cfg_interfaces cfg) = Ok (recv, ifs) ∧
         is_ok (validate (resolve_hostname gethostname (cfg_hostname cfg)) (cfg_services cfg))
           = false)
  | Ok (recv, st, p, cache) =>
      config st = cfg ∧ map if_name (ifaces st) = cfg_interfaces cfg ∧
      Forall iface_ready (ifaces st) ∧
      build (resolve_hostname gethostname (cfg_hostname cfg)) (cfg_services cfg) (ifaces st)
        = Ok p ∧
      Cache.len cache = 0%nat ∧ Cache.max_entries cache = Z.max (cfg_max_cache_entries cfg) 1 ∧
      Cache.max_ttl cache = cfg_cache_max_ttl_secs cfg
  end.
Proof.
  unfold startup. destruct (setup (cfg_interfaces cfg)) as [[recv ifs]|e] eqn:Hs; [|by left].
  set (host := resolve_hostname gethostname (cfg_hostname cfg)).
  destruct (build host (cfg_services cfg) ifs) as [p|e] eqn:Hb.
  - destruct (setup_ifaces_ok _ _ _ Hs) as [Hn Hr]. split_and!; done.
  - right. split; [done|]. exists recv, ifs. split; [done|].
    rewrite (validate_build host (cfg_services cfg) ifs), Hb. done.
Qed.
End properties.

Module EngineSample.
Import Sample IfaceSample ServicesSample ResponderSample.

(** Datagrams from a neighbour on [eth0]; [Sample.decode] reads the bytes. *)
Definition neighbour : SocketAddr := SockV4 (Ipv4Addr_new 192 168 1 9) 5353.
Definition response_pkt : Datagram := mkDatagram [Byte.x01] neighbour FamV4 (Some 2).
Definition handler : Prog Exit := handle_datagram st pub response_pkt.

Lemma handler_traces : traces handler (run_trace env handler world) Completed.
Proof.
  pose proof (run_traces env handler world env_fine) as Ht.
  destruct (run env handler world).1 eqn:Hr; [done|].
  by apply traces_handle_datagram in Ht as [? _].
Qed.

(** One insertion, as learned on [eth0]; [eth0] is the only interface, so
    there is nowhere to forward to. *)
Lemma handler_inserts : length (run_trace env handler world) = 1%nat.
Proof. vm_compute. reflexivity. Qed.

Lemma handler_acts : run_trace env handler world ≠ [].
Proof. intros Hn. pose proof handler_inserts as Hl. rewrite Hn in Hl. discriminate Hl. Qed.

Lemma handle_datagram_gate_witness :
  run_trace env handler world ≠ [] ∧ allow_source (config st) (SocketAddr.ip neighbour) = true.
Proof.
  split; [exact handler_acts|].
  apply (handle_datagram_gate st pub response_pkt _ Completed handler_traces handler_acts).
Defined.

(** The record of the response was inserted as learned on [eth0] (index 2). *)
Lemma handle_datagram_effects_witness :
  ∃ o, run_trace env handler world = [EvInsert (sample_record 120) (Some (ifindex eth0)) o].
Proof.
  destruct (handle_datagram_effects st pub response_pkt _ Completed handler_traces)
    as [_ [[_ Hn]|(_ & t1 & t2 & Ht & Hm & _)]]; [by destruct (handler_acts Hn)|].
  destruct Hm as (os & Hos & ->). destruct os as [|o [|]]; try discriminate Hos. exists o.
  pose proof handler_inserts as Hl. rewrite Ht in Hl |- *. simpl in Hl. simpl.
  destruct t2; [reflexivity|discriminate Hl].
Defined.
End EngineSample.
