(* ===== verification/System.v ===== *)
(** * System: the tasks of the daemon running together ([engine::run],
    [engine::main_loop])

    The startup and shutdown sequence of [run], the datagram handlers that
    [main_loop] spawns, the sweep of [cache_evictor], the browser and the signal
    watcher run as tasks over one cache, one rate limiter, one clock and one
    cancellation token.  A step of the system is one action of one task, an
    advance of the clock, the arrival of a datagram or a signal; the scheduler
    is arbitrary.  A sleep takes at least its duration; every lock is held for
    one action.  The task of [run] carries the events it has performed through its
    phases. *)

From S2P Require Import Prelude RustStd StdNet Hickory RecordKey Cache Timing Os.
From S2P Require Import Effects Iface Config Services State Repeater Responder Browser.
From S2P Require Import Engine.
From stdpp Require Import strings.
From Stdlib Require Import Relations.
Open Scope Z_scope.
Open Scope list_scope.

Section system.
Context `{Hickory} {HI : HashIter}.

(** What the tasks share; [grants] is the history of the rate limiter, [admitted]
    the datagrams that were given to a handler. *)
Record Shared := mkShared {
  clock : Instant;
  cancelled : bool;
  cache : Cache.Inner;
  tracker : MulticastTracker;
  grants : list MulticastTracker.Grant;
  admitted : list Datagram;
}.

Definition with_cache (g : Cache.Inner) (w : Shared) : Shared :=
  mkShared (clock w) (cancelled w) g (tracker w) (grants w) (admitted w).
Definition with_tracker (t : MulticastTracker) (log : list MulticastTracker.Grant) (w : Shared)
    : Shared :=
  mkShared (clock w) (cancelled w) (cache w) t log (admitted w).
Definition at_time (t : Instant) (w : Shared) : Shared :=
  mkShared t (cancelled w) (cache w) (tracker w) (grants w) (admitted w).
Definition cancel (w : Shared) : Shared :=
  mkShared (clock w) true (cache w) (tracker w) (grants w) (admitted w).
Definition admit_datagram (pkt : Datagram) (w : Shared) : Shared :=
  mkShared (clock w) (cancelled w) (cache w) (tracker w) (grants w) (pkt :: admitted w).

(** An action of a task that has waited for it since [since]. *)
Definition act_step (w : Shared) (since : Instant) {X} (act : Act X) : X → Shared → Prop :=
  match act in Act X return X → Shared → Prop with
  | ANow => λ x w', x = clock w ∧ w' = w
  | ARng => λ x w', rng_ok x ∧ w' = w
  | ARandU16 => λ x w', 0 ≤ x ≤ u16_MAX ∧ w' = w
  | ASleep d => λ _ w', since + d ≤ clock w ∧ w' = w
  | ASleepOrShutdown d => λ x w',
      (if x : bool then cancelled w = true else since + d ≤ clock w) ∧ w' = w
  | AIsCancelled => λ x w', x = cancelled w ∧ w' = w
  | ASend _ _ _ => λ _ w', w' = w
  | AInsert r src => λ x w',
      let '(o, g) := Cache.insert_from (clock w) r src (cache w) in
      x = o ∧ w' = with_cache g w
  | ALookup now n t a => λ x w',
      x = Cache.lookup_from_other_ifaces now n t a (cache w) ∧ w' = w
  | AEvict now => λ x w',
      let '(n, g) := Cache.evict_expired now (cache w) in x = n ∧ w' = with_cache g w
  | AMark i r => λ _ w',
      w' = with_tracker (MulticastTracker.mark (clock w) i r (tracker w))
             (MulticastTracker.mkGrant (clock w) (clock w) (track_key i r) 0
                :: grants w) w
  | ACheck now i r iv => λ x w',
      let '(b, t) := MulticastTracker.check_and_mark now i r iv (tracker w) in
      x = b ∧
      w' = with_tracker t
             (if b then MulticastTracker.mkGrant (clock w) now (track_key i r) iv
                          :: grants w
              else grants w) w
  | APrune now iv => λ _ w',
      w' = with_tracker (MulticastTracker.prune_older_than now iv (tracker w)) (grants w) w
  | ATick _ => λ x w', (if x : bool then cancelled w = true else True) ∧ w' = w
  end.

(** ** Tasks *)

(** A task waits since [since], has performed the events [hist] and has still
    to run [prog]. *)
Record Task (A : Type) := mkTask {
  since : Instant;
  hist : list Event;
  prog : Prog A;
}.
Arguments mkTask {A}.
Arguments since {A}.
Arguments hist {A}.
Arguments prog {A}.

Definition spawn {A} (w : Shared) (p : Prog A) : Task A := mkTask (clock w) [] p.

Inductive task_step {A} (w : Shared) : Task A → Shared → Task A → Prop :=
| task_act s h X (act : Act X) k x w' :
    act_step w s act x w' →
    task_step w (mkTask s h (Vis act k)) w' (mkTask (clock w) (h ++ [obs act x]) (k x)).

(** [past]: what the task of [run] has performed in the earlier phases;
    [since]: when the drain began. *)
Inductive Phase :=
| Starting (t : Task unit)
| Receiving (past : list Event)
| Closing (past : list Event) (t : Task unit)
| Draining (past : list Event) (since : Instant)
| Exited (past : list Event) (since : Instant) (code : Z).

(** [watcher]: the signal watcher has been spawned and has not returned. *)
Record Sys := mkSys {
  shared : Shared;
  phase : Phase;
  handlers : list (Task Exit);
  evictor : option (Task bool);
  browser : option (Task (option Duration));
  watcher : bool;
}.

Definition alive (s : Sys) : Prop := ∀ past since code, phase s ≠ Exited past since code.

(** The probes and announcements of [run]. *)
Definition startup_prog (st : State) (p : Published) : Prog unit :=
  _ <- probe_all st p ;; announce_all st p.

Definition initial (st : State) (p : Published) (g : Cache.Inner) (t : Instant) : Sys :=
  let w := mkShared t false g MulticastTracker.new [] [] in
  mkSys w (Starting (spawn w (startup_prog st p))) [] None None false.

(** The loop of the browser, entered with the delay [d]. *)
Definition browse_loop (st : State) (d : Duration) : Prog (option Duration) :=
  browse_round st (browse_names (cfg_browse (config st)))
    (browse_cap (cfg_browse_interval_secs (config st))) d.

Section step.
Variable st : State.
Variable pub : Published.
(** The outcomes of registering the handlers of SIGINT and SIGTERM. *)
Variable interrupt terminate : result IoError unit.

Inductive step : Sys → Sys → Prop :=
| step_time w ph hs ev br sw t :
    clock w ≤ t → step (mkSys w ph hs ev br sw) (mkSys (at_time t w) ph hs ev br sw)
(** The startup sequence, then the background tasks are spawned. *)
| step_start w t w' t' hs ev br sw :
    task_step w t w' t' →
    step (mkSys w (Starting t) hs ev br sw) (mkSys w' (Starting t') hs ev br sw)
| step_started w s h hs ev br sw :
    step (mkSys w (Starting (mkTask s h (Ret tt))) hs ev br sw)
         (mkSys w (Receiving h) hs (Some (spawn w (evictor_round (config st))))
            (Some (spawn w (browse_start (cfg_browse (config st))))) true)
(** The signal watcher: a signal cancels the token; without the handlers the
    task just returns. *)
| step_signal w ph hs ev br :
    watches_signals interrupt terminate = true →
    step (mkSys w ph hs ev br true) (mkSys (cancel w) ph hs ev br false)
| step_unwatched w ph hs ev br :
    watches_signals interrupt terminate = false →
    step (mkSys w ph hs ev br true) (mkSys w ph hs ev br false)
(** A datagram arrives: a handler is spawned if a permit is left, otherwise
    the datagram is dropped; a failed receive is skipped. *)
| step_receive w h hs ev br sw pkt :
    (length hs < MAX_INFLIGHT_HANDLERS)%nat →
    step (mkSys w (Receiving h) hs ev br sw)
         (mkSys (admit_datagram pkt w) (Receiving h)
            (hs ++ [spawn w (handle_datagram st pub pkt)]) ev br sw)
| step_saturated w h hs ev br sw (pkt : Datagram) :
    (MAX_INFLIGHT_HANDLERS ≤ length hs)%nat →
    step (mkSys w (Receiving h) hs ev br sw) (mkSys w (Receiving h) hs ev br sw)
| step_recv_failed w h hs ev br sw (e : IoError) :
    step (mkSys w (Receiving h) hs ev br sw) (mkSys w (Receiving h) hs ev br sw)
| step_handler w ph hs ev br sw i t w' t' :
    hs !! i = Some t → task_step w t w' t' →
    step (mkSys w ph hs ev br sw) (mkSys w' ph (<[i := t']> hs) ev br sw)
| step_handled w ph hs ev br sw i s h e :
    hs !! i = Some (mkTask s h (Ret e)) →
    step (mkSys w ph hs ev br sw) (mkSys w ph (delete i hs) ev br sw)
(** The sweep. *)
| step_evictor w ph hs t br sw w' t' :
    task_step w t w' t' →
    step (mkSys w ph hs (Some t) br sw) (mkSys w' ph hs (Some t') br sw)
| step_evicted w ph hs s h br sw :
    step (mkSys w ph hs (Some (mkTask s h (Ret true))) br sw)
         (mkSys w ph hs (Some (spawn w (evictor_round (config st)))) br sw)
| step_evictor_returned w ph hs s h br sw :
    step (mkSys w ph hs (Some (mkTask s h (Ret false))) br sw) (mkSys w ph hs None br sw)
(** The browser. *)
| step_browser w ph hs ev t sw w' t' :
    task_step w t w' t' →
    step (mkSys w ph hs ev (Some t) sw) (mkSys w' ph hs ev (Some t') sw)
| step_browsed w ph hs ev s h r sw :
    step (mkSys w ph hs ev (Some (mkTask s h (Ret r))) sw)
         (mkSys w ph hs ev ((λ d, spawn w (browse_loop st d)) <$> r) sw)
(** The receive loop sees the token and returns; goodbyes are sent; the
    background tasks are awaited for at most [DRAIN_TIMEOUT]; [run] returns. *)
| step_shutdown w h hs ev br sw :
    cancelled w = true →
    step (mkSys w (Receiving h) hs ev br sw)
         (mkSys w (Closing h (spawn w (announce_goodbye st pub))) hs ev br sw)
| step_closing w h t w' t' hs ev br sw :
    task_step w t w' t' →
    step (mkSys w (Closing h t) hs ev br sw) (mkSys w' (Closing h t') hs ev br sw)
| step_drain w h s h' hs ev br sw :
    step (mkSys w (Closing h (mkTask s h' (Ret tt))) hs ev br sw)
         (mkSys w (Draining (h ++ h') (clock w)) hs ev br sw)
| step_exit w h s hs ev br sw :
    (ev = None ∧ br = None ∧ sw = false) ∨ s + DRAIN_TIMEOUT ≤ clock w →
    step (mkSys w (Draining h s) hs ev br sw)
         (mkSys w (Exited h s exit_code.OK) hs ev br sw).

(** Nothing runs after [run] has returned. *)
Definition sys_step (s s' : Sys) : Prop := alive s ∧ step s s'.

Definition sys_reachable (s : Sys) : Prop :=
  ∃ cap ttl t, Cache.cap_ok ttl ∧
    rtc sys_step (initial st pub (Cache.with_capacity_and_max_ttl cap ttl) t) s.
End step.
End system.
Arguments Task {_} A.
Arguments mkTask {_ A}.
Arguments since {_ A}.
Arguments hist {_ A}.
Arguments prog {_ A}.

(** ** Well-behaved programs

    [good L c p]: from time [c] on, whatever the answers are, [p] stamps with clock
    readings it has taken, asks the rate limiter for the interval of a multicast or
    of a probe defence, sweeps with the former, and inserts only records with
    32-bit TTLs that were learned ([L] gives the records and their sources). *)

Section good.
Context `{Hickory} {HI : HashIter}.

Definition act_ok (L : DnsRecord → option Z → Prop) (c : Instant) {X} (act : Act X) : Prop :=
  match act with
  | AInsert r src => record_ok r ∧ L r src
  | ACheck now _ _ iv =>
      now ≤ c ∧ (iv = MIN_MULTICAST_INTERVAL ∨ iv = PROBE_DEFENSE_INTERVAL)
  | APrune now iv => now ≤ c ∧ iv = MIN_MULTICAST_INTERVAL
  | _ => True
  end.

Definition answer_ok (c : Instant) {X} (act : Act X) : X → Prop :=
  match act in Act X return X → Prop with
  | ANow => λ x, x ≤ c
  | _ => λ _, True
  end.

Fixpoint good {A} (L : DnsRecord → option Z → Prop) (c : Instant) (p : Prog A) : Prop :=
  match p with
  | Ret _ => True
  | Vis act k => act_ok L c act ∧ ∀ c' x, c ≤ c' → answer_ok c' act x → good L c' (k x)
  end.

Lemma act_ok_mono (L L' : DnsRecord → option Z → Prop) c c' {X} (act : Act X) :
  (∀ r src, L r src → L' r src) → c ≤ c' → act_ok L c act → act_ok L' c' act.
Proof. intros HL Hle. destruct act; simpl; try done; naive_solver lia. Qed.

Lemma good_mono {A} (L L' : DnsRecord → option Z → Prop) c c' (p : Prog A) :
  (∀ r src, L r src → L' r src) → c ≤ c' → good L c p → good L' c' p.
Proof.
  intros HL. revert c c'; induction p as [a|X act k IH]; intros c c' Hle; simpl; [done|].
  intros [Ha Hk]. split; [by eapply act_ok_mono|]. intros c'' x Hc Hx.
  apply (IH x c''); [lia|]. apply Hk; [lia|done].
Qed.

Lemma good_bind {A B} L c (p : Prog A) (f : A → Prog B) :
  good L c p → (∀ c' a, c ≤ c' → good L c' (f a)) → good L c (prog_bind p f).
Proof.
  revert c; induction p as [a|X act k IH]; intros c; simpl.
  - intros _ Hf. apply Hf. lia.
  - intros [Ha Hk] Hf. split; [done|]. intros c' x Hc Hx. apply IH; [by apply Hk|].
    intros c'' a Hc'. apply Hf. lia.
Qed.

Lemma good_trigger L c {X} (act : Act X) : act_ok L c act → good L c (trigger act).
Proof. simpl. done. Qed.

(** Reading the clock. *)
Lemma good_now {A} L c (f : Instant → Prog A) :
  (∀ c' t, c ≤ c' → t ≤ c' → good L c' (f t)) → good L c (t <- trigger ANow ;; f t).
Proof. simpl. intros Hf. split; [done|]. intros c' x Hc Hx. by apply Hf. Qed.

Lemma good_for_each {A} L c (l : list A) body :
  (∀ c' x, c ≤ c' → In x l → good L c' (body x)) → good L c (for_each l body).
Proof.
  revert c; induction l as [|x l IH]; intros c Hb; cbn [for_each]; [done|].
  apply good_bind; [apply Hb; [lia|by left]|]. intros c' _ Hc. apply IH.
  intros c'' y Hc' Hy. apply Hb; [lia|by right].
Qed.

Lemma good_retain {A} L c (f : A → Prog bool) l :
  (∀ c' x, c ≤ c' → good L c' (f x)) → good L c (retain_m f l).
Proof.
  revert c; induction l as [|x l IH]; intros c Hf; cbn [retain_m]; [done|].
  apply good_bind; [apply Hf; lia|]. intros c' b Hc. apply good_bind; [|done].
  apply IH. intros c'' y Hc'. apply Hf. lia.
Qed.

Lemma good_and_then L c p q :
  good L c p → (∀ c', c ≤ c' → good L c' q) → good L c (and_then p q).
Proof. intros Hp Hq. apply good_bind; [done|]. intros c' [] Hc; [by apply Hq|done]. Qed.

Lemma good_for_each_exit {A} L c (l : list A) body :
  (∀ c' x, c ≤ c' → In x l → good L c' (body x)) → good L c (for_each_exit l body).
Proof.
  revert c; induction l as [|x l IH]; intros c Hb; cbn [for_each_exit]; [done|].
  apply good_and_then; [apply Hb; [lia|by left]|]. intros c' Hc. apply IH.
  intros c'' y Hc' Hy. apply Hb; [lia|by right].
Qed.
End good.


Create HintDb good.

(** Follows the structure of a program; the programs it calls are in [good]. *)
Ltac good_step :=
  match goal with
  | |- good _ _ (Ret _) => exact I
  | |- good _ _ (trigger _) => apply good_trigger; try exact I
  | |- good _ _ (prog_bind (trigger ANow) _) => apply good_now; intros
  | |- good _ _ (prog_bind _ _) => apply good_bind; [|intros]
  | |- good _ _ (and_then _ _) => apply good_and_then; [|intros]
  | |- good _ _ (for_each _ _) => apply good_for_each; intros
  | |- good _ _ (for_each_exit _ _) => apply good_for_each_exit; intros
  | |- good _ _ (retain_m _ _) => apply good_retain; intros
  | |- good _ _ (match ?x with _ => _ end) => destruct x eqn:?
  end.
Ltac good := intros; repeat first [solve [auto with good] | good_step].

(** ** The programs of the daemon are well-behaved *)

Section good_programs.
Context `{Hickory} {HI : HashIter}.
Implicit Types L : DnsRecord → option Z → Prop.

Lemma good_send_on L c i f b : good L c (send_mdns_on i f b).
Proof. unfold send_mdns_on. good. Qed.
#[local] Hint Resolve good_send_on : good.

Lemma good_send_all L c i b : good L c (send_mdns_all i b).
Proof.
  unfold send_mdns_all. apply good_bind; [|good].
  generalize (families i) 0 (@None IoError). intros fs. revert c.
  induction fs as [|f fs IH]; intros c z e; cbn [send_families]; good.
Qed.
#[local] Hint Resolve good_send_all : good.

Lemma good_send L c i b : good L c (send_mdns i b).
Proof. unfold send_mdns. good. Qed.
#[local] Hint Resolve good_send : good.

Lemma good_lookup L c n t a : good L c (cache_lookup n t a).
Proof. unfold cache_lookup. good. Qed.
#[local] Hint Resolve good_lookup : good.

Lemma good_candidates L c st msg arrival p : good L c (candidate_answers st msg arrival p).
Proof.
  unfold candidate_answers. apply good_bind; [|good].
  generalize (@nil DnsRecord, @nil RecordKey). revert c.
  induction (queries msg) as [|q qs IH]; intros c acc; cbn [candidate_loop]; [good|].
  unfold candidate_round. good.
Qed.

Lemma good_add_cached L c n t a acc : good L c (add_cached_records n t a acc).
Proof. unfold add_cached_records. good. Qed.
#[local] Hint Resolve good_candidates good_add_cached : good.

Lemma good_ptr_loop L c arrival l acc : good L c (ptr_loop arrival l acc).
Proof. revert c acc; induction l as [|a l IH]; intros c acc; cbn [ptr_loop]; good. Qed.

Lemma good_srv_loop L c arrival l acc : good L c (srv_loop arrival l acc).
Proof. revert c acc; induction l as [|a l IH]; intros c acc; cbn [srv_loop]; good. Qed.
#[local] Hint Resolve good_ptr_loop good_srv_loop : good.

Lemma good_additionals L c st ans arrival : good L c (cached_additionals st ans arrival).
Proof. unfold cached_additionals. good. Qed.
#[local] Hint Resolve good_additionals : good.

Lemma good_check L c i b r : good L c (check_and_mark i (min_interval b) r).
Proof. unfold check_and_mark. good. split; [done|destruct b; auto]. Qed.
#[local] Hint Resolve good_check : good.

Lemma good_respond L c msg arrival fam probe ans adds :
  good L c (respond msg arrival fam probe ans adds).
Proof. unfold respond. good. Qed.
#[local] Hint Resolve good_respond : good.

Lemma good_handle_query L c st msg arrival fam p : good L c (handle_query st msg arrival fam p).
Proof. unfold handle_query. good. Qed.

Lemma good_forward L c st pkt recv : good L c (forward st pkt recv).
Proof. unfold forward, forward_one. good. Qed.

(** What a response teaches: its records, with the interface it came in on. *)
Definition learned (st : State) (ds : list Datagram) (r : DnsRecord) (src : option Z) : Prop :=
  ∃ pkt msg, In pkt ds ∧ accepted st pkt ∧ from_vec (data pkt) = Ok msg ∧
    md_message_type (metadata msg) = MT_Response ∧ In r (all_sections msg) ∧
    src = ifindex <$> ingress st pkt.

Lemma learned_mono st ds ds' r src :
  (∀ d, In d ds → In d ds') → learned st ds r src → learned st ds' r src.
Proof. intros Hd (pkt & msg & ? & ?). exists pkt, msg. auto. Qed.

Lemma good_insert_records L c src rs n :
  Forall record_ok rs → (∀ r, In r rs → L r src) → good L c (insert_records src rs n).
Proof.
  revert c n; induction rs as [|r rs IH]; intros c n Hr HL; cbn [insert_records]; [good|].
  inversion Hr; subst. apply good_bind; [apply good_trigger; split; [done|apply HL; by left]|].
  intros c' o Hc. apply IH; [done|]. intros r' Hr'. apply HL. by right.
Qed.

Lemma good_dispatch L c st p pkt :
  accepted st pkt → (∀ r src, learned st [pkt] r src → L r src) →
  good L c (dispatch st p pkt (identify_recv_iface pkt (ifaces st))).
Proof.
  intros Hacc HL. unfold dispatch, handle_query_msg, handle_response_msg.
  destruct (from_vec (data pkt)) as [msg|] eqn:Hm; [|done].
  destruct (_ ==? MT_Query) eqn:Hty.
  { good. apply good_handle_query. }
  assert (Hresp : md_message_type (metadata msg) = MT_Response)
    by (destruct (md_message_type (metadata msg)); done).
  pose proof (ingress_cases st pkt) as Hin.
  assert (Hins : ∀ c, good L c (insert_records (ifindex <$> ingress st pkt) (all_sections msg)
    (mkCounters 0 0 0 0))).
  { intros c'. apply good_insert_records; [by eapply from_vec_ok|]. intros r Hr. apply HL.
    exists pkt, msg. split_and!; try done. by left. }
  destruct (identify_recv_iface pkt (ifaces st)) as [idx|]; [destruct Hin as (i & Hi & Hin)|];
    rewrite Hin in Hins; [rewrite Hi|]; good; apply Hins.
Qed.

Lemma good_handle_datagram L c st p pkt :
  (∀ r src, learned st [pkt] r src → L r src) → good L c (handle_datagram st p pkt).
Proof.
  intros HL. destruct (handle_datagram_cases st p pkt) as [[_ ->]|[Hacc ->]]; [done|].
  apply good_and_then; [by apply good_dispatch|]. good. apply good_forward.
Qed.

Lemma good_evictor L c cfg : good L c (evictor_round cfg).
Proof. unfold evictor_round, sweep. by good. Qed.

Lemma good_browse_start L c browse : good L c (browse_start browse).
Proof. unfold browse_start. good. Qed.

Lemma good_browse_loop L c st d : good L c (browse_loop st d).
Proof. unfold browse_loop, browse_round, send_queries. good. Qed.

Lemma good_probe_attempts L c i unique n : good L c (probe_attempts i unique n).
Proof. revert c; induction n as [|n IH]; intros c; cbn [probe_attempts]; good. Qed.

Lemma good_announce_iface L c p i : good L c (announce_iface p i).
Proof. unfold announce_iface. good. Qed.
#[local] Hint Resolve good_probe_attempts good_announce_iface : good.

Lemma good_startup L c st p : good L c (startup_prog st p).
Proof. unfold startup_prog, probe_all, probe_iface, announce_all. good. Qed.

Lemma good_goodbye L c st p : good L c (announce_goodbye st p).
Proof. unfold announce_goodbye, goodbye_iface. good. Qed.
End good_programs.

#[export] Hint Resolve good_evictor good_browse_start
  good_browse_loop good_startup good_goodbye : good.

(** ** The invariant *)

Section invariant.
Context `{Hickory} {HI : HashIter}.
Variable st : State.
Variable pub : Published.
Variable interrupt terminate : result IoError unit.

(** The intervals of the grants: 0 for the marks of an announcement. *)
Definition grant_interval (g : MulticastTracker.Grant) : Prop :=
  MulticastTracker.g_interval g = 0 ∨
  MulticastTracker.g_interval g = MIN_MULTICAST_INTERVAL ∨
  MulticastTracker.g_interval g = PROBE_DEFENSE_INTERVAL.

Record shared_ok (w : Shared) : Prop := {
  sh_cache : Cache.inv (clock w) (cache w);
  sh_tracker : MulticastTracker.exec MIN_MULTICAST_INTERVAL (clock w) (tracker w) (grants w);
  sh_intervals : Forall grant_interval (grants w);
  sh_learned : Cache.all_stem (learned st (admitted w)) (cache w);
}.

(** The clock does not go back, no grant and no datagram is forgotten. *)
Record evolves (w w' : Shared) : Prop := {
  ev_clock : clock w ≤ clock w';
  ev_grants : ∀ g, In g (grants w) → In g (grants w');
  ev_admitted : ∀ d, In d (admitted w) → In d (admitted w');
}.

(** [r] has the content of a learned record and was learned, possibly from
    another datagram, on an interface other than [arrival]. *)
Definition known (ds : list Datagram) (arrival : Z) (r : DnsRecord) : Prop :=
  (∃ r0 src, learned st ds r0 src ∧ rec_name r = rec_name r0 ∧ rec_class r = rec_class r0 ∧
             rec_data r = rec_data r0) ∧
  ∃ i r1, i ≠ arrival ∧ learned st ds r1 (Some i) ∧ key_of r1 ≡ key_of r.

Lemma known_mono ds ds' arrival r :
  (∀ d, In d ds → In d ds') → known ds arrival r → known ds' arrival r.
Proof.
  intros Hd [(r0 & src & Hl & ?) (i & r1 & ? & Hl1 & ?)]. split.
  - exists r0, src. split; [by eapply learned_mono|done].
  - exists i, r1. split_and!; try done. by eapply learned_mono.
Qed.

(** A permission that a task obtained is in the history of the rate limiter;
    what a lookup found was learned. *)
Definition backed (w : Shared) (e : Event) : Prop :=
  match e with
  | EvCheck now i r iv true =>
      ∃ g, In g (grants w) ∧ MulticastTracker.g_key g = track_key i r ∧
           MulticastTracker.g_stamp g = now ∧ MulticastTracker.g_interval g = iv
  | EvMark i r =>
      ∃ g, In g (grants w) ∧ MulticastTracker.g_key g = track_key i r ∧
           MulticastTracker.g_interval g = 0
  | EvLookup _ _ _ arrival found => ∀ r, In r found → known (admitted w) arrival r
  | _ => True
  end.

Lemma evolves_refl w : evolves w w.
Proof. by split. Qed.

Lemma backed_mono w w' e : evolves w w' → backed w e → backed w' e.
Proof.
  intros [_ Hg Hd]. destruct e as [| | | | | | | |? ? ? ? found| | |? ? ? ? []| |]; simpl;
    try naive_solver.
  intros Hf r Hr. eapply known_mono; [exact Hd|by apply Hf].
Qed.

Lemma act_step_ok w s {X} (act : Act X) x w' :
  act_step w s act x w' → act_ok (learned st (admitted w)) (clock w) act → shared_ok w →
  shared_ok w' ∧ clock w' = clock w ∧ answer_ok (clock w) act x ∧ admissible act x.
Proof.
  intros Hs Ha Hw. pose proof Hw as [Hc Ht Hi Hl]. destruct act; simpl in *.
  - destruct Hs as [-> ->]. split_and!; done.
  - by destruct Hs as [? ->].
  - by destruct Hs as [? ->].
  - by destruct Hs as [? ->].
  - by destruct Hs as [? ->].
  - by destruct Hs as [? ->].
  - by subst.
  - destruct (Cache.insert_from _ _ _ _) as [o g] eqn:He. destruct Hs as [-> ->].
    split_and!; try done.
    pose proof (Cache.inv_insert_from (clock w) r source (cache w) (proj1 Ha)) as Hinv.
    pose proof (Cache.all_stem_insert _ (clock w) r source (cache w) (proj2 Ha)) as Hstem.
    rewrite He in Hinv, Hstem. split; simpl; auto.
  - destruct Hs as [-> ->]. eauto.
  - destruct Hs as [-> ->]. split_and!; try done.
    split; [by apply Cache.inv_evict|done..|by apply Cache.all_stem_evict].
  - subst. split_and!; try done. split; [done|by constructor| |done].
    constructor; [by left|done].
  - destruct (MulticastTracker.check_and_mark _ _ _ _ _) as [b t] eqn:Hb.
    destruct Hs as [-> ->]. split_and!; try done. destruct Ha as [? Hiv].
    split; [done| | |done]; simpl.
    + eapply MulticastTracker.exec_check; [done| |done..]. by destruct Hiv as [-> | ->].
    + destruct b; [|done]. constructor; [right; simpl; naive_solver|done].
  - destruct Ha as [Hn ->]. subst. split_and!; try done. split; [done|by constructor|done..].
  - by destruct Hs as [? ->].
Qed.

Lemma act_step_backed w s {X} (act : Act X) x w' :
  act_step w s act x w' → shared_ok w → evolves w w' ∧ backed w' (obs act x).
Proof.
  intros Hs [Hc _ _ Hl]. revert Hs.
  destruct act; simpl; repeat case_match; intros Hs; destruct_and?; subst; simpl;
    (split; [split; simpl; try done; try lia; auto|]); try done; try (by eauto 10).
  intros r Hr. by eapply Cache.stems_lookup.
Qed.

(** A task that was spawned with the program [p0]: it is well-behaved, what it
    has done and will do is a behaviour of [p0], and the permissions it
    obtained are recorded. *)
Record task_ok {A} (w : Shared) (p0 : Prog A) (t : Task A) : Prop := {
  tk_good : good (learned st (admitted w)) (clock w) (prog t);
  tk_traces : ∀ tr a, traces (prog t) tr a → traces p0 (hist t ++ tr) a;
  tk_backed : Forall (backed w) (hist t);
  tk_since : since t ≤ clock w;
}.

(** A task that was spawned with one of the programs [P]. *)
Definition task_of {A} (P : Prog A → Prop) (w : Shared) (t : Task A) : Prop :=
  ∃ p0, P p0 ∧ task_ok w p0 t.

Lemma act_step_admitted w s {X} (act : Act X) x w' :
  act_step w s act x w' → admitted w' = admitted w ∧ cancelled w' = cancelled w.
Proof. destruct act; simpl; repeat case_match; intros Hs; destruct_and?; by subst. Qed.

Lemma task_step_ok {A} P w (t t' : Task A) w' :
  task_step w t w' t' → shared_ok w → task_of P w t →
  shared_ok w' ∧ evolves w w' ∧ task_of P w' t'.
Proof.
  intros [s h X act k x w2 Hs] Hw (p0 & HP & [[Ha Hk] Ht Hb Hsi]). simpl in *.
  destruct (act_step_ok _ _ _ _ _ Hs Ha Hw) as (Hw' & Hc & Hx & Hadm).
  destruct (act_step_backed _ _ _ _ _ Hs Hw) as [He Hbx].
  destruct (act_step_admitted _ _ _ _ _ Hs) as [Had _].
  split_and!; [done..|]. exists p0. split; [done|]. split; simpl.
  - rewrite Hc, Had. apply Hk; [lia|done].
  - intros tr a Hp. rewrite <- app_assoc. apply Ht. simpl. eauto.
  - apply Forall_app. split; [|by constructor].
    eapply Forall_impl; [exact Hb|]. intros e. by apply backed_mono.
  - by rewrite Hc.
Qed.

Lemma task_ok_mono {A} w w' p0 (t : Task A) : evolves w w' → task_ok w p0 t → task_ok w' p0 t.
Proof.
  intros He [Hg Ht Hb Hs]. split; [|done|..].
  - eapply good_mono; [|apply He|exact Hg]. intros r src. apply learned_mono, He.
  - eapply Forall_impl; [exact Hb|]. intros e. by apply backed_mono.
  - destruct He. lia.
Qed.

Lemma task_of_mono {A} P w w' (t : Task A) : evolves w w' → task_of P w t → task_of P w' t.
Proof. intros He (p0 & HP & Ht). exists p0. split; [done|]. by eapply task_ok_mono. Qed.

Lemma spawn_ok {A} (P : Prog A → Prop) w p :
  P p → good (learned st (admitted w)) (clock w) p → task_of P w (spawn w p).
Proof. intros HP Hg. exists p. split; [done|]. by split; [|done|constructor|simpl]. Qed.

(** The tasks. *)
Definition handler_of (w : Shared) (t : Task Exit) : Prop :=
  ∃ pkt, In pkt (admitted w) ∧ task_of (eq (handle_datagram st pub pkt)) w t.
Definition browser_prog (p : Prog (option Duration)) : Prop :=
  p = browse_start (cfg_browse (config st)) ∨ ∃ d, p = browse_loop st d.

(** What the task of [run] has done in each phase. *)
Definition started (past : list Event) : Prop := traces (startup_prog st pub) past tt.
Definition closed (past : list Event) : Prop :=
  ∃ t1 t2, past = t1 ++ t2 ∧ started t1 ∧ traces (announce_goodbye st pub) t2 tt.

Definition phase_ok (w : Shared) (ph : Phase) : Prop :=
  match ph with
  | Starting t => task_of (eq (startup_prog st pub)) w t
  | Receiving past => started past
  | Closing past t =>
      started past ∧ cancelled w = true ∧ task_of (eq (announce_goodbye st pub)) w t
  | Draining past _ => closed past ∧ cancelled w = true
  | Exited past _ code => closed past ∧ cancelled w = true ∧ code = exit_code.OK
  end.

Record sys_ok (s : Sys) : Prop := {
  ok_shared : shared_ok (shared s);
  ok_phase : phase_ok (shared s) (phase s);
  ok_handlers : Forall (handler_of (shared s)) (handlers s);
  ok_evictor : ∀ t, evictor s = Some t →
    task_of (eq (evictor_round (config st))) (shared s) t;
  ok_browser : ∀ t, browser s = Some t → task_of browser_prog (shared s) t;
  ok_inflight : (length (handlers s) ≤ MAX_INFLIGHT_HANDLERS)%nat;
  ok_watcher : ∀ past, watches_signals interrupt terminate = true → phase s = Receiving past →
    watcher s = true ∨ cancelled (shared s) = true;
  ok_drained : ∀ past c code, phase s = Exited past c code →
    evictor s = None ∧ browser s = None ∧ watcher s = false ∨
    c + DRAIN_TIMEOUT ≤ clock (shared s);
}.

Lemma handler_of_mono w w' t : evolves w w' → handler_of w t → handler_of w' t.
Proof.
  intros He (pkt & Hp & Ht). exists pkt. split; [by apply He|by eapply task_of_mono].
Qed.

Lemma phase_ok_mono w w' ph :
  evolves w w' → (cancelled w = true → cancelled w' = true) → phase_ok w ph → phase_ok w' ph.
Proof. intros He Hc. destruct ph; simpl; naive_solver eauto using task_of_mono. Qed.

(** The other tasks are not affected by a change of the shared state. *)
Lemma sys_ok_shared w w' ph hs ev br sw :
  evolves w w' → shared_ok w' → (cancelled w = true → cancelled w' = true) →
  sys_ok (mkSys w ph hs ev br sw) → sys_ok (mkSys w' ph hs ev br sw).
Proof.
  intros He Hw' Hc [_ Hp Hh Hev Hb Hi Hsw Hd]. split; simpl in *; try done.
  - by eapply phase_ok_mono.
  - eapply Forall_impl; [exact Hh|]. eauto using handler_of_mono.
  - eauto using task_of_mono.
  - eauto using task_of_mono.
  - intros past Hw Hr. destruct (Hsw past Hw Hr); auto.
  - intros past c code Hph. destruct (Hd past c code Hph); [auto|]. destruct He. right. lia.
Qed.

Lemma task_step_cancelled {A} w (t t' : Task A) w' :
  task_step w t w' t' → cancelled w' = cancelled w.
Proof. intros [s h X act k x w2 Hs]. by destruct (act_step_admitted _ _ _ _ _ Hs). Qed.

(** A step of one task, seen from the others. *)
Lemma sys_ok_step {A} P (t t' : Task A) w w' ph hs ev br sw :
  task_step w t w' t' → task_of P w t → sys_ok (mkSys w ph hs ev br sw) →
  sys_ok (mkSys w' ph hs ev br sw) ∧ task_of P w' t'.
Proof.
  intros Hs Ht Hok. destruct (task_step_ok P _ _ _ _ Hs) as (Hw' & He & Ht');
    [apply Hok|done|].
  split; [|done]. eapply sys_ok_shared; [done..| |done].
  by rewrite (task_step_cancelled _ _ _ _ Hs).
Qed.

Lemma shared_ok_time w t : clock w ≤ t → shared_ok w → shared_ok (at_time t w).
Proof.
  intros Hle [Hc Ht Hi Hl]. split; simpl; [by eapply Cache.inv_mono| |done..].
  by eapply MulticastTracker.exec_wait.
Qed.

Lemma ok_cancel w ph hs ev br sw :
  sys_ok (mkSys w ph hs ev br sw) → sys_ok (mkSys (cancel w) ph hs ev br false).
Proof.
  intros Hok. destruct (sys_ok_shared w (cancel w) ph hs ev br sw) as [? ? ? ? ? ? ? Hd]; try done.
  { by destruct Hok as [[? ? ? ?] _ _ _ _ _ _ _]. }
  split; simpl in *; try done; [auto|].
  intros past c code Hph. destruct (Hd past c code Hph) as [(? & ? & ?)|?]; auto.
Qed.

(** A datagram is given to a handler. *)
Lemma ok_receive w h hs ev br sw pkt :
  (length hs < MAX_INFLIGHT_HANDLERS)%nat → sys_ok (mkSys w (Receiving h) hs ev br sw) →
  sys_ok (mkSys (admit_datagram pkt w) (Receiving h)
            (hs ++ [spawn w (handle_datagram st pub pkt)]) ev br sw).
Proof.
  intros Hlt Hok. assert (He : evolves w (admit_datagram pkt w)) by (split; simpl; auto; lia).
  destruct (sys_ok_shared w (admit_datagram pkt w) (Receiving h) hs ev br sw)
    as [? ? Hh ? ? ? ? ?]; try done.
  { destruct Hok as [[Hc Ht Hi Hl] _ _ _ _ _ _ _]. split; simpl in *; try done.
    eapply Cache.all_stem_mono; [|exact Hl]. intros r src. apply learned_mono. by right. }
  split; simpl in *; try done.
  - apply Forall_app. split; [done|]. constructor; [|done]. exists pkt. split; [by left|].
    apply (spawn_ok _ (admit_datagram pkt w)); [done|]. apply good_handle_datagram. intros r src.
    apply learned_mono. intros d [<-|[]]. by left.
  - rewrite length_app. simpl. lia.
Qed.

Lemma task_done {A} P w s h (a : A) :
  task_of P w (mkTask s h (Ret a)) → ∃ p0, P p0 ∧ traces p0 h a.
Proof.
  intros (p0 & HP & [_ Ht _ _]). exists p0. split; [done|].
  rewrite <- (app_nil_r h). by apply (Ht [] a).
Qed.

Lemma step_ok s s' : alive s → step st pub interrupt terminate s s' → sys_ok s → sys_ok s'.
Proof.
  intros Hal Hstep Hok. pose proof Hok as [Hw Hp Hh He Hb Hi Hsw Hd].
  destruct Hstep; simpl in *;
    try (assert (Hno : ∀ past c code, ph ≠ Exited past c code) by exact Hal).
  - apply (sys_ok_shared w); [split; simpl; auto|by apply shared_ok_time|done..].
  - destruct (sys_ok_step _ _ _ _ _ _ _ _ _ _ H0 Hp Hok) as [[] ?]. by split.
  - apply task_done in Hp as (? & <- & Hp). split; simpl; try done; auto.
    + intros t [= <-]. apply spawn_ok; [done|good].
    + intros t [= <-]. apply spawn_ok; [by left|good].
  - by eapply ok_cancel.
  - split; simpl; try done; [congruence|]. intros past c code Hph. by apply Hno in Hph.
  - by apply ok_receive.
  - done.
  - done.
  - rewrite Forall_lookup in Hh. destruct (Hh i t H0) as (pkt & Hpk & Ht).
    destruct (task_step_ok _ _ _ _ _ H1 Hw Ht) as (_ & Hev & _).
    destruct (sys_ok_step _ _ _ _ _ _ _ _ _ _ H1 Ht Hok) as [[] Ht'].
    split; simpl in *; try done; [|by rewrite length_insert].
    apply Forall_insert; [done|]. exists pkt. split; [by apply Hev|done].
  - split; simpl; try done; [by apply Forall_delete|].
    pose proof (length_delete hs i) as Hl. rewrite H0 in Hl. specialize (Hl ltac:(eauto)). lia.
  - destruct (sys_ok_step _ _ _ _ _ _ _ _ _ _ H0 (He t eq_refl) Hok) as [[] ?].
    split; simpl in *; try done; [by intros ? [= <-]|].
    intros past c code Hph. by apply Hno in Hph.
  - split; simpl; try done; [intros t [= <-]; apply spawn_ok; [done|good]|].
    intros past c code Hph. by apply Hno in Hph.
  - split; simpl; try done. intros past c code Hph. by apply Hno in Hph.
  - destruct (sys_ok_step _ _ _ _ _ _ _ _ _ _ H0 (Hb t eq_refl) Hok) as [[] ?].
    split; simpl in *; try done; [by intros ? [= <-]|].
    intros past c code Hph. by apply Hno in Hph.
  - split; simpl; try done; [|intros past c code Hph; by apply Hno in Hph].
    intros t. destruct r; simpl; [|done]. intros [= <-].
    apply spawn_ok; [by right; eexists|good].
  - split; simpl; try done. split_and!; try done. apply spawn_ok; [done|good].
  - destruct Hp as (? & ? & Hp).
    destruct (sys_ok_step _ _ _ _ _ _ _ _ _ _ H0 Hp Hok) as [[? Hp'] ?]. simpl in *.
    destruct Hp' as (? & ? & _). by split.
  - destruct Hp as (? & ? & (? & <- & ?)%task_done). split; simpl; try done.
    split; [|done]. by exists h, h'.
  - destruct Hp. split; simpl; try done. by intros ? ? ? [= <- <- <-].
Qed.

Lemma initial_ok cap ttl t :
  Cache.cap_ok ttl →
  sys_ok (initial st pub (Cache.with_capacity_and_max_ttl cap ttl) t).
Proof.
  intros Hcap. split; simpl; try done; try lia.
  - split; [by apply Cache.inv_new|constructor|constructor|done].
  - apply spawn_ok; [done|good].
Qed.

Lemma reachable_ok s : sys_reachable st pub interrupt terminate s → sys_ok s.
Proof.
  intros (cap & ttl & t & Hcap & Hr). pose proof (initial_ok cap ttl t Hcap) as Hi.
  induction Hr as [|s1 s2 s3 [Ha Hs] _ IH]; [done|]. apply IH. by eapply step_ok.
Qed.

Lemma reachable_steps s s' :
  sys_reachable st pub interrupt terminate s →
  rtc (sys_step st pub interrupt terminate) s s' →
  sys_reachable st pub interrupt terminate s'.
Proof. intros (cap & ttl & t & Hcap & Hr) Hs. exists cap, ttl, t. split; [done|]. by etrans. Qed.
End invariant.

(** ** Progress *)

Section progress.
Context `{Hickory} {HI : HashIter}.
Variable st : State.
Variable pub : Published.
Variable interrupt terminate : result IoError unit.

(** Some continuation of [s] ends with exit code 0. *)
Definition exiting (s : Sys) : Prop :=
  ∃ s' past c, rtc (sys_step st pub interrupt terminate) s s' ∧
    phase s' = Exited past c exit_code.OK.

(** A schedule for one task: sleeps end as soon as they can, sends succeed,
    draws give the lower bound. *)
Definition drive_act (w : Shared) (s : Instant) {X} (act : Act X) : X * Shared :=
  match act in Act X return X * Shared with
  | ANow => (clock w, w)
  | ARng => (λ lo _, lo, w)
  | ARandU16 => (0, w)
  | ASleep d => (tt, at_time (Z.max (clock w) (s + d)) w)
  | ASleepOrShutdown d => (false, at_time (Z.max (clock w) (s + d)) w)
  | AIsCancelled => (cancelled w, w)
  | ASend _ _ _ => (Ok 0, w)
  | AInsert r src =>
      let '(o, g) := Cache.insert_from (clock w) r src (cache w) in (o, with_cache g w)
  | ALookup now n t a => (Cache.lookup_from_other_ifaces now n t a (cache w), w)
  | AEvict now =>
      let '(n, g) := Cache.evict_expired now (cache w) in (n, with_cache g w)
  | AMark i r =>
      (tt, with_tracker (MulticastTracker.mark (clock w) i r (tracker w))
             (MulticastTracker.mkGrant (clock w) (clock w) (track_key i r) 0 :: grants w) w)
  | ACheck now i r iv =>
      let '(b, t) := MulticastTracker.check_and_mark now i r iv (tracker w) in
      (b, with_tracker t
            (if b then MulticastTracker.mkGrant (clock w) now (track_key i r) iv :: grants w
             else grants w) w)
  | APrune now iv =>
      (tt, with_tracker (MulticastTracker.prune_older_than now iv (tracker w)) (grants w) w)
  | ATick _ => (false, w)
  end.

Fixpoint drive {A} (w : Shared) (s : Instant) (p : Prog A) : A * Shared :=
  match p with
  | Ret a => (a, w)
  | Vis act k => let '(x, w') := drive_act w s act in drive w' (clock w') (k x)
  end.

(** The events of that schedule. *)
Fixpoint drive_trace {A} (w : Shared) (s : Instant) (p : Prog A) : list Event :=
  match p with
  | Ret _ => []
  | Vis act k =>
      let '(x, w') := drive_act w s act in obs act x :: drive_trace w' (clock w') (k x)
  end.

(** The action happens once the clock has reached the time of [drive_act]. *)
Lemma drive_act_step w s {X} (act : Act X) :
  let '(x, w') := drive_act w s act in
  clock w ≤ clock w' ∧ act_step (at_time (clock w') w) s act x w'.
Proof.
  assert (Hw : at_time (clock w) w = w) by by destruct w.
  destruct act; simpl; rewrite ?Hw; try (split_and!; first [done|lia]).
  - destruct (Cache.insert_from _ _ _ _) eqn:Hi. simpl. rewrite Hw, Hi. by split_and!.
  - destruct (MulticastTracker.check_and_mark _ _ _ _ _). simpl. rewrite Hw. by split_and!.
Qed.

Lemma drive_admitted {A} (p : Prog A) w s : admitted (drive w s p).2 = admitted w.
Proof.
  revert w s; induction p as [a|X act k IH]; intros w s; simpl; [done|].
  pose proof (drive_act_step w s act) as Ha. destruct (drive_act w s act) as [x w'].
  rewrite IH. destruct Ha as [_ [Had _]%act_step_admitted]. by rewrite Had.
Qed.

(** A finite program runs to completion in any frame that lets it step. *)
Lemma drive_steps {A} (F : Shared → Task A → Sys) :
  (∀ w t w' t', task_step w t w' t' → sys_step st pub interrupt terminate (F w t) (F w' t')) →
  (∀ w t c, clock w ≤ c → sys_step st pub interrupt terminate (F w t) (F (at_time c w) t)) →
  ∀ p w s h, ∃ s', rtc (sys_step st pub interrupt terminate) (F w (mkTask s h p))
    (F (drive w s p).2 (mkTask s' (h ++ drive_trace w s p) (Ret (drive w s p).1))).
Proof.
  intros Hstep Htime p. induction p as [a|X act k IH]; intros w s h; simpl;
    [rewrite app_nil_r; by exists s|].
  pose proof (drive_act_step w s act) as Ha. destruct (drive_act w s act) as [x w'].
  destruct Ha as [Hle Ha].
  destruct (IH x w' (clock w') (h ++ [obs act x])) as (s' & Hr). exists s'.
  rewrite <- app_assoc in Hr.
  eapply rtc_l; [by apply (Htime w _ (clock w'))|]. eapply rtc_l; [|exact Hr].
  apply Hstep. by apply (task_act (at_time (clock w') w)).
Qed.

Lemma draining_exits w h c hs ev br sw :
  exiting (mkSys w (Draining h c) hs ev br sw).
Proof.
  pose (t := Z.max (clock w) (c + DRAIN_TIMEOUT)).
  exists (mkSys (at_time t w) (Exited h c exit_code.OK) hs ev br sw), h, c. split; [|done].
  eapply rtc_l; [split; [done|apply step_time with (t := t); lia]|].
  apply rtc_once. split; [done|]. apply step_exit. right. simpl. lia.
Qed.

Lemma exiting_steps s s' : rtc (sys_step st pub interrupt terminate) s s' → exiting s' → exiting s.
Proof. intros Hr (s2 & h & c & Hr2 & Hp). exists s2, h, c. split; [by etrans|done]. Qed.

Lemma closing_exits w past t hs ev br sw : exiting (mkSys w (Closing past t) hs ev br sw).
Proof.
  destruct t as [s h p].
  destruct (drive_steps (λ w t, mkSys w (Closing past t) hs ev br sw))
    with (p := p) (w := w) (s := s) (h := h) as (s' & Hr);
    [intros; split; [done|by constructor]..|].
  destruct (drive w s p) as [[] w']. eapply exiting_steps; [exact Hr|].
  eapply exiting_steps; [|apply draining_exits]. apply rtc_once. split; [done|apply step_drain].
Qed.

Lemma cancelled_exits w h hs ev br sw :
  cancelled w = true → exiting (mkSys w (Receiving h) hs ev br sw).
Proof.
  intros Hc. eapply exiting_steps; [|apply closing_exits]. apply rtc_once.
  split; [done|by apply step_shutdown].
Qed.

(** Handling one datagram while nothing else happens. *)
Lemma serve w h ev br sw pkt :
  let w1 := admit_datagram pkt w in
  let p := handle_datagram st pub pkt in
  ∃ s, rtc (sys_step st pub interrupt terminate) (mkSys w (Receiving h) [] ev br sw)
         (mkSys (drive w1 (clock w1) p).2 (Receiving h)
            [mkTask s (drive_trace w1 (clock w1) p) (Ret (drive w1 (clock w1) p).1)] ev br sw).
Proof.
  intros w1 p.
  destruct (drive_steps (λ w t, mkSys w (Receiving h) [t] ev br sw))
    with (p := p) (w := w1) (s := clock w1) (h := @nil Event) as (s & Hs).
  { intros w0 t0 w2 t2 Ht. split; [done|].
    exact (step_handler st pub interrupt terminate w0 (Receiving h) [t0] ev br sw 0 t0 w2 t2
      eq_refl Ht). }
  { intros; split; [done|by constructor]. }
  exists s. eapply rtc_l; [|exact Hs]. split; [done|].
  apply (step_receive st pub interrupt terminate w h []). unfold MAX_INFLIGHT_HANDLERS. simpl. lia.
Qed.

Hypothesis watches : watches_signals interrupt terminate = true.

Lemma receiving_exits w h hs ev br sw :
  sw = true ∨ cancelled w = true → exiting (mkSys w (Receiving h) hs ev br sw).
Proof.
  intros [->|Hc]; [|by apply cancelled_exits].
  eapply exiting_steps; [|by apply (cancelled_exits (cancel w) h hs ev br false)].
  apply rtc_once. split; [done|by apply step_signal].
Qed.

Lemma exits s : sys_ok st pub interrupt terminate s → exiting s.
Proof.
  intros [_ Hp _ _ _ _ Hsw _]. destruct s as [w [t|h|h t|h c|h c code] hs ev br sw]; simpl in *.
  - destruct t as [s h p].
    destruct (drive_steps (λ w t, mkSys w (Starting t) hs ev br sw))
      with (p := p) (w := w) (s := s) (h := h) as (s' & Hr);
      [intros; split; [done|by constructor]..|].
    destruct (drive w s p) as [[] w']. eapply exiting_steps; [exact Hr|].
    eapply exiting_steps; [apply rtc_once; split; [done|apply step_started]|].
    apply receiving_exits. by left.
  - eauto using receiving_exits.
  - apply closing_exits.
  - apply draining_exits.
  - destruct Hp as (_ & _ & ->). by eexists _, _, _.
Qed.
End progress.

(** ** Properties *)

Section properties.
Context `{Hickory} {HI : HashIter}.

(** C7. In every state the daemon can reach, under any scheduling of its
    tasks and any sequence of datagrams, the cache satisfies its invariant
    (one entry per record, capacity respected, TTLs within 32 bits and the
    configured cap, deadlines consistent with the clock), at most 256
    datagram handlers are in flight, and no handler ends in a panic: neither the
    interface indices of the dispatch and of the forwarding nor the subtraction of
    the forwarding fail. *)
Theorem system_invariant st pub interrupt terminate s :
  sys_reachable st pub interrupt terminate s →
  Cache.inv (clock (shared s)) (cache (shared s)) ∧
  (length (handlers s) ≤ 256)%nat ∧
  (∀ i t, handlers s !! i = Some t → prog t ≠ Ret Panicked).
Proof.
  intros [[Hc _ _ _] _ Hh _ _ Hi _ _]%reachable_ok. split_and!; [done..|].
  intros i [c h p] Ht Hp. simpl in Hp. subst p. rewrite Forall_lookup in Hh.
  destruct (Hh i _ Ht) as (pkt & _ & (? & <- & Htr)%task_done).
  by apply traces_handle_datagram in Htr as [? _].
Qed.

(** C1. The rate limit of RFC 6762 section 6 for the whole daemon.  Every
    permission to multicast was asked for with an interval of one second, or of 250
    ms to defend a probe, or is the mark of an announcement (interval 0).  For two
    successive permissions [p], [g] of the same record on the same interface,
    whichever tasks obtained them and however often the sweep ran between, the
    interval of [g] has elapsed, when [g] is given, since the clock reading stored
    by [p].  That reading is taken before the lock: the permissions themselves are
    apart by the interval less the time the task of [p] spent between its reading
    and the lock, so exactly by the interval when that time is zero, as it is for
    the marks. *)
Theorem system_rate_limit st pub interrupt terminate s later g earlier p :
  sys_reachable st pub interrupt terminate s →
  grants (shared s) = later ++ g :: earlier →
  MulticastTracker.last_grant (MulticastTracker.g_key g) earlier = Some p →
  MulticastTracker.g_interval g ∈ [0; Duration.from_millis 250; Duration.from_secs 1] ∧
  MulticastTracker.g_stamp p ≤ MulticastTracker.g_at p ≤ MulticastTracker.g_at g ∧
  MulticastTracker.g_stamp p + MulticastTracker.g_interval g ≤ MulticastTracker.g_at g ∧
  ∀ lag, MulticastTracker.g_at p ≤ MulticastTracker.g_stamp p + lag →
    MulticastTracker.g_interval g - lag ≤ MulticastTracker.g_at g - MulticastTracker.g_at p.
Proof.
  intros [[_ He Hiv _] _ _ _ _ _ _ _]%reachable_ok Hg Hl.
  pose proof (MulticastTracker.exec_timed _ _ _ _ He) as Ht.
  apply MulticastTracker.exec_inv in He as (_ & _ & Hs); [|done].
  rewrite Hg in Hs, Ht, Hiv. apply Forall_app in Hiv as [_ Hiv]. inversion Hiv as [|? ? Hint _]; subst.
  pose proof (MulticastTracker.spaced_split _ _ _ _ Hs Hl).
  destruct (MulticastTracker.timed_split _ _ _ _ _ Ht Hl) as [_ ?].
  split; [|split_and!; try lia; intros lag; lia].
  rewrite list_elem_of_In. simpl. unfold grant_interval in Hint. naive_solver.
Qed.

(** C9. Shutting down.  The daemon exits only with code 0, after the token was
    cancelled, and by then [run] has probed, announced, and sent its goodbyes: the
    goodbye message to every family of every interface in two rounds one second
    apart (nothing if nothing was published); and it has waited until the sweep, the
    browser and the signal watcher had returned, or for 200 ms.  Provided that the
    signal handlers could be registered, some continuation of every reachable state
    exits. *)
Theorem system_can_exit st pub interrupt terminate s :
  sys_reachable st pub interrupt terminate s →
  (∀ past c code, phase s = Exited past c code →
     code = 0 ∧ cancelled (shared s) = true ∧
     (evictor s = None ∧ browser s = None ∧ watcher s = false ∨
      c + Duration.from_millis 200 ≤ clock (shared s)) ∧
     ∃ t1 t2 t3, past = t1 ++ t2 ++ t3 ∧
       traces (probe_all st pub) t1 tt ∧ traces (announce_all st pub) t2 tt ∧
       (goodbye pub = [] ∧ t3 = [] ∨
        ∃ ts1 ts2, t3 = concat ts1 ++ EvSleep (Duration.from_secs 1) :: concat ts2 ∧
          Forall2 (goodbye_round pub) (ifaces st) ts1 ∧
          Forall2 (goodbye_round pub) (ifaces st) ts2)) ∧
  (watches_signals interrupt terminate = true →
   ∃ s' past c, rtc (sys_step st pub interrupt terminate) s s' ∧ phase s' = Exited past c 0).
Proof.
  intros Hok%reachable_ok. split; [|intros Hw; by eapply exits].
  intros past c code Hph. destruct Hok as [_ Hp _ _ _ _ _ Hd]. rewrite Hph in Hp.
  destruct Hp as ((u1 & u2 & -> & Hst & Hgb) & Hc & ->). split_and!; try done; [by eapply Hd|].
  apply traces_bind in Hst as (t1 & t2 & [] & -> & H1 & H2).
  exists t1, t2, u2. split; [by rewrite app_assoc|]. split_and!; try done.
  apply traces_announce_goodbye in Hgb as [?|(ts1 & ts2 & _ & ? & ? & ?)]; [by left|right; eauto].
Qed.
End properties.

Module SystemSample.
Import Sample IfaceSample ServicesSample ResponderSample EngineSample.

Definition start : Sys := initial st pub (Cache.with_capacity_and_max_ttl 4 (Some 60)) 0.

Lemma start_reachable : sys_reachable st pub (Ok tt) (Ok tt) start.
Proof. exists 4, (Some 60), 0. split; [by simpl|]. reflexivity. Qed.

(** The state at the end of the startup sequence: both announcements sent. *)
Definition announced : Shared := (drive (shared start) 0 (startup_prog st pub)).2.
Definition startup_events : list Event := drive_trace (shared start) 0 (startup_prog st pub).

(** The background tasks are spawned and the receive loop runs. *)
Definition serving (w : Shared) (hs : list (Task Exit)) : Sys :=
  mkSys w (Receiving startup_events) hs (Some (spawn announced (evictor_round (config st))))
    (Some (spawn announced (browse_start (cfg_browse (config st))))) true.

Lemma serving_reachable : sys_reachable st pub (Ok tt) (Ok tt) (serving announced []).
Proof.
  apply (reachable_steps _ _ _ _ _ _ start_reachable).
  destruct (drive_steps st pub (Ok tt) (Ok tt) (λ w t, mkSys w (Starting t) [] None None false))
    with (p := startup_prog st pub) (w := shared start) (s := 0) (h := @nil Event)
    as (s & Hr); [intros; split; [done|by constructor]..|].
  etrans; [exact Hr|]. apply rtc_once. split; [done|]. unfold serving, announced, startup_events.
  destruct (drive (shared start) 0 (startup_prog st pub)) as [[] w']. apply step_started.
Qed.

(** The handler of a datagram, alone, from [w]. *)
Definition after (w : Shared) (pkt : Datagram) : Exit * Shared :=
  drive (admit_datagram pkt w) (clock w) (handle_datagram st pub pkt).
Definition events (w : Shared) (pkt : Datagram) : list Event :=
  drive_trace (admit_datagram pkt w) (clock w) (handle_datagram st pub pkt).

Lemma handled_reachable w pkt :
  sys_reachable st pub (Ok tt) (Ok tt) (serving w []) →
  ∃ s, sys_reachable st pub (Ok tt) (Ok tt)
         (serving (after w pkt).2 [mkTask s (events w pkt) (Ret (after w pkt).1)]).
Proof.
  intros Hw. destruct (serve st pub (Ok tt) (Ok tt) w startup_events
    (Some (spawn announced (evictor_round (config st))))
    (Some (spawn announced (browse_start (cfg_browse (config st))))) true pkt) as [s Hs].
  exists s. exact (reachable_steps _ _ _ _ _ _ Hw Hs).
Qed.

Lemma returned_reachable w s h e t :
  sys_reachable st pub (Ok tt) (Ok tt) (serving w [mkTask s h (Ret e)]) → clock w ≤ t →
  sys_reachable st pub (Ok tt) (Ok tt) (serving (at_time t w) []).
Proof.
  intros Hw Ht. apply (reachable_steps _ _ _ _ _ _ Hw).
  eapply rtc_l; [split; [done|by apply (step_handled _ _ _ _ w _ [mkTask s h (Ret e)] _ _ _ 0 s h e)]|].
  apply rtc_once. split; [done|by apply step_time].
Qed.

(** A query for our service arrives, and again two seconds later. *)
Definition query_pkt : Datagram := mkDatagram [Byte.x00] neighbour FamV4 (Some 2).
Definition once : Shared := (after announced query_pkt).2.
Definition again : Shared := at_time (clock once + Duration.from_secs 2) once.
Definition twice : Shared := (after again query_pkt).2.

Lemma twice_reachable : ∃ h, sys_reachable st pub (Ok tt) (Ok tt) (serving twice h).
Proof.
  destruct (handled_reachable announced query_pkt serving_reachable) as [s1 H1].
  destruct (handled_reachable again query_pkt) as [s2 H2]; [|by eexists].
  eapply returned_reachable; [exact H1|]. unfold Duration.from_secs, NANOS_PER_SEC.
  fold once. lia.
Qed.

(** The latest grant, and the one of the same record before it: both were given
    to the handlers, with the interval of one second. *)
Definition latest : MulticastTracker.Grant :=
  hd (MulticastTracker.mkGrant 0 0 (track_key 0 printer_ptr) 0) (grants twice).
Definition previous : MulticastTracker.Grant :=
  match MulticastTracker.last_grant (MulticastTracker.g_key latest) (tl (grants twice)) with
  | Some p => p
  | None => latest
  end.

Lemma grants_eq : grants twice = [] ++ latest :: tl (grants twice).
Proof.
  assert (Hl : (length (grants twice) =? 10)%nat = true) by (vm_compute; reflexivity).
  unfold latest. by destruct (grants twice).
Qed.

Lemma previous_eq :
  MulticastTracker.last_grant (MulticastTracker.g_key latest) (tl (grants twice))
  = Some previous.
Proof.
  assert (Hs : match MulticastTracker.last_grant (MulticastTracker.g_key latest)
                       (tl (grants twice)) with Some _ => true | None => false end = true)
    by (vm_compute; reflexivity).
  unfold previous. by destruct (MulticastTracker.last_grant _ _).
Qed.

Lemma intervals_eq :
  MulticastTracker.g_interval latest = Duration.from_secs 1 ∧
  MulticastTracker.g_interval previous = Duration.from_secs 1 ∧
  MulticastTracker.g_at previous = MulticastTracker.g_stamp previous.
Proof. split_and!; apply Z.eqb_eq; vm_compute; reflexivity. Qed.

(** The two permissions are at least a second apart. *)
Lemma system_rate_limit_witness :
  MulticastTracker.g_interval previous = Duration.from_secs 1 ∧
  MulticastTracker.g_at previous + Duration.from_secs 1 ≤ MulticastTracker.g_at latest.
Proof.
  destruct twice_reachable as (h & Hs). destruct intervals_eq as (H1 & H2 & H3).
  split; [exact H2|].
  destruct (system_rate_limit st pub (Ok tt) (Ok tt) _ [] latest (tl (grants twice)) previous Hs
    grants_eq previous_eq) as (_ & _ & _ & Hl).
  specialize (Hl 0). rewrite H1 in Hl. lia.
Defined.

(** A response was handled: its record is in the cache. *)
Lemma system_invariant_witness :
  let w := (after announced response_pkt).2 in
  Cache.len (cache w) = 1%nat ∧ length (events announced response_pkt) = 1%nat ∧
  Cache.inv (clock w) (cache w) ∧ (after announced response_pkt).1 ≠ Panicked.
Proof.
  cbv zeta. split; [vm_compute; reflexivity|]. split; [vm_compute; reflexivity|].
  destruct (handled_reachable announced response_pkt serving_reachable) as [s Hs].
  destruct (system_invariant st pub (Ok tt) (Ok tt) _ Hs) as (Hc & _ & Hp).
  split; [exact Hc|]. intros He.
  refine (Hp 0%nat (mkTask s _ (Ret (after announced response_pkt).1)) eq_refl _).
  cbn [prog]. exact (f_equal Ret He).
Defined.

(** From the state in which a query has been answered twice. *)
Lemma system_can_exit_witness :
  ∃ h s' past c, rtc (sys_step st pub (Ok tt) (Ok tt)) (serving twice h) s' ∧
    phase s' = Exited past c 0.
Proof.
  destruct twice_reachable as (h & Hs). exists h.
  exact (proj2 (system_can_exit st pub (Ok tt) (Ok tt) _ Hs) eq_refl).
Defined.
End SystemSample.
