(* ===== verification/Tasks.v ===== *)
(** * Tasks: what the tasks of the running daemon do

    [System] lets the tasks act in any order.  Here each of them is related back
    to the program it was spawned with: the events a task has performed, however
    they were interleaved with those of the others, are the beginning of a
    behaviour of that program, so what the components prove of all behaviours
    ([traces]) holds inside the running daemon.  From this follow statements on
    what the handlers send, where the records of their responses come from, and
    how long they take. *)

From S2P Require Import Prelude RustStd StdNet Hickory RecordKey Cache Timing Os.
From S2P Require Import Effects Iface Config Services State Repeater Responder Browser.
From S2P Require Import Engine System.
From stdpp Require Import strings.
From Stdlib Require Import Relations.
Open Scope Z_scope.
Open Scope list_scope.

(** ** Refinement *)

Section refinement.
Context `{Hickory} {HI : HashIter}.

(** Every program can run to its end. *)
Definition some_env : Env := mkEnv (λ _ lo _, lo) (λ _, 0) (λ _ _, Ok 0) (λ _, false).
Definition some_world : World :=
  mkWorld 0 0 (Cache.with_capacity 1) MulticastTracker.new [].

Lemma some_env_ok : env_ok some_env.
Proof. split; [|unfold u16_MAX; simpl; lia]. intros n lo hi Hle. simpl. lia. Qed.

Lemma traces_exist {A} (p : Prog A) : ∃ tr a, traces p tr a.
Proof. eexists _, _. apply (run_traces some_env p some_world), some_env_ok. Qed.

(** [t] is somewhere inside a behaviour of [p0]: what it has done, followed by
    anything it can still do, is a behaviour of [p0], and it can still finish. *)
Definition within {A} (p0 : Prog A) (t : Task A) : Prop :=
  (∀ tr a, traces (prog t) tr a → traces p0 (hist t ++ tr) a) ∧
  ∃ tr a, traces (prog t) tr a.

(** A handler is within a behaviour of [handle_datagram] for a datagram that was
    given to it. *)
Lemma handler_within st pub interrupt terminate s i t :
  sys_reachable st pub interrupt terminate s → handlers s !! i = Some t →
  ∃ pkt, In pkt (admitted (shared s)) ∧ within (handle_datagram st pub pkt) t ∧
    Forall (backed st (shared s)) (hist t) ∧ since t ≤ clock (shared s).
Proof.
  intros [_ _ Hh _ _ _ _ _]%reachable_ok Ht. rewrite Forall_lookup in Hh.
  destruct (Hh i t Ht) as (pkt & Hp & ? & <- & [_ Htr Hb Hs]). exists pkt. split_and!; try done.
  split; [done|]. apply traces_exist.
Qed.
End refinement.

(** ** What a handler sends *)

Section sends.
Context `{Hickory} {HI : HashIter}.

Definition sends_of (tr : list Event) : list Event := List.filter is_send tr.

Lemma sends_app t1 t2 : sends_of (t1 ++ t2) = sends_of t1 ++ sends_of t2.
Proof. apply List.filter_app. Qed.

Lemma sends_silent tr : Forall (λ e, is_send e = false) tr → sends_of tr = [].
Proof. apply filter_none. Qed.

Lemma in_silent tr s b dst res :
  Forall (λ e, is_send e = false) tr → ¬ In (EvSend s b dst res) tr.
Proof. rewrite Forall_forall. intros Hs Hin%list_elem_of_In%Hs. done. Qed.

Lemma sends_nonempty tr :
  List.filter is_send tr ≠ [] → ∃ s b dst res, In (EvSend s b dst res) tr.
Proof.
  destruct (List.filter is_send tr) as [|e l] eqn:He; [done|]. intros _.
  assert (Hin : In e (List.filter is_send tr)) by (rewrite He; by left).
  apply filter_In in Hin as [Hin Hs]. destruct e; try done. eauto.
Qed.

(** The response part of a handler: silent, or the last event sends the
    records that the rate limiter granted. *)
Definition responds (st : State) (p : Published) (pkt : Datagram) (t : list Event)
    (s : Socket) (b : bytes) (dst : SocketAddr) : Prop :=
  ∃ msg i ans adds,
    from_vec (data pkt) = Ok msg ∧ md_message_type (metadata msg) = MT_Query ∧
    ingress st pkt = Some i ∧ egress i (family pkt) = Some (s, dst) ∧
    to_vec (mkMessage (response_metadata (md_id (metadata msg))) [] ans [] adds) = Ok b ∧
    (∀ r, In r (ans ++ adds) → ∃ now,
       In (EvCheck now (ifindex i) r (min_interval (probes_us msg p i)) true) t) ∧
    (published_ok p → ∀ r, In r (ans ++ adds) →
       In r (all_records p) ∧ local_to i r ∨ relayed i t r).

Lemma in_granted r tr : In r (granted_of tr) → ∃ now i iv, In (EvCheck now i r iv true) tr.
Proof.
  unfold granted_of. induction tr as [|e tr IH]; simpl; [done|].
  destruct e as [| | | | | | | | | | |now i r' iv []| |]; simpl; intros Hr; try (destruct (IH Hr) as
    (now' & i' & iv' & ?); eauto). destruct Hr as [->|Hr]; [eauto|].
  destruct (IH Hr) as (? & ? & ? & ?); eauto.
Qed.

Lemma inserts_silent src rs os tr : inserts src rs os tr → Forall (λ e, is_send e = false) tr.
Proof.
  intros [-> _]. revert os. induction rs as [|r rs IH]; intros [|o os]; simpl; constructor; auto.
Qed.

Lemma message_effects_sends st p pkt t :
  message_effects st p pkt t →
  Forall (λ e, is_send e = false) t ∨
  ∃ pre s b dst res, t = pre ++ [EvSend s b dst res] ∧ Forall (λ e, is_send e = false) pre ∧
    responds st p pkt pre s b dst.
Proof.
  unfold message_effects, responds. destruct (from_vec (data pkt)) as [msg|]; [|intros ->; by left].
  destruct (md_message_type (metadata msg)) eqn:Hty.
  - destruct (ingress st pkt) as [i|]; [|intros ->; by left].
    intros Ht. destruct (handle_query_stages _ _ _ _ _ _ Ht) as [[Hs _]|
      (cand & adds0 & draw & pre & mid & tail & chk & ans & adds & Hh & Hok & Hcase)]; [by left|].
    destruct Hok as [Hchk Hg _ Hsil Hsa Hsd _].
    destruct (build_response _ ans adds) as [b|] eqn:Hb;
      [destruct (egress i (family pkt)) as [[s dst]|] eqn:He|]; [|left; by rewrite Hcase..].
    destruct Hcase as [res ->]. right. destruct (build_response_Some _ _ _ _ Hb) as [_ Hb'].
    eexists _, s, b, dst, res. split; [reflexivity|]. split; [done|].
    exists msg, i, ans, adds. split_and!; try done.
    + rewrite <- Hg. intros r (now & i' & iv & Hin)%in_granted.
      destruct (Hchk _ _ _ _ _ Hin) as [-> ->]. eauto.
    + intros Hp r [Hr|Hr]%in_app_iff.
      * destruct (handled_answer _ _ _ _ _ _ _ _ _ _ _ r chk [] Hp Hh) as (_ & [?|[_ ?]] & _);
          [by eapply in_sublist|by left|right]. by rewrite app_nil_r in *.
      * right. rewrite <- (app_nil_r (before_send _ _ _ _ _ _ _ _)).
        eapply handled_additional; [done|]. by eapply in_sublist.
  - intros (os & Hi). left. by eapply inserts_silent.
Qed.

Lemma forward_only st pkt t s b dst res :
  traces (forward st pkt (identify_recv_iface pkt (ifaces st))) t Completed →
  In (EvSend s b dst res) t →
  b = data pkt ∧ ∃ j i, identify_recv_iface pkt (ifaces st) ≠ Some j ∧ ifaces st !! j = Some i ∧
    egress i (family pkt) = Some (s, dst).
Proof.
  intros (_ & trs & -> & Hf)%traces_forward (tj & Hj & Hin)%in_concat;
    [|apply identify_recv_iface_lt].
  apply list_elem_of_In, list_elem_of_lookup in Hj as [n Hn].
  destruct (Forall2_lookup_r _ _ _ _ _ Hf Hn) as (j & Hjn & i & Hi & Hone).
  assert (Htgt : In j (forward_targets (identify_recv_iface pkt (ifaces st))
    (SocketAddr.ip (source pkt)) (ifaces st)))
    by (apply list_elem_of_In; by eapply list_elem_of_lookup_2).
  apply in_forward_targets in Htgt as (i0 & _ & Hcase).
  destruct (egress i (family pkt)) as [[s' dst']|] eqn:He; [|by subst].
  destruct Hone as [r ->]. destruct Hin as [[= <- <- <- <-]|[]]. split; [done|].
  exists j, i. split_and!; try done.
  destruct (identify_recv_iface pkt (ifaces st)); [congruence|done].
Qed.

Lemma responds_app st p pkt t more s b dst :
  responds st p pkt t s b dst → responds st p pkt (t ++ more) s b dst.
Proof.
  intros (msg & i & ans & adds & ? & ? & ? & ? & ? & Hc & Hr). exists msg, i, ans, adds.
  split_and!; try done.
  - intros r Hin. destruct (Hc r Hin) as [now ?]. exists now. apply in_app_iff. auto.
  - intros Hp r Hin. destruct (Hr Hp r Hin); [auto|]. right. apply relayed_app. auto.
Qed.

(** A prefix that holds a send of [pre ++ send :: rest] holds all of [pre]. *)
Lemma prefix_past {A} (P : A → Prop) (h tr pre rest : list A) x y :
  h ++ tr = pre ++ y :: rest → Forall (λ e, ¬ P e) pre → P x → In x h →
  ∃ more, h = pre ++ y :: more.
Proof.
  revert pre; induction h as [|e h IH]; intros [|z pre] Heq Hf Hx Hin; simpl in *; [done..| |].
  - injection Heq as -> _. by exists h.
  - injection Heq as -> Heq. inversion Hf as [|? ? Hz Hf']; subst.
    destruct Hin as [->|Hin]; [done|]. destruct (IH pre Heq Hf' Hx Hin) as [more ->]. by exists more.
Qed.
End sends.

(** ** What a handler of the running daemon has sent *)

Section handler_sends.
Context `{Hickory} {HI : HashIter}.
Variable st : State.
Variable pub : Published.

(** The datagram repeated on another interface. *)
Definition repeats (pkt : Datagram) (sk : Socket) (b : bytes) (dst : SocketAddr) : Prop :=
  cfg_repeat (config st) = true ∧ b = data pkt ∧
  ∃ j f, identify_recv_iface pkt (ifaces st) ≠ Some j ∧ ifaces st !! j = Some f ∧
    egress f (family pkt) = Some (sk, dst).

(** A send in a part [h] of a behaviour, seen from that part. *)
Lemma datagram_sends pkt h tr e sk b dst res :
  traces (handle_datagram st pub pkt) (h ++ tr) e → In (EvSend sk b dst res) h →
  accepted st pkt ∧ (repeats pkt sk b dst ∨ responds st pub pkt h sk b dst).
Proof.
  intros [_ [[_ Hnil]|(Hacc & t1 & t2 & Heq & Hm & Hf)]]%traces_handle_datagram Hin.
  { apply app_eq_nil in Hnil as [Hnil _]. by rewrite Hnil in Hin. }
  split; [done|].
  assert (Hfwd : In (EvSend sk b dst res) t2 → repeats pkt sk b dst).
  { unfold repeats. intros Hin2. destruct (cfg_repeat (config st)); [|by subst].
    destruct (forward_only _ _ _ _ _ _ _ Hf Hin2). auto. }
  assert (Hin' : In (EvSend sk b dst res) (t1 ++ t2)) by (rewrite <- Heq; apply in_app_iff; auto).
  apply message_effects_sends in Hm as [Hs|(pre & s1 & b1 & dst1 & res1 & -> & Hs & Hr)].
  - left. apply Hfwd. apply in_app_iff in Hin' as [Hin'|?]; [|done].
    by apply in_silent in Hin'.
  - rewrite <- app_assoc in Heq. simpl in Heq.
    destruct (prefix_past (λ e, is_send e = true) _ _ _ _ (EvSend sk b dst res) _ Heq)
      as [more Hmore]; [|done..|].
    { eapply Forall_impl; [exact Hs|]. simpl. congruence. }
    rewrite !in_app_iff in Hin'. destruct Hin' as [[Hp|[[= -> -> -> ->]|[]]]|Hp]; [|right|auto].
    { by apply in_silent in Hp. }
    rewrite Hmore. by apply responds_app.
Qed.

Lemma handler_sends interrupt terminate s i t sk b dst res :
  sys_reachable st pub interrupt terminate s → handlers s !! i = Some t →
  In (EvSend sk b dst res) (hist t) →
  ∃ pkt, In pkt (admitted (shared s)) ∧ within (handle_datagram st pub pkt) t ∧
    accepted st pkt ∧ Forall (backed st (shared s)) (hist t) ∧
    (repeats pkt sk b dst ∨ responds st pub pkt (hist t) sk b dst).
Proof.
  intros Hr Ht Hin. destruct (handler_within _ _ _ _ _ _ _ Hr Ht) as (pkt & Hp & Hw & Hb & _).
  exists pkt. destruct Hw as [Htr (tr & e & Hfin)].
  destruct (datagram_sends _ _ _ _ _ _ _ _ (Htr tr e Hfin) Hin). split_and!; try done.
  split; [done|]. eauto.
Qed.
End handler_sends.

(** ** How much a handler sends *)

Section amplification.
Context `{Hickory} {HI : HashIter}.

(** A send to the group of the packet's family through the interface [j]. *)
Definition sent_on (st : State) (pkt : Datagram) (e : Event) (j : nat) : Prop :=
  ∃ f s b dst res, e = EvSend s b dst res ∧ ifaces st !! j = Some f ∧
    egress f (family pkt) = Some (s, dst).

Lemma forward_sent st pkt t :
  traces (forward st pkt (identify_recv_iface pkt (ifaces st))) t Completed →
  ∃ js, List.NoDup js ∧ (∀ j, In j js → identify_recv_iface pkt (ifaces st) ≠ Some j) ∧
    Forall2 (sent_on st pkt) (sends_of t) js.
Proof.
  intros (_ & trs & -> & Hf)%traces_forward; [|apply identify_recv_iface_lt].
  assert (Hsub : ∃ js, sublist js (forward_targets (identify_recv_iface pkt (ifaces st))
    (SocketAddr.ip (source pkt)) (ifaces st)) ∧
    Forall2 (sent_on st pkt) (sends_of (concat trs)) js).
  { induction Hf as [|j tj js trs (f & Hj & Ht) _ (js' & Hs & IH)]; [by exists []|].
    simpl. rewrite sends_app. destruct (egress f (family pkt)) as [[s dst]|] eqn:He.
    - destruct Ht as [r ->]. exists (j :: js'). split; [by constructor|]. simpl.
      constructor; [by repeat eexists|done].
    - subst. exists js'. split; [by constructor|done]. }
  destruct Hsub as (js & Hs & H2). exists js. split_and!; [| |done].
  - apply NoDup_ListNoDup. eapply sublist_NoDup; [|exact Hs].
    apply NoDup_ListNoDup, forward_targets_NoDup.
  - intros j Hj%(in_sublist _ _ _ Hs). apply in_forward_targets in Hj as (i0 & _ & Hc).
    destruct (identify_recv_iface pkt (ifaces st)); [congruence|done].
Qed.

Lemma handle_datagram_sent st p pkt tr e :
  traces (handle_datagram st p pkt) tr e →
  ∃ js, List.NoDup js ∧ Forall2 (sent_on st pkt) (sends_of tr) js.
Proof.
  intros [_ [[_ ->]|(_ & t1 & t2 & -> & Hm & Hf)]]%traces_handle_datagram;
    [exists []; split; constructor|].
  assert (Hfwd : ∃ js, List.NoDup js ∧
    (∀ j, In j js → identify_recv_iface pkt (ifaces st) ≠ Some j) ∧
    Forall2 (sent_on st pkt) (sends_of t2) js).
  { destruct (cfg_repeat (config st)); [by apply forward_sent|subst]. exists [].
    split_and!; [constructor|done|constructor]. }
  destruct Hfwd as (js & Hd & Hne & H2). rewrite sends_app.
  apply message_effects_sends in Hm as [Hs|(pre & s & b & dst & res & -> & Hs & Hr)].
  - rewrite (sends_silent t1) by done. by exists js.
  - rewrite sends_app, (sends_silent pre) by done. simpl.
    destruct Hr as (msg & i & ans & adds & _ & _ & Hi & He & _).
    pose proof (ingress_cases st pkt) as Hin.
    destruct (identify_recv_iface pkt (ifaces st)) as [j|]; [|congruence].
    destruct Hin as (i' & Hj & Hi'). rewrite Hi in Hi'. simplify_eq.
    exists (j :: js). split; [constructor; [|done]; intros Hj'; by apply (Hne j Hj')|].
    constructor; [by repeat eexists|done].
Qed.
End amplification.

(** ** How long a handler takes *)

Section duration.
Context `{Hickory} {HI : HashIter}.

(** The longest pause of a handler. *)
Definition MAX_PAUSE : Duration := Duration.from_millis 500.

Lemma forward_awake st pkt recv t :
  (∀ i, recv = Some i → (i < length (ifaces st))%nat) →
  traces (forward st pkt recv) t Completed → List.filter is_sleep t = [].
Proof.
  intros Hlt (_ & trs & -> & Hf)%traces_forward; [|done].
  induction Hf as [|j tj js trs (f & _ & Ht) _ IH]; simpl; [done|].
  rewrite List.filter_app, IH, app_nil_r.
  destruct (egress f (family pkt)) as [[s dst]|]; [destruct Ht as [r ->]|subst]; done.
Qed.

Lemma inserts_awake src rs os tr : inserts src rs os tr → List.filter is_sleep tr = [].
Proof.
  intros [-> _]. revert os. induction rs as [|r rs IH]; intros [|o os]; simpl; auto.
Qed.

(** [p] pauses at most once, for at most [MAX_PAUSE], and waits for nothing else. *)
Definition naps (tr : list Event) : Prop :=
  List.filter is_sleep tr = [] ∨ ∃ d, List.filter is_sleep tr = [EvSleep d] ∧ d ≤ MAX_PAUSE.
Definition napping {A} (p : Prog A) : Prop := ∀ tr a, traces p tr a → naps tr.
Definition awake {A} (p : Prog A) : Prop :=
  ∀ tr a, traces p tr a → List.filter is_sleep tr = [].

Lemma handle_datagram_naps st p pkt : napping (handle_datagram st p pkt).
Proof.
  intros tr e [_ [[_ ->]|(_ & t1 & t2 & -> & Hm & Hf)]]%traces_handle_datagram; [by left|].
  assert (Hf' : List.filter is_sleep t2 = []).
  { destruct (cfg_repeat (config st)); [|by subst].
    eapply forward_awake; [apply identify_recv_iface_lt|done]. }
  unfold naps. rewrite List.filter_app, Hf', app_nil_r. unfold message_effects in Hm.
  destruct (from_vec (data pkt)) as [msg|]; [|subst; by left].
  destruct (md_message_type (metadata msg)).
  - destruct (ingress st pkt) as [i|]; [|subst; by left].
    apply handle_query_pause in Hm as [?|(d & Hd & Hr)]; [by left|right]. exists d.
    split; [done|]. unfold MAX_PAUSE, Duration.from_millis, NANOS_PER_MILLI in *.
    destruct (md_truncation (metadata msg)); lia.
  - destruct Hm as (os & Hi). left. by eapply inserts_awake.
Qed.

Lemma naps_prefix t1 t2 : naps (t1 ++ t2) → naps t1.
Proof.
  unfold naps. rewrite List.filter_app. intros [Hn|(d & Hd & Hle)].
  - apply app_eq_nil in Hn as [? _]. by left.
  - destruct (List.filter is_sleep t1) as [|e l]; [by left|right].
    injection Hd as -> Hd. apply app_eq_nil in Hd as [-> _]. eauto.
Qed.

Lemma naps_suffix t1 t2 : naps (t1 ++ t2) → naps t2.
Proof.
  unfold naps. rewrite List.filter_app. intros [Hn|(d & Hd & Hle)].
  - apply app_eq_nil in Hn as [_ ?]. by left.
  - destruct (List.filter is_sleep t1) as [|e l]; [right; eauto|left].
    injection Hd as -> Hd. by apply app_eq_nil in Hd as [_ ?].
Qed.

(** The answers of [drive_act] are possible, and only waiting takes time. *)
Lemma drive_act_admissible w s {X} (act : Act X) : admissible act (drive_act w s act).1.
Proof.
  destruct act; simpl; repeat case_match; simpl; try done; eauto.
Qed.

Lemma drive_act_clock w s {X} (act : Act X) x :
  is_sleep (obs act x) = false → clock (drive_act w s act).2 = clock w.
Proof. destruct act; simpl; repeat case_match; try done; by simplify_eq/=. Qed.

Lemma drive_awake {A} (p : Prog A) w s : awake p → clock (drive w s p).2 = clock w.
Proof.
  revert w s; induction p as [a|X act k IH]; intros w s Hp; simpl; [done|].
  pose proof (drive_act_admissible w s act) as Ha.
  destruct (drive_act w s act) as [x w'] eqn:Hd. simpl in Ha.
  assert (Hev : ∀ tr a, traces (k x) tr a → List.filter is_sleep (obs act x :: tr) = []).
  { intros tr a Ht. apply (Hp _ a). simpl. eauto. }
  destruct (traces_exist (k x)) as (tr & a & Ht). pose proof (Hev tr a Ht) as Hx. simpl in Hx.
  destruct (is_sleep (obs act x)) eqn:Hs; [done|].
  pose proof (drive_act_clock w s act x Hs) as Hc. rewrite Hd in Hc. simpl in Hc. rewrite <- Hc.
  apply IH. intros tr' a' Ht'. specialize (Hev tr' a' Ht'). simpl in Hev. by rewrite Hs in Hev.
Qed.

(** An action of a handler whose pause is over takes no time, and after a pause
    there is no other. *)
Lemma napping_ready {A X} (act : Act X) (k : X → Prog A) w s :
  napping (Vis act k) → s + MAX_PAUSE ≤ clock w →
  clock (drive_act w s act).2 = clock w ∧
  (is_sleep (obs act (drive_act w s act).1) = true → awake (k (drive_act w s act).1)).
Proof.
  intros Hp Hs. pose proof (drive_act_admissible w s act) as Ha.
  destruct (traces_exist (k (drive_act w s act).1)) as (tr & a & Ht).
  assert (Hev : ∀ tr a, traces (k (drive_act w s act).1) tr a →
    naps (obs act (drive_act w s act).1 :: tr)).
  { intros tr' a' Ht'. apply (Hp _ a'). simpl. eauto. }
  pose proof (Hev tr a Ht) as Hn. unfold naps in Hn. simpl in Hn.
  destruct (is_sleep (obs act (drive_act w s act).1)) eqn:Hsl.
  - destruct Hn as [?|(d & [= Hd _] & Hle)]; [done|]. split.
    + destruct act; simpl in *; try done. simplify_eq. lia.
    + intros _ tr' a' Ht'. specialize (Hev tr' a' Ht'). unfold naps in Hev. simpl in Hev.
      rewrite Hsl in Hev. destruct Hev as [?|(? & [= _ ?] & _)]; done.
  - split; [|done]. by eapply drive_act_clock.
Qed.

(** [p] runs to its end in no time once its pause is over. *)
Definition settled {A} (p : Prog A) : Prop :=
  ∀ w s, s + MAX_PAUSE ≤ clock w → clock (drive w s p).2 = clock w.

Variable st : State.
Variable pub : Published.
Variable interrupt terminate : result IoError unit.

(** A program runs up to its pause in no time. *)
Lemma settle {A} (F : Shared → Task A → Sys) :
  (∀ w t w' t', task_step w t w' t' → sys_step st pub interrupt terminate (F w t) (F w' t')) →
  ∀ p, napping p → ∀ w s h, s ≤ clock w → ∃ w' s' h' p',
    rtc (sys_step st pub interrupt terminate) (F w (mkTask s h p)) (F w' (mkTask s' h' p')) ∧
    clock w' = clock w ∧ s' ≤ clock w ∧ settled p'.
Proof.
  intros Hstep p. induction p as [a|X act k IH]; intros Hp w s h Hs.
  { exists w, s, h, (Ret a). split_and!; try done. }
  pose proof (drive_act_admissible w s act) as Ha. pose proof (drive_act_step w s act) as Hst.
  destruct (drive_act w s act) as [x w'] eqn:Hd. simpl in Ha. destruct Hst as [_ Hst].
  destruct (is_sleep (obs act x)) eqn:Hsl.
  - exists w, s, h, (Vis act k). split_and!; try done. intros w0 s0 H0.
    destruct (napping_ready act k w0 s0 Hp H0) as [Hc Haw]. simpl.
    destruct (drive_act w0 s0 act) as [x0 w0']. simpl in *. rewrite <- Hc.
    apply drive_awake, Haw. by destruct act.
  - pose proof (drive_act_clock w s act x Hsl) as Hc. rewrite Hd in Hc. simpl in Hc.
    rewrite Hc in Hst. assert (Hw : at_time (clock w) w = w) by by destruct w.
    rewrite Hw in Hst.
    destruct (IH x) with (w := w') (s := clock w) (h := h ++ [obs act x])
      as (w2 & s2 & h2 & p2 & Hr & Hc2 & Hs2 & Hset); [|lia|].
    { intros tr a Ht. apply (naps_suffix [obs act x]). apply (Hp _ a). simpl. eauto. }
    exists w2, s2, h2, p2. split_and!; try done; [|lia..].
    eapply rtc_l; [|exact Hr]. apply Hstep. by constructor.
Qed.

(** The step of one handler among the others. *)
Lemma handler_frame w t w' t' ph l1 l2 ev br sw :
  (∀ past c code, ph ≠ Exited past c code) → task_step w t w' t' →
  sys_step st pub interrupt terminate
    (mkSys w ph (l1 ++ t :: l2) ev br sw) (mkSys w' ph (l1 ++ t' :: l2) ev br sw).
Proof.
  intros Hal Ht. split; [done|].
  assert (Hins : l1 ++ t' :: l2 = <[length l1 := t']> (l1 ++ t :: l2)).
  { pose proof (insert_app_r l1 (t :: l2) 0 t') as Hi. rewrite Nat.add_0_r in Hi. by rewrite Hi. }
  rewrite Hins.
  apply (step_handler _ _ _ _ w ph _ ev br sw (length l1) t w' t'); [|done].
  by rewrite list_lookup_middle.
Qed.

Lemma settle_all w ph l1 l2 ev br sw :
  (∀ past c code, ph ≠ Exited past c code) →
  Forall (λ t, napping (prog t) ∧ since t ≤ clock w) l2 →
  ∃ w' l2', rtc (sys_step st pub interrupt terminate)
              (mkSys w ph (l1 ++ l2) ev br sw) (mkSys w' ph (l1 ++ l2') ev br sw) ∧
    clock w' = clock w ∧ Forall (λ t, settled (prog t) ∧ since t ≤ clock w) l2'.
Proof.
  intros Hal. revert w l1; induction l2 as [|[s h p] l2 IH]; intros w l1 Hf.
  { exists w, []. by split_and!. }
  inversion Hf as [|? ? [Hp Hs] Hf']; subst. simpl in Hp, Hs.
  destruct (settle (λ w t, mkSys w ph (l1 ++ t :: l2) ev br sw)) with (p := p) (w := w) (s := s)
    (h := h) as (w1 & s1 & h1 & p1 & Hr1 & Hc1 & Hs1 & Hset); [by intros; apply handler_frame|done..|].
  destruct (IH w1 (l1 ++ [mkTask s1 h1 p1])) as (w2 & l2' & Hr2 & Hc2 & Hf2).
  { eapply Forall_impl; [exact Hf'|]. intros t [? ?]. split; [done|lia]. }
  rewrite <- !app_assoc in Hr2. simpl in Hr2.
  exists w2, (mkTask s1 h1 p1 :: l2'). split; [by etrans|]. split; [lia|].
  constructor; [by split|]. eapply Forall_impl; [exact Hf2|]. intros t [? ?]. split; [done|lia].
Qed.

Lemma finish_all w ph hs ev br sw :
  (∀ past c code, ph ≠ Exited past c code) →
  Forall (λ t, settled (prog t) ∧ since t + MAX_PAUSE ≤ clock w) hs →
  ∃ w', rtc (sys_step st pub interrupt terminate)
          (mkSys w ph hs ev br sw) (mkSys w' ph [] ev br sw) ∧ clock w' = clock w.
Proof.
  intros Hal. revert w; induction hs as [|[s h p] hs IH]; intros w Hf; [by exists w|].
  inversion Hf as [|? ? [Hp Hs] Hf']; subst. simpl in Hp, Hs.
  destruct (drive_steps st pub interrupt terminate (λ w t, mkSys w ph (t :: hs) ev br sw))
    with (p := p) (w := w) (s := s) (h := h) as (s' & Hr).
  { intros. by apply (handler_frame _ _ _ _ ph []). }
  { intros w0 t c Hc. split; [done|]. by constructor. }
  pose proof (Hp w s Hs) as Hc.
  destruct (IH (drive w s p).2) as (w' & Hw' & Hc'); [by rewrite Hc|].
  exists w'. split; [|lia]. etrans; [exact Hr|].
  eapply rtc_l; [|exact Hw']. split; [done|].
  exact (step_handled st pub interrupt terminate _ ph (mkTask s' _ (Ret _) :: hs) ev br sw
    0 s' _ _ eq_refl).
Qed.

(** All handlers run to their end within [MAX_PAUSE]. *)
Lemma handlers_finish w ph hs ev br sw :
  (∀ past c code, ph ≠ Exited past c code) →
  Forall (λ t, napping (prog t) ∧ since t ≤ clock w) hs →
  ∃ w', rtc (sys_step st pub interrupt terminate)
          (mkSys w ph hs ev br sw) (mkSys w' ph [] ev br sw) ∧ clock w' = clock w + MAX_PAUSE.
Proof.
  intros Hal Hf. destruct (settle_all w ph [] hs ev br sw Hal Hf) as (w1 & hs1 & Hr1 & Hc1 & Hf1).
  destruct (finish_all (at_time (clock w + MAX_PAUSE) w1) ph hs1 ev br sw Hal)
    as (w2 & Hr2 & Hc2).
  { eapply Forall_impl; [exact Hf1|]. intros t [? ?]. split; [done|]. simpl. lia. }
  exists w2. split; [|done]. etrans; [exact Hr1|]. eapply rtc_l; [|exact Hr2].
  split; [done|]. apply step_time. rewrite Hc1. unfold MAX_PAUSE, Duration.from_millis, NANOS_PER_MILLI. lia.
Qed.
End duration.

(** ** The records of a response *)

Section records.
Context `{Hickory} {HI : HashIter}.

Lemma published_ttl p r : published_ok p → In r (all_records p) → 1 ≤ rec_ttl r ≤ u32_MAX.
Proof.
  intros [Ha H6 Hs]. rewrite Forall_forall in Ha. rewrite Forall_forall in H6.
  rewrite Forall_forall in Hs. unfold all_records. rewrite !in_app_iff, in_flat_map.
  assert (Hb : 1 ≤ TTL_HOST ≤ u32_MAX ∧ 1 ≤ TTL_SERVICE ≤ u32_MAX) by (by vm_compute).
  intros [Hr|[Hr|(s & Hin & Hr)]].
  - apply list_elem_of_In, Ha in Hr as (_ & -> & _). apply Hb.
  - apply list_elem_of_In, H6 in Hr as (_ & -> & _). apply Hb.
  - apply list_elem_of_In, Hs in Hin as [_ _ _ _ _ _ _ _ _ (T1 & T2 & T3 & T4)].
    destruct Hr as [<-|[<-|[<-|[<-|[]]]]]; rewrite ?T1, ?T2, ?T3, ?T4; apply Hb.
Qed.
End records.

(** ** Properties *)

Section properties.
Context `{Hickory} {HI : HashIter}.

(** C4. Every datagram that a handler of the running daemon has sent was caused
    by an accepted datagram, and is either that datagram repeated, unchanged, on
    another interface, or the response to it on its ingress interface; for every
    record of such a response the rate limiter has granted the record on that
    interface, with the interval of the situation, in its history. *)
Theorem handler_sends_backed st pub interrupt terminate s i t sk b dst res :
  sys_reachable st pub interrupt terminate s → handlers s !! i = Some t →
  In (EvSend sk b dst res) (hist t) →
  ∃ pkt, within (handle_datagram st pub pkt) t ∧ accepted st pkt ∧
    ((cfg_repeat (config st) = true ∧ b = data pkt ∧
      ∃ j f, identify_recv_iface pkt (ifaces st) ≠ Some j ∧ ifaces st !! j = Some f ∧
        egress f (family pkt) = Some (sk, dst)) ∨
     ∃ msg f ans adds,
       from_vec (data pkt) = Ok msg ∧ md_message_type (metadata msg) = MT_Query ∧
       ingress st pkt = Some f ∧ egress f (family pkt) = Some (sk, dst) ∧
       to_vec (mkMessage (response_metadata (md_id (metadata msg))) [] ans [] adds) = Ok b ∧
       ∀ r, In r (ans ++ adds) → ∃ g, In g (grants (shared s)) ∧
         MulticastTracker.g_key g = track_key (ifindex f) r ∧
         MulticastTracker.g_interval g = min_interval (probes_us msg pub f)).
Proof.
  intros Hreach Ht Hin.
  destruct (handler_sends _ _ _ _ _ _ _ _ _ _ _ Hreach Ht Hin) as (pkt & _ & Hw & Hacc & Hb & Hcase).
  exists pkt. split; [done|]. split; [done|].
  destruct Hcase as [Hrep|(msg & f & ans & adds & Hm & Hty & Hi & He & Hv & Hg & _)];
    [by left|right].
  exists msg, f, ans, adds. split_and!; try done. intros r Hr.
  destruct (Hg r Hr) as [now Hc]. rewrite Forall_forall in Hb.
  apply list_elem_of_In, Hb in Hc as (g & ? & ? & _ & ?). eauto.
Qed.

(** C12. No record is made up.  In every reachable state, a datagram that a handler
    has sent is the received one, unchanged, or a response each record of which
    has a TTL of at least one second and is either one of our published records, an
    address record only on the link of its address, or comes without cache-flush
    bit from the network: its name, class and data are those of a record in an
    accepted response that the daemon has received, and a record with its key was
    received on an interface other than the one it is now sent on. *)
Theorem response_records_learned host svcs pub st interrupt terminate s i t sk b dst res :
  build host svcs (ifaces st) = Ok pub →
  sys_reachable st pub interrupt terminate s → handlers s !! i = Some t →
  In (EvSend sk b dst res) (hist t) →
  (∃ pkt, In pkt (admitted (shared s)) ∧ b = data pkt) ∨
  ∃ pkt msg f ans adds, In pkt (admitted (shared s)) ∧
    from_vec (data pkt) = Ok msg ∧ ingress st pkt = Some f ∧
    to_vec (mkMessage (response_metadata (md_id (metadata msg))) [] ans [] adds) = Ok b ∧
    ∀ r, In r (ans ++ adds) →
      1 ≤ rec_ttl r ≤ u32_MAX ∧
      (In r (all_records pub) ∧ local_to f r ∨
       rec_cache_flush r = false ∧
       (∃ pkt0 msg0 r0, In pkt0 (admitted (shared s)) ∧ accepted st pkt0 ∧
          from_vec (data pkt0) = Ok msg0 ∧ md_message_type (metadata msg0) = MT_Response ∧
          In r0 (all_sections msg0) ∧ rec_name r = rec_name r0 ∧ rec_class r = rec_class r0 ∧
          rec_data r = rec_data r0) ∧
       ∃ pkt1 msg1 r1 f1, In pkt1 (admitted (shared s)) ∧ accepted st pkt1 ∧
          from_vec (data pkt1) = Ok msg1 ∧ md_message_type (metadata msg1) = MT_Response ∧
          In r1 (all_sections msg1) ∧ key_of r1 ≡ key_of r ∧
          ingress st pkt1 = Some f1 ∧ ifindex f1 ≠ ifindex f).
Proof.
  intros (_ & Hp & _)%build_ok Hr Ht Hin.
  destruct (handler_sends _ _ _ _ _ _ _ _ _ _ _ Hr Ht Hin) as (pkt & Had & _ & _ & Hbk & Hcase).
  destruct Hcase as [(_ & -> & _)|(msg & f & ans & adds & Hm & _ & Hf & _ & Hv & _ & Hrec)];
    [left; by exists pkt|right].
  exists pkt, msg, f, ans, adds. split_and!; try done. intros r Hrin.
  destruct (Hrec Hp r Hrin) as [[Hpub Hl]|(Hfl & now & n & ty & found & Hlk & Hfound & _ & _ & Httl)].
  - split; [by eapply published_ttl|by left].
  - split; [done|]. right. split; [done|]. rewrite Forall_forall in Hbk.
    apply list_elem_of_In, Hbk in Hlk. simpl in Hlk.
    destruct (Hlk r Hfound) as [(r0 & src & (pkt0 & msg0 & ? & ? & ? & ? & ? & _) & ? & ? & ?)
      (idx & r1 & Hne & (pkt1 & msg1 & ? & ? & ? & ? & ? & Hsrc) & Hk)].
    split; [exists pkt0, msg0, r0; by split_and!|].
    destruct (ingress st pkt1) as [f1|] eqn:Hf1; simplify_eq/=.
    exists pkt1, msg1, r1, f1. by split_and!.
Qed.

(** C11. No amplification: a received datagram makes the daemon send at most one
    datagram on each monitored interface, in every reachable state and for every
    handler: the sends of a handler can be attributed, one to one, to interfaces
    through whose socket for the datagram's family they went. *)
Theorem handler_amplification st pub interrupt terminate s i t :
  sys_reachable st pub interrupt terminate s → handlers s !! i = Some t →
  ∃ pkt js, In pkt (admitted (shared s)) ∧ List.NoDup js ∧
    Forall2 (λ e j, ∃ f sk b dst res, e = EvSend sk b dst res ∧ ifaces st !! j = Some f ∧
                      egress f (family pkt) = Some (sk, dst))
      (List.filter is_send (hist t)) js.
Proof.
  intros Hr Ht. destruct (handler_within _ _ _ _ _ _ _ Hr Ht) as (pkt & Hp & [Htr (tr & e & Hfin)] & _).
  exists pkt. destruct (handle_datagram_sent _ _ _ _ _ (Htr tr e Hfin)) as (js & Hd & Hf).
  rewrite sends_app in Hf. apply Forall2_app_inv_l in Hf as (js1 & js2 & Hf & _ & ->).
  exists js1. split_and!; [done| |exact Hf]. by apply List.NoDup_app_remove_r in Hd.
Qed.

(** C10. The handlers finish in time.  In every reachable state a handler has paused
    at most once, for at most 500 ms, and has waited for nothing else; a handler
    that has not acted for 500 ms has returned or can act; and as long as the daemon
    has not exited all handlers in flight can run to their end within 500 ms without
    anything else happening. *)
Theorem handlers_terminate st pub interrupt terminate s :
  sys_reachable st pub interrupt terminate s →
  (∀ i t, handlers s !! i = Some t →
     (List.filter is_sleep (hist t) = [] ∨
      ∃ d, List.filter is_sleep (hist t) = [EvSleep d] ∧ d ≤ Duration.from_millis 500) ∧
     (since t + Duration.from_millis 500 ≤ clock (shared s) →
      (∃ e, prog t = Ret e) ∨ ∃ w' t', task_step (shared s) t w' t')) ∧
  (alive s → ∃ s', rtc (sys_step st pub interrupt terminate) s s' ∧ handlers s' = [] ∧
     phase s' = phase s ∧ clock (shared s') ≤ clock (shared s) + Duration.from_millis 500).
Proof.
  intros Hr.
  assert (Hnap : ∀ i t, handlers s !! i = Some t →
    naps (hist t) ∧ napping (prog t) ∧ since t ≤ clock (shared s)).
  { intros i t Ht. destruct (handler_within _ _ _ _ _ _ _ Hr Ht)
      as (pkt & _ & [Htr (tr & e & Hfin)] & _ & Hs). split_and!; [| |done].
    - apply (naps_prefix _ tr). by eapply handle_datagram_naps, Htr.
    - intros tr' a Ht'. apply (naps_suffix (hist t)). by eapply handle_datagram_naps, Htr. }
  split.
  - intros i t Ht. destruct (Hnap i t Ht) as (Hh & Hp & _). split; [exact Hh|].
    intros Hs. destruct t as [c h [a|X act k]]; [left; by exists a|right]. simpl in *.
    destruct (napping_ready act k (shared s) c Hp Hs) as [Hc _].
    pose proof (drive_act_step (shared s) c act) as Hst.
    destruct (drive_act (shared s) c act) as [x w'] eqn:Hd. simpl in Hc.
    rewrite Hc in Hst. exists w', (mkTask (clock (shared s)) (h ++ [obs act x]) (k x)).
    constructor. destruct Hst as [_ Hst]. by destruct (shared s).
  - intros Hal. destruct s as [w ph hs ev br sw]. simpl in *.
    destruct (handlers_finish st pub interrupt terminate w ph hs ev br sw Hal) as (w' & Hw & Hc).
    { apply Forall_lookup. intros i t Ht. destruct (Hnap i t Ht) as (_ & ? & ?). by split. }
    exists (mkSys w' ph [] ev br sw). split_and!; try done. simpl. rewrite Hc. done.
Qed.
End properties.

Module TasksSample.
Import Sample IfaceSample ServicesSample ResponderSample EngineSample SystemSample.

(** The query for our service that arrives after the announcements is answered. *)
Definition done_events : list Event := events announced query_pkt.

Lemma answered_reachable :
  ∃ s, sys_reachable st pub (Ok tt) (Ok tt)
         (serving once [mkTask s done_events (Ret (after announced query_pkt).1)]).
Proof. exact (handled_reachable announced query_pkt serving_reachable). Qed.

(** One datagram was sent: the response. *)
Lemma done_sends : length (List.filter is_send done_events) = 1%nat.
Proof. vm_compute. reflexivity. Qed.

Lemma done_sent : ∃ sk b dst res, In (EvSend sk b dst res) done_events.
Proof. apply sends_nonempty. intros Hn. pose proof done_sends as Hl. by rewrite Hn in Hl. Qed.

Lemma handler_sends_backed_witness : ∃ pkt, accepted st pkt.
Proof.
  destruct answered_reachable as [s Hs]. destruct done_sent as (sk & b & dst & res & Hin).
  destruct (handler_sends_backed st pub (Ok tt) (Ok tt) _ 0%nat _ sk b dst res Hs
    eq_refl Hin) as (pkt & _ & Hacc & _).
  exists pkt. exact Hacc.
Defined.

Lemma handler_amplification_witness :
  ∃ js : list nat, List.NoDup js ∧ length js = 1%nat.
Proof.
  destruct answered_reachable as [s Hs].
  destruct (handler_amplification st pub (Ok tt) (Ok tt) _ 0%nat _ Hs eq_refl)
    as (pkt & js & _ & Hd & Hf).
  exists js. split; [exact Hd|]. rewrite <- (Forall2_length _ _ _ Hf). exact done_sends.
Defined.

(** The handler has paused once (20 ms, for a shared record). *)
Lemma handlers_terminate_witness :
  ∃ d, List.filter is_sleep done_events = [EvSleep d] ∧ d ≤ Duration.from_millis 500.
Proof.
  destruct answered_reachable as [s Hs].
  assert (Hl : length (List.filter is_sleep done_events) = 1%nat) by (vm_compute; reflexivity).
  destruct (proj1 (proj1 (handlers_terminate st pub (Ok tt) (Ok tt) _ Hs) 0%nat _ eq_refl))
    as [Hn|Hd]; [|exact Hd].
  cbn [hist] in Hn. rewrite Hn in Hl. discriminate Hl.
Defined.

(** The query is the only datagram so far. *)
Lemma admitted_once : admitted once = [query_pkt].
Proof. unfold once, after. by rewrite drive_admitted. Qed.

(** What was sent is not the datagram that came in. *)
Lemma done_response sk b dst res : In (EvSend sk b dst res) done_events → b ≠ data query_pkt.
Proof.
  assert (Hl : forallb (λ e, match e with EvSend _ b _ _ => (length b =? 4)%nat | _ => true end)
    done_events = true) by (vm_compute; reflexivity).
  rewrite forallb_forall in Hl. intros Hin%Hl ->. discriminate Hin.
Qed.

Lemma response_records_learned_witness :
  ∃ (b : bytes) ans adds,
    to_vec (mkMessage (response_metadata 5) [] ans [] adds) = Ok b ∧
    ∀ r, In r (ans ++ adds) → 1 ≤ rec_ttl r ≤ u32_MAX.
Proof.
  destruct answered_reachable as [s Hs]. destruct done_sent as (sk & b & dst & res & Hin).
  exists b.
  pose proof (response_records_learned host [sc_http] pub st (Ok tt) (Ok tt)
    (serving once [mkTask s done_events (Ret (after announced query_pkt).1)]) 0%nat
    (mkTask s done_events (Ret (after announced query_pkt).1)) sk b dst res build_eq Hs
    eq_refl Hin) as Hl.
  unfold serving in Hl. cbn [shared] in Hl.
  destruct Hl as [(pkt & Hp & Hb)|(pkt & msg & f & ans & adds & Hp & Hm & _ & Hv & Hr)];
    rewrite admitted_once in Hp; destruct Hp as [<-|[]].
  - destruct (done_response _ _ _ _ Hin Hb).
  - injection Hm as <-. exists ans, adds. split; [exact Hv|]. intros r Hrin. apply (Hr r Hrin).
Defined.
End TasksSample.
