(* ===== verification/Relay.v ===== *)
(** * Relay: learning on one link, answering on another

    The cross-interface service of the daemon, end to end: the handler of a
    response on one interface ([engine::handle_datagram], [Cache::insert_from]),
    any further operations on the cache, and a query on another interface
    ([responder::candidate_answers], [Cache::lookup_from_other_ifaces]). *)

From S2P Require Import Prelude RustStd StdNet Hickory RecordKey Cache CacheSpec Timing Os.
From S2P Require Import Effects Iface Config Services State Repeater Responder Engine.
From stdpp Require Import strings.
Open Scope Z_scope.
Open Scope list_scope.

(** ** Executions and sequencing *)

Section run_lemmas.
Context `{Hickory} {HI : HashIter}.

Lemma run_bind {A B} env (p : Prog A) (f : A → Prog B) w :
  run env (prog_bind p f) w = run env (f (run env p w).1) (run env p w).2.
Proof.
  revert w; induction p as [a|X act k IH]; intros w; simpl; [done|].
  destruct (perform env w act) as [x w']. apply IH.
Qed.

Lemma run_trace_bind {A B} env (p : Prog A) (f : A → Prog B) w :
  run_trace env (prog_bind p f) w =
  run_trace env p w ++ run_trace env (f (run env p w).1) (run env p w).2.
Proof.
  revert w; induction p as [a|X act k IH]; intros w; simpl; [done|].
  destruct (perform env w act) as [x w']. by rewrite IH.
Qed.

Definition writes_cache (e : Event) : bool :=
  match e with EvInsert _ _ _ | EvEvict _ _ => true | _ => false end.

(** Only insertions and sweeps change the cache. *)
Lemma run_cache {A} env (p : Prog A) w :
  Forall (λ e, writes_cache e = false) (run_trace env p w) →
  w_cache (run env p w).2 = w_cache w.
Proof.
  revert w; induction p as [a|X act k IH]; intros w; simpl; [done|].
  destruct (perform env w act) as [x w'] eqn:Hp. intros Hf.
  inversion Hf as [|? ? He Hr]; subst. rewrite IH by done. simpl.
  destruct act; simpl in Hp, He; try done; repeat case_match; by simplify_eq.
Qed.

(** Gathering answers leaves the clock and the cache alone. *)
Lemma run_gathering {A} env (p : Prog A) w :
  Forall gathering (run_trace env p w) →
  w_cache (run env p w).2 = w_cache w ∧ w_clock (run env p w).2 = w_clock w.
Proof.
  revert w; induction p as [a|X act k IH]; intros w; simpl; [done|].
  destruct (perform env w act) as [x w'] eqn:Hp. intros Hf.
  inversion Hf as [|? ? He Hr]; subst. destruct (IH x (bump w') Hr) as [-> ->]. simpl.
  destruct act; simpl in Hp, He; try done; by simplify_eq.
Qed.
End run_lemmas.

(** ** Staying in the cache *)

Section staying.
Context `{Hickory} {HI : HashIter}.
Import Cache.

(** [r2] neither refreshes nor replaces nor withdraws the record of the key [k]. *)
Definition spares (k : RecordKey) (r2 : DnsRecord) : Prop :=
  ¬ key_of r2 ≡ k ∧ ¬ superseded r2 k.

(** The entry [e] is stored for [k] and there is room for [n] more. *)
Record holds (k : RecordKey) (e : Entry) (n : nat) (g : Inner) : Prop := {
  ho_wf : HashMap.wf (by_key g);
  ho_get : HashMap.get k (by_key g) = Some e;
  ho_room : Z.of_nat (len g + n) ≤ max_entries g;
}.

Lemma insert_from_shape now r src g :
  HashMap.wf (by_key g) →
  HashMap.wf (by_key (insert_from now r src g).2) ∧
  (len (insert_from now r src g).2 ≤ S (len g))%nat ∧
  max_entries (insert_from now r src g).2 = max_entries g ∧
  max_ttl (insert_from now r src g).2 = max_ttl g.
Proof.
  intros Hwf. unfold insert_from, len. destruct (rec_ttl _ =? 0); simpl.
  { split_and!; eauto with nmdns.
    pose proof (HashMap.len_remove (key_of r) _ Hwf). lia. }
  pose proof (wf_flush (cap_record (max_ttl g) r) _ Hwf) as Hwf'.
  pose proof (len_flush (cap_record (max_ttl g) r) (by_key g)) as Hle.
  destruct (HashMap.get _ (flush _ _)); simpl; rewrite HashMap.len_insert.
  - split_and!; [by apply HashMap.wf_insert| |done..]. case_decide; lia.
  - split_and!; [by apply HashMap.wf_insert, wf_make_room| |done..].
    assert (Hm : (HashMap.len (make_room (max_entries g) (flush (cap_record (max_ttl g) r)
      (by_key g))) ≤ HashMap.len (flush (cap_record (max_ttl g) r) (by_key g)))%nat).
    { unfold make_room. repeat case_match; try lia. unfold HashMap.len. apply filter_length_le. }
    case_decide; lia.
Qed.

Lemma get_flush_spared k r2 cap e m :
  HashMap.wf m → ¬ superseded r2 k → HashMap.get k m = Some e →
  HashMap.get k (flush (cap_record cap r2) m) = Some e.
Proof.
  intros Hwf Hs. unfold HashMap.get. destruct (HashMap.find k m) as [[k' e']|] eqn:Hf; [|done].
  intros [= ->]. destruct (flushed_cases (cap_record cap r2) m k k' e Hwf Hf) as [?|Hc]; [done|].
  destruct Hs. unfold superseded. unfold cap_record in Hc. by repeat case_match.
Qed.

Lemma holds_insert now r2 src k e n g :
  spares k r2 → holds k e (S n) g → holds k e n (insert_from now r2 src g).2.
Proof.
  intros [Hk Hs] [Hwf Hg Hroom].
  destruct (insert_from_shape now r2 src g Hwf) as (Hwf' & Hlen & Hmax & _).
  split; [done| |rewrite Hmax; lia].
  assert (Hk' : ¬ k ≡ key_of r2) by (intros ?; by apply Hk).
  unfold insert_from. destruct (rec_ttl _ =? 0); simpl.
  { by rewrite HashMap.get_remove, decide_False. }
  pose proof (get_flush_spared k r2 (max_ttl g) e _ Hwf Hs Hg) as Hfl.
  destruct (HashMap.get (key_of r2) (flush _ _)); simpl;
    rewrite HashMap.get_insert, decide_False; try done.
  unfold make_room. pose proof (len_flush (cap_record (max_ttl g) r2) (by_key g)).
  unfold len in Hroom. rewrite (proj2 (Z.leb_gt _ _)) by lia. done.
Qed.

Lemma holds_evict now k e n g :
  now < deadline e → holds k e n g → holds k e n (evict_expired now g).2.
Proof.
  intros Hlt [Hwf Hg Hroom]. split; simpl; [by apply HashMap.wf_retain| |].
  - unfold HashMap.get in *. rewrite HashMap.get_retain by done.
    destruct (HashMap.find k (by_key g)) as [[k' e']|]; [|done]. simplify_eq/=.
    rewrite (proj2 (Z.ltb_lt _ _)) by done. done.
  - unfold len in *. simpl.
    pose proof (HashMap.len_retain_le (λ _ e, now <? deadline e) (by_key g)). lia.
Qed.

(** The records that a sequence of operations inserts. *)
Definition inserted_by (ops : list (Instant * CacheOp)) : list DnsRecord :=
  omap (λ p, match p.2 with OpInsert r _ => Some r | _ => None end) ops.

Lemma holds_ops ops k e g :
  (∀ r2, In r2 (inserted_by ops) → spares k r2) →
  (∀ t, In (t, OpEvict) ops → t < deadline e) →
  holds k e (length (inserted_by ops)) g → holds k e 0 (cache_ops ops g).2.
Proof.
  revert g; induction ops as [|[t op] ops IH]; intros g Hs Hv Hh; simpl; [done|].
  destruct (cache_op t op g) as [a g1] eqn:Hop. destruct (cache_ops ops g1) as [l g2] eqn:Hops.
  simpl. change g2 with ((l, g2).2). rewrite <- Hops.
  assert (Hs' : ∀ r2, In r2 (inserted_by ops) → spares k r2).
  { intros r2 Hr. apply Hs. unfold inserted_by in *. simpl. case_match; simpl; auto. }
  apply IH; [done|intros t' Ht'; apply Hv; by right|].
  destruct op as [r2 src| |name rtype [arrival|]]; simpl in *; simplify_eq; try done.
  - destruct (insert_from t r2 src g) as [o g'] eqn:Hi. simplify_eq.
    pose proof (holds_insert t r2 src k e _ g (Hs r2 (or_introl eq_refl)) Hh) as Hx.
    by rewrite Hi in Hx.
  - apply (holds_evict t); [|done]. apply Hv. by left.
Qed.

(** The records of a response, in order. *)
Definition insert_all (now : Instant) (src : option Z) (rs : list DnsRecord) (g : Inner) : Inner :=
  fold_left (λ g r, (insert_from now r src g).2) rs g.

Lemma insert_all_inv now src rs g :
  Forall record_ok rs → inv now g →
  inv now (insert_all now src rs g) ∧ (len (insert_all now src rs g) ≤ len g + length rs)%nat ∧
  max_entries (insert_all now src rs g) = max_entries g ∧
  max_ttl (insert_all now src rs g) = max_ttl g.
Proof.
  revert g; induction rs as [|r rs IH]; intros g Hr Hinv; simpl; [split_and!; try done; lia|].
  inversion Hr as [|? ? Hr1 Hrs]; subst.
  destruct (insert_from_shape now r src g (inv_wf _ _ Hinv)) as (_ & Hl & Hm & Ht).
  destruct (IH (insert_from now r src g).2 Hrs) as (? & Hl' & Hm' & Ht');
    [by apply inv_insert_from|].
  split_and!; [done|lia|congruence..].
Qed.

Lemma holds_insert_all now src rs k e n g :
  Forall (spares k) rs → holds k e (length rs + n) g → holds k e n (insert_all now src rs g).
Proof.
  revert g; induction rs as [|r rs IH]; intros g Hs Hh; simpl in *; [done|].
  inversion Hs; subst. apply IH; [done|]. by apply holds_insert.
Qed.

(** One of the records of a response, after all of them were inserted. *)
Lemma insert_all_holds now i before r after n g :
  inv now g → Forall record_ok (before ++ r :: after) → rec_ttl r ≠ 0 →
  Forall (spares (key_of r)) after →
  Z.of_nat (len g + length (before ++ r :: after) + n) ≤ max_entries g →
  ∃ e, holds (key_of r) e n (insert_all now (Some i) (before ++ r :: after) g) ∧
    key_of (record e) = key_of r ∧ source_ifindex e = Some i ∧
    deadline e = now + Duration.from_secs (rec_ttl (cap_record (max_ttl g) r)).
Proof.
  intros Hinv Hok Hne Hsp Hroom. apply Forall_app in Hok as [Hb [Hr Ha]%Forall_cons].
  unfold insert_all. rewrite fold_left_app. simpl. fold (insert_all now (Some i) before g).
  destruct (insert_all_inv now (Some i) before g Hb Hinv) as (Hinv1 & Hl1 & Hm1 & Ht1).
  set (g1 := insert_all now (Some i) before g) in *.
  exists (stored now r (Some i) g1).
  split_and!; [|apply key_of_cap|done|simpl; by rewrite Ht1].
  apply (holds_insert_all now (Some i) after); [done|].
  pose proof Hinv1 as [Hwf1 _ _ Hc1 _].
  destruct (insert_from_shape now r (Some i) g1 Hwf1) as (Hwf2 & Hl2 & Hm2 & _).
  split; [done|by apply get_insert_from_self|].
  rewrite length_app in Hroom. simpl in Hroom. lia.
Qed.

(** A stored record with a source is found from the other interfaces. *)
Lemma holds_lookup now k e n g r i name rtype arrival :
  holds k e n g → key_of (record e) = key_of r → source_ifindex e = Some i → i ≠ arrival →
  rec_name r ≡ name → rtype = RT_ANY ∨ record_type r = rtype → now < deadline e →
  ∃ r', In r' (lookup_from_other_ifaces now name rtype arrival g) ∧ same_key r' r.
Proof.
  intros [_ Hg _] Hkey Hsrc Hi Hn Ht Hlt. apply HashMap.get_in in Hg as (k' & Hin & _).
  assert (Hrec : rec_name (record e) = rec_name r ∧ record_type (record e) = record_type r)
    by (injection Hkey; done).
  eexists. split.
  - apply in_map. apply in_lookup_inner. exists k', e. split_and!; try done.
    + unfold record_matches. destruct Hrec as [-> ->].
      rewrite bool_decide_eq_true_2 by done. simpl.
      apply orb_true_iff. rewrite !bool_decide_eq_true. naive_solver.
    + unfold from_other_iface. rewrite Hsrc. by apply negb_true_iff, Z.eqb_neq.
  - unfold same_key. by rewrite key_of_set_flush, key_of_set_ttl, Hkey.
Qed.
End staying.

(** ** Learning *)

Section learning.
Context `{Hickory} {HI : HashIter}.

Lemma forward_sends st pkt tr :
  traces (forward st pkt (identify_recv_iface pkt (ifaces st))) tr Completed →
  Forall (λ e, is_send e = true) tr.
Proof.
  intros (_ & trs & -> & Hf)%traces_forward; [|apply identify_recv_iface_lt].
  induction Hf as [|j t js trs (f & _ & Ht) _ IH]; simpl; [done|]. apply Forall_app. split; [|done].
  destruct (egress f (family pkt)) as [[s dst]|]; [destruct Ht as [r ->]|subst]; by repeat constructor.
Qed.

Lemma run_forward_cache env st pkt w :
  env_ok env →
  w_cache (run env (forward st pkt (identify_recv_iface pkt (ifaces st))) w).2 = w_cache w.
Proof.
  intros He. apply run_cache.
  pose proof (run_traces env (forward st pkt (identify_recv_iface pkt (ifaces st))) w He) as Ht.
  pose proof Ht as Ht2.
  apply traces_forward in Ht2 as [Hc _]; [|apply identify_recv_iface_lt]. rewrite Hc in Ht.
  eapply Forall_impl; [by eapply forward_sends|]. by intros [].
Qed.

Lemma run_insert_records env src rs c w :
  w_cache (run env (insert_records src rs c) w).2 = insert_all (w_clock w) src rs (w_cache w).
Proof.
  revert c w; induction rs as [|r rs IH]; intros c w; simpl; [done|].
  destruct (Cache.insert_from (w_clock w) r src (w_cache w)) as [o g] eqn:Hi. simpl.
  by rewrite IH.
Qed.

(** An accepted response from the interface [i] has its records inserted. *)
Lemma run_response_cache env st p pkt msg i w :
  env_ok env → accepted st pkt → from_vec (data pkt) = Ok msg →
  md_message_type (metadata msg) = MT_Response → ingress st pkt = Some i →
  w_cache (run env (handle_datagram st p pkt) w).2 =
    insert_all (w_clock w) (Some (ifindex i)) (all_sections msg) (w_cache w).
Proof.
  intros He Hacc Hm Hty Hi.
  destruct (handle_datagram_cases st p pkt) as [[Hn _]|[_ ->]]; [done|].
  pose proof (ingress_cases st pkt) as Hc.
  assert (Hdisp : run env (dispatch st p pkt (identify_recv_iface pkt (ifaces st))) w =
    (Completed, (run env (insert_records (Some (ifindex i)) (all_sections msg)
       (mkCounters 0 0 0 0)) w).2)).
  { unfold dispatch. rewrite Hm, Hty, bool_decide_eq_false_2 by done.
    unfold log_response. rewrite iface_label_ingress. cbn [mbind option_bind].
    unfold handle_response_msg. destruct (identify_recv_iface pkt (ifaces st)) as [idx|]; [|congruence].
    destruct Hc as (i' & Hl & Hi'). rewrite Hi in Hi'. simplify_eq. rewrite Hl.
    by rewrite !run_bind. }
  unfold and_then. rewrite run_bind, Hdisp. cbn [fst snd].
  rewrite <- run_insert_records with (env := env) (c := mkCounters 0 0 0 0).
  destruct (cfg_repeat (config st)); [|done]. by rewrite run_forward_cache.
Qed.
End learning.

(** ** Answering *)

Section answering.
Context `{Hickory} {HI : HashIter}.

(** Every question is looked up in the cache as it is. *)
Lemma run_candidate_lookups env st arrival p qs acc w q :
  env_ok env → cfg_answer_from_cache (config st) = true → In q qs →
  In (EvLookup (w_clock w) (q_name q) (q_type q) (ifindex arrival)
        (Cache.lookup_from_other_ifaces (w_clock w) (q_name q) (q_type q) (ifindex arrival)
           (w_cache w)))
     (run_trace env (candidate_loop st arrival p qs acc) w).
Proof.
  intros He Hcfg. revert acc w; induction qs as [|q0 qs IH]; intros acc w; [done|].
  cbn [candidate_loop In]. rewrite run_trace_bind, in_app_iff.
  unfold candidate_round at 1. rewrite Hcfg. intros [->|Hq].
  - left. rewrite run_trace_bind, in_app_iff. left. simpl. auto.
  - right.
    assert (Hg : Forall gathering (run_trace env (candidate_round st arrival p acc q0) w)).
    { unfold candidate_round. rewrite Hcfg, run_trace_bind. simpl. by repeat constructor. }
    destruct (run_gathering env _ w Hg) as [<- <-]. by apply IH.
Qed.
End answering.

(** ** Properties *)

Section properties.
Context `{Hickory} {HI : HashIter}.

(** C8. The promise of cross-interface answering, when answering from the cache is
    on: after the daemon has handled an accepted response on one interface, each
    live record [r] of that response stays available to the others.  Whatever the
    cache is used for in between, a query for the record's name and type on any
    other interface, made before the (capped) TTL has run out, has it among its
    candidate answers, provided that no record after it in the response or inserted
    later has its key (a refresh or a goodbye) or supersedes it with the cache-flush
    bit, that the cache has room for all of these records, and that sweeps do not use
    a clock reading past the query. *)
Theorem learn_then_answer env st pub pkt msg before r after i w ops w' arrival msg' q :
  env_ok env → Cache.inv (w_clock w) (w_cache w) →
  cfg_answer_from_cache (config st) = true → published_ok pub →
  accepted st pkt → ingress st pkt = Some i → from_vec (data pkt) = Ok msg →
  md_message_type (metadata msg) = MT_Response →
  all_sections msg = before ++ r :: after → rec_ttl r ≠ 0 →
  (∀ r2, In r2 (after ++ inserted_by ops) →
     ¬ key_of r2 ≡ key_of r ∧ ¬ superseded r2 (key_of r)) →
  Z.of_nat (Cache.len (w_cache w) + length (all_sections msg) + length (inserted_by ops))
    ≤ Cache.max_entries (w_cache w) →
  (∀ t, In (t, OpEvict) ops → t ≤ w_clock w') →
  w_cache w' = (cache_ops ops (w_cache (run env (handle_datagram st pub pkt) w).2)).2 →
  w_clock w' < w_clock w +
    Duration.from_secs (rec_ttl (Cache.cap_record (Cache.max_ttl (w_cache w)) r)) →
  ifindex i ≠ ifindex arrival → In q (queries msg') → asks q r →
  ∃ r', In r' (run env (candidate_answers st msg' arrival pub) w').1 ∧ same_key r' r.
Proof.
  intros He Hinv Hcfg Hpub Hacc Hin Hm Hty Hsec Hne Hsp Hroom Hev Hw' Hlt Hother Hq [Hn Ht].
  pose proof (from_vec_ok _ _ Hm) as Hok. rewrite Hsec in Hok, Hroom.
  erewrite run_response_cache in Hw' by done. rewrite Hsec in Hw'.
  destruct (insert_all_holds (w_clock w) (ifindex i) before r after
    (length (inserted_by ops)) (w_cache w)) as (e & Hh & Hkey & Hsrc & Hdl); try done.
  { apply Forall_forall. intros r2 Hr2%list_elem_of_In. apply Hsp, in_app_iff. by left. }
  apply (holds_ops ops) in Hh; [|intros r2 Hr2; apply Hsp, in_app_iff; by right|].
  2: { intros t Ht'. specialize (Hev t Ht'). lia. }
  rewrite <- Hw' in Hh.
  destruct (holds_lookup (w_clock w') _ e 0 _ r (ifindex i) (q_name q) (q_type q)
    (ifindex arrival) Hh) as (r1 & Hr1 & Hk1); try done; [lia|].
  pose proof (run_traces env (candidate_answers st msg' arrival pub) w' He) as Htr.
  apply traces_candidate_answers in Htr as (seen & [_ _ _ Hrel _]); [|done].
  destruct (Hrel (w_clock w') (q_name q) (q_type q)
    (Cache.lookup_from_other_ifaces (w_clock w') (q_name q) (q_type q) (ifindex arrival)
       (w_cache w')) r1) as (r2 & Hr2 & Hk2); [|done|].
  - unfold candidate_answers. rewrite run_trace_bind, in_app_iff. left.
    by apply run_candidate_lookups.
  - exists r2. split; [done|]. by etrans.
Qed.
End properties.

Module RelaySample.
Import Sample IfaceSample ServicesSample.
Definition eth1 : Iface := RepeaterSample.eth1.
Definition st : State := RepeaterSample.st.
Definition env : Env := ResponderSample.env.
(** A response with two records, of which the second is asked for. *)
Definition pkt : Datagram := mkDatagram [Byte.x03] EngineSample.neighbour FamV4 (Some 2).
Definition learned : DnsRecord := sample_record 120.
Definition question : Query := mkQuery (name "Printer.local.") RT_A DNSClass_IN false.
Definition query : Message :=
  mkMessage (mkMetadata 9 MT_Query Op_Query false false) [question] [] [] [].
Definition before : World :=
  mkWorld 0 0 (Cache.with_capacity_and_max_ttl 4 None) MulticastTracker.new [].
Definition handled : World := (run env (handle_datagram st pub pkt) before).2.
(** Another record is learned and the cache is swept. *)
Definition meanwhile : list (Instant * CacheOp) :=
  [(Duration.from_secs 20, OpInsert (A_record "camera.local." 30 9) (Some 3));
   (Duration.from_secs 55, OpEvict)].
(** One minute later. *)
Definition later : World :=
  mkWorld 9 (Duration.from_secs 60) (cache_ops meanwhile (w_cache handled)).2
    MulticastTracker.new [].

Lemma pkt_accepted : accepted st pkt.
Proof.
  split; [reflexivity|]. split; [by intros i [<-|[<-|[]]]|]. split; [reflexivity|].
  by right.
Qed.

Definition reply : list DnsRecord := (run env (candidate_answers st query eth1 pub) later).1.

Lemma learn_then_answer_witness :
  length reply = 1%nat ∧ ∃ r', In r' reply ∧ same_key r' learned.
Proof.
  split; [vm_compute; reflexivity|].
  apply (learn_then_answer env st pub pkt
    (mkMessage (mkMetadata 0 MT_Response Op_Query true false) [] [other_record; learned] [] [])
    [other_record] learned [] eth0 before meanwhile later eth1 query question);
    try reflexivity; try done.
  - exact (proj1 (proj2 (build_ok _ _ _ _ build_eq))).
  - apply pkt_accepted.
  - intros r2 [<-|[]]. split; [|by intros [? _]].
    assert (Hf : bool_decide (key_of (A_record "camera.local." 30 9) ≡ key_of learned) = false)
      by (vm_compute; reflexivity).
    exact (bool_decide_eq_false_1 _ Hf).
  - intros t [?|[Hin|[]]]; [done|]. injection Hin as <-. by vm_compute.
  - by left.
  - split; [reflexivity|by right].
Defined.
End RelaySample.
