(* ===== verification/Main.v ===== *)
(** * Main: the command line ([src/main.rs])

    The argument parser, the TOML reader, the file system, the host name, the
    log filter and the construction of the async runtime are parameters.  The
    outcome of [main] is an exit code, or the daemon running with the state
    [startup] built (then [System] takes over). *)

From S2P Require Import Prelude RustStd StdNet Hickory RecordKey Cache Timing Os.
From S2P Require Import Effects Iface Config Services State Browser Engine.
From stdpp Require Import strings.
Open Scope Z_scope.
Open Scope list_scope.

Record Cli := mkCli {
  cli_config : string;
  cli_check : bool;
}.

Section main.
Context `{Hickory} {HI : HashIter} {O : Os} {TomlError FilterError EnvFilter : Type}.
(** [Cli::parse]: the arguments, or the code the parser ends the process with. *)
Variable parse_args : list string → result Z Cli.
Variable toml_from_str : string → result TomlError TomlDoc.
Variable read_to_string : string → result IoError string.
Variable gethostname : option string.
(** The filter of the environment variable, and a filter from its text. *)
Variable try_from_default_env : result FilterError EnvFilter.
Variable EnvFilter_new : string → EnvFilter.
Variable runtime : result IoError unit.

Inductive Outcome :=
| ExitWith (code : Z)
| Daemon (log : EnvFilter) (recv : RecvSocket) (st : State) (pub : Published) (g : Cache.Inner).

(** The filter that is installed. *)
Definition install_logging : EnvFilter :=
  match try_from_default_env with Ok f => f | Err _ => EnvFilter_new "info" end.

(** The loop over the browse targets. *)
Fixpoint check_browse (browse : list string) : Z :=
  match browse with
  | [] => exit_code.OK
  | b :: browse =>
      match Name_from_str b with
      | Err _ => exit_code.CONFIG_VALIDATION
      | Ok _ => check_browse browse
      end
  end.

(** The branch of [--check]. *)
Definition check_config (cfg : Resolved) : Z :=
  match validate (resolve_hostname gethostname (cfg_hostname cfg)) (cfg_services cfg) with
  | Err _ => exit_code.CONFIG_VALIDATION
  | Ok _ => check_browse (cfg_browse cfg)
  end.

Definition main (args : list string) : Outcome :=
  match parse_args args with
  | Err code => ExitWith code
  | Ok cli =>
  match resolved_load toml_from_str read_to_string (cli_config cli) with
  | Err _ => ExitWith exit_code.CONFIG
  | Ok cfg =>
      if cli_check cli then ExitWith (check_config cfg)
      else
        let log := install_logging in
        match runtime with
        | Err _ => ExitWith exit_code.RUNTIME
        | Ok _ =>
            match startup gethostname cfg with
            | Err code => ExitWith code
            | Ok (recv, st, pub, g) => Daemon log recv st pub g
            end
        end
  end end.

(** ** Lemmas *)

Lemma check_browse_ok browse :
  check_browse browse = exit_code.OK ↔ length (browse_names browse) = length browse.
Proof.
  unfold browse_names. induction browse as [|b browse IH]; simpl; [done|].
  pose proof (browse_names_le browse) as Hle. unfold browse_names in Hle.
  destruct (Name_from_str b); simpl; [rewrite IH; lia|]. split; [done|]. lia.
Qed.

Lemma check_browse_codes browse :
  check_browse browse = exit_code.OK ∨ check_browse browse = exit_code.CONFIG_VALIDATION.
Proof. induction browse as [|b browse IH]; simpl; [by left|]. case_match; auto. Qed.

Lemma startup_err cfg code :
  startup gethostname cfg = Err code →
  code = exit_code.INTERFACE_SETUP ∨
  code = exit_code.SERVICE_RECORDS ∧
  ∃ recv ifs e, setup (cfg_interfaces cfg) = Ok (recv, ifs) ∧
    build (resolve_hostname gethostname (cfg_hostname cfg)) (cfg_services cfg) ifs = Err e.
Proof.
  unfold startup. destruct (setup (cfg_interfaces cfg)) as [[recv ifs]|];
    [|intros [= <-]; by left].
  destruct (build _ _ ifs) eqn:Hb; [done|]. intros [= <-]. right. eauto 10.
Qed.
End main.

(** ** Properties *)

Section properties.
Context `{Hickory} {HI : HashIter} {O : Os} {TomlError FilterError EnvFilter : Type}.

(** C36. What [--check] guarantees: it exits 0 or 11 on a configuration that
    loads; when it exits 0, starting the daemon with that configuration does
    not fail on the service records (only the interfaces can fail), and no
    browse target is skipped; when it exits 11 one of these would. *)
Theorem check_guarantees gethostname cfg :
  let code := check_config gethostname cfg in
  (code = 0 ∨ code = 11) ∧
  (code = 0 →
     (∀ c, startup gethostname cfg = Err c → c = 20) ∧
     length (browse_names (cfg_browse cfg)) = length (cfg_browse cfg)) ∧
  (code = 11 →
     (∀ recv ifs, setup (cfg_interfaces cfg) = Ok (recv, ifs) →
        startup gethostname cfg = Err 22) ∨
     (length (browse_names (cfg_browse cfg)) < length (cfg_browse cfg))%nat).
Proof.
  cbv zeta. unfold check_config.
  set (host := resolve_hostname gethostname (cfg_hostname cfg)).
  pose proof (check_browse_ok (cfg_browse cfg)) as Hb.
  pose proof (check_browse_codes (cfg_browse cfg)) as Hcodes.
  destruct (validate host (cfg_services cfg)) as [[]|e] eqn:Hv; split_and!; try done; auto.
  - intros Hc. split; [|by apply Hb]. intros c [->|(-> & recv & ifs & e & _ & He)]%startup_err;
      [done|]. rewrite (validate_build _ _ ifs) in Hv. unfold host in Hv. by rewrite He in Hv.
  - intros Hc. right. pose proof (browse_names_le (cfg_browse cfg)). rewrite Hc in Hb.
    assert (length (browse_names (cfg_browse cfg)) ≠ length (cfg_browse cfg))
      by (intros Heq; by apply Hb in Heq). lia.
  - intros _. left. intros recv ifs Hs. unfold startup. rewrite Hs. fold host.
    rewrite (validate_build host _ ifs) in Hv. destruct (build host _ ifs); [done|]. done.
Qed.

(** The exit code of the process tells which phase ended it, and each code
    means one thing: what the argument parser chose (2 for a usage error, 0 after
    printing help) exactly when it refuses the arguments, 10 exactly when the
    configuration does not load, the code of [--check] when that was asked for,
    otherwise 14, 20 or 22 for the runtime, the interfaces and the service
    records; the daemon runs in all other cases. *)
Theorem main_exit_codes parse_args (toml_from_str : string → result TomlError TomlDoc)
    read_to_string gethostname (try_from_default_env : result FilterError EnvFilter)
    EnvFilter_new runtime args :
  (∀ args code, parse_args args = Err code → code = 0 ∨ code = 2) →
  let outcome := main parse_args toml_from_str read_to_string gethostname
                   try_from_default_env EnvFilter_new runtime args in
  match parse_args args with
  | Err code => outcome = ExitWith code ∧ (code = 0 ∨ code = 2)
  | Ok cli =>
      match resolved_load toml_from_str read_to_string (cli_config cli) with
      | Err _ => outcome = ExitWith 10
      | Ok cfg =>
          if cli_check cli then outcome = ExitWith 0 ∨ outcome = ExitWith 11
          else if negb (is_ok runtime) then outcome = ExitWith 14
          else match startup gethostname cfg with
               | Err code => outcome = ExitWith code ∧ (code = 20 ∨ code = 22)
               | Ok (recv, st, pub, g) =>
                   ∃ log, outcome = Daemon log recv st pub g ∧
                     (log = EnvFilter_new "info" ∨ try_from_default_env = Ok log)
               end
      end
  end.
Proof.
  intros Hparse. cbv zeta. unfold main. destruct (parse_args args) as [cli|code] eqn:Ha; [|eauto].
  destruct (resolved_load _ _ _) as [cfg|]; [|done]. destruct (cli_check cli).
  { unfold check_config. case_match; [|by right].
    destruct (check_browse_codes (cfg_browse cfg)) as [-> | ->]; auto. }
  destruct runtime; [|done]. simpl.
  destruct (startup gethostname cfg) as [[[[recv st] pub] g]|c] eqn:Hs.
  - eexists. split; [done|]. unfold install_logging. destruct try_from_default_env; auto.
  - split; [done|]. apply startup_err in Hs as [->|[-> _]]; auto.
Qed.
End properties.

Module MainSample.
Import Sample IfaceSample.
Definition no_args (args : list string) : result Z Cli :=
  match args with [] => Ok (mkCli "/etc/nmdns.toml" false) | _ => Err 2 end.
Definition no_toml (body : string) : result unit TomlDoc := Err tt.
Definition no_files (path : string) : result IoError string := Err (Io_Os 2).

Lemma main_exit_codes_witness :
  main no_args no_toml no_files None (Err tt) (λ s, s) (Ok tt) [] = ExitWith 10 ∧
  main no_args no_toml no_files None (Err tt) (λ s, s) (Ok tt) ["--bad"%string] = ExitWith 2.
Proof.
  assert (Hp : ∀ args code, no_args args = Err code → code = 0 ∨ code = 2).
  { intros [|a l] code; [done|]. intros [= <-]. by right. }
  split.
  - exact (main_exit_codes no_args no_toml no_files None (Err tt) (λ s, s) (Ok tt) [] Hp).
  - exact (proj1 (main_exit_codes no_args no_toml no_files None (Err tt) (λ s, s) (Ok tt)
      ["--bad"%string] Hp)).
Defined.
End MainSample.
