(* ===== verification/UnitTests.v ===== *)
(** * UnitTests: the unit tests of the repository, run on the model

    Each [#[test]] of the sources is a boolean definition of the same name that
    makes the same calls on the definitions of this library and conjoins the
    assertions; [unit_tests_hold] evaluates them all.  The names, records and
    messages are those of the instance [Sample]; successive readings of the clock
    are successive nanoseconds; where a test parses a TOML text, the document the
    text denotes is given; a socket of a test is the list of the calls that make
    it.  (The ignored test of the sources needs a real interface and is left
    out.) *)

From S2P Require Import Prelude RustStd StdNet Hickory RecordKey Cache Timing Os.
From S2P Require Import Effects Iface Config Services State Repeater Responder Browser.
From S2P Require Import Engine.
From stdpp Require Import strings.
Open Scope Z_scope.
Open Scope list_scope.
Import Sample.

Definition is_nil {A} (l : list A) : bool := match l with [] => true | _ => false end.

Definition has_len {A} (n : nat) (l : list A) : bool := Nat.eqb (length l) n.

(** ** [cache.rs] *)

Module CacheTests.
Definition rec (n : string) (ttl : Z) (ip : Ipv4Addr) : DnsRecord :=
  Record_from_rdata (name n) ttl (RD_A ip).
Definition rec_aaaa (n : string) (ttl : Z) (ip : Ipv6Addr) : DnsRecord :=
  Record_from_rdata (name n) ttl (RD_AAAA ip).

Definition v4_1234 : Ipv4Addr := Ipv4Addr_new 1 2 3 4.
Definition v4_5678 : Ipv4Addr := Ipv4Addr_new 5 6 7 8.
Definition localhost6 : Ipv6Addr := 1.

Definition insert_and_lookup : bool :=
  let c := Cache.new in
  let '(o, c) := Cache.insert 1 (rec "foo.local." 120 v4_1234) c in
  let hits := Cache.lookup 2 (name "foo.local.") RT_A c in
  (o ==? Inserted) && (length hits =? 1)%nat.

Definition insert_and_lookup_aaaa : bool :=
  let c := Cache.new in
  let '(o, c) := Cache.insert 1 (rec_aaaa "foo.local." 120 localhost6) c in
  let hits := Cache.lookup 2 (name "foo.local.") RT_AAAA c in
  (o ==? Inserted) && (length hits =? 1)%nat.

Definition a_and_aaaa_are_distinct_records : bool :=
  let c := Cache.new in
  let c := (Cache.insert 1 (rec "foo.local." 120 v4_1234) c).2 in
  let c := (Cache.insert 2 (rec_aaaa "foo.local." 120 localhost6) c).2 in
  has_len 1 (Cache.lookup 3 (name "foo.local.") RT_A c) &&
  has_len 1 (Cache.lookup 4 (name "foo.local.") RT_AAAA c) &&
  has_len 2 (Cache.lookup 5 (name "foo.local.") RT_ANY c).

Definition ttl_zero_deletes : bool :=
  let c := Cache.new in
  let c := (Cache.insert 1 (rec "foo.local." 120 v4_1234) c).2 in
  let '(o1, c) := Cache.insert 2 (rec "foo.local." 0 v4_1234) c in
  let len1 := Cache.len c in
  let '(o2, c) := Cache.insert 3 (rec "foo.local." 0 (Ipv4Addr_new 9 9 9 9)) c in
  (o1 ==? GoodbyeRemoved) && (len1 =? 0)%nat && (o2 ==? GoodbyeNoOp).

(** [DNSClass::ANY] is 255 in [Sample]. *)
Definition dns_class_is_part_of_key : bool :=
  let c := Cache.new in
  let c := (Cache.insert 1 (rec "foo.local." 120 v4_1234) c).2 in
  let other := rec "foo.local." 120 v4_1234 in
  let other := mkRecord (rec_name other) (255 : DNSClass) (rec_ttl other) (rec_data other)
                 (rec_cache_flush other) in
  let c := (Cache.insert 2 other c).2 in
  let hits := Cache.lookup 3 (name "foo.local.") RT_A c in
  (Cache.len c =? 2)%nat && existsb (λ r, rec_class r ==? DNSClass_IN) hits.

Definition distinct_rdata_kept_separately : bool :=
  let c := Cache.new in
  let c := (Cache.insert 1 (rec "foo.local." 120 v4_1234) c).2 in
  let c := (Cache.insert 2 (rec "foo.local." 120 v4_5678) c).2 in
  (Cache.len c =? 2)%nat.

Definition cache_flush_replaces_stale_rdata : bool :=
  let c := Cache.new in
  let old := set_cache_flush true (rec "printer.local." 120 (Ipv4Addr_new 192 168 20 50)) in
  let c := (Cache.insert 1 old c).2 in
  let new := set_cache_flush true (rec "printer.local." 120 (Ipv4Addr_new 192 168 20 60)) in
  let c := (Cache.insert 2 new c).2 in
  let hits := Cache.lookup 3 (name "printer.local.") RT_A c in
  (length hits =? 1)%nat &&
  match hits with
  | r :: _ => match rec_data r with
              | RD_A a => a =? Ipv4Addr_new 192 168 20 60
              | _ => false
              end
  | [] => false
  end.

Definition cache_flush_does_not_purge_shared_records : bool :=
  let c := Cache.new in
  let c := (Cache.insert 1 (rec "foo.local." 120 v4_1234) c).2 in
  let c := (Cache.insert 2 (rec "foo.local." 120 v4_5678) c).2 in
  (Cache.len c =? 2)%nat.

Definition refresh_replaces : bool :=
  let c := Cache.new in
  let '(o1, c) := Cache.insert 1 (rec "foo.local." 60 v4_1234) c in
  let '(o2, c) := Cache.insert 2 (rec "foo.local." 120 v4_1234) c in
  (o1 ==? Inserted) && (o2 ==? Refreshed) && (Cache.len c =? 1)%nat.

Definition capacity_bounds_growth : bool :=
  let c := Cache.with_capacity 2 in
  let c := (Cache.insert 1 (rec "a.local." 600 (Ipv4Addr_new 1 0 0 1)) c).2 in
  let c := (Cache.insert 2 (rec "b.local." 600 (Ipv4Addr_new 1 0 0 2)) c).2 in
  let '(o, c) := Cache.insert 3 (rec "c.local." 600 (Ipv4Addr_new 1 0 0 3)) c in
  (o ==? Inserted) && (Cache.len c =? 2)%nat.

Definition full_cache_evicts_soonest_to_expire_not_wedge : bool :=
  let c := Cache.with_capacity 2 in
  let c := (Cache.insert 1 (rec "soon.local." 30 (Ipv4Addr_new 1 0 0 1)) c).2 in
  let c := (Cache.insert 2 (rec "later.local." 600 (Ipv4Addr_new 1 0 0 2)) c).2 in
  let '(o, c) := Cache.insert 3 (rec "new.local." 600 (Ipv4Addr_new 1 0 0 3)) c in
  (o ==? Inserted) && (Cache.len c =? 2)%nat &&
  is_nil (Cache.lookup 4 (name "soon.local.") RT_A c) &&
  negb (is_nil (Cache.lookup 5 (name "new.local.") RT_A c)).

(** One hit whose TTL satisfies [p]. *)
Definition one_hit (p : Z → bool) (hits : list DnsRecord) : bool :=
  match hits with [r] => p (rec_ttl r) | _ => false end.

Definition max_ttl_caps_stored_ttl : bool :=
  let c := Cache.with_capacity_and_max_ttl 100 (Some 60) in
  let '(o, c) := Cache.insert 1 (rec "foo.local." 4500 v4_1234) c in
  let hits := Cache.lookup 2 (name "foo.local.") RT_A c in
  (o ==? Inserted) && one_hit (λ ttl, ttl <=? 60) hits.

Definition max_ttl_does_not_cap_below_actual : bool :=
  let c := Cache.with_capacity_and_max_ttl 100 (Some 300) in
  let '(o, c) := Cache.insert 1 (rec "foo.local." 120 v4_1234) c in
  let hits := Cache.lookup 2 (name "foo.local.") RT_A c in
  (o ==? Inserted) && one_hit (λ ttl, ttl <=? 120) hits.

Definition max_ttl_does_not_cap_goodbye : bool :=
  let c := Cache.with_capacity_and_max_ttl 100 (Some 60) in
  let c := (Cache.insert 1 (rec "foo.local." 120 v4_1234) c).2 in
  let '(o, c) := Cache.insert 2 (rec "foo.local." 0 v4_1234) c in
  (o ==? GoodbyeRemoved) && (Cache.len c =? 0)%nat.

Definition no_max_ttl_preserves_original : bool :=
  let c := Cache.with_capacity_and_max_ttl 100 None in
  let '(o, c) := Cache.insert 1 (rec "foo.local." 4500 v4_1234) c in
  let hits := Cache.lookup 2 (name "foo.local.") RT_A c in
  (o ==? Inserted) && one_hit (λ ttl, (ttl <=? 4500) && (4490 <? ttl)) hits.

Definition all : list bool :=
  [insert_and_lookup; insert_and_lookup_aaaa; a_and_aaaa_are_distinct_records; ttl_zero_deletes;
   dns_class_is_part_of_key; distinct_rdata_kept_separately; cache_flush_replaces_stale_rdata;
   cache_flush_does_not_purge_shared_records; refresh_replaces; capacity_bounds_growth;
   full_cache_evicts_soonest_to_expire_not_wedge; max_ttl_caps_stored_ttl;
   max_ttl_does_not_cap_below_actual; max_ttl_does_not_cap_goodbye;
   no_max_ttl_preserves_original].
End CacheTests.

(** ** [timing.rs] *)

Module TimingTests.
Definition foo_rec (ip : Ipv4Addr) : DnsRecord := Record_from_rdata (name "foo.local.") 120 (RD_A ip).
Definition r : DnsRecord := foo_rec (Ipv4Addr_new 1 2 3 4).

Definition allows_first_send : bool :=
  let t := MulticastTracker.new in
  MulticastTracker.allows 1 1 r MIN_MULTICAST_INTERVAL t.

Definition blocks_within_interval : bool :=
  let t := MulticastTracker.new in
  let t := MulticastTracker.mark 1 1 r t in
  negb (MulticastTracker.allows 2 1 r MIN_MULTICAST_INTERVAL t) &&
  MulticastTracker.allows 3 2 r MIN_MULTICAST_INTERVAL t.

Definition allows_after_interval_zero : bool :=
  let t := MulticastTracker.new in
  let t := MulticastTracker.mark 1 1 r t in
  MulticastTracker.allows 2 1 r (Duration.from_millis 0) t.

Definition prune_drops_stale_entries : bool :=
  let t := MulticastTracker.new in
  let t := MulticastTracker.mark 1 1 r t in
  let before := MulticastTracker.len t in
  let t := MulticastTracker.prune_older_than 2 (Duration.from_millis 0) t in
  (before =? 1)%nat && (MulticastTracker.len t =? 0)%nat.

Definition prune_keeps_recent_entries : bool :=
  let t := MulticastTracker.new in
  let t := MulticastTracker.mark 1 1 r t in
  let t := MulticastTracker.prune_older_than 2 (Duration.from_secs 3600) t in
  (MulticastTracker.len t =? 1)%nat.

(** The random number of the round [i] is any value of the range. *)
Definition delay_ranges_match_rfc : bool :=
  forallb (λ i,
    let draw lo hi := lo + Z.of_nat i mod (hi - lo + 1) in
    let d := response_delay draw Shared in
    let d' := response_delay draw Truncated in
    (Duration.from_millis 20 <=? d) && (d <=? Duration.from_millis 120) &&
    (Duration.from_millis 400 <=? d') && (d' <=? Duration.from_millis 500) &&
    (response_delay draw ProbeDefense =? 0) && (response_delay draw UniqueAnswer =? 0))
    (seq 0 100).

Definition all : list bool :=
  [allows_first_send; blocks_within_interval; allows_after_interval_zero;
   prune_drops_stale_entries; prune_keeps_recent_entries; delay_ranges_match_rfc].
End TimingTests.

(** ** [browser.rs], [iface.rs], [engine.rs] *)

Module SmallTests.
Definition backoff_doubles_until_capped : bool :=
  let cap := Duration.from_secs 60 in
  (next_backoff (Duration.from_secs 1) cap =? Duration.from_secs 2) &&
  (next_backoff (Duration.from_secs 40) cap =? cap) && (next_backoff cap cap =? cap).

Definition backoff_saturates_without_panic : bool :=
  let huge := Duration.from_secs (u64_MAX / 2 + 1) in
  next_backoff huge Duration_MAX =? Duration_MAX.

Definition ipv6_net_applies_prefix : bool :=
  let addr := 0xfe80000000000001123456789abcdef0 in
  (ipv6_net addr 64 =? 0xfe800000000000010000000000000000) &&
  (ipv6_net addr 0 =? 0) && (ipv6_net addr 128 =? addr).

Definition ipv6_mdns_multicast_constant_is_ff02_fb : bool :=
  (MDNS_ADDR_V6 =? Ipv6Addr_of_groups [0xff02; 0; 0; 0; 0; 0; 0; 0xfb]) &&
  (SocketAddr.port MDNS_SOCKADDR_V6 =? MDNS_PORT).

Definition source_at (port : Z) : SocketAddr := SockV4 (Ipv4Addr_new 10 0 0 5) port.

Definition only_port_5353_is_accepted_as_mdns : bool :=
  is_mdns_source (source_at 5353) && negb (is_mdns_source (source_at 40000)).

Definition all : list bool :=
  [backoff_doubles_until_capped; backoff_saturates_without_panic; ipv6_net_applies_prefix;
   ipv6_mdns_multicast_constant_is_ff02_fb; only_port_5353_is_accepted_as_mdns].
End SmallTests.

(** ** [config.rs] *)

Module ConfigTests.
Definition subnet (s : string) : result (ConfigError unit) Subnet := parse_subnet (chars_of s).

Definition parse_subnet_ok : bool :=
  match subnet "10.0.0.5/8" with
  | Ok s =>
      match s with SubV4 _ _ _ net => net =? Ipv4Addr_new 10 0 0 0 | _ => false end &&
      subnet_matches s (IpV4 (Ipv4Addr_new 10 1 2 3)) &&
      negb (subnet_matches s (IpV4 (Ipv4Addr_new 11 0 0 1)))
  | Err _ => false
  end.

Definition parse_subnet_zero_means_any : bool :=
  match subnet "0.0.0.0/0" with
  | Ok s => subnet_matches s (IpV4 (Ipv4Addr_new 8 8 8 8))
  | Err _ => false
  end.

Definition parse_subnet_rejects_bad : bool :=
  negb (is_ok (subnet "10.0.0.0")) && negb (is_ok (subnet "999.0.0.0/24")) &&
  negb (is_ok (subnet "10.0.0.0/33")).

(** [interfaces = [...]] with the other keys absent. *)
Definition only_interfaces (ifs : list string) : TomlDoc :=
  mkTomlDoc ifs None None None None None None None None None None None.

(** [Resolved::parse] of a text that denotes the document [d]. *)
Definition parse (d : TomlDoc) : result (ConfigError unit) Resolved :=
  resolved_parse (λ _, Ok d) "".

Definition minimal : TomlDoc := only_interfaces ["eth0"%string].

Definition config_minimal : bool :=
  match parse minimal with
  | Ok r =>
      (cfg_interfaces r ==? ["eth0"%string]) && cfg_repeat r && cfg_answer_from_cache r &&
      (cfg_browse r ==? ["_services._dns-sd._udp.local."%string]) && is_nil (cfg_services r)
  | Err _ => false
  end.

Definition config_full : bool :=
  let body := mkTomlDoc ["br-lan"%string; "br-iot"%string] None None
                (Some [chars_of "192.168.5.0/24"]) None (Some "router"%string)
                (Some ["_http._tcp.local."%string]) None None None None
                (Some [mkServiceConfig "Admin" "_http._tcp.local." 80 ["path=/"%string] None]) in
  match parse body with
  | Ok r =>
      has_len 1 (cfg_blacklist r) && has_len 1 (cfg_services r) &&
      match cfg_services r with sc :: _ => sc_port sc =? 80 | [] => false end
  | Err _ => false
  end.

Definition config_rejects_no_interfaces : bool :=
  match parse (only_interfaces []) with Err CE_NoInterfaces => true | _ => false end.

Definition config_rejects_black_and_white : bool :=
  let body := mkTomlDoc ["eth0"%string] None None (Some [chars_of "10.0.0.0/8"])
                (Some [chars_of "192.168.0.0/16"]) None None None None None None None in
  match parse body with Err CE_BlackAndWhite => true | _ => false end.

Definition parse_subnet_ipv6_ok : bool :=
  match subnet "fe80::/10" with
  | Ok s =>
      subnet_matches s (IpV6 0xfe800000000000000000000000000001) &&
      negb (subnet_matches s (IpV6 1)) && negb (subnet_matches s (IpV4 (Ipv4Addr_new 10 0 0 1)))
  | Err _ => false
  end.

Definition parse_subnet_rejects_bad_ipv6 : bool :=
  negb (is_ok (subnet "::1/129")) && negb (is_ok (subnet "::ffff/abc")).

(** [interfaces = ["eth0"]] with [cache_max_ttl_secs]. *)
Definition with_max_ttl (n : Z) : TomlDoc :=
  mkTomlDoc ["eth0"%string] None None None None None None None None None (Some n) None.

Definition max_ttl_is (d : TomlDoc) (o : option Z) : bool :=
  match parse d with Ok r => cfg_cache_max_ttl_secs r ==? o | Err _ => false end.

Definition config_cache_max_ttl_secs_defaults_to_none : bool := max_ttl_is minimal None.

Definition config_cache_max_ttl_secs_set : bool := max_ttl_is (with_max_ttl 300) (Some 300).

Definition config_cache_max_ttl_secs_zero_means_no_cap : bool := max_ttl_is (with_max_ttl 0) None.

Definition config_cache_max_ttl_secs_rejects_overflow : bool :=
  match parse (with_max_ttl (u32_MAX + 1)) with Err (CE_BadCacheMaxTtl _ _) => true | _ => false end.

Definition config_cache_max_ttl_secs_accepts_u32_max : bool :=
  max_ttl_is (with_max_ttl u32_MAX) (Some u32_MAX).

Definition all : list bool :=
  [parse_subnet_ok; parse_subnet_zero_means_any; parse_subnet_rejects_bad; config_minimal;
   config_full; config_rejects_no_interfaces; config_rejects_black_and_white;
   parse_subnet_ipv6_ok; parse_subnet_rejects_bad_ipv6;
   config_cache_max_ttl_secs_defaults_to_none; config_cache_max_ttl_secs_set;
   config_cache_max_ttl_secs_zero_means_no_cap; config_cache_max_ttl_secs_rejects_overflow;
   config_cache_max_ttl_secs_accepts_u32_max].
End ConfigTests.

(** ** [services.rs] *)

Module ServicesTests.
Definition test_socket (c : SockCall) (addr : SocketAddr) : Socket :=
  [c; bind addr; set_nonblocking true; UdpSocket_from_std].

Definition socket_v4 : Socket := test_socket Socket_new_v4 (SockV4 (Ipv4Addr_new 127 0 0 1) 0).
Definition socket_v6 : Socket := test_socket Socket_new_v6 (SockV6 1 0 0 0).

Definition fake_v4 (a b c d : Z) : IfaceV4 :=
  mkIfaceV4 (Ipv4Addr_new a b c d) (Ipv4Addr_new 255 255 255 0) (Ipv4Addr_new a b c 0) socket_v4.

Definition fake_iface (n : string) (a b c d : Z) : Iface :=
  mkIface n 0 (Some (fake_v4 a b c d)) None.

Definition fake_dual_iface (n : string) (a b c d : Z) (ip6 : Ipv6Addr) : Iface :=
  mkIface n 0 (Some (fake_v4 a b c d)) (Some (mkIfaceV6 ip6 64 (ipv6_net ip6 64) 1 socket_v6)).

Definition of_type (t : RecordType) (l : list DnsRecord) : bool :=
  existsb (λ r, record_type r ==? t) l.

Definition build_publishes_host_a_and_services : bool :=
  let host := name "router.local." in
  let svcs := [mkServiceConfig "Admin" "_http._tcp.local." 80 ["path=/"%string] None] in
  let ifs := [fake_iface "eth0" 10 0 0 1] in
  match build host svcs ifs with
  | Ok p =>
      has_len 1 (host_a p) && is_nil (host_aaaa p) && has_len 1 (services p) &&
      of_type RT_A (answer p host RT_ANY) &&
      has_len 1 (answer p (name "_http._tcp.local.") RT_PTR)
  | Err _ => false
  end.

Definition build_publishes_host_aaaa : bool :=
  let host := name "router.local." in
  let ip6 := 0xfe800000000000000000000000000001 in
  let ifs := [fake_dual_iface "eth0" 10 0 0 1 ip6] in
  match build host [] ifs with
  | Ok p =>
      let aaaa := answer p host RT_AAAA in
      let any := answer p host RT_ANY in
      has_len 1 (host_a p) && has_len 1 (host_aaaa p) && forallb rec_cache_flush (host_aaaa p) &&
      has_len 1 aaaa && of_type RT_AAAA aaaa && of_type RT_A any && of_type RT_AAAA any
  | Err _ => false
  end.

Definition goodbye_zeroes_ttl : bool :=
  let host := name "r.local." in
  let ifs := [fake_iface "eth0" 10 0 0 1] in
  match build host [] ifs with
  | Ok p => forallb (λ r, rec_ttl r =? 0) (goodbye p)
  | Err _ => false
  end.

Definition all : list bool :=
  [build_publishes_host_a_and_services; build_publishes_host_aaaa; goodbye_zeroes_ttl].
End ServicesTests.

(** ** [responder.rs] *)

Module ResponderTests.
Definition fake_iface_at (n : string) (a b c d : Z) (ifindex : Z) : Iface :=
  mkIface n ifindex (Some (ServicesTests.fake_v4 a b c d)) None.

(** The configuration part of the state; the cache and the tracker are those of
    a [World]. *)
Definition test_state (ifs : list Iface) (answer_from_cache : bool) : State :=
  let d := mkTomlDoc ["test0"%string] None (Some answer_from_cache) None None None None None None
             None None None in
  match ConfigTests.parse d with
  | Ok cfg => mkState cfg ifs
  | Err _ => mkState (mkResolved [] false false None [] 0 0 0 None [] [] []) ifs
  end.

Definition test_world (g : Cache.Inner) (t : MulticastTracker) : World := mkWorld 0 10 g t [].
Definition test_env : Env := mkEnv (λ _ lo _, lo) (λ _, 0) (λ _ _, Ok 1) (λ _, false).

Definition new_query : Message := Message_new 0 MT_Query Op_Query.

Definition query (n : string) (rtype : RecordType) : Message :=
  add_query (mkQuery (name n) rtype DNSClass_IN false) new_query.

Definition a_rec (n : string) (ttl : Z) (ip : Ipv4Addr) : DnsRecord :=
  Record_from_rdata (name n) ttl (RD_A ip).
Definition v4_1234 : Ipv4Addr := Ipv4Addr_new 1 2 3 4.
Definition printer_ip : Ipv4Addr := Ipv4Addr_new 192 168 20 50.

Definition known_answer_suppresses_fresh_match : bool :=
  let ans := [a_rec "foo.local." 120 v4_1234] in
  let q := add_answer (a_rec "foo.local." 120 v4_1234) new_query in
  is_nil (apply_known_answers ans q).

Definition known_answer_keeps_stale_match : bool :=
  let ans := [a_rec "foo.local." 120 v4_1234] in
  let q := add_answer (a_rec "foo.local." 30 v4_1234) new_query in
  has_len 1 (apply_known_answers ans q).

(** [Query::new] has class IN. *)
Definition probe_detection : bool :=
  let unique := set_cache_flush true (a_rec "foo.local." 120 v4_1234) in
  let probe := add_authority unique
    (add_query (mkQuery (name "foo.local.") RT_ANY DNSClass_IN false) new_query) in
  let plain := add_query (mkQuery (name "foo.local.") RT_A DNSClass_IN false) new_query in
  is_probe_for_us probe [unique] && negb (is_probe_for_us plain [unique]).

Definition trusted : Iface := fake_iface_at "trusted" 192 168 10 1 10.
Definition iot : Iface := fake_iface_at "iot" 192 168 20 1 20.
Definition nothing_published : Published := mkPublished (name "router.local.") [] [] [].
Definition learn (rs : list DnsRecord) : Cache.Inner :=
  fold_left (λ g r, (Cache.insert_from 1 r (Some (ifindex iot)) g).2) rs Cache.new.

Definition instance : Name := name "Office-Printer._ipp._tcp.local.".
Definition ptr : DnsRecord := Record_from_rdata (name "_ipp._tcp.local.") 4500 (RD_PTR instance).
Definition srv_rec : DnsRecord :=
  Record_from_rdata instance 120 (RD_SRV (mkSRV 0 0 631 (name "printer.local."))).
Definition txt_rec : DnsRecord := Record_from_rdata instance 4500 (RD_TXT ["rp=ipp/print"%string]).

Definition suppressed_response_does_not_mark_additionals_as_sent : bool :=
  let state := test_state [trusted; iot] true in
  let g := learn [ptr; srv_rec; txt_rec; a_rec "printer.local." 120 printer_ip] in
  let t := MulticastTracker.mark 2 (ifindex trusted) ptr MulticastTracker.new in
  let msg := query "_ipp._tcp.local." RT_PTR in
  let w := (run test_env (handle_query state msg trusted FamV4 nothing_published)
              (test_world g t)).2 in
  (MulticastTracker.check_and_mark (w_clock w) (ifindex trusted) srv_rec MIN_MULTICAST_INTERVAL
     (w_tracker w)).1.

(** [candidate_answers] alone, with the records [rs] learned on [iot]. *)
Definition candidates (rs : list DnsRecord) (arrival : Iface) (msg : Message)
    : list DnsRecord :=
  (run test_env (candidate_answers (test_state [trusted; iot] true) msg arrival nothing_published)
     (test_world (learn rs) MulticastTracker.new)).1.

Definition cache_relayed_answers_clear_cache_flush_bit : bool :=
  let owned_by_peer := set_cache_flush true (a_rec "printer.local." 120 printer_ip) in
  let ans := candidates [owned_by_peer] trusted (query "printer.local." RT_A) in
  match ans with [r] => negb (rec_cache_flush r) | _ => false end.

Definition cache_relayed_single_answer_is_jittered_not_zero_delay : bool :=
  let msg := query "printer.local." RT_A in
  let relayed := [a_rec "printer.local." 120 v4_1234] in
  let owned := map (set_cache_flush true) relayed in
  (classify_delay msg relayed false ==? Shared) &&
  (classify_delay msg owned false ==? UniqueAnswer).

Definition cached_answers_only_use_records_from_other_ifaces : bool :=
  let rs := [a_rec "printer.local." 120 printer_ip] in
  let msg := query "printer.local." RT_A in
  has_len 1 (candidates rs trusted msg) && is_nil (candidates rs iot msg).

Definition cached_ptr_answers_include_srv_txt_and_address_additionals : bool :=
  let rs := [ptr; srv_rec; txt_rec; a_rec "printer.local." 120 printer_ip;
             Record_from_rdata (name "printer.local.") 120
               (RD_AAAA 0xfe800000000000000000000000000050)] in
  let ans := candidates rs trusted (query "_ipp._tcp.local." RT_PTR) in
  let adds := (run test_env (cached_additionals (test_state [trusted; iot] true) ans trusted)
                 (test_world (learn rs) MulticastTracker.new)).1 in
  has_len 1 ans && ServicesTests.of_type RT_SRV adds && ServicesTests.of_type RT_TXT adds &&
  ServicesTests.of_type RT_A adds && ServicesTests.of_type RT_AAAA adds.

Definition all : list bool :=
  [known_answer_suppresses_fresh_match; known_answer_keeps_stale_match; probe_detection;
   suppressed_response_does_not_mark_additionals_as_sent;
   cache_relayed_answers_clear_cache_flush_bit;
   cache_relayed_single_answer_is_jittered_not_zero_delay;
   cached_answers_only_use_records_from_other_ifaces;
   cached_ptr_answers_include_srv_txt_and_address_additionals].
End ResponderTests.

Definition unit_tests : list bool :=
  CacheTests.all ++ TimingTests.all ++ SmallTests.all ++ ConfigTests.all ++ ServicesTests.all ++
  ResponderTests.all.

(** The model passes the unit tests of the repository: all 51 of them, on
    the instance [Sample] of the DNS library. *)
Theorem unit_tests_hold : length unit_tests = 51%nat ∧ forallb id unit_tests = true.
Proof. split; vm_compute; reflexivity. Qed.
